(** * TinyLLVM: the event-chain runtime and the CoreTiny compiler phases

    A shallow embedding of [src/eventchains.c], [src/tinyllvm_lexer.c],
    [src/tinyllvm_ast.c], [src/tinyllvm_parser.c],
    [src/tinyllvm_typechecker.c], [src/tinyllvm_codegen_c.c] and
    [src/tinyllvm_codegen_ir.c], followed by the properties of the
    specification that were checked against it.

    Conventions of the embedding.
    - A [const char *] argument is a Rocq [string] holding the bytes of the
      buffer in front of its terminating NUL.  The libc functions
      [strlen], [strcmp] and [strdup] stop at the first NUL byte, as in C.
    - [size_t] values are [Z] in the range [0, 2^64); sums and products
      that the C code computes on [size_t] are wrapped with [size_t_wrap].
      Sizes of structures are those of the x86-64 System V ABI, the
      architecture [event_chain_build_info] reports.
    - An array together with its element count (entries of a context,
      events of a chain, tokens of a token list, statements of a block) is
      a list of the live elements; the count is the length of the list.
    - In the event-chain runtime the outcome of every allocation is an
      explicit input ([Allocator], [realloc_ok]).  In the compiler phases
      allocation is taken to succeed.
    - Mutexes are not modelled: every operation runs alone. *)

From Stdlib Require Import ZArith List String Ascii Bool Lia Arith.
From Stdlib Require Import DecimalString.
Import ListNotations.

Local Open Scope string_scope.
Local Open Scope list_scope.
Local Open Scope Z_scope.

(* ------------------------------------------------------------------ *)
(** ** C strings and libc *)

Module CStr.

Definition NUL : ascii := Ascii.zero.

Definition is_nul (c : ascii) : bool := Ascii.eqb c NUL.

(** [strlen]: number of bytes in front of the first NUL. *)
Fixpoint strlen (s : string) : nat :=
  match s with
  | EmptyString => 0%nat
  | String c r => if is_nul c then 0%nat else S (strlen r)
  end.

(** [strcmp a b == 0]. *)
Fixpoint strcmp_eq (a b : string) : bool :=
  match a, b with
  | EmptyString, EmptyString => true
  | EmptyString, String y _ => is_nul y
  | String x _, EmptyString => is_nul x
  | String x a', String y b' =>
      if is_nul x then is_nul y
      else if Ascii.eqb x y then strcmp_eq a' b' else false
  end.

(** [strdup]: a fresh buffer with the bytes in front of the first NUL. *)
Fixpoint strdup (s : string) : string :=
  match s with
  | EmptyString => EmptyString
  | String c r => if is_nul c then EmptyString else String c (strdup r)
  end.

(** Reading [s[i]]: inside the buffer, its terminating NUL, or (None)
    a read past the end of the buffer. *)
Fixpoint read_char (s : string) (i : nat) : option ascii :=
  match s, i with
  | EmptyString, O => Some NUL
  | EmptyString, S _ => None
  | String c _, O => Some c
  | String _ r, S j => read_char r j
  end.

End CStr.

(* ------------------------------------------------------------------ *)
(** ** eventchains.c *)

Module EC.
Import CStr.

Definition ptr := Z.
Definition NULL : ptr := 0.

Definition SIZE_MAX : Z := 2 ^ 64 - 1.
Definition size_t_wrap (z : Z) : Z := z mod 2 ^ 64.

(** [(int)i] for a [size_t] i. *)
Definition int_of_size_t (i : Z) : Z := (i + 2 ^ 31) mod 2 ^ 32 - 2 ^ 31.

Definition INITIAL_CAPACITY : Z := 8.
Definition GROWTH_FACTOR : Z := 2.
Definition MIN_FUNCTION_POINTER : Z := 4096.

Definition EVENTCHAINS_MAX_EVENTS : Z := 1024.
Definition EVENTCHAINS_MAX_MIDDLEWARE : Z := 16.
Definition EVENTCHAINS_MAX_CONTEXT_ENTRIES : Z := 512.
Definition EVENTCHAINS_MAX_CONTEXT_MEMORY : Z := 10485760.
Definition EVENTCHAINS_MAX_NAME_LENGTH : nat := 256.
Definition EVENTCHAINS_MAX_KEY_LENGTH : nat := 256.
Definition EVENTCHAINS_MAX_ERROR_LENGTH : nat := 1024.

(** [sizeof] on x86-64: two pointers and an atomic [size_t]; two
    pointers; a pointer, three [size_t] and a [pthread_mutex_t]. *)
Definition sizeof_RefCountedValue : Z := 24.
Definition sizeof_ContextEntry : Z := 16.
Definition sizeof_EventContext : Z := 72.
Definition sizeof_pointer : Z := 8.

Inductive EventChainErrorCode : Set :=
| EC_SUCCESS
| EC_ERROR_NULL_POINTER
| EC_ERROR_INVALID_PARAMETER
| EC_ERROR_OUT_OF_MEMORY
| EC_ERROR_CAPACITY_EXCEEDED
| EC_ERROR_KEY_TOO_LONG
| EC_ERROR_NAME_TOO_LONG
| EC_ERROR_NOT_FOUND
| EC_ERROR_OVERFLOW
| EC_ERROR_EVENT_EXECUTION_FAILED
| EC_ERROR_MIDDLEWARE_FAILED
| EC_ERROR_REENTRANCY
| EC_ERROR_MEMORY_LIMIT_EXCEEDED
| EC_ERROR_INVALID_FUNCTION_POINTER
| EC_ERROR_TIME_CONVERSION
| EC_ERROR_SIGNAL_INTERRUPTED.

Definition error_code_value (c : EventChainErrorCode) : Z :=
  match c with
  | EC_SUCCESS => 0 | EC_ERROR_NULL_POINTER => 1
  | EC_ERROR_INVALID_PARAMETER => 2 | EC_ERROR_OUT_OF_MEMORY => 3
  | EC_ERROR_CAPACITY_EXCEEDED => 4 | EC_ERROR_KEY_TOO_LONG => 5
  | EC_ERROR_NAME_TOO_LONG => 6 | EC_ERROR_NOT_FOUND => 7
  | EC_ERROR_OVERFLOW => 8 | EC_ERROR_EVENT_EXECUTION_FAILED => 9
  | EC_ERROR_MIDDLEWARE_FAILED => 10 | EC_ERROR_REENTRANCY => 11
  | EC_ERROR_MEMORY_LIMIT_EXCEEDED => 12
  | EC_ERROR_INVALID_FUNCTION_POINTER => 13
  | EC_ERROR_TIME_CONVERSION => 14 | EC_ERROR_SIGNAL_INTERRUPTED => 15
  end.

Definition error_code_eqb (a b : EventChainErrorCode) : bool :=
  error_code_value a =? error_code_value b.

Inductive FaultToleranceMode : Set :=
| FAULT_TOLERANCE_STRICT
| FAULT_TOLERANCE_LENIENT
| FAULT_TOLERANCE_BEST_EFFORT
| FAULT_TOLERANCE_CUSTOM.

Inductive ErrorDetailLevel : Set :=
| ERROR_DETAIL_FULL
| ERROR_DETAIL_MINIMAL.

Definition error_strings (c : EventChainErrorCode) : string :=
  match c with
  | EC_SUCCESS => "Success"
  | EC_ERROR_NULL_POINTER => "NULL pointer"
  | EC_ERROR_INVALID_PARAMETER => "Invalid parameter"
  | EC_ERROR_OUT_OF_MEMORY => "Out of memory"
  | EC_ERROR_CAPACITY_EXCEEDED => "Capacity exceeded"
  | EC_ERROR_KEY_TOO_LONG => "Key too long"
  | EC_ERROR_NAME_TOO_LONG => "Name too long"
  | EC_ERROR_NOT_FOUND => "Not found"
  | EC_ERROR_OVERFLOW => "Arithmetic overflow"
  | EC_ERROR_EVENT_EXECUTION_FAILED => "Event execution failed"
  | EC_ERROR_MIDDLEWARE_FAILED => "Middleware failed"
  | EC_ERROR_REENTRANCY => "Reentrancy detected"
  | EC_ERROR_MEMORY_LIMIT_EXCEEDED => "Memory limit exceeded"
  | EC_ERROR_INVALID_FUNCTION_POINTER => "Invalid function pointer"
  | EC_ERROR_TIME_CONVERSION => "Time conversion error"
  | EC_ERROR_SIGNAL_INTERRUPTED => "Signal interrupted"
  end.

Definition event_chain_error_string (c : EventChainErrorCode) : string :=
  error_strings c.

(** *** Utility functions *)

(** [safe_strnlen]: the loop [while (len < maxlen && str[len]) len++]. *)
Fixpoint safe_strnlen (str : string) (maxlen : nat) : nat :=
  match maxlen, str with
  | S m, String c r => if is_nul c then 0%nat else S (safe_strnlen r m)
  | _, _ => 0%nat
  end.

(** [safe_strncpy]: at most [dest_size - 1] bytes, stopping at NUL.  The
    result is the content of [dest]; with [dest_size = 0] nothing is
    written and [dest] keeps [old]. *)
Fixpoint copy_bytes (src : string) (n : nat) : string :=
  match n, src with
  | S m, String c r => if is_nul c then EmptyString else String c (copy_bytes r m)
  | _, _ => EmptyString
  end.

Definition safe_strncpy (old src : string) (dest_size : nat) : string :=
  match dest_size with
  | O => old
  | S n => copy_bytes src n
  end.

Definition safe_multiply (a b : Z) : option Z :=
  if (a =? 0) || (b =? 0) then Some 0
  else if a >? SIZE_MAX / b then None
  else Some (a * b).

Definition safe_add (a b : Z) : option Z :=
  if a >? SIZE_MAX - b then None else Some (a + b).

Definition safe_subtract (a b : Z) : option Z :=
  if b >? a then None else Some (a - b).

Definition is_valid_function_pointer (p : ptr) : bool :=
  negb (p =? NULL) && (p >=? MIN_FUNCTION_POINTER).

Definition byte_of (c : ascii) : N := N_of_ascii c.

(** The loop of [constant_time_strcmp], [n] iterations left, at index
    [i] with accumulator [result] (an [unsigned char]).  Returns the index
    at which the loop stopped and the accumulator; [None] is a read
    outside one of the buffers. *)
Fixpoint constant_time_loop (a b : string) (n i : nat) (result : N)
  : option (nat * N) :=
  match n with
  | O => Some (i, result)
  | S n' =>
      match read_char a i, read_char b i with
      | Some x, Some y =>
          let result' := N.lor result (N.lxor (byte_of x) (byte_of y)) in
          if is_nul x || is_nul y then Some (i, result')
          else constant_time_loop a b n' (S i) result'
      | _, _ => None
      end
  end.

Definition constant_time_strcmp (a b : string) (max_len : nat) : option bool :=
  match constant_time_loop a b max_len 0 0%N with
  | Some (i, result) =>
      match read_char a i, read_char b i with
      | Some x, Some y => Some ((result =? 0)%N && Ascii.eqb x y)
      | _, _ => None
      end
  | None => None
  end.

(** *** Reference counting *)

Record RefCountedValue : Set := mkRefCountedValue {
  data : ptr;
  cleanup : ptr;
  ref_count : Z
}.

(** [malloc_ok] is the outcome of the [malloc] of the wrapper. *)
Definition ref_counted_value_create (malloc_ok : bool) (d : ptr) (cl : ptr)
  : option RefCountedValue :=
  if negb (cl =? NULL) && negb (is_valid_function_pointer cl) then None
  else if negb malloc_ok then None
  else Some (mkRefCountedValue d cl 1).

Definition ref_counted_value_retain (v : RefCountedValue)
  : EventChainErrorCode * RefCountedValue :=
  let old_count := ref_count v in
  if old_count =? SIZE_MAX then (EC_ERROR_OVERFLOW, v)
  else (EC_SUCCESS, mkRefCountedValue (data v) (cleanup v) (old_count + 1)).

(** A call [cleanup(data)] of a value's cleanup callback. *)
Definition CleanupCall : Set := (ptr * ptr)%type.

(** [ref_counted_value_release]: the wrapper if it is still referenced
    (None once it is freed) and the cleanup call made, if any. *)
Definition ref_counted_value_release (v : RefCountedValue)
  : option RefCountedValue * list CleanupCall :=
  let old_count := ref_count v in
  if old_count =? 1 then
    (None,
     if negb (cleanup v =? NULL) && negb (data v =? NULL)
     then [(cleanup v, data v)] else [])
  else
    (Some (mkRefCountedValue (data v) (cleanup v) (size_t_wrap (old_count - 1))),
     []).

Definition ref_counted_value_get_data (v : option RefCountedValue) : ptr :=
  match v with Some r => data r | None => NULL end.

Definition ref_counted_value_get_count (v : option RefCountedValue) : Z :=
  match v with Some r => ref_count r | None => 0 end.

(** *** Context *)

Record ContextEntry : Set := mkContextEntry {
  key : string;
  value : RefCountedValue
}.

Record EventContext : Set := mkEventContext {
  entries : list ContextEntry;
  capacity : Z;
  total_memory_bytes : Z
}.

Definition count (context : EventContext) : Z :=
  Z.of_nat (List.length (entries context)).

(** Outcomes of the three allocations of [event_context_set_with_cleanup]. *)
Record Allocator : Set := mkAllocator {
  value_malloc_ok : bool;
  entries_realloc_ok : bool;
  key_strdup_ok : bool
}.

Definition all_ok : Allocator := mkAllocator true true true.

Definition event_context_create : EventContext :=
  mkEventContext [] INITIAL_CAPACITY
    (sizeof_EventContext + INITIAL_CAPACITY * sizeof_ContextEntry).

Fixpoint find_entry_from (es : list ContextEntry) (k : string) (i : Z) : Z :=
  match es with
  | [] => -1
  | e :: r =>
      if strcmp_eq (key e) k then int_of_size_t i
      else find_entry_from r k (i + 1)
  end.

Definition find_entry (context : EventContext) (k : string) : Z :=
  find_entry_from (entries context) k 0.

Definition ensure_capacity (realloc_ok : bool) (context : EventContext)
  : EventChainErrorCode * EventContext :=
  if count context <? capacity context then (EC_SUCCESS, context)
  else if count context >=? EVENTCHAINS_MAX_CONTEXT_ENTRIES
  then (EC_ERROR_CAPACITY_EXCEEDED, context)
  else
    let new_capacity := size_t_wrap (capacity context * GROWTH_FACTOR) in
    let new_capacity :=
      if new_capacity >? EVENTCHAINS_MAX_CONTEXT_ENTRIES
      then EVENTCHAINS_MAX_CONTEXT_ENTRIES else new_capacity in
    match safe_multiply new_capacity sizeof_ContextEntry with
    | None => (EC_ERROR_OVERFLOW, context)
    | Some _ =>
        if negb realloc_ok then (EC_ERROR_OUT_OF_MEMORY, context)
        else (EC_SUCCESS,
              mkEventContext (entries context) new_capacity
                             (total_memory_bytes context))
    end.

(** [entries[idx].value = v]. *)
Fixpoint set_entry_value (es : list ContextEntry) (idx : nat)
  (v : RefCountedValue) : list ContextEntry :=
  match es, idx with
  | [], _ => []
  | e :: r, O => mkContextEntry (key e) v :: r
  | e :: r, S j => e :: set_entry_value r j v
  end.

(** The calls of cleanup callbacks made when the values of [es] are
    released. *)
Definition release_all (es : list ContextEntry) : list CleanupCall :=
  List.concat (List.map (fun e => snd (ref_counted_value_release (value e))) es).

(** An operation on a context returns its error code, the context as it
    leaves it and the cleanup calls it made. *)
Definition event_context_set_with_cleanup (al : Allocator)
  (context : EventContext) (k : string) (v : ptr) (cl : ptr)
  : EventChainErrorCode * EventContext * list CleanupCall :=
  let key_len := safe_strnlen k (EVENTCHAINS_MAX_KEY_LENGTH + 1) in
  if (key_len =? 0)%nat || (EVENTCHAINS_MAX_KEY_LENGTH <? key_len)%nat
  then (EC_ERROR_KEY_TOO_LONG, context, [])
  else
    let additional_memory :=
      size_t_wrap (Z.of_nat key_len + 1 + sizeof_RefCountedValue) in
    if size_t_wrap (total_memory_bytes context + additional_memory)
       >? EVENTCHAINS_MAX_CONTEXT_MEMORY
    then (EC_ERROR_MEMORY_LIMIT_EXCEEDED, context, [])
    else
      let idx := find_entry context k in
      match ref_counted_value_create (value_malloc_ok al) v cl with
      | None => (EC_ERROR_OUT_OF_MEMORY, context, [])
      | Some ref_value =>
          if idx >=? 0 then
            (EC_SUCCESS,
             mkEventContext
               (set_entry_value (entries context) (Z.to_nat idx) ref_value)
               (capacity context) (total_memory_bytes context),
             match nth_error (entries context) (Z.to_nat idx) with
             | Some e => snd (ref_counted_value_release (value e))
             | None => []
             end)
          else
            match ensure_capacity (entries_realloc_ok al) context with
            | (EC_SUCCESS, context') =>
                if negb (key_strdup_ok al)
                then (EC_ERROR_OUT_OF_MEMORY, context',
                      snd (ref_counted_value_release ref_value))
                else
                  (EC_SUCCESS,
                   mkEventContext
                     (entries context' ++ [mkContextEntry (strdup k) ref_value])
                     (capacity context')
                     (size_t_wrap (total_memory_bytes context'
                                   + additional_memory)),
                   [])
            | (err, context') =>
                (err, context', snd (ref_counted_value_release ref_value))
            end
      end.

Definition event_context_set (al : Allocator) (context : EventContext)
  (k : string) (v : ptr)
  : EventChainErrorCode * EventContext * list CleanupCall :=
  event_context_set_with_cleanup al context k v NULL.

(** The second component is what is stored through [value_out]; [None]
    when the function returns without writing it. *)
Definition event_context_get (context : EventContext) (k : string)
  : EventChainErrorCode * option ptr :=
  let idx := find_entry context k in
  if idx <? 0 then (EC_ERROR_NOT_FOUND, None)
  else
    (EC_SUCCESS,
     Some (ref_counted_value_get_data
             (option_map value (nth_error (entries context) (Z.to_nat idx))))).

(** The loop of the constant-time branch of [event_context_has]. *)
Fixpoint has_constant_time_loop (es : list ContextEntry) (k : string)
  (found : bool) : option bool :=
  match es with
  | [] => Some found
  | e :: r =>
      match constant_time_strcmp (key e) k EVENTCHAINS_MAX_KEY_LENGTH with
      | Some true => has_constant_time_loop r k true
      | Some false => has_constant_time_loop r k found
      | None => None
      end
  end.

(** [None]: one of the comparisons read outside a buffer. *)
Definition event_context_has (context : EventContext) (k : string)
  (constant_time : bool) : option bool :=
  if constant_time then has_constant_time_loop (entries context) k false
  else Some (find_entry context k >=? 0).

Fixpoint remove_at {A : Type} (l : list A) (idx : nat) : list A :=
  match l, idx with
  | [], _ => []
  | _ :: r, O => r
  | x :: r, S j => x :: remove_at r j
  end.

(** [event_context_get_ref]: the wrapper handed out holds one more
    reference, and so does the entry, since they are the same object. *)
Definition event_context_get_ref (context : EventContext) (k : string)
  : EventChainErrorCode * option RefCountedValue * EventContext :=
  let idx := find_entry context k in
  if idx <? 0 then (EC_ERROR_NOT_FOUND, None, context)
  else
    match nth_error (entries context) (Z.to_nat idx) with
    | Some e =>
        let v := snd (ref_counted_value_retain (value e)) in
        (EC_SUCCESS, Some v,
         mkEventContext (set_entry_value (entries context) (Z.to_nat idx) v)
                        (capacity context) (total_memory_bytes context))
    | None => (EC_SUCCESS, None, context)
    end.

Definition event_context_remove (context : EventContext) (k : string)
  : EventChainErrorCode * EventContext * list CleanupCall :=
  let idx := find_entry context k in
  if idx <? 0 then (EC_ERROR_NOT_FOUND, context, [])
  else
    (EC_SUCCESS,
     mkEventContext (remove_at (entries context) (Z.to_nat idx))
                    (capacity context) (total_memory_bytes context),
     match nth_error (entries context) (Z.to_nat idx) with
     | Some e => snd (ref_counted_value_release (value e))
     | None => []
     end).

Definition event_context_count (context : EventContext) : Z := count context.

Definition event_context_memory_usage (context : EventContext) : Z :=
  total_memory_bytes context.

Definition event_context_clear (context : EventContext)
  : EventContext * list CleanupCall :=
  (mkEventContext [] (capacity context)
     (size_t_wrap (sizeof_EventContext
                   + size_t_wrap (capacity context * sizeof_ContextEntry))),
   release_all (entries context)).

(** *** Well-formed contexts *)

(** The invariant of a context: the live entries fit the allocated
    array, which never grows past the cap, and the memory counter stays
    under its limit. *)
Definition ctx_wf (context : EventContext) : Prop :=
  count context <= capacity context
  /\ INITIAL_CAPACITY <= capacity context <= EVENTCHAINS_MAX_CONTEXT_ENTRIES
  /\ 0 <= total_memory_bytes context <= EVENTCHAINS_MAX_CONTEXT_MEMORY.

(** The contexts that the operations of the library build. *)
Inductive reachable : EventContext -> Prop :=
| reach_create : reachable event_context_create
| reach_set : forall al context k v cl,
    reachable context ->
    reachable (snd (fst (event_context_set_with_cleanup al context k v cl)))
| reach_get_ref : forall context k,
    reachable context ->
    reachable (snd (event_context_get_ref context k))
| reach_remove : forall context k,
    reachable context ->
    reachable (snd (fst (event_context_remove context k)))
| reach_clear : forall context,
    reachable context ->
    reachable (fst (event_context_clear context)).

(** The keys of a context, in the order of the entries. *)
Definition keys (context : EventContext) : list string :=
  List.map key (entries context).

(** The stored keys are copies made by [strdup] of keys that
    [event_context_set] accepts, and no key is stored twice. *)
Definition keys_wf (context : EventContext) : Prop :=
  Forall (fun k => strdup k = k /\ (1 <= strlen k <= EVENTCHAINS_MAX_KEY_LENGTH)%nat)
         (keys context)
  /\ NoDup (keys context).

(** The value of the first entry whose key compares equal to [k]. *)
Fixpoint lookup (es : list ContextEntry) (k : string) : option RefCountedValue :=
  match es with
  | [] => None
  | e :: r => if strcmp_eq (key e) k then Some (value e) else lookup r k
  end.

(** Position of the first entry whose key compares equal to [k]. *)
Fixpoint index_of (es : list ContextEntry) (k : string) : option nat :=
  match es with
  | [] => None
  | e :: r =>
      if strcmp_eq (key e) k then Some O
      else option_map S (index_of r k)
  end.

(** A key that [event_context_set] accepts. *)
Definition key_well_formed (k : string) : Prop :=
  (1 <= strlen k <= EVENTCHAINS_MAX_KEY_LENGTH)%nat.

(** The bytes [event_context_set] accounts for a new entry with key [k]. *)
Definition entry_overhead (k : string) : Z :=
  Z.of_nat (strlen k) + 1 + sizeof_RefCountedValue.

(** First byte and rest of a C string; the first byte of the empty
    string is its terminator. *)
Definition head (s : string) : ascii :=
  match s with String c _ => c | EmptyString => NUL end.

Definition tail (s : string) : string :=
  match s with String _ r => r | EmptyString => EmptyString end.

(** What [constant_time_strcmp] returns when its accumulator starts
    at [r]. *)
Definition constant_time_result (a b : string) (n : nat) (r : N) : option bool :=
  match constant_time_loop a b n 0 r with
  | Some (i, result) =>
      match read_char a i, read_char b i with
      | Some x, Some y => Some ((result =? 0)%N && Ascii.eqb x y)
      | _, _ => None
      end
  | None => None
  end.

(** A context that has seen many insertions and removals: one set and
    one remove of the key ["x"], [n] times over, on a new context, then
    [m] keys ["k0"], ["k1"], ... *)
Definition churn_step (context : EventContext) : EventContext :=
  snd (fst (event_context_remove
              (snd (fst (event_context_set all_ok context "x" 4096))) "x")).

Definition churn (n : N) (context : EventContext) : EventContext :=
  N.iter n churn_step context.

Definition numbered_key (i : nat) : string :=
  append "k" (NilZero.string_of_uint (Nat.to_uint i)).

Definition fill (context : EventContext) (m : nat) : EventContext :=
  List.fold_left
    (fun c i => snd (fst (event_context_set all_ok c (numbered_key i) 4096)))
    (List.seq 0 m) context.

Definition saturated_context : EventContext :=
  fill (churn 402723%N event_context_create) 512.

Fixpoint distinct (l : list string) : bool :=
  match l with
  | [] => true
  | s :: r => negb (List.existsb (String.eqb s) r) && distinct r
  end.

(** The contexts that the operations of the library build when
    [event_context_remove] is left out. *)
Inductive built_without_remove : EventContext -> Prop :=
| built_create : built_without_remove event_context_create
| built_set : forall al context k v cl,
    built_without_remove context ->
    built_without_remove
      (snd (fst (event_context_set_with_cleanup al context k v cl)))
| built_get_ref : forall context k,
    built_without_remove context ->
    built_without_remove (snd (event_context_get_ref context k))
| built_clear : forall context,
    built_without_remove context ->
    built_without_remove (fst (event_context_clear context)).

(** The bytes that [event_context_set] has accounted for the entries
    that a context holds. *)
Definition live_overhead (context : EventContext) : Z :=
  List.fold_right (fun e acc => entry_overhead (key e) + acc) 0
    (entries context).

(** The memory counter accounts for the live entries: it is the
    baseline of [event_context_create] or of [event_context_clear], for
    some capacity, and the overheads of the entries that the context
    holds; and the stored keys are keys that a set accepts. *)
Definition memory_accounted (context : EventContext) : Prop :=
  (exists cap,
     INITIAL_CAPACITY <= cap <= EVENTCHAINS_MAX_CONTEXT_ENTRIES
     /\ total_memory_bytes context
        = sizeof_EventContext + cap * sizeof_ContextEntry
          + live_overhead context)
  /\ Forall (fun e => key_well_formed (key e)) (entries context).

(** *** Results *)

(** [printf]'s [%d]. *)
Definition string_of_Z (z : Z) : string := NilZero.string_of_int (Z.to_int z).

Record EventResult : Set := mkEventResult {
  success : bool;
  error_message : string;
  error_code : EventChainErrorCode
}.

Definition event_result_success : EventResult :=
  mkEventResult true "" EC_SUCCESS.

(** [snprintf] into a buffer of [size] bytes keeps [size - 1] of them. *)
Definition snprintf_buf (size : nat) (s : string) : string :=
  copy_bytes s (size - 1).

Definition event_result_failure (msg : option string)
  (code : EventChainErrorCode) (detail_level : ErrorDetailLevel) : EventResult :=
  mkEventResult false
    (match detail_level, msg with
     | ERROR_DETAIL_MINIMAL, _ =>
         snprintf_buf EVENTCHAINS_MAX_ERROR_LENGTH
           (append "Error code: " (string_of_Z (error_code_value code)))
     | ERROR_DETAIL_FULL, Some m =>
         safe_strncpy "" m EVENTCHAINS_MAX_ERROR_LENGTH
     | ERROR_DETAIL_FULL, None =>
         safe_strncpy "" (event_chain_error_string code)
                      EVENTCHAINS_MAX_ERROR_LENGTH
     end)
    code.

(** [sanitize_error_message]: the bytes of [src] in front of its NUL, at
    most [dest_size - 1] of them, each one outside the range 32..126
    replaced by a question mark.  The comparison [src[i] >= 32] is one of
    [char] values: a byte above 127 is negative, or above 126, and is
    replaced either way. *)
Definition is_printable (c : ascii) : bool :=
  (32 <=? nat_of_ascii c)%nat && (nat_of_ascii c <=? 126)%nat.

Fixpoint sanitize_bytes (src : string) (n : nat) : string :=
  match n, src with
  | S m, String c r =>
      if is_nul c then EmptyString
      else String (if is_printable c then c else "?"%char) (sanitize_bytes r m)
  | _, _ => EmptyString
  end.

(** [old] is what [dest] holds before the call, and [src = None] a NULL
    pointer. *)
Definition sanitize_error_message (old : string) (src : option string)
  (dest_size : nat) (level : ErrorDetailLevel) : string :=
  match dest_size with
  | O => old
  | S n =>
      match src, level with
      | Some s, ERROR_DETAIL_FULL => sanitize_bytes s n
      | _, _ => EmptyString
      end
  end.

(** Every byte of a string passes a test. *)
Fixpoint all_bytes (p : ascii -> bool) (s : string) : bool :=
  match s with
  | EmptyString => true
  | String c r => p c && all_bytes p r
  end.

Record FailureInfo : Set := mkFailureInfo {
  fi_event_name : string;
  fi_error_message : string;
  fi_error_code : EventChainErrorCode
}.

(** [cr_failures] is [None] for the NULL pointer. *)
Record ChainResult : Set := mkChainResult {
  cr_success : bool;
  cr_failures : option (list FailureInfo);
  cr_failure_count : Z
}.

(** *** Events, middleware and the chain

    A callback is a function on the context the runtime hands to it and
    on [W], the rest of the program's memory: the objects behind the
    payload pointers and behind [user_data].  A result pointer is the
    result passed in and the result passed out. *)

Section Runtime.
Context {W : Type}.

Definition EventExecuteFunc : Type :=
  EventContext -> W -> ptr -> EventResult * EventContext * W.

Record ChainableEvent : Type := mkChainableEvent {
  execute : option EventExecuteFunc;
  user_data : ptr;
  name : string
}.

(** [exec_addr] is the address of [exec]. *)
Definition chainable_event_create (exec : EventExecuteFunc) (exec_addr : ptr)
  (malloc_ok : bool) (ud : ptr) (nm : option string) : option ChainableEvent :=
  if negb (is_valid_function_pointer exec_addr) then None
  else if negb malloc_ok then None
  else Some (mkChainableEvent (Some exec) ud
               (safe_strncpy ""
                  (match nm with Some n => n | None => "UnnamedEvent" end)
                  EVENTCHAINS_MAX_NAME_LENGTH)).

Definition NextFunc : Type :=
  EventResult -> ChainableEvent -> EventContext -> W ->
  EventResult * EventContext * W.

Definition MiddlewareExecuteFunc : Type :=
  EventResult -> ChainableEvent -> EventContext -> W -> NextFunc -> ptr ->
  EventResult * EventContext * W.

Record EventMiddleware : Type := mkEventMiddleware {
  mw_execute : MiddlewareExecuteFunc;
  mw_user_data : ptr;
  mw_name : string
}.

(** The fields of a chain that a failure handler can overwrite through
    its [chain] argument: the context, the mode, the detail level, the
    handler's user data and the two flags.  The handler itself is one
    more such field.  The arrays of events and middlewares, with their
    counts and capacities, stay as they are while the chain executes. *)
Record ChainSettings : Type := mkChainSettings {
  cs_context : EventContext;
  cs_fault_tolerance : FaultToleranceMode;
  cs_error_detail_level : ErrorDetailLevel;
  cs_failure_handler_data : ptr;
  cs_is_executing : Z;
  cs_signal_interrupted : Z
}.

(** What a failure handler reads through its [chain] argument. *)
Record ChainView : Type := mkChainView {
  cv_events : list ChainableEvent;
  cv_event_capacity : Z;
  cv_middlewares : list EventMiddleware;
  cv_middleware_capacity : Z;
  cv_settings : ChainSettings
}.

#[local] Unset Elimination Schemes.

(** The type of a failure handler, a function of [EventChain *chain],
    [ChainableEvent *event], [EventResult *result] and [void *user_data]
    that returns a [bool]: the handler receives the chain, the event, a
    pointer to the event's result and its user data.
    It answers with the value it returns, the result and the settings of
    the chain as it leaves them, and the handler it leaves in
    [chain->failure_handler]: [None] when it does not touch that field,
    [Some None] for NULL. *)
Inductive FailureHandlerFunc : Type :=
| mkFailureHandler
    (call : ChainView -> ChainableEvent -> EventResult -> W -> ptr ->
            bool * EventResult * ChainSettings
            * option (option FailureHandlerFunc) * W).

#[local] Set Elimination Schemes.

Definition call_handler (h : FailureHandlerFunc)
  : ChainView -> ChainableEvent -> EventResult -> W -> ptr ->
    bool * EventResult * ChainSettings * option (option FailureHandlerFunc) * W :=
  match h with mkFailureHandler call => call end.

Record EventChain : Type := mkEventChain {
  events : list ChainableEvent;
  event_capacity : Z;
  middlewares : list EventMiddleware;
  middleware_capacity : Z;
  context : EventContext;
  fault_tolerance : FaultToleranceMode;
  error_detail_level : ErrorDetailLevel;
  failure_handler : option FailureHandlerFunc;
  failure_handler_data : ptr;
  is_executing : Z;
  signal_interrupted : Z
}.

Definition event_count (chain : EventChain) : Z :=
  Z.of_nat (List.length (events chain)).

Definition middleware_count (chain : EventChain) : Z :=
  Z.of_nat (List.length (middlewares chain)).

Definition execute_event_direct (result : EventResult) (event : ChainableEvent)
  (ctx : EventContext) (w : W) : EventResult * EventContext * W :=
  match execute event with
  | None =>
      (event_result_failure (Some "Invalid event")
         EC_ERROR_INVALID_FUNCTION_POINTER ERROR_DETAIL_FULL, ctx, w)
  | Some f => f ctx w (user_data event)
  end.

(** [mws] are the middlewares from [current_index] on. *)
Fixpoint execute_next_middleware (mws : list EventMiddleware)
  (result : EventResult) (event : ChainableEvent) (ctx : EventContext) (w : W)
  : EventResult * EventContext * W :=
  match mws with
  | [] => execute_event_direct result event ctx w
  | m :: rest =>
      mw_execute m result event ctx w (execute_next_middleware rest)
                 (mw_user_data m)
  end.

Definition execute_event_with_middleware (chain : EventChain)
  (event : ChainableEvent) (result : EventResult) (w : W)
  : EventResult * EventContext * W :=
  if middleware_count chain =? 0
  then execute_event_direct result event (context chain) w
  else execute_next_middleware (middlewares chain) result event (context chain) w.

Definition event_chain_create_with_detail (mode : FaultToleranceMode)
  (detail_level : ErrorDetailLevel) : EventChain :=
  mkEventChain [] 0 [] 0 event_context_create mode detail_level None NULL 0 0.

Definition event_chain_create (mode : FaultToleranceMode) : EventChain :=
  event_chain_create_with_detail mode ERROR_DETAIL_FULL.

Definition with_events (chain : EventChain) (evs : list ChainableEvent)
  (cap : Z) : EventChain :=
  mkEventChain evs cap (middlewares chain) (middleware_capacity chain)
    (context chain) (fault_tolerance chain) (error_detail_level chain)
    (failure_handler chain) (failure_handler_data chain)
    (is_executing chain) (signal_interrupted chain).

Definition with_middlewares (chain : EventChain) (mws : list EventMiddleware)
  (cap : Z) : EventChain :=
  mkEventChain (events chain) (event_capacity chain) mws cap
    (context chain) (fault_tolerance chain) (error_detail_level chain)
    (failure_handler chain) (failure_handler_data chain)
    (is_executing chain) (signal_interrupted chain).

Definition with_context (chain : EventChain) (ctx : EventContext) : EventChain :=
  mkEventChain (events chain) (event_capacity chain) (middlewares chain)
    (middleware_capacity chain) ctx (fault_tolerance chain)
    (error_detail_level chain) (failure_handler chain)
    (failure_handler_data chain) (is_executing chain) (signal_interrupted chain).

Definition chain_settings (chain : EventChain) : ChainSettings :=
  mkChainSettings (context chain) (fault_tolerance chain)
    (error_detail_level chain) (failure_handler_data chain)
    (is_executing chain) (signal_interrupted chain).

Definition chain_view (chain : EventChain) : ChainView :=
  mkChainView (events chain) (event_capacity chain) (middlewares chain)
    (middleware_capacity chain) (chain_settings chain).

(** The chain after a failure handler has written [settings] and
    [handler] into it. *)
Definition with_settings (chain : EventChain) (settings : ChainSettings)
  (handler : option FailureHandlerFunc) : EventChain :=
  mkEventChain (events chain) (event_capacity chain) (middlewares chain)
    (middleware_capacity chain) (cs_context settings)
    (cs_fault_tolerance settings) (cs_error_detail_level settings)
    handler (cs_failure_handler_data settings)
    (cs_is_executing settings) (cs_signal_interrupted settings).

Definition with_is_executing (chain : EventChain) (v : Z) : EventChain :=
  mkEventChain (events chain) (event_capacity chain) (middlewares chain)
    (middleware_capacity chain) (context chain) (fault_tolerance chain)
    (error_detail_level chain) (failure_handler chain)
    (failure_handler_data chain) v (signal_interrupted chain).

Definition ensure_event_capacity (realloc_ok : bool) (chain : EventChain)
  : EventChainErrorCode * EventChain :=
  if event_count chain <? event_capacity chain then (EC_SUCCESS, chain)
  else if event_count chain >=? EVENTCHAINS_MAX_EVENTS
  then (EC_ERROR_CAPACITY_EXCEEDED, chain)
  else
    let new_capacity :=
      if event_capacity chain =? 0 then INITIAL_CAPACITY
      else size_t_wrap (event_capacity chain * GROWTH_FACTOR) in
    let new_capacity :=
      if new_capacity >? EVENTCHAINS_MAX_EVENTS
      then EVENTCHAINS_MAX_EVENTS else new_capacity in
    match safe_multiply new_capacity sizeof_pointer with
    | None => (EC_ERROR_OVERFLOW, chain)
    | Some _ =>
        if negb realloc_ok then (EC_ERROR_OUT_OF_MEMORY, chain)
        else (EC_SUCCESS, with_events chain (events chain) new_capacity)
    end.

Definition event_chain_add_event (realloc_ok : bool) (chain : EventChain)
  (event : ChainableEvent) : EventChainErrorCode * EventChain :=
  if negb (is_executing chain =? 0) then (EC_ERROR_REENTRANCY, chain)
  else
    match ensure_event_capacity realloc_ok chain with
    | (EC_SUCCESS, chain') =>
        (EC_SUCCESS,
         with_events chain' (events chain' ++ [event]) (event_capacity chain'))
    | (err, chain') => (err, chain')
    end.

Definition ensure_middleware_capacity (realloc_ok : bool) (chain : EventChain)
  : EventChainErrorCode * EventChain :=
  if middleware_count chain <? middleware_capacity chain then (EC_SUCCESS, chain)
  else if middleware_count chain >=? EVENTCHAINS_MAX_MIDDLEWARE
  then (EC_ERROR_CAPACITY_EXCEEDED, chain)
  else
    let new_capacity :=
      if middleware_capacity chain =? 0 then INITIAL_CAPACITY
      else size_t_wrap (middleware_capacity chain * GROWTH_FACTOR) in
    let new_capacity :=
      if new_capacity >? EVENTCHAINS_MAX_MIDDLEWARE
      then EVENTCHAINS_MAX_MIDDLEWARE else new_capacity in
    match safe_multiply new_capacity sizeof_pointer with
    | None => (EC_ERROR_OVERFLOW, chain)
    | Some _ =>
        if negb realloc_ok then (EC_ERROR_OUT_OF_MEMORY, chain)
        else (EC_SUCCESS, with_middlewares chain (middlewares chain) new_capacity)
    end.

Definition event_chain_use_middleware (realloc_ok : bool) (chain : EventChain)
  (middleware : EventMiddleware) : EventChainErrorCode * EventChain :=
  if negb (is_executing chain =? 0) then (EC_ERROR_REENTRANCY, chain)
  else
    match ensure_middleware_capacity realloc_ok chain with
    | (EC_SUCCESS, chain') =>
        (EC_SUCCESS,
         with_middlewares chain' (middlewares chain' ++ [middleware])
                          (middleware_capacity chain'))
    | (err, chain') => (err, chain')
    end.

Definition event_chain_set_failure_handler (chain : EventChain)
  (handler : option FailureHandlerFunc) (ud : ptr)
  : EventChainErrorCode * EventChain :=
  (EC_SUCCESS,
   mkEventChain (events chain) (event_capacity chain) (middlewares chain)
     (middleware_capacity chain) (context chain) (fault_tolerance chain)
     (error_detail_level chain) handler ud
     (is_executing chain) (signal_interrupted chain)).

Definition event_chain_get_context (chain : EventChain) : EventContext :=
  context chain.

(** The state of the [for] loop of [event_chain_execute]. *)
Record ExecState : Type := mkExecState {
  es_chain : EventChain;
  es_world : W;
  es_result : ChainResult;
  es_failure_capacity : Z
}.

(** [switch (chain->fault_tolerance)] on a failed event: the value of
    [should_continue], with the result, the chain and the memory as the
    failure handler has left them. *)
Definition decide_continue (chain : EventChain) (event : ChainableEvent)
  (event_result : EventResult) (w : W) : bool * EventResult * EventChain * W :=
  match fault_tolerance chain with
  | FAULT_TOLERANCE_STRICT => (false, event_result, chain, w)
  | FAULT_TOLERANCE_LENIENT
  | FAULT_TOLERANCE_BEST_EFFORT => (true, event_result, chain, w)
  | FAULT_TOLERANCE_CUSTOM =>
      match failure_handler chain with
      | Some h =>
          let '(b, er, settings, handler, w') :=
            call_handler h (chain_view chain) event event_result w
                         (failure_handler_data chain) in
          (b, er,
           with_settings chain settings
             (match handler with
              | Some h' => h'
              | None => failure_handler chain
              end),
           w')
      | None => (false, event_result, chain, w)
      end
  end.

(** The body of the loop for one event; the boolean is [true] when the
    body leaves the loop through [break].
    [realloc_ok n]: outcome of growing the failure array to [n] records.
    [uninit]: the indeterminate initial content of [event_result]. *)
Definition execute_one (realloc_ok : Z -> bool) (uninit : EventResult)
  (st : ExecState) (event : ChainableEvent) : ExecState * bool :=
  let result := es_result st in
  let '(event_result, ctx, w) :=
    execute_event_with_middleware (es_chain st) event uninit (es_world st) in
  let chain := with_context (es_chain st) ctx in
  if success event_result
  then (mkExecState chain w result (es_failure_capacity st), false)
  else
    let '(should_continue, event_result, chain, w) :=
      decide_continue chain event event_result w in
    let '(failure_capacity, failures, should_continue) :=
      if cr_failure_count result >=? es_failure_capacity st then
        let failure_capacity :=
          if es_failure_capacity st =? 0 then 4
          else size_t_wrap (es_failure_capacity st * 2) in
        if realloc_ok failure_capacity
        then (failure_capacity,
              Some (match cr_failures result with Some l => l | None => [] end),
              should_continue)
        else (failure_capacity, cr_failures result, false)
      else (es_failure_capacity st, cr_failures result, should_continue) in
    let result :=
      match failures with
      | Some l =>
          mkChainResult (cr_success result)
            (Some (l ++ [mkFailureInfo
                           (safe_strncpy "" (name event) EVENTCHAINS_MAX_NAME_LENGTH)
                           (safe_strncpy "" (error_message event_result)
                                         EVENTCHAINS_MAX_ERROR_LENGTH)
                           (error_code event_result)]))
            (size_t_wrap (cr_failure_count result + 1))
      | None => mkChainResult (cr_success result) None (cr_failure_count result)
      end in
    if negb should_continue
    then (mkExecState chain w
            (mkChainResult false (cr_failures result) (cr_failure_count result))
            failure_capacity, true)
    else (mkExecState chain w result failure_capacity, false).

Fixpoint execute_loop (realloc_ok : Z -> bool) (uninit : EventResult)
  (st : ExecState) (evs : list ChainableEvent) : ExecState :=
  match evs with
  | [] => st
  | event :: rest =>
      let '(st', brk) := execute_one realloc_ok uninit st event in
      if brk then st' else execute_loop realloc_ok uninit st' rest
  end.

Definition fault_tolerance_eqb (a b : FaultToleranceMode) : bool :=
  match a, b with
  | FAULT_TOLERANCE_STRICT, FAULT_TOLERANCE_STRICT
  | FAULT_TOLERANCE_LENIENT, FAULT_TOLERANCE_LENIENT
  | FAULT_TOLERANCE_BEST_EFFORT, FAULT_TOLERANCE_BEST_EFFORT
  | FAULT_TOLERANCE_CUSTOM, FAULT_TOLERANCE_CUSTOM => true
  | _, _ => false
  end.

Definition event_chain_execute (realloc_ok : Z -> bool) (uninit : EventResult)
  (chain : EventChain) (w : W) : ChainResult * EventChain * W :=
  if negb (is_executing chain =? 0)
  then (mkChainResult false None 0, chain, w)
  else
    let chain := with_is_executing chain 1 in
    let st :=
      execute_loop realloc_ok uninit
        (mkExecState chain w (mkChainResult true None 0) 0) (events chain) in
    let chain := with_is_executing (es_chain st) 0 in
    let result := es_result st in
    if (cr_failure_count result >? 0)
       && fault_tolerance_eqb (fault_tolerance chain) FAULT_TOLERANCE_STRICT
    then (mkChainResult false (cr_failures result) (cr_failure_count result),
          chain, es_world st)
    else (result, chain, es_world st).

Definition event_chain_was_interrupted (chain : EventChain) : Z :=
  signal_interrupted chain.

(** Whether the loop of [event_chain_execute] is left through its
    [break]. *)
Fixpoint loop_breaks (realloc_ok : Z -> bool) (uninit : EventResult)
  (st : ExecState) (evs : list ChainableEvent) : bool :=
  match evs with
  | [] => false
  | event :: rest =>
      let '(st', brk) := execute_one realloc_ok uninit st event in
      if brk then true else loop_breaks realloc_ok uninit st' rest
  end.

(** The modes in which a failed event ends the execution, and those in
    which it never does. *)
Definition stops_at_first_failure (chain : EventChain) : Prop :=
  fault_tolerance chain = FAULT_TOLERANCE_STRICT
  \/ (fault_tolerance chain = FAULT_TOLERANCE_CUSTOM
      /\ failure_handler chain = None).

Definition always_continues (chain : EventChain) : Prop :=
  fault_tolerance chain = FAULT_TOLERANCE_LENIENT
  \/ fault_tolerance chain = FAULT_TOLERANCE_BEST_EFFORT.

(** The state in which [event_chain_execute] enters its loop. *)
Definition initial_state (chain : EventChain) (w : W) : ExecState :=
  mkExecState (with_is_executing chain 1) w (mkChainResult true None 0) 0.

(** The value a handler returns. *)
Definition handler_answer (h : FailureHandlerFunc) (view : ChainView)
  (event : ChainableEvent) (er : EventResult) (w : W) (ud : ptr) : bool :=
  fst (fst (fst (fst (call_handler h view event er w ud)))).

(** A handler that returns [b] whatever it is called on. *)
Definition handler_answers (h : FailureHandlerFunc) (b : bool) : Prop :=
  forall view event er w ud, handler_answer h view event er w ud = b.

(** A handler that returns [true], leaves the handler of the chain in
    place and does not write the strict mode into the chain. *)
Definition handler_keeps_going (h : FailureHandlerFunc) : Prop :=
  forall view event er w ud,
    let '(b, _, settings, handler, _) := call_handler h view event er w ud in
    b = true
    /\ (cs_fault_tolerance settings = FAULT_TOLERANCE_STRICT ->
        cs_fault_tolerance (cv_settings view) = FAULT_TOLERANCE_STRICT)
    /\ handler = None.

(** The chains in which no failure handler is ever called. *)
Definition no_handler_runs (chain : EventChain) : Prop :=
  fault_tolerance chain = FAULT_TOLERANCE_CUSTOM -> failure_handler chain = None.

(** The chains that a failed event stops, and those that no failed event
    stops, handlers included. *)
Definition breaks_at_first_failure (chain : EventChain) : Prop :=
  stops_at_first_failure chain
  \/ (fault_tolerance chain = FAULT_TOLERANCE_CUSTOM
      /\ exists h, failure_handler chain = Some h /\ handler_answers h false).

Definition never_breaks (chain : EventChain) : Prop :=
  fault_tolerance chain <> FAULT_TOLERANCE_STRICT
  /\ (fault_tolerance chain = FAULT_TOLERANCE_CUSTOM ->
      exists h, failure_handler chain = Some h /\ handler_keeps_going h).

(** Whether the failure array is full and cannot be grown. *)
Definition failures_cannot_grow (realloc_ok : Z -> bool) (st : ExecState)
  : bool :=
  (cr_failure_count (es_result st) >=? es_failure_capacity st)
  && negb (realloc_ok (if es_failure_capacity st =? 0 then 4
                       else size_t_wrap (es_failure_capacity st * 2))).

End Runtime.

Arguments EventChain W : clear implicits.
Arguments ChainableEvent W : clear implicits.
Arguments EventMiddleware W : clear implicits.
Arguments EventExecuteFunc W : clear implicits.
Arguments FailureHandlerFunc W : clear implicits.
Arguments ChainView W : clear implicits.

(** *** Running the events of a chain one after the other

    [run_events stop] calls the events in order, each one on the context
    and the memory that the one before has left, and gives the events
    that ran with their results; with [stop] it ends after the first
    event that fails. *)
Fixpoint run_events {W : Type} (stop : bool) (evs : list (ChainableEvent W))
  (uninit : EventResult) (ctx : EventContext) (w : W)
  : list (ChainableEvent W * EventResult) * EventContext * W :=
  match evs with
  | [] => ([], ctx, w)
  | ev :: rest =>
      let '(er, ctx', w') := execute_event_direct uninit ev ctx w in
      if success er || negb stop
      then
        let '(l, ctx'', w'') := run_events stop rest uninit ctx' w' in
        ((ev, er) :: l, ctx'', w'')
      else ([(ev, er)], ctx', w')
  end.

(** The record that [event_chain_execute] writes for a failed event. *)
Definition failure_info {W : Type} (p : ChainableEvent W * EventResult)
  : FailureInfo :=
  mkFailureInfo
    (safe_strncpy "" (name (fst p)) EVENTCHAINS_MAX_NAME_LENGTH)
    (safe_strncpy "" (error_message (snd p)) EVENTCHAINS_MAX_ERROR_LENGTH)
    (error_code (snd p)).

Definition failed {W : Type} (l : list (ChainableEvent W * EventResult))
  : list (ChainableEvent W * EventResult) :=
  List.filter (fun p => negb (success (snd p))) l.

(** Whether a chain without failure handler stops at a failed event. *)
Definition stops_on_failure (mode : FaultToleranceMode) : bool :=
  match mode with
  | FAULT_TOLERANCE_STRICT | FAULT_TOLERANCE_CUSTOM => true
  | FAULT_TOLERANCE_LENIENT | FAULT_TOLERANCE_BEST_EFFORT => false
  end.

(** The state of the loop of [event_chain_execute] when the records
    [done] have been written and every growth of the array succeeded. *)
Definition recorded {W : Type} (st : ExecState (W := W))
  (done : list FailureInfo) : Prop :=
  cr_failures (es_result st)
  = match done with [] => None | _ => Some done end
  /\ cr_failure_count (es_result st) = Z.of_nat (List.length done)
  /\ match done with
     | [] => es_failure_capacity st = 0
     | _ => Z.of_nat (List.length done) <= es_failure_capacity st
            <= 4 + 2 * Z.of_nat (List.length done)
     end.

(** A middleware that hands everything to [next] and returns what comes
    back, as a middleware that only observes does. *)
Definition transparent {W : Type} (m : EventMiddleware W) : Prop :=
  forall result event ctx w next ud,
    mw_execute m result event ctx w next ud = next result event ctx w.

(** The bounds of the two arrays of a chain. *)
Definition chain_bounds {W : Type} (chain : EventChain W) : Prop :=
  event_count chain <= event_capacity chain <= EVENTCHAINS_MAX_EVENTS
  /\ middleware_count chain <= middleware_capacity chain
     <= EVENTCHAINS_MAX_MIDDLEWARE.

(** *** Two small chains

    An event that fails, a chain in custom mode that holds it and has no
    failure handler, and a chain that is executing. *)

Definition failing_event : ChainableEvent unit :=
  mkChainableEvent
    (Some (fun ctx w _ =>
             (event_result_failure (Some "no input")
                EC_ERROR_EVENT_EXECUTION_FAILED ERROR_DETAIL_FULL, ctx, w)))
    NULL "Failing".

Definition custom_chain : EventChain unit :=
  snd (event_chain_add_event true (event_chain_create FAULT_TOLERANCE_CUSTOM)
         failing_event).

Definition executing_chain : EventChain unit :=
  with_is_executing (event_chain_create FAULT_TOLERANCE_CUSTOM) 1.

(** A handler that lets the chain go on and touches nothing, and one
    that lets it go on after writing the strict mode into the chain. *)
Definition continue_handler : FailureHandlerFunc unit :=
  mkFailureHandler
    (fun view _ er w _ => (true, er, cv_settings view, None, w)).

Definition set_mode (s : ChainSettings) (mode : FaultToleranceMode)
  : ChainSettings :=
  mkChainSettings (cs_context s) mode (cs_error_detail_level s)
    (cs_failure_handler_data s) (cs_is_executing s) (cs_signal_interrupted s).

Definition strict_handler : FailureHandlerFunc unit :=
  mkFailureHandler
    (fun view _ er w _ =>
       (true, er, set_mode (cv_settings view) FAULT_TOLERANCE_STRICT, None, w)).

(** [custom_chain] with a handler registered. *)
Definition handled_chain (h : FailureHandlerFunc unit) : EventChain unit :=
  snd (event_chain_set_failure_handler custom_chain (Some h) NULL).

Definition passthrough_middleware : EventMiddleware unit :=
  mkEventMiddleware (fun r ev ctx w next _ => next r ev ctx w) NULL "Passthrough".

End EC.

(* ------------------------------------------------------------------ *)
(** ** tinyllvm_lexer.c *)

Module Lexer.
Import CStr.

Inductive TokenKind : Set :=
| TOKEN_FUNC | TOKEN_VAR | TOKEN_IF | TOKEN_ELSE | TOKEN_WHILE
| TOKEN_RETURN | TOKEN_TRUE | TOKEN_FALSE
| TOKEN_INT | TOKEN_BOOL
| TOKEN_IDENTIFIER | TOKEN_INT_LITERAL
| TOKEN_PLUS | TOKEN_MINUS | TOKEN_STAR | TOKEN_SLASH | TOKEN_PERCENT
| TOKEN_EQ | TOKEN_NE | TOKEN_LT | TOKEN_LE | TOKEN_GT | TOKEN_GE
| TOKEN_AND | TOKEN_OR | TOKEN_NOT
| TOKEN_ASSIGN | TOKEN_SEMICOLON | TOKEN_COLON | TOKEN_COMMA
| TOKEN_LPAREN | TOKEN_RPAREN | TOKEN_LBRACE | TOKEN_RBRACE
| TOKEN_EOF | TOKEN_ERROR.

Definition TokenKind_eq_dec (a b : TokenKind) : {a = b} + {a <> b}.
Proof. decide equality. Defined.

Definition kind_eqb (a b : TokenKind) : bool :=
  if TokenKind_eq_dec a b then true else false.

Definition token_kind_to_string (kind : TokenKind) : string :=
  match kind with
  | TOKEN_FUNC => "func" | TOKEN_VAR => "var" | TOKEN_IF => "if"
  | TOKEN_ELSE => "else" | TOKEN_WHILE => "while"
  | TOKEN_RETURN => "return" | TOKEN_TRUE => "true"
  | TOKEN_FALSE => "false" | TOKEN_INT => "int" | TOKEN_BOOL => "bool"
  | TOKEN_IDENTIFIER => "IDENTIFIER" | TOKEN_INT_LITERAL => "INT_LITERAL"
  | TOKEN_PLUS => "+" | TOKEN_MINUS => "-" | TOKEN_STAR => "*"
  | TOKEN_SLASH => "/" | TOKEN_PERCENT => "%"
  | TOKEN_EQ => "==" | TOKEN_NE => "!=" | TOKEN_LT => "<"
  | TOKEN_LE => "<=" | TOKEN_GT => ">" | TOKEN_GE => ">="
  | TOKEN_AND => "&&" | TOKEN_OR => "||" | TOKEN_NOT => "!"
  | TOKEN_ASSIGN => "=" | TOKEN_SEMICOLON => ";" | TOKEN_COLON => ":"
  | TOKEN_COMMA => "," | TOKEN_LPAREN => "(" | TOKEN_RPAREN => ")"
  | TOKEN_LBRACE => "{" | TOKEN_RBRACE => "}"
  | TOKEN_EOF => "EOF" | TOKEN_ERROR => "ERROR"
  end.

(** [lexeme] is [None] for the NULL pointer. *)
Record Token : Set := mkToken {
  kind : TokenKind;
  lexeme : option string;
  length : nat;
  value : Z;
  line : nat;
  column : nat
}.

Definition TokenList : Set := list Token.

Definition digit_value (c : ascii) : Z := Z.of_nat (nat_of_ascii c) - 48.

Fixpoint decimal_value (s : string) (acc : Z) : Z :=
  match s with
  | EmptyString => acc
  | String c r => decimal_value r (10 * acc + digit_value c)
  end.

(** [atoi] on a string of digits, as glibc computes it: [strtol]
    saturated at [LONG_MAX], then converted to [int]. *)
Definition atoi (s : string) : Z :=
  EC.int_of_size_t (Z.min (decimal_value s 0) (2 ^ 63 - 1)).

(** [lexeme = None] is a NULL argument; otherwise the [length] bytes at
    the pointer. *)
Definition token_create (k : TokenKind) (lx : option string) (len : nat)
  (ln col : nat) : Token :=
  match lx with
  | Some s =>
      if (0 <? len)%nat
      then mkToken k (Some s) len
             (if kind_eqb k TOKEN_INT_LITERAL then atoi s else 0) ln col
      else mkToken k None len 0 ln col
  | None => mkToken k None len 0 ln col
  end.

Record Lexer : Set := mkLexer {
  source : string;
  lex_length : nat;
  current : nat;
  lex_line : nat;
  lex_column : nat;
  tokens : TokenList
}.

Definition source_at (lex : Lexer) (i : nat) : ascii :=
  match String.get i (source lex) with
  | Some c => c
  | None => NUL
  end.

Definition lexer_is_at_end (lex : Lexer) : bool :=
  (lex_length lex <=? current lex)%nat.

Definition lexer_peek (lex : Lexer) : ascii :=
  if lexer_is_at_end lex then NUL else source_at lex (current lex).

Definition lexer_peek_next (lex : Lexer) : ascii :=
  if (lex_length lex <=? current lex + 1)%nat then NUL
  else source_at lex (current lex + 1).

Definition newline : ascii := "010"%char.

Definition lexer_advance (lex : Lexer) : ascii * Lexer :=
  if lexer_is_at_end lex then (NUL, lex)
  else
    let c := source_at lex (current lex) in
    if Ascii.eqb c newline
    then (c, mkLexer (source lex) (lex_length lex) (S (current lex))
                     (S (lex_line lex)) 0 (tokens lex))
    else (c, mkLexer (source lex) (lex_length lex) (S (current lex))
                     (lex_line lex) (S (lex_column lex)) (tokens lex)).

Definition lexer_match (lex : Lexer) (expected : ascii) : bool * Lexer :=
  if lexer_is_at_end lex then (false, lex)
  else if negb (Ascii.eqb (source_at lex (current lex)) expected)
  then (false, lex)
  else (true, snd (lexer_advance lex)).

Definition lexer_add_token (lex : Lexer) (k : TokenKind) (lx : option string)
  (len : nat) (ln col : nat) : Lexer :=
  mkLexer (source lex) (lex_length lex) (current lex) (lex_line lex)
          (lex_column lex) (tokens lex ++ [token_create k lx len ln col]).

Definition char_between (lo c hi : ascii) : bool :=
  (nat_of_ascii lo <=? nat_of_ascii c)%nat
  && (nat_of_ascii c <=? nat_of_ascii hi)%nat.

Definition is_alpha (c : ascii) : bool :=
  char_between "a" c "z" || char_between "A" c "Z" || Ascii.eqb c "_".

Definition is_digit (c : ascii) : bool := char_between "0" c "9".

Definition is_alnum (c : ascii) : bool := is_alpha c || is_digit c.

(** Characters left to scan; every loop of the lexer consumes at least
    one of them per iteration, so this many iterations are enough. *)
Definition remaining (lex : Lexer) : nat := (lex_length lex - current lex)%nat.

Definition is_space (c : ascii) : bool :=
  Ascii.eqb c " " || Ascii.eqb c "013" || Ascii.eqb c "009"
  || Ascii.eqb c newline.

Fixpoint skip_line_comment (fuel : nat) (lex : Lexer) : Lexer :=
  match fuel with
  | O => lex
  | S f =>
      if negb (lexer_is_at_end lex) && negb (Ascii.eqb (lexer_peek lex) newline)
      then skip_line_comment f (snd (lexer_advance lex))
      else lex
  end.

Fixpoint skip_block_comment (fuel : nat) (lex : Lexer) : Lexer :=
  match fuel with
  | O => lex
  | S f =>
      if lexer_is_at_end lex then lex
      else if Ascii.eqb (lexer_peek lex) "*" && Ascii.eqb (lexer_peek_next lex) "/"
      then snd (lexer_advance (snd (lexer_advance lex)))
      else skip_block_comment f (snd (lexer_advance lex))
  end.

Fixpoint skip_whitespace_loop (fuel : nat) (lex : Lexer) : Lexer :=
  match fuel with
  | O => lex
  | S f =>
      if lexer_is_at_end lex then lex
      else
        let c := lexer_peek lex in
        if is_space c then skip_whitespace_loop f (snd (lexer_advance lex))
        else if Ascii.eqb c "/" && Ascii.eqb (lexer_peek_next lex) "/"
        then skip_whitespace_loop f (skip_line_comment (remaining lex) lex)
        else if Ascii.eqb c "/" && Ascii.eqb (lexer_peek_next lex) "*"
        then
          let lex1 := snd (lexer_advance (snd (lexer_advance lex))) in
          skip_whitespace_loop f (skip_block_comment (remaining lex1) lex1)
        else lex
  end.

Definition skip_whitespace (lex : Lexer) : Lexer :=
  skip_whitespace_loop (S (remaining lex)) lex.

(** [strlen(keyword) == length && memcmp(lexeme, keyword, length) == 0] *)
Definition check_keyword (lx : string) (len : nat) (keyword : string)
  (k : TokenKind) : TokenKind :=
  if (String.length keyword =? len)%nat && String.eqb lx keyword
  then k else TOKEN_IDENTIFIER.

Definition lexeme_at (lx : string) (i : nat) : ascii :=
  match String.get i lx with Some c => c | None => NUL end.

Definition identifier_type (lx : string) (len : nat) : TokenKind :=
  let c0 := lexeme_at lx 0 in
  if Ascii.eqb c0 "b" then check_keyword lx len "bool" TOKEN_BOOL
  else if Ascii.eqb c0 "e" then check_keyword lx len "else" TOKEN_ELSE
  else if Ascii.eqb c0 "f" then
    if (1 <? len)%nat && Ascii.eqb (lexeme_at lx 1) "u"
    then check_keyword lx len "func" TOKEN_FUNC
    else if (1 <? len)%nat && Ascii.eqb (lexeme_at lx 1) "a"
    then check_keyword lx len "false" TOKEN_FALSE
    else TOKEN_IDENTIFIER
  else if Ascii.eqb c0 "i" then
    if (1 <? len)%nat && Ascii.eqb (lexeme_at lx 1) "f"
    then check_keyword lx len "if" TOKEN_IF
    else check_keyword lx len "int" TOKEN_INT
  else if Ascii.eqb c0 "r" then check_keyword lx len "return" TOKEN_RETURN
  else if Ascii.eqb c0 "t" then check_keyword lx len "true" TOKEN_TRUE
  else if Ascii.eqb c0 "v" then check_keyword lx len "var" TOKEN_VAR
  else if Ascii.eqb c0 "w" then check_keyword lx len "while" TOKEN_WHILE
  else TOKEN_IDENTIFIER.

Fixpoint advance_while (p : ascii -> bool) (fuel : nat) (lex : Lexer) : Lexer :=
  match fuel with
  | O => lex
  | S f =>
      if p (lexer_peek lex) then advance_while p f (snd (lexer_advance lex))
      else lex
  end.

Definition scan_identifier (lex : Lexer) : Lexer :=
  let start := (current lex - 1)%nat in
  let start_column := (lex_column lex - 1)%nat in
  let lex := advance_while is_alnum (remaining lex) lex in
  let len := (current lex - start)%nat in
  let lx := String.substring start len (source lex) in
  let k := identifier_type lx len in
  lexer_add_token lex k (Some lx) len (lex_line lex) start_column.

Definition scan_number (lex : Lexer) : Lexer :=
  let start := (current lex - 1)%nat in
  let start_column := (lex_column lex - 1)%nat in
  let lex := advance_while is_digit (remaining lex) lex in
  let len := (current lex - start)%nat in
  let lx := String.substring start len (source lex) in
  lexer_add_token lex TOKEN_INT_LITERAL (Some lx) len (lex_line lex) start_column.

(** The two-character operators: one [lexer_match] on the second. *)
Definition scan_pair (lex : Lexer) (second : ascii)
  (k2 : TokenKind) (lx2 : string) (k1 : TokenKind) (lx1 : string)
  (start_column : nat) : Lexer :=
  let '(m, lex) := lexer_match lex second in
  if m then lexer_add_token lex k2 (Some lx2) 2 (lex_line lex) start_column
  else lexer_add_token lex k1 (Some lx1) 1 (lex_line lex) start_column.

Definition scan_token (lex : Lexer) : Lexer :=
  let lex := skip_whitespace lex in
  if lexer_is_at_end lex
  then lexer_add_token lex TOKEN_EOF None 0 (lex_line lex) (lex_column lex)
  else
    let start_column := lex_column lex in
    let '(c, lex) := lexer_advance lex in
    if is_alpha c then scan_identifier lex
    else if is_digit c then scan_number lex
    else
      let single k s := lexer_add_token lex k (Some s) 1 (lex_line lex) start_column in
      if Ascii.eqb c "(" then single TOKEN_LPAREN "("
      else if Ascii.eqb c ")" then single TOKEN_RPAREN ")"
      else if Ascii.eqb c "{" then single TOKEN_LBRACE "{"
      else if Ascii.eqb c "}" then single TOKEN_RBRACE "}"
      else if Ascii.eqb c ";" then single TOKEN_SEMICOLON ";"
      else if Ascii.eqb c ":" then single TOKEN_COLON ":"
      else if Ascii.eqb c "," then single TOKEN_COMMA ","
      else if Ascii.eqb c "+" then single TOKEN_PLUS "+"
      else if Ascii.eqb c "-" then single TOKEN_MINUS "-"
      else if Ascii.eqb c "*" then single TOKEN_STAR "*"
      else if Ascii.eqb c "/" then single TOKEN_SLASH "/"
      else if Ascii.eqb c "%" then single TOKEN_PERCENT "%"
      else if Ascii.eqb c "=" then
        scan_pair lex "=" TOKEN_EQ "==" TOKEN_ASSIGN "=" start_column
      else if Ascii.eqb c "!" then
        scan_pair lex "=" TOKEN_NE "!=" TOKEN_NOT "!" start_column
      else if Ascii.eqb c "<" then
        scan_pair lex "=" TOKEN_LE "<=" TOKEN_LT "<" start_column
      else if Ascii.eqb c ">" then
        scan_pair lex "=" TOKEN_GE ">=" TOKEN_GT ">" start_column
      else if Ascii.eqb c "&" then
        scan_pair lex "&" TOKEN_AND "&&" TOKEN_ERROR "&" start_column
      else if Ascii.eqb c "|" then
        scan_pair lex "|" TOKEN_OR "||" TOKEN_ERROR "|" start_column
      else single TOKEN_ERROR (String c "").

(** [tokens->count > 0 && tokens[count - 1]->kind == TOKEN_EOF] *)
Definition last_is_eof (toks : TokenList) : bool :=
  match List.last (List.map (fun t => Some (kind t)) toks) None with
  | Some TOKEN_EOF => true
  | _ => false
  end.

(** The [while] loop of [lex_source]; [None] when [fuel] iterations
    were not enough to leave it. *)
Fixpoint lex_loop (fuel : nat) (lex : Lexer) : option Lexer :=
  if lexer_is_at_end lex then Some lex
  else
    match fuel with
    | O => None
    | S f =>
        let lex := scan_token lex in
        if last_is_eof (tokens lex) then Some lex else lex_loop f lex
    end.

Definition lex_init (source_code : string) : Lexer :=
  mkLexer source_code (strlen source_code) 0 1 0 [].

(** The lexer state when [lex_source] returns. *)
Definition lex_final (source_code : string) : option Lexer :=
  match lex_loop (S (strlen source_code)) (lex_init source_code) with
  | Some lex =>
      if negb (last_is_eof (tokens lex))
      then Some (lexer_add_token lex TOKEN_EOF None 0 (lex_line lex) (lex_column lex))
      else Some lex
  | None => None
  end.

Definition lex_source (source_code : string) : option TokenList :=
  option_map tokens (lex_final source_code).

(** [l'] is [l] after some characters were consumed and no token was
    added. *)
Definition scans (l l' : Lexer) : Prop :=
  source l' = source l /\ lex_length l' = lex_length l
  /\ tokens l' = tokens l
  /\ (current l <= current l')%nat
  /\ ((current l <= lex_length l)%nat -> (current l' <= lex_length l')%nat).

(** [l'] is [l] after some characters were consumed and one token, of
    another kind than EOF, was added. *)
Definition emits (l l' : Lexer) : Prop :=
  exists t : Token,
    (source l' = source l /\ lex_length l' = lex_length l
     /\ (current l <= current l')%nat
     /\ ((current l <= lex_length l)%nat -> (current l' <= lex_length l')%nat))
    /\ tokens l' = tokens l ++ [t]
    /\ kind t <> TOKEN_EOF.

(** What the loop leaves: the whole input consumed and either no EOF
    token yet or exactly one, the last, at the final position. *)
Definition loop_outcome (l0 l : Lexer) : Prop :=
  source l = source l0 /\ lex_length l = lex_length l0
  /\ lexer_is_at_end l = true
  /\ (current l <= lex_length l)%nat
  /\ (Forall (fun t => kind t <> TOKEN_EOF) (tokens l)
      \/ exists before eof,
           tokens l = before ++ [eof]
           /\ Forall (fun t => kind t <> TOKEN_EOF) before
           /\ kind eof = TOKEN_EOF
           /\ line eof = lex_line l /\ column eof = lex_column l).

(** The kinds whose text is fixed: keywords, operators and punctuation. *)
Definition fixed_spelling (k : TokenKind) : bool :=
  match k with
  | TOKEN_IDENTIFIER | TOKEN_INT_LITERAL | TOKEN_EOF | TOKEN_ERROR => false
  | _ => true
  end.

(** What a token of the list holds: text of at least one character, the
    value of that text for an integer literal and 0 otherwise, the
    spelling of its kind where the kind has one; no text for EOF. *)
Definition token_shape (t : Token) : Prop :=
  match lexeme t with
  | Some s =>
      kind t <> TOKEN_EOF
      /\ (0 < length t)%nat
      /\ value t = (if kind_eqb (kind t) TOKEN_INT_LITERAL then atoi s else 0)
      /\ (fixed_spelling (kind t) = true -> s = token_kind_to_string (kind t))
  | None => kind t = TOKEN_EOF /\ length t = 0%nat /\ value t = 0
  end.

End Lexer.

(* ------------------------------------------------------------------ *)
(** ** tinyllvm_ast.h, tinyllvm_ast.c

    The tagged unions of the C code ([kind] with the member of [data] it
    selects) are inductive types, so the tag and the live member always
    agree.  Child pointers that the constructors refuse when NULL are
    plain children; the two that may be NULL (the [else] block and the
    expression of [return]) are options. *)

Module AST.

Scheme All for list.
Scheme All for option.

Inductive TypeKind : Set := TYPE_INT | TYPE_BOOL | TYPE_VOID.

Record Type_ : Set := mkType { type_kind : TypeKind }.

Definition type_int : Type_ := mkType TYPE_INT.
Definition type_bool : Type_ := mkType TYPE_BOOL.
Definition type_void : Type_ := mkType TYPE_VOID.

Definition type_to_string (t : Type_) : string :=
  match type_kind t with
  | TYPE_INT => "int"
  | TYPE_BOOL => "bool"
  | TYPE_VOID => "void"
  end.

Definition type_kind_eqb (a b : TypeKind) : bool :=
  match a, b with
  | TYPE_INT, TYPE_INT | TYPE_BOOL, TYPE_BOOL | TYPE_VOID, TYPE_VOID => true
  | _, _ => false
  end.

Definition type_equals (a b : Type_) : bool :=
  type_kind_eqb (type_kind a) (type_kind b).

Inductive ExprKind : Set :=
| EXPR_INT_LITERAL | EXPR_BOOL_LITERAL
| EXPR_VAR
| EXPR_ADD | EXPR_SUB | EXPR_MUL | EXPR_DIV | EXPR_MOD
| EXPR_EQ | EXPR_NE | EXPR_LT | EXPR_LE | EXPR_GT | EXPR_GE
| EXPR_AND | EXPR_OR | EXPR_NOT
| EXPR_CALL.

(** The kinds whose live member is [data.binary]. *)
Inductive BinaryKind : Set :=
| BIN_ADD | BIN_SUB | BIN_MUL | BIN_DIV | BIN_MOD
| BIN_EQ | BIN_NE | BIN_LT | BIN_LE | BIN_GT | BIN_GE
| BIN_AND | BIN_OR.

Definition binary_expr_kind (k : BinaryKind) : ExprKind :=
  match k with
  | BIN_ADD => EXPR_ADD | BIN_SUB => EXPR_SUB | BIN_MUL => EXPR_MUL
  | BIN_DIV => EXPR_DIV | BIN_MOD => EXPR_MOD
  | BIN_EQ => EXPR_EQ | BIN_NE => EXPR_NE | BIN_LT => EXPR_LT
  | BIN_LE => EXPR_LE | BIN_GT => EXPR_GT | BIN_GE => EXPR_GE
  | BIN_AND => EXPR_AND | BIN_OR => EXPR_OR
  end.

(** Every node carries its [type] field first. *)
Inductive ASTExpr : Set :=
| ExprIntLiteral (type : Type_) (value : Z)
| ExprBoolLiteral (type : Type_) (value : bool)
| ExprVar (type : Type_) (name : string)
| ExprBinary (kind : BinaryKind) (type : Type_) (left right : ASTExpr)
| ExprNot (type : Type_) (operand : ASTExpr)
| ExprCall (type : Type_) (func_name : string) (args : list ASTExpr).

Definition expr_kind (e : ASTExpr) : ExprKind :=
  match e with
  | ExprIntLiteral _ _ => EXPR_INT_LITERAL
  | ExprBoolLiteral _ _ => EXPR_BOOL_LITERAL
  | ExprVar _ _ => EXPR_VAR
  | ExprBinary k _ _ _ => binary_expr_kind k
  | ExprNot _ _ => EXPR_NOT
  | ExprCall _ _ _ => EXPR_CALL
  end.

(** [expr->type] *)
Definition expr_type (e : ASTExpr) : Type_ :=
  match e with
  | ExprIntLiteral t _ | ExprBoolLiteral t _ | ExprVar t _
  | ExprBinary _ t _ _ | ExprNot t _ | ExprCall t _ _ => t
  end.

(** [expr->type = t] *)
Definition set_expr_type (e : ASTExpr) (t : Type_) : ASTExpr :=
  match e with
  | ExprIntLiteral _ v => ExprIntLiteral t v
  | ExprBoolLiteral _ v => ExprBoolLiteral t v
  | ExprVar _ n => ExprVar t n
  | ExprBinary k _ l r => ExprBinary k t l r
  | ExprNot _ o => ExprNot t o
  | ExprCall _ n a => ExprCall t n a
  end.

Inductive ASTStmt : Set :=
| StmtVarDecl (name : string) (type : Type_) (init_expr : ASTExpr)
| StmtAssign (name : string) (expr : ASTExpr)
| StmtIf (condition : ASTExpr) (then_block : ASTStmt)
         (else_block : option ASTStmt)
| StmtWhile (condition : ASTExpr) (body : ASTStmt)
| StmtReturn (expr : option ASTExpr)
| StmtExpr (expr : ASTExpr)
| StmtBlock (statements : list ASTStmt).

Record Param : Set := mkParam {
  param_name : string;
  param_type : Type_
}.

Record ASTFunc : Set := mkFunc {
  func_name : string;
  params : list Param;
  return_type : Type_;
  body : ASTStmt
}.

Record ASTProgram : Set := mkProgram {
  functions : list ASTFunc
}.

Definition str_duplicate (s : string) : string := CStr.strdup s.

Definition ast_expr_int_literal (v : Z) : ASTExpr := ExprIntLiteral type_int v.

Definition ast_expr_bool_literal (v : bool) : ASTExpr := ExprBoolLiteral type_bool v.

Definition ast_expr_var (n : string) : ASTExpr :=
  ExprVar type_int (str_duplicate n).

Definition ast_expr_binary (k : BinaryKind) (l r : ASTExpr) : ASTExpr :=
  match k with
  | BIN_EQ | BIN_NE | BIN_LT | BIN_LE | BIN_GT | BIN_GE | BIN_AND | BIN_OR =>
      ExprBinary k type_bool l r
  | _ => ExprBinary k type_int l r
  end.

Definition ast_expr_unary (operand : ASTExpr) : ASTExpr :=
  ExprNot type_bool operand.

Definition ast_expr_call (n : string) (a : list ASTExpr) : ASTExpr :=
  ExprCall type_int (str_duplicate n) a.

Definition ast_stmt_var_decl (n : string) (t : Type_) (init : ASTExpr) : ASTStmt :=
  StmtVarDecl (str_duplicate n) t init.

Definition ast_stmt_assign (n : string) (e : ASTExpr) : ASTStmt :=
  StmtAssign (str_duplicate n) e.

Definition ast_stmt_if (c : ASTExpr) (t : ASTStmt) (e : option ASTStmt) : ASTStmt :=
  StmtIf c t e.

Definition ast_stmt_while (c : ASTExpr) (b : ASTStmt) : ASTStmt := StmtWhile c b.

Definition ast_stmt_return (e : option ASTExpr) : ASTStmt := StmtReturn e.

Definition ast_stmt_expr (e : ASTExpr) : ASTStmt := StmtExpr e.

Definition ast_stmt_block (l : list ASTStmt) : ASTStmt := StmtBlock l.

Definition ast_func_create (n : string) (ps : list Param) (rt : Type_)
  (b : ASTStmt) : ASTFunc :=
  mkFunc (str_duplicate n) ps rt b.

Definition ast_program_create (fs : list ASTFunc) : ASTProgram := mkProgram fs.

(** *** The nodes of a tree *)

(** An expression and all the expressions below it. *)
Fixpoint expr_nodes (e : ASTExpr) : list ASTExpr :=
  e :: match e with
       | ExprBinary _ _ l r => expr_nodes l ++ expr_nodes r
       | ExprNot _ o => expr_nodes o
       | ExprCall _ _ a => List.flat_map expr_nodes a
       | _ => []
       end.

(** A statement and all the statements below it. *)
Fixpoint stmt_nodes (s : ASTStmt) : list ASTStmt :=
  s :: match s with
       | StmtIf _ t e =>
           stmt_nodes t ++ match e with Some eb => stmt_nodes eb | None => [] end
       | StmtWhile _ b => stmt_nodes b
       | StmtBlock l => List.flat_map stmt_nodes l
       | _ => []
       end.

(** The expressions a statement node holds itself. *)
Definition stmt_expressions (s : ASTStmt) : list ASTExpr :=
  match s with
  | StmtVarDecl _ _ e | StmtAssign _ e | StmtIf e _ _ | StmtWhile e _
  | StmtReturn (Some e) | StmtExpr e => [e]
  | StmtReturn None | StmtBlock _ => []
  end.

Definition program_stmts (p : ASTProgram) : list ASTStmt :=
  List.flat_map (fun f => stmt_nodes (body f)) (functions p).

(** Every expression node of a program. *)
Definition program_exprs (p : ASTProgram) : list ASTExpr :=
  List.flat_map
    (fun s => List.flat_map expr_nodes (stmt_expressions s))
    (program_stmts p).

(** A tree without its annotations: every [type] field of an
    expression, and the [type] field of every declaration, set to int. *)
Fixpoint erase_expr (e : ASTExpr) : ASTExpr :=
  match e with
  | ExprIntLiteral _ v => ExprIntLiteral type_int v
  | ExprBoolLiteral _ v => ExprBoolLiteral type_int v
  | ExprVar _ n => ExprVar type_int n
  | ExprBinary k _ l r => ExprBinary k type_int (erase_expr l) (erase_expr r)
  | ExprNot _ o => ExprNot type_int (erase_expr o)
  | ExprCall _ n a => ExprCall type_int n (List.map erase_expr a)
  end.

Fixpoint erase_stmt (s : ASTStmt) : ASTStmt :=
  match s with
  | StmtVarDecl n _ e => StmtVarDecl n type_int (erase_expr e)
  | StmtAssign n e => StmtAssign n (erase_expr e)
  | StmtIf c t e =>
      StmtIf (erase_expr c) (erase_stmt t)
        (match e with Some eb => Some (erase_stmt eb) | None => None end)
  | StmtWhile c b => StmtWhile (erase_expr c) (erase_stmt b)
  | StmtReturn e => StmtReturn (option_map erase_expr e)
  | StmtExpr e => StmtExpr (erase_expr e)
  | StmtBlock l => StmtBlock (List.map erase_stmt l)
  end.

Definition erase_func (f : ASTFunc) : ASTFunc :=
  mkFunc (func_name f) (params f) (return_type f) (erase_stmt (body f)).

Definition erase_program (p : ASTProgram) : ASTProgram :=
  mkProgram (List.map erase_func (functions p)).

Definition is_block (s : ASTStmt) : bool :=
  match s with StmtBlock _ => true | _ => false end.

(** The bodies of a conditional and of a loop are blocks. *)
Definition bodies_are_blocks (s : ASTStmt) : Prop :=
  match s with
  | StmtIf _ t e =>
      is_block t = true
      /\ match e with Some eb => is_block eb = true | None => True end
  | StmtWhile _ b => is_block b = true
  | _ => True
  end.

Definition int_or_bool (t : Type_) : Prop :=
  type_kind t = TYPE_INT \/ type_kind t = TYPE_BOOL.

(** A declaration as the parser builds it. *)
Definition provisional_int (s : ASTStmt) : Prop :=
  match s with
  | StmtVarDecl _ ty _ => ty = type_int
  | _ => True
  end.

End AST.

(* ------------------------------------------------------------------ *)
(** ** tinyllvm_parser.c

    The recursive-descent functions recurse on a fuel argument that
    every call and every loop iteration decrements.  A result is the
    pointer the C function returns together with the parser state it
    leaves: [POk] for a node, [PNull] for NULL, [POutOfFuel] when the
    fuel did not suffice (no C execution corresponds to it; the fuel of
    [parse_tokens] always suffices), [PUndefined] where the C function
    has no defined behaviour. *)

Module Parser.
Import Lexer AST.

Record Parser : Set := mkParser {
  p_tokens : list Token;
  p_current : nat;
  error_msg : string;
  has_error : bool
}.

Definition p_count (p : Parser) : nat := List.length (p_tokens p).

Definition string_of_nat (n : nat) : string :=
  NilZero.string_of_uint (Nat.to_uint n).

Definition set_current (p : Parser) (c : nat) : Parser :=
  mkParser (p_tokens p) c (error_msg p) (has_error p).

(** [snprintf(p->error_msg, sizeof(p->error_msg), ...); p->has_error = true] *)
Definition set_error (p : Parser) (msg : string) : Parser :=
  mkParser (p_tokens p) (p_current p) (EC.snprintf_buf 1024 msg) true.

Definition parser_current (p : Parser) : option Token :=
  if (p_count p <=? p_current p)%nat then None
  else nth_error (p_tokens p) (p_current p).

Definition parser_previous (p : Parser) : option Token :=
  if (p_current p =? 0)%nat then None
  else nth_error (p_tokens p) (p_current p - 1).

Definition parser_is_at_end (p : Parser) : bool :=
  match parser_current p with
  | None => true
  | Some tok => kind_eqb (kind tok) TOKEN_EOF
  end.

Definition parser_check (p : Parser) (k : TokenKind) : bool :=
  if parser_is_at_end p then false
  else
    match parser_current p with
    | Some tok => kind_eqb (kind tok) k
    | None => false
    end.

Definition parser_advance (p : Parser) : option Token * Parser :=
  let p := if negb (parser_is_at_end p) then set_current p (S (p_current p)) else p in
  (parser_previous p, p).

Definition parser_match (p : Parser) (k : TokenKind) : bool * Parser :=
  if parser_check p k then (true, snd (parser_advance p)) else (false, p).

Definition parser_expect (p : Parser) (k : TokenKind) (message : string)
  : option Token * Parser :=
  if parser_check p k then parser_advance p
  else
    match parser_current p with
    | Some tok =>
        (None,
         set_error p
           (append message
           (append " at line " (append (string_of_nat (line tok))
           (append ", column " (append (string_of_nat (column tok))
           (append ". Got '" (append (token_kind_to_string (kind tok)) "'"))))))))
    | None => (None, set_error p (append message " at end of file"))
    end.

(** What a parsing function hands back: a node, or NULL, with the
    parser as it leaves it.  [PUndefined]: the C function has no defined
    behaviour on its input ([parse_function] hands a NULL lexeme to
    [strdup]). *)
Inductive PResult (A : Type) : Type :=
| POk (a : A) (p : Parser)
| PNull (p : Parser)
| POutOfFuel
| PUndefined.
Arguments POk {A} a p.
Arguments PNull {A} p.
Arguments POutOfFuel {A}.
Arguments PUndefined {A}.

(** [tok->lexeme] of a token pointer that is not NULL. *)
Definition token_lexeme (tok : option Token) : option string :=
  match tok with
  | Some t => lexeme t
  | None => None
  end.

(** The constructors of tinyllvm_ast.c return NULL for a NULL name. *)
Definition with_name {A : Type} (n : option string) (p : Parser)
  (build : string -> A) : PResult A :=
  match n with
  | Some s => POk (build s) p
  | None => PNull p
  end.

Definition expected_expression (p : Parser) : Parser :=
  match parser_current p with
  | Some tok =>
      set_error p
        (append "Expected expression at line "
        (append (string_of_nat (line tok))
        (append ", column " (append (string_of_nat (column tok))
        (append ". Got '" (append (token_kind_to_string (kind tok)) "'"))))))
  | None => set_error p "Expected expression but reached end of file"
  end.

(** [while (parser_match(p, k1) || parser_match(p, k2) || ...)]: the
    first kind that matches, with the kind of the node built for it. *)
Fixpoint match_operator (p : Parser) (ops : list (TokenKind * BinaryKind))
  : option (BinaryKind * Parser) :=
  match ops with
  | [] => None
  | (tk, bk) :: rest =>
      let '(m, p') := parser_match p tk in
      if m then Some (bk, p') else match_operator p rest
  end.

Definition factor_ops := [(TOKEN_STAR, BIN_MUL); (TOKEN_SLASH, BIN_DIV); (TOKEN_PERCENT, BIN_MOD)].
Definition term_ops := [(TOKEN_PLUS, BIN_ADD); (TOKEN_MINUS, BIN_SUB)].
Definition comparison_ops :=
  [(TOKEN_LT, BIN_LT); (TOKEN_LE, BIN_LE); (TOKEN_GT, BIN_GT); (TOKEN_GE, BIN_GE)].
Definition equality_ops := [(TOKEN_EQ, BIN_EQ); (TOKEN_NE, BIN_NE)].
Definition logical_and_ops := [(TOKEN_AND, BIN_AND)].
Definition logical_or_ops := [(TOKEN_OR, BIN_OR)].

Fixpoint parse_expression (fuel : nat) (p : Parser) : PResult ASTExpr :=
  match fuel with
  | O => POutOfFuel
  | S f => parse_logical_or f p
  end

with parse_primary (fuel : nat) (p : Parser) : PResult ASTExpr :=
  match fuel with
  | O => POutOfFuel
  | S f =>
      let '(m, p) := parser_match p TOKEN_INT_LITERAL in
      if m then
        match parser_previous p with
        | Some tok => POk (ast_expr_int_literal (value tok)) p
        | None => PNull p
        end
      else
      let '(m, p) := parser_match p TOKEN_TRUE in
      if m then POk (ast_expr_bool_literal true) p else
      let '(m, p) := parser_match p TOKEN_FALSE in
      if m then POk (ast_expr_bool_literal false) p else
      let '(m, p) := parser_match p TOKEN_IDENTIFIER in
      if m then
        let name_tok := parser_previous p in
        let '(m, p) := parser_match p TOKEN_LPAREN in
        if m then
          let parsed_args :=
            if negb (parser_check p TOKEN_RPAREN)
            then parse_arguments f p []
            else POk [] p in
          match parsed_args with
          | POk args p =>
              match parser_expect p TOKEN_RPAREN "Expected ')' after arguments" with
              | (None, p) => PNull p
              | (Some _, p) =>
                  with_name (token_lexeme name_tok) p
                            (fun n => ast_expr_call n args)
              end
          | PNull p => PNull p
          | POutOfFuel => POutOfFuel
          | PUndefined => PUndefined
          end
        else with_name (token_lexeme name_tok) p ast_expr_var
      else
      let '(m, p) := parser_match p TOKEN_LPAREN in
      if m then
        match parse_expression f p with
        | POk expr p =>
            match parser_expect p TOKEN_RPAREN "Expected ')' after expression" with
            | (None, p) => PNull p
            | (Some _, p) => POk expr p
            end
        | PNull p => PNull p
        | POutOfFuel => POutOfFuel
        | PUndefined => PUndefined
        end
      else PNull (expected_expression p)
  end

(** The [do ... while (parser_match(p, TOKEN_COMMA))] loop of a call. *)
with parse_arguments (fuel : nat) (p : Parser) (args : list ASTExpr)
  : PResult (list ASTExpr) :=
  match fuel with
  | O => POutOfFuel
  | S f =>
      match parse_expression f p with
      | POk arg p =>
          let args := args ++ [arg] in
          let '(m, p) := parser_match p TOKEN_COMMA in
          if m then parse_arguments f p args else POk args p
      | PNull p => PNull p
      | POutOfFuel => POutOfFuel
      | PUndefined => PUndefined
      end
  end

with parse_unary (fuel : nat) (p : Parser) : PResult ASTExpr :=
  match fuel with
  | O => POutOfFuel
  | S f =>
      let '(m, p') := parser_match p TOKEN_NOT in
      if m then
        match parse_unary f p' with
        | POk operand p => POk (ast_expr_unary operand) p
        | PNull p => PNull p
        | POutOfFuel => POutOfFuel
        | PUndefined => PUndefined
        end
      else parse_primary f p'
  end

with parse_factor (fuel : nat) (p : Parser) : PResult ASTExpr :=
  match fuel with
  | O => POutOfFuel
  | S f =>
      match parse_unary f p with
      | POk lhs p => parse_factor_loop f lhs p
      | PNull p => PNull p
      | POutOfFuel => POutOfFuel
      | PUndefined => PUndefined
      end
  end

with parse_factor_loop (fuel : nat) (lhs : ASTExpr) (p : Parser)
  : PResult ASTExpr :=
  match fuel with
  | O => POutOfFuel
  | S f =>
      match match_operator p factor_ops with
      | Some (k, p) =>
          match parse_unary f p with
          | POk rhs p => parse_factor_loop f (ast_expr_binary k lhs rhs) p
          | PNull p => PNull p
          | POutOfFuel => POutOfFuel
          | PUndefined => PUndefined
          end
      | None => POk lhs p
      end
  end

with parse_term (fuel : nat) (p : Parser) : PResult ASTExpr :=
  match fuel with
  | O => POutOfFuel
  | S f =>
      match parse_factor f p with
      | POk lhs p => parse_term_loop f lhs p
      | PNull p => PNull p
      | POutOfFuel => POutOfFuel
      | PUndefined => PUndefined
      end
  end

with parse_term_loop (fuel : nat) (lhs : ASTExpr) (p : Parser)
  : PResult ASTExpr :=
  match fuel with
  | O => POutOfFuel
  | S f =>
      match match_operator p term_ops with
      | Some (k, p) =>
          match parse_factor f p with
          | POk rhs p => parse_term_loop f (ast_expr_binary k lhs rhs) p
          | PNull p => PNull p
          | POutOfFuel => POutOfFuel
          | PUndefined => PUndefined
          end
      | None => POk lhs p
      end
  end

with parse_comparison (fuel : nat) (p : Parser) : PResult ASTExpr :=
  match fuel with
  | O => POutOfFuel
  | S f =>
      match parse_term f p with
      | POk lhs p => parse_comparison_loop f lhs p
      | PNull p => PNull p
      | POutOfFuel => POutOfFuel
      | PUndefined => PUndefined
      end
  end

with parse_comparison_loop (fuel : nat) (lhs : ASTExpr) (p : Parser)
  : PResult ASTExpr :=
  match fuel with
  | O => POutOfFuel
  | S f =>
      match match_operator p comparison_ops with
      | Some (k, p) =>
          match parse_term f p with
          | POk rhs p => parse_comparison_loop f (ast_expr_binary k lhs rhs) p
          | PNull p => PNull p
          | POutOfFuel => POutOfFuel
          | PUndefined => PUndefined
          end
      | None => POk lhs p
      end
  end

with parse_equality (fuel : nat) (p : Parser) : PResult ASTExpr :=
  match fuel with
  | O => POutOfFuel
  | S f =>
      match parse_comparison f p with
      | POk lhs p => parse_equality_loop f lhs p
      | PNull p => PNull p
      | POutOfFuel => POutOfFuel
      | PUndefined => PUndefined
      end
  end

with parse_equality_loop (fuel : nat) (lhs : ASTExpr) (p : Parser)
  : PResult ASTExpr :=
  match fuel with
  | O => POutOfFuel
  | S f =>
      match match_operator p equality_ops with
      | Some (k, p) =>
          match parse_comparison f p with
          | POk rhs p => parse_equality_loop f (ast_expr_binary k lhs rhs) p
          | PNull p => PNull p
          | POutOfFuel => POutOfFuel
          | PUndefined => PUndefined
          end
      | None => POk lhs p
      end
  end

with parse_logical_and (fuel : nat) (p : Parser) : PResult ASTExpr :=
  match fuel with
  | O => POutOfFuel
  | S f =>
      match parse_equality f p with
      | POk lhs p => parse_logical_and_loop f lhs p
      | PNull p => PNull p
      | POutOfFuel => POutOfFuel
      | PUndefined => PUndefined
      end
  end

with parse_logical_and_loop (fuel : nat) (lhs : ASTExpr) (p : Parser)
  : PResult ASTExpr :=
  match fuel with
  | O => POutOfFuel
  | S f =>
      match match_operator p logical_and_ops with
      | Some (k, p) =>
          match parse_equality f p with
          | POk rhs p => parse_logical_and_loop f (ast_expr_binary k lhs rhs) p
          | PNull p => PNull p
          | POutOfFuel => POutOfFuel
          | PUndefined => PUndefined
          end
      | None => POk lhs p
      end
  end

with parse_logical_or (fuel : nat) (p : Parser) : PResult ASTExpr :=
  match fuel with
  | O => POutOfFuel
  | S f =>
      match parse_logical_and f p with
      | POk lhs p => parse_logical_or_loop f lhs p
      | PNull p => PNull p
      | POutOfFuel => POutOfFuel
      | PUndefined => PUndefined
      end
  end

with parse_logical_or_loop (fuel : nat) (lhs : ASTExpr) (p : Parser)
  : PResult ASTExpr :=
  match fuel with
  | O => POutOfFuel
  | S f =>
      match match_operator p logical_or_ops with
      | Some (k, p) =>
          match parse_logical_and f p with
          | POk rhs p => parse_logical_or_loop f (ast_expr_binary k lhs rhs) p
          | PNull p => PNull p
          | POutOfFuel => POutOfFuel
          | PUndefined => PUndefined
          end
      | None => POk lhs p
      end
  end.

(** [parse_type]; the state carries [has_error] when no type was found. *)
Definition parse_type (p : Parser) : Type_ * Parser :=
  let '(m, p) := parser_match p TOKEN_INT in
  if m then (type_int, p) else
  let '(m, p) := parser_match p TOKEN_BOOL in
  if m then (type_bool, p) else
  match parser_current p with
  | Some tok =>
      (type_int,
       set_error p
         (append "Expected type at line "
         (append (string_of_nat (line tok))
         (append ", column " (string_of_nat (column tok))))))
  | None => (type_int, set_error p "Expected type but reached end of file")
  end.

Definition parse_var_decl (fuel : nat) (p : Parser) : PResult ASTStmt :=
  match parser_expect p TOKEN_IDENTIFIER "Expected variable name" with
  | (None, p) => PNull p
  | (Some name_tok, p) =>
      match parser_expect p TOKEN_ASSIGN "Expected '=' after variable name" with
      | (None, p) => PNull p
      | (Some _, p) =>
          match parse_expression fuel p with
          | POk init p =>
              match parser_expect p TOKEN_SEMICOLON
                      "Expected ';' after variable declaration" with
              | (None, p) => PNull p
              | (Some _, p) =>
                  with_name (lexeme name_tok) p
                            (fun n => ast_stmt_var_decl n type_int init)
              end
          | PNull p => PNull p
          | POutOfFuel => POutOfFuel
          | PUndefined => PUndefined
          end
      end
  end.

Definition parse_return_statement (fuel : nat) (p : Parser) : PResult ASTStmt :=
  let parsed :=
    if negb (parser_check p TOKEN_SEMICOLON) then
      match parse_expression fuel p with
      | POk e p => POk (Some e) p
      | PNull p => PNull p
      | POutOfFuel => POutOfFuel
      | PUndefined => PUndefined
      end
    else POk None p in
  match parsed with
  | POk expr p =>
      match parser_expect p TOKEN_SEMICOLON "Expected ';' after return" with
      | (None, p) => PNull p
      | (Some _, p) => POk (ast_stmt_return expr) p
      end
  | PNull p => PNull p
  | POutOfFuel => POutOfFuel
  | PUndefined => PUndefined
  end.

Fixpoint parse_statement (fuel : nat) (p : Parser) : PResult ASTStmt :=
  match fuel with
  | O => POutOfFuel
  | S f =>
      let '(m, p) := parser_match p TOKEN_VAR in
      if m then parse_var_decl f p else
      let '(m, p) := parser_match p TOKEN_IF in
      if m then parse_if_statement f p else
      let '(m, p) := parser_match p TOKEN_WHILE in
      if m then parse_while_statement f p else
      let '(m, p) := parser_match p TOKEN_RETURN in
      if m then parse_return_statement f p else
      if parser_check p TOKEN_LBRACE then parse_block f p else
      let checkpoint := p_current p in
      let assignment :=
        if parser_check p TOKEN_IDENTIFIER then
          let '(name_tok, p) := parser_advance p in
          let '(m, p) := parser_match p TOKEN_ASSIGN in
          if m then
            Some
              match parse_expression f p with
              | POk expr p =>
                  match parser_expect p TOKEN_SEMICOLON
                          "Expected ';' after assignment" with
                  | (None, p) => PNull p
                  | (Some _, p) =>
                      with_name (token_lexeme name_tok) p
                                (fun n => ast_stmt_assign n expr)
                  end
              | PNull p => PNull p
              | POutOfFuel => POutOfFuel
              | PUndefined => PUndefined
              end
          else None
        else None in
      match assignment with
      | Some r => r
      | None =>
          (* not an assignment: [p->current = checkpoint] *)
          let p := set_current p checkpoint in
          match parse_expression f p with
          | POk expr p =>
              match parser_expect p TOKEN_SEMICOLON
                      "Expected ';' after expression" with
              | (None, p) => PNull p
              | (Some _, p) => POk (ast_stmt_expr expr) p
              end
          | PNull p => PNull p
          | POutOfFuel => POutOfFuel
          | PUndefined => PUndefined
          end
      end
  end

with parse_if_statement (fuel : nat) (p : Parser) : PResult ASTStmt :=
  match fuel with
  | O => POutOfFuel
  | S f =>
      match parser_expect p TOKEN_LPAREN "Expected '(' after 'if'" with
      | (None, p) => PNull p
      | (Some _, p) =>
          match parse_expression f p with
          | POk condition p =>
              match parser_expect p TOKEN_RPAREN "Expected ')' after condition" with
              | (None, p) => PNull p
              | (Some _, p) =>
                  match parse_block f p with
                  | POk then_block p =>
                      let '(m, p) := parser_match p TOKEN_ELSE in
                      if m then
                        match parse_block f p with
                        | POk else_block p =>
                            POk (ast_stmt_if condition then_block (Some else_block)) p
                        | PNull p => PNull p
                        | POutOfFuel => POutOfFuel
                        | PUndefined => PUndefined
                        end
                      else POk (ast_stmt_if condition then_block None) p
                  | PNull p => PNull p
                  | POutOfFuel => POutOfFuel
                  | PUndefined => PUndefined
                  end
              end
          | PNull p => PNull p
          | POutOfFuel => POutOfFuel
          | PUndefined => PUndefined
          end
      end
  end

with parse_while_statement (fuel : nat) (p : Parser) : PResult ASTStmt :=
  match fuel with
  | O => POutOfFuel
  | S f =>
      match parser_expect p TOKEN_LPAREN "Expected '(' after 'while'" with
      | (None, p) => PNull p
      | (Some _, p) =>
          match parse_expression f p with
          | POk condition p =>
              match parser_expect p TOKEN_RPAREN "Expected ')' after condition" with
              | (None, p) => PNull p
              | (Some _, p) =>
                  match parse_block f p with
                  | POk body p => POk (ast_stmt_while condition body) p
                  | PNull p => PNull p
                  | POutOfFuel => POutOfFuel
                  | PUndefined => PUndefined
                  end
              end
          | PNull p => PNull p
          | POutOfFuel => POutOfFuel
          | PUndefined => PUndefined
          end
      end
  end

with parse_block (fuel : nat) (p : Parser) : PResult ASTStmt :=
  match fuel with
  | O => POutOfFuel
  | S f =>
      match parser_expect p TOKEN_LBRACE "Expected '{'" with
      | (None, p) => PNull p
      | (Some _, p) =>
          match parse_block_loop f p [] with
          | POk statements p =>
              match parser_expect p TOKEN_RBRACE "Expected '}'" with
              | (None, p) => PNull p
              | (Some _, p) => POk (ast_stmt_block statements) p
              end
          | PNull p => PNull p
          | POutOfFuel => POutOfFuel
          | PUndefined => PUndefined
          end
      end
  end

(** [while (!parser_check(p, TOKEN_RBRACE) && !parser_is_at_end(p))] *)
with parse_block_loop (fuel : nat) (p : Parser) (statements : list ASTStmt)
  : PResult (list ASTStmt) :=
  match fuel with
  | O => POutOfFuel
  | S f =>
      if negb (parser_check p TOKEN_RBRACE) && negb (parser_is_at_end p) then
        match parse_statement f p with
        | POk stmt p => parse_block_loop f p (statements ++ [stmt])
        | PNull p => PNull p
        | POutOfFuel => POutOfFuel
        | PUndefined => PUndefined
        end
      else POk statements p
  end.

(** The [do ... while (parser_match(p, TOKEN_COMMA))] loop of
    [parse_function]. *)
Fixpoint parse_parameters (fuel : nat) (p : Parser) (ps : list Param)
  : PResult (list Param) :=
  match fuel with
  | O => POutOfFuel
  | S f =>
      match parser_expect p TOKEN_IDENTIFIER "Expected parameter name" with
      | (None, p) => PNull p
      | (Some pname, p) =>
          match parser_expect p TOKEN_COLON "Expected ':' after parameter name" with
          | (None, p) => PNull p
          | (Some _, p) =>
              let '(ptype, p) := parse_type p in
              if has_error p then PNull p
              else
                match lexeme pname with
                | None => PUndefined (* [strdup(param_name->lexeme)] *)
                | Some n =>
                    let ps := ps ++ [mkParam (CStr.strdup n) ptype] in
                    let '(m, p) := parser_match p TOKEN_COMMA in
                    if m then parse_parameters f p ps else POk ps p
                end
          end
      end
  end.

Definition parse_function (fuel : nat) (p : Parser) : PResult ASTFunc :=
  match parser_expect p TOKEN_FUNC "Expected 'func'" with
  | (None, p) => PNull p
  | (Some _, p) =>
  match parser_expect p TOKEN_IDENTIFIER "Expected function name" with
  | (None, p) => PNull p
  | (Some name_tok, p) =>
  match parser_expect p TOKEN_LPAREN "Expected '(' after function name" with
  | (None, p) => PNull p
  | (Some _, p) =>
  match (if negb (parser_check p TOKEN_RPAREN)
         then parse_parameters fuel p [] else POk [] p) with
  | PNull p => PNull p
  | POutOfFuel => POutOfFuel
  | PUndefined => PUndefined
  | POk ps p =>
  match parser_expect p TOKEN_RPAREN "Expected ')' after parameters" with
  | (None, p) => PNull p
  | (Some _, p) =>
  match parser_expect p TOKEN_COLON "Expected ':' before return type" with
  | (None, p) => PNull p
  | (Some _, p) =>
      let '(rt, p) := parse_type p in
      if has_error p then PNull p
      else
        match parse_block fuel p with
        | POk b p =>
            with_name (lexeme name_tok) p (fun n => ast_func_create n ps rt b)
        | PNull p => PNull p
        | POutOfFuel => POutOfFuel
        | PUndefined => PUndefined
        end
  end end end end end end.

(** [while (!parser_is_at_end(p))] of [parse_program]. *)
Fixpoint parse_program_loop (fuel : nat) (p : Parser) (fs : list ASTFunc)
  : PResult (list ASTFunc) :=
  match fuel with
  | O => POutOfFuel
  | S f =>
      if negb (parser_is_at_end p) then
        match parse_function f p with
        | POk func p => parse_program_loop f p (fs ++ [func])
        | PNull p => PNull p
        | POutOfFuel => POutOfFuel
        | PUndefined => PUndefined
        end
      else POk fs p
  end.

Definition parse_program (fuel : nat) (p : Parser) : PResult ASTProgram :=
  match parse_program_loop fuel p [] with
  | POk [] p => PNull (set_error p "Program must contain at least one function")
  | POk fs p => POk (ast_program_create fs) p
  | PNull p => PNull p
  | POutOfFuel => POutOfFuel
  | PUndefined => PUndefined
  end.

(** What [parse_tokens] hands back: the program pointer (None for NULL)
    and the text it wrote to the caller's [error_msg] buffer, if it wrote
    any. *)
Inductive ParseOutcome : Set :=
| Parsed (program : option ASTProgram) (message : option string)
| ParseOutOfFuel
| ParseUndefined.

Definition parse_tokens_fuel (fuel : nat) (toks : TokenList) : ParseOutcome :=
  match toks with
  | [] => Parsed None (Some "No tokens to parse")
  | _ =>
      let parser := mkParser toks 0 "" false in
      let report p :=
        if has_error p then Some (error_msg p) else None in
      match parse_program fuel parser with
      | POk program p => Parsed (Some program) (report p)
      | PNull p => Parsed None (report p)
      | POutOfFuel => ParseOutOfFuel
      | PUndefined => ParseUndefined
      end
  end.

(** Between two consumed tokens the descent is less than 32 calls deep. *)
Definition parser_fuel (toks : TokenList) : nat :=
  (32 * (List.length toks + 1))%nat.

Definition parse_tokens (toks : TokenList) : ParseOutcome :=
  parse_tokens_fuel (parser_fuel toks) toks.

(** [p'] is [p] after some tokens were consumed and no error was
    recorded. *)
Definition advanced (p p' : Parser) : Prop :=
  p_tokens p' = p_tokens p
  /\ error_msg p' = error_msg p
  /\ has_error p' = has_error p
  /\ (p_current p <= p_current p')%nat.

(** The tokens from the current one on. *)
Definition tokens_left (p : Parser) : nat :=
  (List.length (p_tokens p) - p_current p)%nat.

(** Every identifier token carries its text. *)
Definition identifiers_named (toks : TokenList) : Prop :=
  Forall (fun t => kind t = TOKEN_IDENTIFIER -> lexeme t <> None) toks.

(** [lex_source] followed by [parse_tokens]. *)
Definition parse_source (s : string) : option ParseOutcome :=
  match Lexer.lex_source s with
  | Some toks => Some (parse_tokens toks)
  | None => None
  end.

Definition print_source : string :=
  "func main() : int { var b = true; print(1); return 0; }".

Definition duplicate_parameter_source : string :=
  "func f(a: int, a: bool) : int { return a; }".

Definition print_tokens : TokenList :=
  match Lexer.lex_source print_source with
  | Some toks => toks
  | None => []
  end.

End Parser.

(* ------------------------------------------------------------------ *)
(** ** tinyllvm_typechecker.c

    The checker annotates the tree in place; here every function returns
    the tree as it has left it, also when it fails.  A scope points to
    its parent; while a child scope is live nothing is added to an
    ancestor, so a scope holds its parent by value. *)

Module TypeChecker.
Import AST.

Record Symbol : Set := mkSymbol {
  sym_name : string;
  sym_type : Type_;
  is_function : bool;
  param_types : list Type_
}.

Definition param_count (sym : Symbol) : nat := List.length (param_types sym).

Inductive SymbolTable : Set :=
| mkSymbolTable (symbols : list Symbol) (parent : option SymbolTable).

Definition symbols (t : SymbolTable) : list Symbol :=
  match t with mkSymbolTable l _ => l end.

Definition parent (t : SymbolTable) : option SymbolTable :=
  match t with mkSymbolTable _ p => p end.

Definition symbol_table_create (parent : option SymbolTable) : SymbolTable :=
  mkSymbolTable [] parent.

(** The loop over one scope: the first symbol with the name. *)
Fixpoint find_symbol (l : list Symbol) (n : string) : option Symbol :=
  match l with
  | [] => None
  | sym :: rest =>
      if CStr.strcmp_eq (sym_name sym) n then Some sym else find_symbol rest n
  end.

Fixpoint symbol_table_lookup (table : SymbolTable) (n : string) : option Symbol :=
  match table with
  | mkSymbolTable l p =>
      match find_symbol l n with
      | Some sym => Some sym
      | None =>
          match p with
          | Some t => symbol_table_lookup t n
          | None => None
          end
      end
  end.

Definition symbol_table_add (table : SymbolTable) (n : string) (t : Type_)
  (is_fn : bool) (ptypes : list Type_) : bool * SymbolTable :=
  match find_symbol (symbols table) n with
  | Some _ => (false, table)
  | None =>
      (true,
       mkSymbolTable (symbols table ++ [mkSymbol (CStr.strdup n) t is_fn ptypes])
                     (parent table))
  end.

Record TypeChecker : Set := mkTypeChecker {
  globals : SymbolTable;
  current_scope : SymbolTable;
  current_function_return_type : Type_;
  tc_error_msg : string;
  tc_has_error : bool
}.

Definition fmt (parts : list string) : string := String.concat "" parts.

(** [vsnprintf(tc->error_msg, sizeof(tc->error_msg), ...)] *)
Definition type_error (tc : TypeChecker) (msg : string) : TypeChecker :=
  mkTypeChecker (globals tc) (current_scope tc)
    (current_function_return_type tc) (EC.snprintf_buf 1024 msg) true.

Definition set_scope (tc : TypeChecker) (scope : SymbolTable) : TypeChecker :=
  mkTypeChecker (globals tc) scope (current_function_return_type tc)
    (tc_error_msg tc) (tc_has_error tc).

Definition is_kind (t : Type_) (k : TypeKind) : bool :=
  type_kind_eqb (type_kind t) k.

(** The operand checks shared by the cases of the arithmetic, the
    comparison and the logical operators once both operands are checked. *)
Definition check_operands (tc : TypeChecker) (k : BinaryKind) (ty : Type_)
  (l r : ASTExpr) (operand : TypeKind) (what : string) (result : Type_)
  : bool * TypeChecker * ASTExpr :=
  if negb (is_kind (expr_type l) operand)
  then (false, type_error tc (fmt [what; type_to_string (expr_type l)]),
        ExprBinary k ty l r)
  else if negb (is_kind (expr_type r) operand)
  then (false, type_error tc (fmt [what; type_to_string (expr_type r)]),
        ExprBinary k ty l r)
  else (true, tc, ExprBinary k result l r).

Definition string_of_nat (n : nat) : string := Parser.string_of_nat n.

Fixpoint check_expression (tc : TypeChecker) (expr : ASTExpr) {struct expr}
  : bool * TypeChecker * ASTExpr :=
  match expr with
  | ExprIntLiteral _ v => (true, tc, ExprIntLiteral type_int v)
  | ExprBoolLiteral _ v => (true, tc, ExprBoolLiteral type_bool v)
  | ExprVar ty n =>
      match symbol_table_lookup (current_scope tc) n with
      | None =>
          (false, type_error tc (fmt ["Undefined variable '"; n; "'"]), expr)
      | Some sym =>
          if is_function sym
          then (false,
                type_error tc (fmt ["'"; n; "' is a function, not a variable"]),
                expr)
          else (true, tc, ExprVar (sym_type sym) n)
      end
  | ExprBinary k ty l r =>
      let '(ok, tc, l) := check_expression tc l in
      if negb ok then (false, tc, ExprBinary k ty l r) else
      let '(ok, tc, r) := check_expression tc r in
      if negb ok then (false, tc, ExprBinary k ty l r) else
      match k with
      | BIN_ADD | BIN_SUB | BIN_MUL | BIN_DIV | BIN_MOD =>
          check_operands tc k ty l r TYPE_INT
            "Arithmetic operator requires int, got " type_int
      | BIN_LT | BIN_LE | BIN_GT | BIN_GE =>
          check_operands tc k ty l r TYPE_INT
            "Comparison requires int, got " type_bool
      | BIN_EQ | BIN_NE =>
          if negb (type_equals (expr_type l) (expr_type r))
          then (false,
                type_error tc
                  (fmt ["Equality comparison requires same types, got ";
                        type_to_string (expr_type l); " and ";
                        type_to_string (expr_type r)]),
                ExprBinary k ty l r)
          else (true, tc, ExprBinary k type_bool l r)
      | BIN_AND | BIN_OR =>
          check_operands tc k ty l r TYPE_BOOL
            "Logical operator requires bool, got " type_bool
      end
  | ExprNot ty operand =>
      let '(ok, tc, operand) := check_expression tc operand in
      if negb ok then (false, tc, ExprNot ty operand) else
      if negb (is_kind (expr_type operand) TYPE_BOOL)
      then (false,
            type_error tc
              (fmt ["Logical NOT requires bool, got ";
                    type_to_string (expr_type operand)]),
            ExprNot ty operand)
      else (true, tc, ExprNot type_bool operand)
  | ExprCall ty fname args =>
      match symbol_table_lookup (current_scope tc) fname with
      | None =>
          (false, type_error tc (fmt ["Undefined function '"; fname; "'"]), expr)
      | Some sym =>
          if negb (is_function sym)
          then (false, type_error tc (fmt ["'"; fname; "' is not a function"]),
                expr)
          else if negb (List.length args =? param_count sym)%nat
          then (false,
                type_error tc
                  (fmt ["Function '"; fname; "' expects ";
                        string_of_nat (param_count sym); " arguments, got ";
                        string_of_nat (List.length args)]),
                expr)
          else
            (* [for (i = 0; i < arg_count; i++)]; [sym->param_types[i]]
               exists because the two counts are equal *)
            let fix check_arguments (tc : TypeChecker) (rest : list ASTExpr)
                  (i : nat) {struct rest} : bool * TypeChecker * list ASTExpr :=
              match rest with
              | [] => (true, tc, [])
              | a :: rest' =>
                  let '(ok, tc, a) := check_expression tc a in
                  if negb ok then (false, tc, a :: rest') else
                  let pt := nth i (param_types sym) type_int in
                  if negb (type_equals (expr_type a) pt)
                  then (false,
                        type_error tc
                          (fmt ["Function '"; fname; "' parameter ";
                                string_of_nat (i + 1); " expects ";
                                type_to_string pt; ", got ";
                                type_to_string (expr_type a)]),
                        a :: rest')
                  else
                    let '(ok, tc, rest') := check_arguments tc rest' (S i) in
                    (ok, tc, a :: rest')
              end in
            let '(ok, tc, args) := check_arguments tc args 0%nat in
            if ok then (true, tc, ExprCall (sym_type sym) fname args)
            else (false, tc, ExprCall ty fname args)
      end
  end.

Fixpoint check_statement (tc : TypeChecker) (stmt : ASTStmt) {struct stmt}
  : bool * TypeChecker * ASTStmt :=
  match stmt with
  | StmtVarDecl n ty init =>
      let '(ok, tc, init) := check_expression tc init in
      if negb ok then (false, tc, StmtVarDecl n ty init) else
      let ty := expr_type init in
      let '(added, scope) :=
        symbol_table_add (current_scope tc) n ty false [] in
      if negb added
      then (false,
            type_error tc (fmt ["Variable '"; n; "' already declared"]),
            StmtVarDecl n ty init)
      else (true, set_scope tc scope, StmtVarDecl n ty init)
  | StmtAssign n e =>
      match symbol_table_lookup (current_scope tc) n with
      | None =>
          (false, type_error tc (fmt ["Undefined variable '"; n; "'"]), stmt)
      | Some sym =>
          if is_function sym
          then (false,
                type_error tc (fmt ["Cannot assign to function '"; n; "'"]),
                stmt)
          else
            let '(ok, tc, e) := check_expression tc e in
            if negb ok then (false, tc, StmtAssign n e) else
            if negb (type_equals (sym_type sym) (expr_type e))
            then (false,
                  type_error tc
                    (fmt ["Cannot assign "; type_to_string (expr_type e);
                          " to variable of type ";
                          type_to_string (sym_type sym)]),
                  StmtAssign n e)
            else (true, tc, StmtAssign n e)
      end
  | StmtIf c t e =>
      let '(ok, tc, c) := check_expression tc c in
      if negb ok then (false, tc, StmtIf c t e) else
      if negb (is_kind (expr_type c) TYPE_BOOL)
      then (false,
            type_error tc
              (fmt ["If condition must be bool, got ";
                    type_to_string (expr_type c)]),
            StmtIf c t e)
      else
        let '(ok, tc, t) := check_statement tc t in
        if negb ok then (false, tc, StmtIf c t e) else
        match e with
        | Some eb =>
            let '(ok, tc, eb) := check_statement tc eb in
            (ok, tc, StmtIf c t (Some eb))
        | None => (true, tc, StmtIf c t None)
        end
  | StmtWhile c b =>
      let '(ok, tc, c) := check_expression tc c in
      if negb ok then (false, tc, StmtWhile c b) else
      if negb (is_kind (expr_type c) TYPE_BOOL)
      then (false,
            type_error tc
              (fmt ["While condition must be bool, got ";
                    type_to_string (expr_type c)]),
            StmtWhile c b)
      else
        let '(ok, tc, b) := check_statement tc b in
        (ok, tc, StmtWhile c b)
  | StmtReturn (Some e) =>
      let '(ok, tc, e) := check_expression tc e in
      if negb ok then (false, tc, StmtReturn (Some e)) else
      if negb (type_equals (expr_type e) (current_function_return_type tc))
      then (false,
            type_error tc
              (fmt ["Return type mismatch: expected ";
                    type_to_string (current_function_return_type tc);
                    ", got "; type_to_string (expr_type e)]),
            StmtReturn (Some e))
      else (true, tc, StmtReturn (Some e))
  | StmtReturn None =>
      if negb (is_kind (current_function_return_type tc) TYPE_VOID)
      then (false,
            type_error tc
              (fmt ["Function must return ";
                    type_to_string (current_function_return_type tc)]),
            stmt)
      else (true, tc, stmt)
  | StmtExpr e =>
      let '(ok, tc, e) := check_expression tc e in
      (ok, tc, StmtExpr e)
  | StmtBlock l =>
      let prev_scope := current_scope tc in
      let tc := set_scope tc (symbol_table_create (Some prev_scope)) in
      let fix check_statements (tc : TypeChecker) (rest : list ASTStmt)
            {struct rest} : bool * TypeChecker * list ASTStmt :=
        match rest with
        | [] => (true, tc, [])
        | s :: rest' =>
            let '(ok, tc, s) := check_statement tc s in
            if negb ok then (false, tc, s :: rest')
            else
              let '(ok, tc, rest') := check_statements tc rest' in
              (ok, tc, s :: rest')
        end in
      let '(success, tc, l) := check_statements tc l in
      (success, set_scope tc prev_scope, StmtBlock l)
  end.

(** [check_function] is defined in the source file and called from
    nowhere. *)
Fixpoint add_parameters_checked (scope : SymbolTable) (ps : list Param)
  : option string * SymbolTable :=
  match ps with
  | [] => (None, scope)
  | prm :: rest =>
      match symbol_table_add scope (param_name prm) (param_type prm) false [] with
      | (false, scope) => (Some (param_name prm), scope)
      | (true, scope) => add_parameters_checked scope rest
      end
  end.

Definition with_globals (tc : TypeChecker) (g : SymbolTable) : TypeChecker :=
  mkTypeChecker g (current_scope tc) (current_function_return_type tc)
    (tc_error_msg tc) (tc_has_error tc).

Definition enter_function (tc : TypeChecker) (scope : SymbolTable)
  (rt : Type_) : TypeChecker :=
  mkTypeChecker (globals tc) scope rt (tc_error_msg tc) (tc_has_error tc).

Definition check_function (tc : TypeChecker) (func : ASTFunc)
  : bool * TypeChecker * ASTFunc :=
  let ptypes := List.map param_type (params func) in
  match symbol_table_add (globals tc) (func_name func) (return_type func)
          true ptypes with
  | (false, _) =>
      (false,
       type_error tc (fmt ["Function '"; func_name func; "' already declared"]),
       func)
  | (true, g) =>
      let tc := with_globals tc g in
      let func_scope := symbol_table_create (Some (globals tc)) in
      match add_parameters_checked func_scope (params func) with
      | (Some dup, _) =>
          (false, type_error tc (fmt ["Duplicate parameter '"; dup; "'"]), func)
      | (None, func_scope) =>
          let tc := enter_function tc func_scope (return_type func) in
          let '(success, tc, b) := check_statement tc (body func) in
          (success, set_scope tc (globals tc),
           mkFunc (func_name func) (params func) (return_type func) b)
      end
  end.

(** First pass of [type_check_program]: the signatures.  [inl name] is
    the function whose registration failed. *)
Fixpoint register_signatures (g : SymbolTable) (fs : list ASTFunc)
  : string + SymbolTable :=
  match fs with
  | [] => inr g
  | func :: rest =>
      match symbol_table_add g (func_name func) (return_type func) true
              (List.map param_type (params func)) with
      | (false, _) => inl (func_name func)
      | (true, g) => register_signatures g rest
      end
  end.

(** The parameter loop of the second pass: the result of
    [symbol_table_add] is not looked at. *)
Fixpoint add_parameters (scope : SymbolTable) (ps : list Param) : SymbolTable :=
  match ps with
  | [] => scope
  | prm :: rest =>
      add_parameters
        (snd (symbol_table_add scope (param_name prm) (param_type prm) false []))
        rest
  end.

(** Second pass: the bodies.  The functions are returned as the pass
    has left them. *)
Fixpoint check_bodies (tc : TypeChecker) (fs : list ASTFunc)
  : bool * TypeChecker * list ASTFunc :=
  match fs with
  | [] => (true, tc, [])
  | func :: rest =>
      let func_scope :=
        add_parameters (symbol_table_create (Some (globals tc))) (params func) in
      let tc := enter_function tc func_scope (return_type func) in
      let '(ok, tc, b) := check_statement tc (body func) in
      let func := mkFunc (func_name func) (params func) (return_type func) b in
      if negb ok then (false, tc, func :: rest)
      else
        let '(ok, tc, rest) := check_bodies tc rest in
        (ok, tc, func :: rest)
  end.

(** The result of [type_check_program], the text written to the
    caller's [error_msg] (None when nothing is written) and the program
    as the checker has left it. *)
Definition type_check_program (program : ASTProgram)
  : bool * option string * ASTProgram :=
  let g := symbol_table_create None in
  let g := snd (symbol_table_add g "print" type_void true [type_int]) in
  match register_signatures g (functions program) with
  | inl dup =>
      (false, Some (EC.snprintf_buf 1024 (fmt ["Duplicate function '"; dup; "'"])),
       program)
  | inr g =>
      let tc := mkTypeChecker g g type_int "" false in
      let '(ok, tc, fs) := check_bodies tc (functions program) in
      if ok then (true, None, mkProgram fs)
      else (false, Some (tc_error_msg tc), mkProgram fs)
  end.

(** *** What the checker leaves in the tree *)

(** [ty] is the return type declared for the function that the name [n]
    refers to: the built-in [print], or a function of [fs]. *)
Definition callee_type (fs : list ASTFunc) (n : string) (ty : Type_) : Prop :=
  (CStr.strcmp_eq "print" n = true /\ ty = type_void)
  \/ exists f, In f fs
       /\ CStr.strcmp_eq (CStr.strdup (func_name f)) n = true
       /\ ty = return_type f.

(** The type field of a checked expression node. *)
Definition node_typed (fs : list ASTFunc) (e : ASTExpr) : Prop :=
  match e with
  | ExprCall ty n _ => callee_type fs n ty
  | ExprVar _ _ => True
  | _ => int_or_bool (expr_type e)
  end.

(** A checked statement node: a declaration has the type of its
    initialiser, and the expressions of the node are typed. *)
Definition stmt_checked (fs : list ASTFunc) (s : ASTStmt) : Prop :=
  match s with
  | StmtVarDecl _ ty init => ty = expr_type init
  | _ => True
  end
  /\ Forall (node_typed fs) (List.flat_map expr_nodes (stmt_expressions s)).

(** Every function symbol that a lookup from [scope] reaches belongs to
    a declared function. *)
Definition functions_declared (fs : list ASTFunc) (scope : SymbolTable) : Prop :=
  forall n sym,
    symbol_table_lookup scope n = Some sym ->
    is_function sym = true ->
    callee_type fs n (sym_type sym).

(** [ty] and [pts] are the return type and the parameter types
    declared for the function that the name [n] refers to. *)
Definition callee_signature (fs : list ASTFunc) (n : string) (ty : Type_)
  (pts : list Type_) : Prop :=
  (CStr.strcmp_eq "print" n = true /\ ty = type_void /\ pts = [type_int])
  \/ exists f, In f fs
       /\ CStr.strcmp_eq (CStr.strdup (func_name f)) n = true
       /\ ty = return_type f
       /\ pts = List.map param_type (params f).

(** The type rules of the header of tinyllvm_typechecker.c, at one
    expression node. *)
Definition node_rule (fs : list ASTFunc) (e : ASTExpr) : Prop :=
  match e with
  | ExprIntLiteral ty _ => ty = type_int
  | ExprBoolLiteral ty _ => ty = type_bool
  | ExprVar _ _ => True
  | ExprBinary k ty l r =>
      match k with
      | BIN_ADD | BIN_SUB | BIN_MUL | BIN_DIV | BIN_MOD =>
          expr_type l = type_int /\ expr_type r = type_int /\ ty = type_int
      | BIN_LT | BIN_LE | BIN_GT | BIN_GE =>
          expr_type l = type_int /\ expr_type r = type_int /\ ty = type_bool
      | BIN_EQ | BIN_NE => expr_type l = expr_type r /\ ty = type_bool
      | BIN_AND | BIN_OR =>
          expr_type l = type_bool /\ expr_type r = type_bool /\ ty = type_bool
      end
  | ExprNot ty o => expr_type o = type_bool /\ ty = type_bool
  | ExprCall ty n a =>
      callee_signature fs n ty (List.map expr_type a)
  end.

(** The rules at one statement node of a function that returns [rt]. *)
Definition stmt_rule (rt : Type_) (s : ASTStmt) : Prop :=
  match s with
  | StmtIf c _ _ | StmtWhile c _ => expr_type c = type_bool
  | StmtReturn (Some e) => expr_type e = rt
  | StmtReturn None => rt = type_void
  | _ => True
  end.

(** Every function symbol that a lookup from [scope] reaches carries
    the signature of a declared function. *)
Definition signatures_declared (fs : list ASTFunc) (scope : SymbolTable) : Prop :=
  forall n sym,
    symbol_table_lookup scope n = Some sym ->
    is_function sym = true ->
    callee_signature fs n (sym_type sym) (param_types sym).

Definition symbol_signature (fs : list ASTFunc) (sym : Symbol) : Prop :=
  (sym_name sym = "print" /\ sym_type sym = type_void
   /\ param_types sym = [type_int])
  \/ exists f, In f fs
       /\ sym_name sym = CStr.strdup (func_name f)
       /\ sym_type sym = return_type f
       /\ param_types sym = List.map param_type (params f).

(** The symbols of the global table: [print] and the functions of the
    program. *)
Definition symbol_declared (fs : list ASTFunc) (sym : Symbol) : Prop :=
  (sym_name sym = "print" /\ sym_type sym = type_void)
  \/ exists f, In f fs
       /\ sym_name sym = CStr.strdup (func_name f)
       /\ sym_type sym = return_type f.

Definition table_declared (fs : list ASTFunc) (g : SymbolTable) : Prop :=
  parent g = None /\ Forall (symbol_declared fs) (symbols g).

(** A variable reference bound in [scope]: the name resolves to a symbol
    that is not a function, and the node has the type of that symbol. *)
Definition var_bound (scope : SymbolTable) (e : ASTExpr) : Prop :=
  match e with
  | ExprVar ty n =>
      exists sym,
        symbol_table_lookup scope n = Some sym
        /\ is_function sym = false
        /\ ty = sym_type sym
  | _ => True
  end.

(** Every variable reference of an expression is bound in [scope]. *)
Definition expr_scoped (scope : SymbolTable) (e : ASTExpr) : Prop :=
  Forall (var_bound scope) (expr_nodes e).

(** The scope that a checked statement leaves behind: a declaration
    adds its variable, with the type of the declaration, to the current
    scope, and a block gives back the scope it was entered in. *)
Fixpoint scope_after (scope : SymbolTable) (s : ASTStmt) : SymbolTable :=
  match s with
  | StmtVarDecl n ty _ => snd (symbol_table_add scope n ty false [])
  | StmtIf _ t (Some e) => scope_after (scope_after scope t) e
  | StmtIf _ t None => scope_after scope t
  | StmtWhile _ b => scope_after scope b
  | StmtAssign _ _ | StmtReturn _ | StmtExpr _ | StmtBlock _ => scope
  end.

(** A checked statement in [scope]: the variable references of its
    expressions are bound in the scope that is current where they stand,
    an assignment goes to a variable of the type of its expression, and
    a block has a scope of its own below the scope it stands in. *)
Fixpoint stmt_scoped (scope : SymbolTable) (s : ASTStmt) {struct s} : Prop :=
  match s with
  | StmtVarDecl n ty init =>
      expr_scoped scope init
      /\ fst (symbol_table_add scope n ty false []) = true
  | StmtAssign n e =>
      (exists sym,
         symbol_table_lookup scope n = Some sym
         /\ is_function sym = false
         /\ type_equals (sym_type sym) (expr_type e) = true)
      /\ expr_scoped scope e
  | StmtIf c t e =>
      expr_scoped scope c
      /\ stmt_scoped scope t
      /\ match e with
         | Some eb => stmt_scoped (scope_after scope t) eb
         | None => True
         end
  | StmtWhile c b => expr_scoped scope c /\ stmt_scoped scope b
  | StmtReturn (Some e) | StmtExpr e => expr_scoped scope e
  | StmtReturn None => True
  | StmtBlock l =>
      (fix stmts_scoped (scope : SymbolTable) (rest : list ASTStmt)
           {struct rest} : Prop :=
         match rest with
         | [] => True
         | s :: rest' =>
             stmt_scoped scope s /\ stmts_scoped (scope_after scope s) rest'
         end) (symbol_table_create (Some scope)) l
  end.

(** The scope in which [type_check_program] checks the body of a
    function: the parameters, in a scope below the global table. *)
Definition function_scope (g : SymbolTable) (f : ASTFunc) : SymbolTable :=
  add_parameters (symbol_table_create (Some g)) (params f).

(** The statements of a block, each in the scope that the ones before
    it have left. *)
Fixpoint stmts_scoped (scope : SymbolTable) (l : list ASTStmt) : Prop :=
  match l with
  | [] => True
  | s :: rest => stmt_scoped scope s /\ stmts_scoped (scope_after scope s) rest
  end.

(** The checker as [type_check_program] has it before the first pass:
    an empty global table with [print] registered. *)
Definition fresh_checker : TypeChecker :=
  let g := symbol_table_create None in
  let g := snd (symbol_table_add g "print" type_void true [type_int]) in
  mkTypeChecker g g type_int "" false.

(** What [Parser.parse_source] returns for [Parser.print_source] and for
    [Parser.duplicate_parameter_source]. *)
Definition print_program : ASTProgram :=
  mkProgram
    [mkFunc "main" [] type_int
       (StmtBlock
          [StmtVarDecl "b" type_int (ExprBoolLiteral type_bool true);
           StmtExpr (ExprCall type_int "print" [ExprIntLiteral type_int 1]);
           StmtReturn (Some (ExprIntLiteral type_int 0))])].

(** [print_program] as the checker leaves it. *)
Definition checked_main : ASTFunc :=
  mkFunc "main" [] type_int
    (StmtBlock
       [StmtVarDecl "b" type_bool (ExprBoolLiteral type_bool true);
        StmtExpr (ExprCall type_void "print" [ExprIntLiteral type_int 1]);
        StmtReturn (Some (ExprIntLiteral type_int 0))]).

Definition checked_print_program : ASTProgram := mkProgram [checked_main].

Definition duplicate_parameter_function : ASTFunc :=
  mkFunc "f" [mkParam "a" type_int; mkParam "a" type_bool] type_int
    (StmtBlock [StmtReturn (Some (ExprVar type_int "a"))]).

Definition duplicate_parameter_program : ASTProgram :=
  mkProgram [duplicate_parameter_function].

End TypeChecker.

(* ------------------------------------------------------------------ *)
(** ** tinyllvm_compiler.h: configuration *)

Module Config.

Inductive CodeGenTarget : Set :=
| TARGET_TINYLLVM
| TARGET_C
| TARGET_RUST
| TARGET_GO
| TARGET_RUBY
| TARGET_HASKELL
| TARGET_ASM_X86_64.

Record CompilerConfig : Set := mkCompilerConfig {
  target : CodeGenTarget;
  enable_optimization : bool;
  optimization_level : Z;
  emit_debug_info : bool;
  emit_comments : bool;
  pretty_print : bool;
  track_memory : bool;
  max_memory_bytes : Z;
  error_detail : EC.ErrorDetailLevel;
  stop_on_first_error : bool
}.

Definition target_eqb (a b : CodeGenTarget) : bool :=
  match a, b with
  | TARGET_TINYLLVM, TARGET_TINYLLVM | TARGET_C, TARGET_C
  | TARGET_RUST, TARGET_RUST | TARGET_GO, TARGET_GO
  | TARGET_RUBY, TARGET_RUBY | TARGET_HASKELL, TARGET_HASKELL
  | TARGET_ASM_X86_64, TARGET_ASM_X86_64 => true
  | _, _ => false
  end.

(** Characters that a Rocq string literal cannot hold directly. *)
Definition nl : string := String "010"%char "".
Definition dq : string := String "034"%char "".

Definition fmt (parts : list string) : string := String.concat "" parts.

(** An argument of [%s]: the bytes in front of the first NUL. *)
Definition fmt_s (s : string) : string := CStr.strdup s.

(** An argument of [%d]. *)
Definition fmt_d (z : Z) : string := EC.string_of_Z z.

End Config.

(* ------------------------------------------------------------------ *)
(** ** tinyllvm_codegen_c.c

    The static functions return [false] only to make [generate_c_code]
    free the buffer and return NULL, so a failing step yields [None] and
    drops the generator state.  [length] is the length of [output];
    [capacity] has no effect once allocation succeeds and is left out. *)

Module CodeGenC.
Import AST Config.

Record CodeGen : Set := mkCodeGen {
  output : string;
  indent_level : Z;
  config : option CompilerConfig
}.

Definition Gen : Set := CodeGen -> option CodeGen.

Definition seq (a b : Gen) : Gen :=
  fun gen => match a gen with Some gen' => b gen' | None => None end.

Notation "a ;; b" := (seq a b) (at level 61, right associativity).

Definition skip : Gen := fun gen => Some gen.

Definition codegen_append (str : string) : Gen :=
  fun gen =>
    Some (mkCodeGen (append (output gen) (CStr.strdup str))
                    (indent_level gen) (config gen)).

(** [formatted] is what [vsnprintf] would write to an unbounded buffer. *)
Definition codegen_appendf (formatted : string) : Gen :=
  if (1024 <=? String.length formatted)%nat then (fun _ => None)
  else codegen_append formatted.

Fixpoint repeat_gen (n : nat) (a : Gen) : Gen :=
  match n with
  | O => skip
  | S m => a ;; repeat_gen m a
  end.

Definition codegen_indent : Gen :=
  fun gen => repeat_gen (Z.to_nat (indent_level gen)) (codegen_append "    ") gen.

Definition add_indent (d : Z) : Gen :=
  fun gen => Some (mkCodeGen (output gen) (indent_level gen + d) (config gen)).

Definition binary_operator_text (k : BinaryKind) : string :=
  match k with
  | BIN_ADD => " + " | BIN_SUB => " - " | BIN_MUL => " * "
  | BIN_DIV => " / " | BIN_MOD => " % "
  | BIN_EQ => " == " | BIN_NE => " != "
  | BIN_LT => " < " | BIN_LE => " <= " | BIN_GT => " > " | BIN_GE => " >= "
  | BIN_AND => " && " | BIN_OR => " || "
  end.

Fixpoint generate_expression (expr : ASTExpr) : Gen :=
  match expr with
  | ExprIntLiteral _ v => codegen_appendf (fmt_d v)
  | ExprBoolLiteral _ v => codegen_append (if v then "1" else "0")
  | ExprVar _ n => codegen_append n
  | ExprBinary k _ l r =>
      codegen_append "(" ;;
      generate_expression l ;;
      codegen_append (binary_operator_text k) ;;
      generate_expression r ;;
      codegen_append ")"
  | ExprNot _ operand =>
      codegen_append "!(" ;;
      generate_expression operand ;;
      codegen_append ")"
  | ExprCall _ fname args =>
      if CStr.strcmp_eq fname "print" then
        codegen_append (fmt ["printf("; dq; "%d\n"; dq; ", "]) ;;
        match args with
        | a :: _ => generate_expression a
        | [] => skip
        end ;;
        codegen_append ")"
      else
        codegen_append fname ;;
        codegen_append "(" ;;
        (fix generate_arguments (first : bool) (rest : list ASTExpr) : Gen :=
           match rest with
           | [] => skip
           | a :: rest' =>
               (if first then skip else codegen_append ", ") ;;
               generate_expression a ;;
               generate_arguments false rest'
           end) true args ;;
        codegen_append ")"
  end.

Fixpoint generate_statement (stmt : ASTStmt) : Gen :=
  match stmt with
  | StmtVarDecl n ty init =>
      codegen_indent ;;
      codegen_append (type_to_string ty) ;;
      codegen_append " " ;;
      codegen_append n ;;
      codegen_append " = " ;;
      generate_expression init ;;
      codegen_append (fmt [";"; nl])
  | StmtAssign n e =>
      codegen_indent ;;
      codegen_append n ;;
      codegen_append " = " ;;
      generate_expression e ;;
      codegen_append (fmt [";"; nl])
  | StmtIf c t e =>
      codegen_indent ;;
      codegen_append "if (" ;;
      generate_expression c ;;
      codegen_append ") " ;;
      generate_statement t ;;
      match e with
      | Some eb =>
          codegen_indent ;;
          codegen_append "else " ;;
          generate_statement eb
      | None => skip
      end
  | StmtWhile c b =>
      codegen_indent ;;
      codegen_append "while (" ;;
      generate_expression c ;;
      codegen_append ") " ;;
      generate_statement b
  | StmtReturn e =>
      codegen_indent ;;
      codegen_append "return" ;;
      match e with
      | Some e' => codegen_append " " ;; generate_expression e'
      | None => skip
      end ;;
      codegen_append (fmt [";"; nl])
  | StmtExpr e =>
      codegen_indent ;;
      generate_expression e ;;
      codegen_append (fmt [";"; nl])
  | StmtBlock l =>
      codegen_append (fmt ["{"; nl]) ;;
      add_indent 1 ;;
      (fix generate_statements (rest : list ASTStmt) : Gen :=
         match rest with
         | [] => skip
         | s :: rest' => generate_statement s ;; generate_statements rest'
         end) l ;;
      add_indent (-1) ;;
      codegen_indent ;;
      codegen_append (fmt ["}"; nl])
  end.

Fixpoint generate_parameters (first : bool) (ps : list Param) : Gen :=
  match ps with
  | [] => skip
  | prm :: rest =>
      (if first then skip else codegen_append ", ") ;;
      codegen_append (type_to_string (param_type prm)) ;;
      codegen_append " " ;;
      codegen_append (param_name prm) ;;
      generate_parameters false rest
  end.

Definition generate_function (func : ASTFunc) : Gen :=
  codegen_append (type_to_string (return_type func)) ;;
  codegen_append " " ;;
  codegen_append (func_name func) ;;
  codegen_append "(" ;;
  match params func with
  | [] => codegen_append "void"
  | ps => generate_parameters true ps
  end ;;
  codegen_append ") " ;;
  generate_statement (body func) ;;
  codegen_append nl.

Fixpoint declare_parameter_types (first : bool) (ps : list Param) : Gen :=
  match ps with
  | [] => skip
  | prm :: rest =>
      (if first then skip else codegen_append ", ") ;;
      codegen_append (type_to_string (param_type prm)) ;;
      declare_parameter_types false rest
  end.

Definition forward_declaration (func : ASTFunc) : Gen :=
  codegen_append (type_to_string (return_type func)) ;;
  codegen_append " " ;;
  codegen_append (func_name func) ;;
  codegen_append "(" ;;
  match params func with
  | [] => codegen_append "void"
  | ps => declare_parameter_types true ps
  end ;;
  codegen_append (fmt [");"; nl]).

Fixpoint for_each {A : Type} (f : A -> Gen) (l : list A) : Gen :=
  match l with
  | [] => skip
  | x :: rest => f x ;; for_each f rest
  end.

Definition wants_comments (gen : CodeGen) : bool :=
  match config gen with
  | Some c => emit_comments c
  | None => false
  end.

Definition generate_program_c (program : ASTProgram) : Gen :=
  (fun gen =>
     if wants_comments gen
     then codegen_append (fmt ["/* Generated by TinyLLVM Compiler */"; nl; nl]) gen
     else Some gen) ;;
  codegen_append (fmt ["#include <stdio.h>"; nl]) ;;
  codegen_append (fmt ["#include <stdbool.h>"; nl; nl]) ;;
  for_each forward_declaration (functions program) ;;
  codegen_append nl ;;
  for_each generate_function (functions program).

(** NULL is [None]. *)
Definition generate_c_code (program : ASTProgram) (cfg : option CompilerConfig)
  : option string :=
  option_map output (generate_program_c program (mkCodeGen "" 0 cfg)).

End CodeGenC.

(* ------------------------------------------------------------------ *)
(** ** tinyllvm_codegen_ir.c

    As for the C generator, a failing step yields [None]: the [-1] and
    [false] results only make [generate_ir_code] return NULL.  The two
    counters are [int] in C and integers here. *)

Module CodeGenIR.
Import AST Config.

Record IRCodeGen : Set := mkIRCodeGen {
  output : string;
  indent_level : Z;
  temp_counter : Z;
  label_counter : Z;
  config : option CompilerConfig
}.

Definition IRGen (A : Type) : Type := IRCodeGen -> option (A * IRCodeGen).

Definition ret {A : Type} (a : A) : IRGen A := fun gen => Some (a, gen).

Definition bind {A B : Type} (m : IRGen A) (f : A -> IRGen B) : IRGen B :=
  fun gen => match m gen with Some (a, gen') => f a gen' | None => None end.

Notation "x <- m ;; k" := (bind m (fun x => k))
  (at level 61, m at next level, right associativity).
Notation "m ;; k" := (bind m (fun _ => k))
  (at level 61, right associativity).

Definition ir_codegen_append (str : string) : IRGen unit :=
  fun gen =>
    Some (tt, mkIRCodeGen (append (output gen) (CStr.strdup str))
                (indent_level gen) (temp_counter gen) (label_counter gen)
                (config gen)).

Definition ir_codegen_appendf (formatted : string) : IRGen unit :=
  if (1024 <=? String.length formatted)%nat then (fun _ => None)
  else ir_codegen_append formatted.

Fixpoint repeat_gen (n : nat) (a : IRGen unit) : IRGen unit :=
  match n with
  | O => ret tt
  | S m => a ;; repeat_gen m a
  end.

Definition ir_codegen_indent : IRGen unit :=
  fun gen => repeat_gen (Z.to_nat (indent_level gen)) (ir_codegen_append "  ") gen.

Definition add_indent (d : Z) : IRGen unit :=
  fun gen =>
    Some (tt, mkIRCodeGen (output gen) (indent_level gen + d) (temp_counter gen)
                (label_counter gen) (config gen)).

Definition ir_get_next_temp : IRGen Z :=
  fun gen =>
    Some (temp_counter gen,
          mkIRCodeGen (output gen) (indent_level gen) (temp_counter gen + 1)
            (label_counter gen) (config gen)).

Definition ir_get_next_label : IRGen Z :=
  fun gen =>
    Some (label_counter gen,
          mkIRCodeGen (output gen) (indent_level gen) (temp_counter gen)
            (label_counter gen + 1) (config gen)).

(** The instruction of a binary node, between ["%tN = "] and the
    operands. *)
Definition binary_instruction (k : BinaryKind) : string :=
  match k with
  | BIN_ADD => "add i32" | BIN_SUB => "sub i32" | BIN_MUL => "mul i32"
  | BIN_DIV => "div i32" | BIN_MOD => "mod i32"
  | BIN_EQ => "icmp eq i32" | BIN_NE => "icmp ne i32"
  | BIN_LT => "icmp lt i32" | BIN_LE => "icmp le i32"
  | BIN_GT => "icmp gt i32" | BIN_GE => "icmp ge i32"
  | BIN_AND => "and i1" | BIN_OR => "or i1"
  end.

Fixpoint ir_generate_expression (expr : ASTExpr) : IRGen Z :=
  result_temp <- ir_get_next_temp ;;
  match expr with
  | ExprIntLiteral _ v =>
      ir_codegen_indent ;;
      ir_codegen_appendf
        (fmt ["%t"; fmt_d result_temp; " = const i32 "; fmt_d v; nl]) ;;
      ret result_temp
  | ExprBoolLiteral _ v =>
      ir_codegen_indent ;;
      ir_codegen_appendf
        (fmt ["%t"; fmt_d result_temp; " = const i1 ";
              fmt_d (if v then 1 else 0); nl]) ;;
      ret result_temp
  | ExprVar _ n =>
      ir_codegen_indent ;;
      ir_codegen_appendf
        (fmt ["%t"; fmt_d result_temp; " = load %"; fmt_s n; nl]) ;;
      ret result_temp
  | ExprBinary k _ l r =>
      left_temp <- ir_generate_expression l ;;
      right_temp <- ir_generate_expression r ;;
      ir_codegen_indent ;;
      ir_codegen_appendf
        (fmt ["%t"; fmt_d result_temp; " = "; binary_instruction k;
              " %t"; fmt_d left_temp; ", %t"; fmt_d right_temp; nl]) ;;
      ret result_temp
  | ExprNot _ operand =>
      operand_temp <- ir_generate_expression operand ;;
      ir_codegen_indent ;;
      ir_codegen_appendf
        (fmt ["%t"; fmt_d result_temp; " = xor i1 %t"; fmt_d operand_temp;
              ", 1"; nl]) ;;
      ret result_temp
  | ExprCall _ fname args =>
      if CStr.strcmp_eq fname "print" then
        match args with
        | a :: _ =>
            arg_temp <- ir_generate_expression a ;;
            ir_codegen_indent ;;
            ir_codegen_appendf
              (fmt ["call void @print(i32 %t"; fmt_d arg_temp; ")"; nl]) ;;
            ret result_temp
        | [] => ret result_temp
        end
      else
        (* [int arg_temps[16]]: both loops stop at 16 arguments *)
        arg_temps <-
          (fix generate_arguments (n : nat) (rest : list ASTExpr)
             : IRGen (list Z) :=
             match n, rest with
             | S m, a :: rest' =>
                 t <- ir_generate_expression a ;;
                 ts <- generate_arguments m rest' ;;
                 ret (t :: ts)
             | _, _ => ret []
             end) 16%nat args ;;
        ir_codegen_indent ;;
        ir_codegen_appendf
          (fmt ["%t"; fmt_d result_temp; " = call i32 @"; fmt_s fname; "("]) ;;
        (fix print_arguments (first : bool) (ts : list Z) : IRGen unit :=
           match ts with
           | [] => ret tt
           | t :: ts' =>
               (if first then ret tt else ir_codegen_append ", ") ;;
               ir_codegen_appendf (fmt ["i32 %t"; fmt_d t]) ;;
               print_arguments false ts'
           end) true arg_temps ;;
        ir_codegen_append (fmt [")"; nl]) ;;
        ret result_temp
  end.

Definition label_line (l : Z) : string := fmt ["L"; fmt_d l; ":"; nl].

Definition br_label (l : Z) : string := fmt ["br label %L"; fmt_d l; nl].

Definition br_cond (c t e : Z) : string :=
  fmt ["br i1 %t"; fmt_d c; ", label %L"; fmt_d t; ", label %L"; fmt_d e; nl].

Fixpoint ir_generate_statement (stmt : ASTStmt) : IRGen unit :=
  match stmt with
  | StmtVarDecl n _ init =>
      ir_codegen_indent ;;
      ir_codegen_appendf (fmt ["%"; fmt_s n; " = alloca i32"; nl]) ;;
      init_temp <- ir_generate_expression init ;;
      ir_codegen_indent ;;
      ir_codegen_appendf
        (fmt ["store i32 %t"; fmt_d init_temp; ", %"; fmt_s n; nl])
  | StmtAssign n e =>
      expr_temp <- ir_generate_expression e ;;
      ir_codegen_indent ;;
      ir_codegen_appendf
        (fmt ["store i32 %t"; fmt_d expr_temp; ", %"; fmt_s n; nl])
  | StmtIf c t e =>
      cond_temp <- ir_generate_expression c ;;
      then_label <- ir_get_next_label ;;
      else_label <- ir_get_next_label ;;
      end_label <- ir_get_next_label ;;
      ir_codegen_indent ;;
      ir_codegen_appendf
        (br_cond cond_temp then_label
           (match e with Some _ => else_label | None => end_label end)) ;;
      ir_codegen_append nl ;;
      ir_codegen_appendf (label_line then_label) ;;
      add_indent 1 ;;
      ir_generate_statement t ;;
      add_indent (-1) ;;
      ir_codegen_indent ;;
      ir_codegen_appendf (br_label end_label) ;;
      match e with
      | Some eb =>
          ir_codegen_append nl ;;
          ir_codegen_appendf (label_line else_label) ;;
          add_indent 1 ;;
          ir_generate_statement eb ;;
          add_indent (-1) ;;
          ir_codegen_indent ;;
          ir_codegen_appendf (br_label end_label)
      | None => ret tt
      end ;;
      ir_codegen_append nl ;;
      ir_codegen_appendf (label_line end_label)
  | StmtWhile c b =>
      cond_label <- ir_get_next_label ;;
      body_label <- ir_get_next_label ;;
      end_label <- ir_get_next_label ;;
      ir_codegen_indent ;;
      ir_codegen_appendf (br_label cond_label) ;;
      ir_codegen_append nl ;;
      ir_codegen_appendf (label_line cond_label) ;;
      add_indent 1 ;;
      cond_temp <- ir_generate_expression c ;;
      ir_codegen_indent ;;
      ir_codegen_appendf (br_cond cond_temp body_label end_label) ;;
      add_indent (-1) ;;
      ir_codegen_append nl ;;
      ir_codegen_appendf (label_line body_label) ;;
      add_indent 1 ;;
      ir_generate_statement b ;;
      ir_codegen_indent ;;
      ir_codegen_appendf (br_label cond_label) ;;
      add_indent (-1) ;;
      ir_codegen_append nl ;;
      ir_codegen_appendf (label_line end_label)
  | StmtReturn (Some e) =>
      expr_temp <- ir_generate_expression e ;;
      ir_codegen_indent ;;
      ir_codegen_appendf (fmt ["ret i32 %t"; fmt_d expr_temp; nl])
  | StmtReturn None =>
      ir_codegen_indent ;;
      ir_codegen_append (fmt ["ret void"; nl])
  | StmtExpr e =>
      ir_generate_expression e ;;
      ret tt
  | StmtBlock l =>
      (fix generate_statements (rest : list ASTStmt) : IRGen unit :=
         match rest with
         | [] => ret tt
         | s :: rest' => ir_generate_statement s ;; generate_statements rest'
         end) l
  end.

Definition ir_type_name (t : Type_) (other : string) : string :=
  match type_kind t with
  | TYPE_INT => "i32"
  | TYPE_BOOL => "i1"
  | TYPE_VOID => other
  end.

Fixpoint ir_signature_parameters (first : bool) (ps : list Param) : IRGen unit :=
  match ps with
  | [] => ret tt
  | prm :: rest =>
      (if first then ret tt else ir_codegen_append ", ") ;;
      ir_codegen_appendf
        (fmt [ir_type_name (param_type prm) "i32"; " %";
              fmt_s (param_name prm); ".param"]) ;;
      ir_signature_parameters false rest
  end.

Fixpoint ir_parameter_slots (ps : list Param) : IRGen unit :=
  match ps with
  | [] => ret tt
  | prm :: rest =>
      ir_codegen_indent ;;
      ir_codegen_appendf (fmt ["%"; fmt_s (param_name prm); " = alloca i32"; nl]) ;;
      ir_codegen_indent ;;
      ir_codegen_appendf
        (fmt ["store i32 %"; fmt_s (param_name prm); ".param, %";
              fmt_s (param_name prm); nl]) ;;
      ir_parameter_slots rest
  end.

Definition ir_generate_function (func : ASTFunc) : IRGen unit :=
  ir_codegen_appendf
    (fmt ["define "; ir_type_name (return_type func) "void"; " @";
          fmt_s (func_name func); "("]) ;;
  ir_signature_parameters true (params func) ;;
  ir_codegen_append (fmt [") {"; nl]) ;;
  ir_codegen_append (fmt ["entry:"; nl]) ;;
  add_indent 1 ;;
  ir_parameter_slots (params func) ;;
  ir_generate_statement (body func) ;;
  add_indent (-1) ;;
  ir_codegen_append (fmt ["}"; nl; nl]).

Fixpoint for_each {A : Type} (f : A -> IRGen unit) (l : list A) : IRGen unit :=
  match l with
  | [] => ret tt
  | x :: rest => f x ;; for_each f rest
  end.

Definition wants_comments (gen : IRCodeGen) : bool :=
  match config gen with
  | Some c => emit_comments c
  | None => false
  end.

Definition ir_generate_program (program : ASTProgram) : IRGen unit :=
  (fun gen =>
     if wants_comments gen
     then (ir_codegen_append (fmt ["; Generated by TinyLLVM Compiler"; nl]) ;;
           ir_codegen_append
             (fmt ["; Target: TinyLLVM IR (human-readable)"; nl; nl])) gen
     else Some (tt, gen)) ;;
  ir_codegen_append (fmt ["declare void @print(i32)"; nl; nl]) ;;
  for_each ir_generate_function (functions program).

Definition generate_ir_code (program : ASTProgram) (cfg : option CompilerConfig)
  : option string :=
  option_map (fun r => output (snd r))
    (ir_generate_program program (mkIRCodeGen "" 0 0 0 cfg)).

End CodeGenIR.

(* ------------------------------------------------------------------ *)
(** ** The four compiler events

    [compiler_lexer_event] (tinyllvm_lexer.c), [compiler_parser_event]
    (tinyllvm_parser.c), [compiler_type_checker_event]
    (tinyllvm_typechecker.c) and [compiler_codegen_event]
    (tinyllvm_codegen_c.c).  The memory the events share with their
    driver is a store of typed objects; a payload pointer of the context
    is the address of one of them. *)

Module Compiler.
Import EC Lexer AST Parser TypeChecker Config.

Inductive Object : Set :=
| ObjString (s : string)
| ObjTokens (t : TokenList)
| ObjProgram (p : ASTProgram)
| ObjConfig (c : CompilerConfig).

Record Heap : Set := mkHeap {
  cells : list (ptr * Object);
  next_address : ptr
}.

Definition heap_base : ptr := 65536.

Definition empty_heap : Heap := mkHeap [] heap_base.

Fixpoint lookup_cell (l : list (ptr * Object)) (p : ptr) : option Object :=
  match l with
  | [] => None
  | (q, o) :: rest => if q =? p then Some o else lookup_cell rest p
  end.

Definition heap_get (h : Heap) (p : ptr) : option Object := lookup_cell (cells h) p.

(** [malloc] and initialisation of an object. *)
Definition heap_alloc (h : Heap) (o : Object) : ptr * Heap :=
  (next_address h, mkHeap ((next_address h, o) :: cells h) (next_address h + 16)).

(** A write through a pointer. *)
Definition heap_set (h : Heap) (p : ptr) (o : Object) : Heap :=
  mkHeap ((p, o) :: cells h) (next_address h).

Fixpoint remove_cell (l : list (ptr * Object)) (p : ptr) : list (ptr * Object) :=
  match l with
  | [] => []
  | (q, o) :: rest =>
      if q =? p then remove_cell rest p else (q, o) :: remove_cell rest p
  end.

(** [free], also the destructors [token_list_destroy] and
    [ast_program_destroy]. *)
Definition heap_free (h : Heap) (p : ptr) : Heap :=
  mkHeap (remove_cell (cells h) p) (next_address h).

(** The cleanup calls of a context operation, all of them destructors. *)
Definition run_cleanups (h : Heap) (calls : list CleanupCall) : Heap :=
  List.fold_left (fun h c => heap_free h (snd c)) calls h.

(** Addresses of the functions passed as cleanup callbacks. *)
Definition free_addr : ptr := 4198400.
Definition token_list_destroy_addr : ptr := 4202496.
Definition ast_program_destroy_addr : ptr := 4206592.

Definition failure (msg : string) (code : EventChainErrorCode) : EventResult :=
  event_result_failure (Some msg) code ERROR_DETAIL_FULL.

(** An event stores its product under a key and destroys it again when
    the context refuses it. *)
Definition store_product (context : EventContext) (h : Heap) (k : string)
  (p : ptr) (cl : ptr) (refused : string)
  : EventResult * EventContext * Heap :=
  match event_context_set_with_cleanup all_ok context k p cl with
  | (EC_SUCCESS, context, calls) =>
      (event_result_success, context, run_cleanups h calls)
  | (err, context, calls) =>
      (failure refused err, context, heap_free (run_cleanups h calls) p)
  end.

Fixpoint first_error_token (toks : TokenList) : option Token :=
  match toks with
  | [] => None
  | t :: rest =>
      if kind_eqb (kind t) TOKEN_ERROR then Some t else first_error_token rest
  end.

(** [%s] of a pointer that may be NULL, as glibc prints it. *)
Definition fmt_lexeme (l : option string) : string :=
  match l with
  | Some s => fmt_s s
  | None => "(null)"
  end.

Definition compiler_lexer_event (context : EventContext) (h : Heap)
  (user_data : ptr) : EventResult * EventContext * Heap :=
  match event_context_get context "source_code" with
  | (EC_SUCCESS, Some p) =>
      match (if p =? NULL then None else heap_get h p) with
      | Some (ObjString source_code) =>
          match lex_source source_code with
          | None =>
              (failure "Failed to allocate token list" EC_ERROR_OUT_OF_MEMORY,
               context, h)
          | Some toks =>
              match first_error_token toks with
              | Some t =>
                  (failure
                     (snprintf_buf 256
                        (fmt ["Lexer error at line "; Parser.string_of_nat (line t);
                              ", column "; Parser.string_of_nat (column t);
                              ": unexpected character '";
                              fmt_lexeme (lexeme t); "'"]))
                     EC_ERROR_INVALID_PARAMETER,
                   context, h)
              | None =>
                  let '(tp, h) := heap_alloc h (ObjTokens toks) in
                  store_product context h "tokens" tp token_list_destroy_addr
                    "Failed to store tokens in context"
              end
          end
      | _ =>
          (failure "No source code provided" EC_ERROR_INVALID_PARAMETER,
           context, h)
      end
  | _ =>
      (failure "No source code provided" EC_ERROR_INVALID_PARAMETER, context, h)
  end.

(** [uninit_msg]: the indeterminate initial content of the buffer
    [error_msg], which the event prints when [parse_tokens] returns NULL
    and has written no message.  The last case has no C execution behind
    it: the fuel of [parse_tokens] always suffices, and where
    [parse_tokens] has no defined behaviour the event has none. *)
Definition compiler_parser_event (uninit_msg : string)
  (context : EventContext) (h : Heap)
  (user_data : ptr) : EventResult * EventContext * Heap :=
  match event_context_get context "tokens" with
  | (EC_SUCCESS, Some p) =>
      match (if p =? NULL then None else heap_get h p) with
      | Some (ObjTokens toks) =>
          match parse_tokens toks with
          | Parsed (Some program) _ =>
              let '(pp, h) := heap_alloc h (ObjProgram program) in
              store_product context h "ast" pp ast_program_destroy_addr
                "Failed to store AST in context"
          | Parsed None msg =>
              (failure
                 (snprintf_buf 1100
                    (fmt ["Parser failed: ";
                          fmt_s (match msg with
                                 | Some m => m
                                 | None => uninit_msg
                                 end)]))
                 EC_ERROR_INVALID_PARAMETER,
               context, h)
          | ParseOutOfFuel | ParseUndefined =>
              (failure "Parser failed: " EC_ERROR_INVALID_PARAMETER, context, h)
          end
      | _ =>
          (failure "No tokens provided to parser" EC_ERROR_INVALID_PARAMETER,
           context, h)
      end
  | _ =>
      (failure "No tokens provided to parser" EC_ERROR_INVALID_PARAMETER,
       context, h)
  end.

Definition compiler_type_checker_event (context : EventContext) (h : Heap)
  (user_data : ptr) : EventResult * EventContext * Heap :=
  match event_context_get context "ast" with
  | (EC_SUCCESS, Some p) =>
      match (if p =? NULL then None else heap_get h p) with
      | Some (ObjProgram program) =>
          match type_check_program program with
          | (true, _, program) =>
              (event_result_success, context, heap_set h p (ObjProgram program))
          | (false, msg, program) =>
              (failure
                 (snprintf_buf 1100
                    (fmt ["Type checking failed: ";
                          match msg with Some m => fmt_s m | None => "" end]))
                 EC_ERROR_INVALID_PARAMETER,
               context, heap_set h p (ObjProgram program))
          end
      | _ =>
          (failure "No AST provided to type checker" EC_ERROR_INVALID_PARAMETER,
           context, h)
      end
  | _ =>
      (failure "No AST provided to type checker" EC_ERROR_INVALID_PARAMETER,
       context, h)
  end.

(** [user_data] read as a pointer to the configuration. *)
Definition config_at (h : Heap) (user_data : ptr) : option CompilerConfig :=
  if user_data =? NULL then None
  else match heap_get h user_data with
       | Some (ObjConfig c) => Some c
       | _ => None
       end.

(** The generator [compiler_codegen_event] calls for a configuration:
    [!config || config->target == TARGET_C ||
     config->target == TARGET_TINYLLVM]. *)
Definition codegen_event_generate (cfg : option CompilerConfig)
  (program : ASTProgram) : option (option string) :=
  match cfg with
  | None => Some (CodeGenC.generate_c_code program cfg)
  | Some c =>
      if target_eqb (target c) TARGET_C || target_eqb (target c) TARGET_TINYLLVM
      then Some (CodeGenC.generate_c_code program cfg)
      else None
  end.

Definition compiler_codegen_event (context : EventContext) (h : Heap)
  (user_data : ptr) : EventResult * EventContext * Heap :=
  let cfg := config_at h user_data in
  match event_context_get context "ast" with
  | (EC_SUCCESS, Some p) =>
      match (if p =? NULL then None else heap_get h p) with
      | Some (ObjProgram program) =>
          match codegen_event_generate cfg program with
          | None =>
              (failure "Unsupported code generation target"
                 EC_ERROR_INVALID_PARAMETER, context, h)
          | Some None =>
              (failure "Code generation failed" EC_ERROR_OUT_OF_MEMORY,
               context, h)
          | Some (Some out) =>
              let '(op, h) := heap_alloc h (ObjString out) in
              store_product context h "output_code" op free_addr
                "Failed to store output code in context"
          end
      | _ =>
          (failure "No AST provided to code generator"
             EC_ERROR_INVALID_PARAMETER, context, h)
      end
  | _ =>
      (failure "No AST provided to code generator" EC_ERROR_INVALID_PARAMETER,
       context, h)
  end.

(** Addresses of the four event functions. *)
Definition lexer_event_addr : ptr := 4210688.
Definition parser_event_addr : ptr := 4214784.
Definition type_checker_event_addr : ptr := 4218880.
Definition codegen_event_addr : ptr := 4222976.

(** The driver of tests/test_ir_generation.c and tests/test_full_compiler.c:
    a strict chain of the four events, the source stored under
    [source_code], one execution, and [output_code] read back when the
    chain succeeded. *)
Definition add_named_event (chain : option (EventChain Heap))
  (exec : EventExecuteFunc Heap) (addr : ptr) (ud : ptr) (nm : string)
  : option (EventChain Heap) :=
  match chain, chainable_event_create exec addr true ud (Some nm) with
  | Some c, Some ev =>
      match event_chain_add_event true c ev with
      | (EC_SUCCESS, c') => Some c'
      | _ => None
      end
  | _, _ => None
  end.

Definition compiler_chain (uninit_msg : string) (config_ptr : ptr)
  : option (EventChain Heap) :=
  let chain := Some (event_chain_create FAULT_TOLERANCE_STRICT) in
  let chain := add_named_event chain compiler_lexer_event lexer_event_addr NULL "Lexer" in
  let chain := add_named_event chain (compiler_parser_event uninit_msg)
                 parser_event_addr NULL "Parser" in
  let chain := add_named_event chain compiler_type_checker_event
                 type_checker_event_addr NULL "TypeChecker" in
  add_named_event chain compiler_codegen_event codegen_event_addr config_ptr "CodeGen".

Definition no_garbage : EventResult := event_result_success.

Record Compilation : Set := mkCompilation {
  chain_result : ChainResult;
  output_code : option string
}.

(** [uninit_msg]: what the stack holds where [compiler_parser_event]
    has its buffer [error_msg]. *)
Definition compile (uninit_msg : string) (source : string)
  (cfg : CompilerConfig) : option Compilation :=
  let '(config_ptr, h) := heap_alloc empty_heap (ObjConfig cfg) in
  match compiler_chain uninit_msg config_ptr with
  | None => None
  | Some chain =>
      let '(source_copy, h) := heap_alloc h (ObjString (CStr.strdup source)) in
      match event_context_set_with_cleanup all_ok (context chain)
              "source_code" source_copy free_addr with
      | (EC_SUCCESS, ctx, _) =>
          let '(result, chain, h) :=
            event_chain_execute (fun _ => true) no_garbage
              (with_context chain ctx) h in
          Some (mkCompilation result
                  (if cr_success result then
                     match event_context_get (context chain) "output_code" with
                     | (EC_SUCCESS, Some p) =>
                         match heap_get h p with
                         | Some (ObjString out) => Some out
                         | _ => None
                         end
                     | _ => None
                     end
                   else None))
      | _ => None
      end
  end.

Definition default_config (t : CodeGenTarget) (comments : bool) : CompilerConfig :=
  mkCompilerConfig t false 0 false comments true false 0 ERROR_DETAIL_FULL false.

Definition factorial_source : string :=
  "func factorial(n: int) : int { var result = 1; while (n > 1) { result = result * n; n = n - 1; } return result; } func main() : int { var x = 5; var fact = factorial(x); print(fact); return 0; }".

(** The typed tree that reaches the code generator: the program of
    [Parser.parse_source] as [type_check_program] leaves it. *)
Definition front_end (source : string) : option ASTProgram :=
  match Parser.parse_source source with
  | Some (Parser.Parsed (Some program) _) =>
      match TypeChecker.type_check_program program with
      | (true, _, typed) => Some typed
      | _ => None
      end
  | _ => None
  end.

(** The lines of a text, split at the line feeds; [current] is the line
    being read. *)
Fixpoint lines (s : string) (current : string) : list string :=
  match s with
  | EmptyString => [current]
  | String c rest =>
      if Ascii.eqb c "010" then current :: lines rest EmptyString
      else lines rest (append current (String c EmptyString))
  end.

(** The lines that follow a line beginning with [start]. *)
Fixpoint lines_after (start : string) (ls : list string) : list string :=
  match ls with
  | l :: ((next :: _) as rest) =>
      if String.prefix start l then next :: lines_after start rest
      else lines_after start rest
  | _ => []
  end.

(** The compilation stopped at the event [phase]: the chain failed with
    one failure record, that of [phase], and there is no output. *)
Definition stopped_at (c : Compilation) (phase : string) : Prop :=
  cr_success (chain_result c) = false
  /\ cr_failure_count (chain_result c) = 1
  /\ output_code c = None
  /\ exists msg code,
       cr_failures (chain_result c) = Some [mkFailureInfo phase msg code].

End Compiler.

(* ------------------------------------------------------------------ *)
(** * Properties of the event-chain runtime *)

Module ECProps.
Import CStr EC.

(** ** C strings *)

Lemma is_nul_true (c : ascii) : is_nul c = true -> c = NUL.
Proof. unfold is_nul. apply Ascii.eqb_eq. Qed.

Lemma is_nul_false (c : ascii) : is_nul c = false -> c <> NUL.
Proof. unfold is_nul. apply Ascii.eqb_neq. Qed.

Lemma strcmp_eq_strdup (k : string) : strcmp_eq (strdup k) k = true.
Proof.
  induction k as [|c k IH]; simpl; [reflexivity|].
  destruct (is_nul c) eqn:Hc; simpl.
  - exact Hc.
  - rewrite Hc, Ascii.eqb_refl. exact IH.
Qed.

Lemma strlen_strdup (k : string) : strlen (strdup k) = strlen k.
Proof.
  induction k as [|c k IH]; simpl; [reflexivity|].
  destruct (is_nul c) eqn:Hc; simpl; [reflexivity|].
  rewrite Hc, IH. reflexivity.
Qed.

Lemma safe_strnlen_min (k : string) (n : nat) :
  safe_strnlen k n = Nat.min (strlen k) n.
Proof.
  revert k. induction n as [|n IH]; intros k.
  - rewrite Nat.min_0_r. destruct k; reflexivity.
  - destruct k as [|c k]; simpl; [reflexivity|].
    destruct (is_nul c); [reflexivity|].
    now rewrite IH.
Qed.

Lemma byte_of_zero (c : ascii) : byte_of c = 0%N <-> c = NUL.
Proof.
  unfold byte_of. split; intros H.
  - rewrite <- (ascii_N_embedding c), H. reflexivity.
  - subst. reflexivity.
Qed.

Lemma byte_of_inj (x y : ascii) : byte_of x = byte_of y -> x = y.
Proof.
  unfold byte_of. intros H.
  rewrite <- (ascii_N_embedding x), <- (ascii_N_embedding y), H. reflexivity.
Qed.

(** The accumulator stays zero exactly while the bytes agree. *)
Lemma accumulate_zero (r : N) (x y : ascii) :
  (N.lor r (N.lxor (byte_of x) (byte_of y)) =? 0)%N
  = (r =? 0)%N && Ascii.eqb x y.
Proof.
  destruct (Ascii.eqb x y) eqn:Hxy.
  - apply Ascii.eqb_eq in Hxy. subst y.
    rewrite N.lxor_nilpotent, N.lor_0_r, andb_true_r. reflexivity.
  - rewrite andb_false_r. apply N.eqb_neq. intros H.
    apply N.lor_eq_0_iff in H. destruct H as [_ H].
    apply (proj1 (N.lxor_eq_0_iff _ _)) in H. apply byte_of_inj in H.
    apply Ascii.eqb_neq in Hxy. contradiction.
Qed.

(** ** [constant_time_strcmp] *)

Lemma read_char_0 (s : string) : read_char s 0 = Some (head s).
Proof. destruct s; reflexivity. Qed.

Lemma is_nul_NUL : is_nul NUL = true.
Proof. reflexivity. Qed.

Lemma strlen_head_tail (s : string) :
  strlen s = if is_nul (head s) then 0%nat else S (strlen (tail s)).
Proof. destruct s; reflexivity. Qed.

Lemma strcmp_eq_head_tail (a b : string) :
  strcmp_eq a b =
  if is_nul (head a) then is_nul (head b)
  else if Ascii.eqb (head a) (head b) then strcmp_eq (tail a) (tail b)
       else false.
Proof.
  destruct a as [|x a], b as [|y b]; cbn [strcmp_eq head tail].
  - reflexivity.
  - reflexivity.
  - change (Ascii.eqb x NUL) with (is_nul x). now destruct (is_nul x).
  - reflexivity.
Qed.

Lemma constant_time_loop_shift (x y : ascii) (a b : string) (n i : nat) (r : N) :
  constant_time_loop (String x a) (String y b) n (S i) r
  = option_map (fun p => (S (fst p), snd p)) (constant_time_loop a b n i r).
Proof.
  revert i r. induction n as [|n IH]; intros i r; cbn [constant_time_loop read_char].
  - reflexivity.
  - destruct (read_char a i) as [u|]; [|reflexivity].
    destruct (read_char b i) as [v|]; [|reflexivity].
    destruct (is_nul u || is_nul v); [reflexivity|].
    apply IH.
Qed.

Lemma constant_time_result_0 (a b : string) (r : N) :
  constant_time_result a b 0 r
  = Some ((r =? 0)%N && Ascii.eqb (head a) (head b)).
Proof.
  unfold constant_time_result. cbn [constant_time_loop].
  now rewrite !read_char_0.
Qed.

Lemma constant_time_result_S (a b : string) (n : nat) (r : N) :
  constant_time_result a b (S n) r =
  let r' := N.lor r (N.lxor (byte_of (head a)) (byte_of (head b))) in
  if is_nul (head a) || is_nul (head b)
  then Some ((r' =? 0)%N && Ascii.eqb (head a) (head b))
  else constant_time_result (tail a) (tail b) n r'.
Proof.
  unfold constant_time_result. cbn [constant_time_loop].
  rewrite !read_char_0. cbv zeta.
  destruct (is_nul (head a) || is_nul (head b)) eqn:E.
  - now rewrite !read_char_0.
  - apply orb_false_elim in E. destruct E as [Ea Eb].
    destruct a as [|x a]; [discriminate|].
    destruct b as [|y b]; [discriminate|].
    rewrite constant_time_loop_shift. cbn [head tail].
    destruct (constant_time_loop a b n 0
                (N.lor r (N.lxor (byte_of x) (byte_of y)))) as [[i res]|];
      reflexivity.
Qed.

Lemma constant_time_result_spec (n : nat) (a b : string) (r : N) :
  (strlen a <= n)%nat -> (strlen b <= n)%nat ->
  constant_time_result a b n r = Some ((r =? 0)%N && strcmp_eq a b).
Proof.
  revert a b r. induction n as [|n IH]; intros a b r Ha Hb;
    rewrite strlen_head_tail in Ha, Hb; rewrite strcmp_eq_head_tail.
  - rewrite constant_time_result_0.
    destruct (is_nul (head a)) eqn:Ea; [|lia].
    destruct (is_nul (head b)) eqn:Eb; [|lia].
    apply is_nul_true in Ea, Eb. rewrite Ea, Eb. reflexivity.
  - rewrite constant_time_result_S. cbv zeta.
    destruct (is_nul (head a)) eqn:Ea; cbn [orb].
    + rewrite accumulate_zero. apply is_nul_true in Ea. rewrite Ea.
      rewrite Ascii.eqb_sym. change (Ascii.eqb (head b) NUL) with (is_nul (head b)).
      now destruct (is_nul (head b)); rewrite ?andb_true_r, ?andb_false_r.
    + destruct (is_nul (head b)) eqn:Eb.
      * rewrite accumulate_zero.
        assert (Ascii.eqb (head a) (head b) = false) as ->.
        { apply Ascii.eqb_neq. intros E. rewrite E in Ea. congruence. }
        now rewrite !andb_false_r.
      * rewrite IH by lia. rewrite accumulate_zero.
        destruct (Ascii.eqb (head a) (head b));
          now rewrite ?andb_true_r, ?andb_false_r.
Qed.

Lemma constant_time_strcmp_spec (a b : string) (n : nat) :
  (strlen a <= n)%nat -> (strlen b <= n)%nat ->
  constant_time_strcmp a b n = Some (strcmp_eq a b).
Proof.
  intros Ha Hb.
  change (constant_time_strcmp a b n) with (constant_time_result a b n 0).
  rewrite constant_time_result_spec by assumption. reflexivity.
Qed.

(** ** Lookup *)

Lemma int_of_size_t_small (i : Z) : 0 <= i < 2 ^ 31 -> int_of_size_t i = i.
Proof.
  intros H. unfold int_of_size_t.
  rewrite Z.mod_small by lia. lia.
Qed.

Lemma find_entry_from_index (es : list ContextEntry) (k : string) (i : Z) :
  0 <= i -> i + Z.of_nat (List.length es) <= 2 ^ 31 ->
  find_entry_from es k i =
  match index_of es k with
  | Some j => i + Z.of_nat j
  | None => -1
  end.
Proof.
  revert i. induction es as [|e es IH]; intros i Hi Hlen;
    cbn [find_entry_from index_of]; [reflexivity|].
  cbn [List.length] in Hlen.
  destruct (strcmp_eq (key e) k).
  - rewrite int_of_size_t_small by lia. lia.
  - rewrite IH by lia. destruct (index_of es k); cbn [option_map]; lia.
Qed.

Lemma wf_length (context : EventContext) :
  ctx_wf context -> Z.of_nat (List.length (entries context)) <= 512.
Proof. unfold ctx_wf, count, EVENTCHAINS_MAX_CONTEXT_ENTRIES. lia. Qed.

Lemma size_t_wrap_small (z : Z) : 0 <= z < 2 ^ 64 -> size_t_wrap z = z.
Proof. intros H. unfold size_t_wrap. now apply Z.mod_small. Qed.

(** With a key that passes the length check, the bytes accounted are
    those of [entry_overhead]. *)
Lemma key_check (k : string) :
  ((safe_strnlen k (EVENTCHAINS_MAX_KEY_LENGTH + 1) =? 0)%nat
   || (EVENTCHAINS_MAX_KEY_LENGTH <? safe_strnlen k (EVENTCHAINS_MAX_KEY_LENGTH + 1))%nat)
  = false <-> key_well_formed k.
Proof.
  rewrite safe_strnlen_min. unfold key_well_formed, EVENTCHAINS_MAX_KEY_LENGTH.
  rewrite orb_false_iff, Nat.eqb_neq, Nat.ltb_ge. lia.
Qed.

Lemma additional_memory_overhead (k : string) :
  key_well_formed k ->
  size_t_wrap (Z.of_nat (safe_strnlen k (EVENTCHAINS_MAX_KEY_LENGTH + 1)) + 1
               + sizeof_RefCountedValue) = entry_overhead k.
Proof.
  unfold key_well_formed, EVENTCHAINS_MAX_KEY_LENGTH, entry_overhead,
    sizeof_RefCountedValue. intros H.
  rewrite safe_strnlen_min, Nat.min_l by lia.
  apply size_t_wrap_small. lia.
Qed.

Lemma entry_overhead_bounds (k : string) :
  key_well_formed k -> 26 <= entry_overhead k <= 281.
Proof.
  unfold key_well_formed, EVENTCHAINS_MAX_KEY_LENGTH, entry_overhead,
    sizeof_RefCountedValue. lia.
Qed.

Lemma find_entry_index (context : EventContext) (k : string) :
  Z.of_nat (List.length (entries context)) <= 512 ->
  find_entry context k =
  match index_of (entries context) k with
  | Some j => Z.of_nat j
  | None => -1
  end.
Proof.
  intros H. unfold find_entry.
  rewrite find_entry_from_index by lia.
  destruct (index_of (entries context) k); lia.
Qed.

Lemma index_of_some (es : list ContextEntry) (k : string) (j : nat) :
  index_of es k = Some j ->
  exists e, nth_error es j = Some e /\ strcmp_eq (key e) k = true.
Proof.
  revert j. induction es as [|e es IH]; intros j; cbn [index_of]; [discriminate|].
  destruct (strcmp_eq (key e) k) eqn:E.
  - intros [= <-]. exists e. split; [reflexivity|exact E].
  - destruct (index_of es k) as [j'|]; cbn [option_map]; [|discriminate].
    intros [= <-]. apply (IH j' eq_refl).
Qed.

Lemma index_of_set_entry_value (es : list ContextEntry) (j : nat)
  (v : RefCountedValue) (k : string) :
  index_of (set_entry_value es j v) k = index_of es k.
Proof.
  revert j. induction es as [|e es IH]; intros j; [destruct j; reflexivity|].
  destruct j as [|j]; cbn [set_entry_value index_of key].
  - reflexivity.
  - now rewrite IH.
Qed.

Lemma length_set_entry_value (es : list ContextEntry) (j : nat)
  (v : RefCountedValue) :
  List.length (set_entry_value es j v) = List.length es.
Proof.
  revert j. induction es as [|e es IH]; intros j; [destruct j; reflexivity|].
  destruct j as [|j]; cbn [set_entry_value List.length]; [reflexivity|].
  now rewrite IH.
Qed.

Lemma nth_error_set_entry_value (es : list ContextEntry) (j : nat)
  (v : RefCountedValue) (e : ContextEntry) :
  nth_error es j = Some e ->
  nth_error (set_entry_value es j v) j = Some (mkContextEntry (key e) v).
Proof.
  revert j. induction es as [|e' es IH]; intros j; [destruct j; discriminate|].
  destruct j as [|j]; cbn [set_entry_value nth_error].
  - now intros [= ->].
  - apply IH.
Qed.

Lemma index_of_app_none (es : list ContextEntry) (e : ContextEntry) (k : string) :
  index_of es k = None ->
  index_of (es ++ [e]) k =
  if strcmp_eq (key e) k then Some (List.length es) else None.
Proof.
  induction es as [|e' es IH]; cbn [index_of app List.length].
  - intros _. now destruct (strcmp_eq (key e) k).
  - destruct (strcmp_eq (key e') k); [discriminate|].
    destruct (index_of es k); [discriminate|]. intros _.
    rewrite IH by reflexivity. now destruct (strcmp_eq (key e) k).
Qed.

Lemma length_remove_at {A : Type} (l : list A) (j : nat) :
  (List.length (remove_at l j) <= List.length l)%nat.
Proof.
  revert j. induction l as [|x l IH]; intros j; [destruct j; cbn; lia|].
  destruct j as [|j]; cbn [remove_at List.length]; [lia|].
  specialize (IH j). lia.
Qed.

(** ** The invariant of the entry array *)

Lemma ensure_capacity_spec (ok : bool) (context : EventContext) :
  ctx_wf context ->
  let r := ensure_capacity ok context in
  entries (snd r) = entries context
  /\ total_memory_bytes (snd r) = total_memory_bytes context
  /\ ctx_wf (snd r)
  /\ (fst r = EC_SUCCESS -> count context < capacity (snd r))
  /\ (fst r <> EC_SUCCESS -> snd r = context).
Proof.
  intros [Hc [[Hlo Hhi] Hmem]]. unfold ensure_capacity.
  unfold INITIAL_CAPACITY, EVENTCHAINS_MAX_CONTEXT_ENTRIES in *.
  destruct (count context <? capacity context) eqn:E1; cbn [fst snd].
  { apply Z.ltb_lt in E1. unfold ctx_wf, INITIAL_CAPACITY,
      EVENTCHAINS_MAX_CONTEXT_ENTRIES. repeat split; try lia; congruence. }
  apply Z.ltb_ge in E1.
  destruct (count context >=? 512) eqn:E2; cbn [fst snd].
  { unfold ctx_wf, INITIAL_CAPACITY, EVENTCHAINS_MAX_CONTEXT_ENTRIES.
    repeat split; try lia; discriminate. }
  assert (Hlt : count context < 512).
  { destruct (Z.geb_spec (count context) 512); [discriminate|lia]. }
  assert (Hw : size_t_wrap (capacity context * GROWTH_FACTOR) = capacity context * 2).
  { unfold size_t_wrap, GROWTH_FACTOR. apply Z.mod_small. lia. }
  rewrite Hw.
  set (nc := if capacity context * 2 >? 512 then 512 else capacity context * 2).
  assert (Hnc : capacity context < nc <= 512).
  { subst nc. destruct (Z.gtb_spec (capacity context * 2) 512); lia. }
  assert (Hm : safe_multiply nc sizeof_ContextEntry = Some (nc * sizeof_ContextEntry)).
  { unfold safe_multiply, sizeof_ContextEntry, SIZE_MAX.
    replace (nc =? 0) with false by (symmetry; apply Z.eqb_neq; lia).
    cbn [orb Z.eqb].
    destruct (Z.gtb_spec nc ((2 ^ 64 - 1) / 16)) as [H|H]; [|reflexivity].
    change ((2 ^ 64 - 1) / 16) with 1152921504606846975 in H. lia. }
  rewrite Hm.
  destruct ok; cbn [negb fst snd entries total_memory_bytes capacity].
  - repeat split; try reflexivity; try congruence;
      unfold ctx_wf, count, INITIAL_CAPACITY, EVENTCHAINS_MAX_CONTEXT_ENTRIES in *;
      cbn [entries capacity total_memory_bytes]; lia.
  - unfold ctx_wf, INITIAL_CAPACITY, EVENTCHAINS_MAX_CONTEXT_ENTRIES.
    repeat split; try lia; discriminate.
Qed.

Lemma set_preserves_wf (al : Allocator) (context : EventContext)
  (k : string) (v cl : ptr) :
  ctx_wf context ->
  ctx_wf (snd (fst (event_context_set_with_cleanup al context k v cl))).
Proof.
  intros Hwf. unfold event_context_set_with_cleanup.
  destruct (_ || _) eqn:Hk; [exact Hwf|].
  apply key_check in Hk.
  rewrite additional_memory_overhead by exact Hk.
  pose proof (entry_overhead_bounds k Hk) as Hov.
  assert (Hsum : size_t_wrap (total_memory_bytes context + entry_overhead k)
                 = total_memory_bytes context + entry_overhead k).
  { apply size_t_wrap_small. destruct Hwf as (_ & _ & Hm).
    unfold EVENTCHAINS_MAX_CONTEXT_MEMORY in Hm. lia. }
  rewrite Hsum.
  destruct (Z.gtb_spec (total_memory_bytes context + entry_overhead k)
                       EVENTCHAINS_MAX_CONTEXT_MEMORY) as [Hgt|Hle];
    [exact Hwf|].
  destruct (ref_counted_value_create _ _ _) as [rv|]; [|exact Hwf].
  destruct (find_entry context k >=? 0); cbn [fst snd].
  - unfold ctx_wf, count in *. cbn [entries capacity total_memory_bytes].
    now rewrite length_set_entry_value.
  - pose proof (ensure_capacity_spec (entries_realloc_ok al) context Hwf) as H.
    cbv zeta in H.
    destruct (ensure_capacity (entries_realloc_ok al) context) as [err c'].
    cbn [fst snd] in H. destruct H as (He & Hm & Hw & Hs & Hf).
    destruct err; cbn [fst snd]; try exact Hw.
    destruct (key_strdup_ok al); cbn [negb fst snd]; [|exact Hw].
    specialize (Hs eq_refl).
    unfold ctx_wf, count in *. cbn [entries capacity total_memory_bytes].
    rewrite He, Hm, length_app. cbn [List.length]. lia.
Qed.

Lemma create_wf : ctx_wf event_context_create.
Proof.
  unfold ctx_wf, count, event_context_create, INITIAL_CAPACITY,
    EVENTCHAINS_MAX_CONTEXT_ENTRIES, EVENTCHAINS_MAX_CONTEXT_MEMORY,
    sizeof_EventContext, sizeof_ContextEntry.
  cbn. lia.
Qed.

Lemma reachable_wf (context : EventContext) :
  reachable context -> ctx_wf context.
Proof.
  induction 1 as [|al c k v cl _ IH|c k _ IH|c k _ IH|c _ IH].
  - exact create_wf.
  - now apply set_preserves_wf.
  - unfold event_context_get_ref.
    destruct (find_entry c k <? 0); [exact IH|].
    destruct (nth_error _ _); [|exact IH].
    cbn [snd]. unfold ctx_wf, count in *. cbn [entries capacity total_memory_bytes].
    now rewrite length_set_entry_value.
  - unfold event_context_remove.
    destruct (find_entry c k <? 0); [exact IH|].
    cbn [fst snd]. unfold ctx_wf, count in *. cbn [entries capacity total_memory_bytes].
    pose proof (length_remove_at (entries c) (Z.to_nat (find_entry c k))). lia.
  - unfold event_context_clear. cbn [fst].
    unfold ctx_wf, count in *. cbn [entries capacity List.length total_memory_bytes].
    unfold INITIAL_CAPACITY, EVENTCHAINS_MAX_CONTEXT_ENTRIES,
      EVENTCHAINS_MAX_CONTEXT_MEMORY, sizeof_EventContext, sizeof_ContextEntry in *.
    rewrite (size_t_wrap_small (capacity c * 16)) by lia.
    rewrite size_t_wrap_small by lia. lia.
Qed.

(** ** Set, then get *)

Lemma set_get_general (al : Allocator) (context : EventContext)
  (k : string) (v cl : ptr) :
  ctx_wf context ->
  fst (fst (event_context_set_with_cleanup al context k v cl)) = EC_SUCCESS ->
  event_context_get
    (snd (fst (event_context_set_with_cleanup al context k v cl))) k
  = (EC_SUCCESS, Some v).
Proof.
  intros Hwf.
  pose proof (set_preserves_wf al context k v cl Hwf) as Hwf'.
  revert Hwf'. unfold event_context_set_with_cleanup.
  destruct (_ || _); [discriminate|].
  destruct (_ >? _); [discriminate|].
  unfold ref_counted_value_create.
  destruct (_ && _); [discriminate|].
  destruct (negb (value_malloc_ok al)); [discriminate|].
  rewrite (find_entry_index context k (wf_length _ Hwf)).
  destruct (index_of (entries context) k) as [j|] eqn:Hidx.
  - (* the key exists: its wrapper is replaced *)
    replace (Z.of_nat j >=? 0) with true
      by (symmetry; apply Z.geb_le; lia).
    cbn [fst snd]. intros Hwf' _.
    unfold event_context_get.
    rewrite (find_entry_index _ k (wf_length _ Hwf')). cbn [entries].
    rewrite index_of_set_entry_value, Hidx.
    replace (Z.of_nat j <? 0) with false by (symmetry; apply Z.ltb_ge; lia).
    rewrite Nat2Z.id.
    destruct (index_of_some _ _ _ Hidx) as (e & He & _).
    rewrite (nth_error_set_entry_value _ _ _ _ He). reflexivity.
  - (* a new entry is appended *)
    change (-1 >=? 0) with false. cbv iota.
    pose proof (ensure_capacity_spec (entries_realloc_ok al) context Hwf) as H.
    cbv zeta in H.
    destruct (ensure_capacity (entries_realloc_ok al) context) as [err c'].
    cbn [fst snd] in H. destruct H as (He & _ & _ & _ & _).
    destruct err; cbn [fst snd]; try discriminate.
    destruct (key_strdup_ok al); cbn [negb fst snd]; [|discriminate].
    intros Hwf' _. unfold event_context_get.
    rewrite (find_entry_index _ k (wf_length _ Hwf')). cbn [entries].
    rewrite He, index_of_app_none by exact Hidx. cbn [key].
    rewrite strcmp_eq_strdup.
    replace (Z.of_nat (List.length (entries context)) <? 0) with false
      by (symmetry; apply Z.ltb_ge; lia).
    rewrite Nat2Z.id, nth_error_app2, Nat.sub_diag by lia.
    reflexivity.
Qed.

(** C7.  In a well-formed context, after a successful
    [event_context_set(ctx, k, v)], [event_context_get(ctx, k)] succeeds
    and stores exactly [v], whether the set added the entry or replaced
    the value of an existing one. *)
Theorem context_set_then_get (al : Allocator) (context : EventContext)
  (k : string) (v : ptr) :
  ctx_wf context ->
  fst (fst (event_context_set al context k v)) = EC_SUCCESS ->
  event_context_get (snd (fst (event_context_set al context k v))) k
  = (EC_SUCCESS, Some v).
Proof. apply set_get_general. Qed.

(** The set overwrites: the key is stored twice, with two payloads. *)
Lemma context_set_then_get_witness :
  let c1 := snd (fst (event_context_set all_ok event_context_create "ast" 4096)) in
  event_context_get (snd (fst (event_context_set all_ok c1 "ast" 8192))) "ast"
  = (EC_SUCCESS, Some 8192).
Proof.
  intros c1.
  apply (context_set_then_get all_ok c1 "ast" 8192).
  - apply set_preserves_wf, create_wf.
  - reflexivity.
Defined.

(** ** The two modes of [event_context_has] *)

Lemma has_constant_time_loop_spec (es : list ContextEntry) (k : string)
  (found : bool) :
  Forall (fun e => (strlen (key e) <= EVENTCHAINS_MAX_KEY_LENGTH)%nat) es ->
  (strlen k <= EVENTCHAINS_MAX_KEY_LENGTH)%nat ->
  has_constant_time_loop es k found
  = Some (found || List.existsb (fun e => strcmp_eq (key e) k) es).
Proof.
  intros Hes Hk. revert found.
  induction Hes as [|e es He _ IH]; intros found;
    cbn [has_constant_time_loop List.existsb].
  - now rewrite orb_false_r.
  - rewrite constant_time_strcmp_spec by assumption.
    destruct (strcmp_eq (key e) k); rewrite IH; cbn [orb].
    + now rewrite orb_true_r.
    + reflexivity.
Qed.

Lemma index_of_existsb (es : list ContextEntry) (k : string) :
  List.existsb (fun e => strcmp_eq (key e) k) es
  = match index_of es k with Some _ => true | None => false end.
Proof.
  induction es as [|e es IH]; cbn [List.existsb index_of]; [reflexivity|].
  destruct (strcmp_eq (key e) k); cbn [orb]; [reflexivity|].
  rewrite IH. now destruct (index_of es k).
Qed.

(** C10.  In a well-formed context whose keys are at most
    [EVENTCHAINS_MAX_KEY_LENGTH] bytes long, and for a query key of at
    most that length, [event_context_has] reads no byte outside a
    buffer and returns the same boolean with [constant_time] true (the
    full walk with [constant_time_strcmp]) and with [constant_time]
    false (the short-circuiting [find_entry]). *)
Theorem context_has_modes_agree (context : EventContext) (k : string) :
  ctx_wf context ->
  Forall (fun e => (strlen (key e) <= EVENTCHAINS_MAX_KEY_LENGTH)%nat)
         (entries context) ->
  (strlen k <= EVENTCHAINS_MAX_KEY_LENGTH)%nat ->
  exists b : bool,
    event_context_has context k true = Some b
    /\ event_context_has context k false = Some b.
Proof.
  intros Hwf Hes Hk.
  exists (List.existsb (fun e => strcmp_eq (key e) k) (entries context)).
  unfold event_context_has. split.
  - now rewrite has_constant_time_loop_spec.
  - rewrite (find_entry_index context k (wf_length _ Hwf)), index_of_existsb.
    destruct (index_of (entries context) k) as [j|].
    + f_equal. apply Z.geb_le. lia.
    + reflexivity.
Qed.

Lemma context_has_modes_agree_witness :
  let c := snd (fst (event_context_set all_ok event_context_create "tokens" 4096)) in
  exists b : bool,
    event_context_has c "tokens" true = Some b
    /\ event_context_has c "tokens" false = Some b.
Proof.
  intros c.
  apply (context_has_modes_agree c "tokens").
  - apply set_preserves_wf, create_wf.
  - subst c. cbn. constructor; [|constructor].
    cbn. unfold EVENTCHAINS_MAX_KEY_LENGTH. lia.
  - cbn. unfold EVENTCHAINS_MAX_KEY_LENGTH. lia.
Defined.

(** ** A full context *)

Lemma memory_limit_rejected (al : Allocator) (context : EventContext)
  (k : string) (v cl : ptr) :
  ctx_wf context -> key_well_formed k ->
  total_memory_bytes context + entry_overhead k > EVENTCHAINS_MAX_CONTEXT_MEMORY ->
  event_context_set_with_cleanup al context k v cl
  = (EC_ERROR_MEMORY_LIMIT_EXCEEDED, context, []).
Proof.
  intros Hwf Hk Hgt. unfold event_context_set_with_cleanup.
  rewrite (proj2 (key_check k) Hk), additional_memory_overhead by exact Hk.
  pose proof (entry_overhead_bounds k Hk) as Hov.
  rewrite size_t_wrap_small.
  - destruct (Z.gtb_spec (total_memory_bytes context + entry_overhead k)
                         EVENTCHAINS_MAX_CONTEXT_MEMORY); [reflexivity|lia].
  - destruct Hwf as (_ & _ & Hm). unfold EVENTCHAINS_MAX_CONTEXT_MEMORY in Hm. lia.
Qed.

Lemma release_created (ok : bool) (v cl : ptr) (rv : RefCountedValue) :
  ref_counted_value_create ok v cl = Some rv ->
  cl = NULL -> snd (ref_counted_value_release rv) = [].
Proof.
  unfold ref_counted_value_create.
  destruct (_ && _); [discriminate|].
  destruct (negb ok); [discriminate|].
  intros [= <-] ->. reflexivity.
Qed.

(** What a set does on a context that is full.  In a well-formed
    context and for a well-formed key: an insertion that would push
    [total_memory_bytes] past [EVENTCHAINS_MAX_CONTEXT_MEMORY] fails with
    MEMORY_LIMIT_EXCEEDED and changes nothing; and when the context holds
    [EVENTCHAINS_MAX_CONTEXT_ENTRIES] entries, a set with a key that is
    not among them fails and leaves the context (entries, count, memory
    counter) as it was, with MEMORY_LIMIT_EXCEEDED when the memory check,
    which comes first, refuses it, OUT_OF_MEMORY when the wrapper is not
    created, and CAPACITY_EXCEEDED otherwise.  A plain
    [event_context_set], which passes no cleanup callback, calls none. *)
Lemma full_context_set_rejected (al : Allocator) (context : EventContext)
  (k : string) (v cl : ptr) :
  ctx_wf context ->
  key_well_formed k ->
  let r := event_context_set_with_cleanup al context k v cl in
  (total_memory_bytes context + entry_overhead k > EVENTCHAINS_MAX_CONTEXT_MEMORY ->
   r = (EC_ERROR_MEMORY_LIMIT_EXCEEDED, context, []))
  /\ (count context = EVENTCHAINS_MAX_CONTEXT_ENTRIES ->
      find_entry context k = -1 ->
      snd (fst r) = context
      /\ fst (fst r) =
           (if total_memory_bytes context + entry_overhead k
               >? EVENTCHAINS_MAX_CONTEXT_MEMORY
            then EC_ERROR_MEMORY_LIMIT_EXCEEDED
            else match ref_counted_value_create (value_malloc_ok al) v cl with
                 | None => EC_ERROR_OUT_OF_MEMORY
                 | Some _ => EC_ERROR_CAPACITY_EXCEEDED
                 end)
      /\ (cl = NULL -> snd r = [])).
Proof.
  intros Hwf Hk r. split.
  - now apply memory_limit_rejected.
  - intros Hcount Hfind. subst r. unfold event_context_set_with_cleanup.
    rewrite (proj2 (key_check k) Hk), additional_memory_overhead by exact Hk.
    pose proof (entry_overhead_bounds k Hk) as Hov.
    rewrite size_t_wrap_small
      by (destruct Hwf as (_ & _ & Hm);
          unfold EVENTCHAINS_MAX_CONTEXT_MEMORY in Hm; lia).
    destruct (_ >? _); [now repeat split|].
    rewrite Hfind. change (-1 >=? 0) with false. cbv iota.
    destruct (ref_counted_value_create (value_malloc_ok al) v cl) as [rv|] eqn:Hrv;
      [|now repeat split].
    unfold ensure_capacity.
    destruct Hwf as (Hc & [_ Hhi] & _).
    replace (count context <? capacity context) with false
      by (symmetry; apply Z.ltb_ge; lia).
    rewrite Hcount. cbn [fst snd].
    repeat split. intros Hcl. exact (release_created _ _ _ _ Hrv Hcl).
Qed.

Lemma fill_reachable (context : EventContext) (m : nat) :
  reachable context -> reachable (fill context m).
Proof.
  unfold fill. generalize (List.seq 0 m) as l. intros l. revert context.
  induction l as [|i l IH]; intros context H; cbn [List.fold_left].
  - exact H.
  - apply IH. unfold event_context_set. now apply reach_set.
Qed.

Lemma full_context_set_rejected_witness :
  let c := fill event_context_create 512 in
  snd (fst (event_context_set all_ok c "new" 4096)) = c
  /\ fst (fst (event_context_set all_ok c "new" 4096)) = EC_ERROR_CAPACITY_EXCEEDED.
Proof.
  intros c.
  destruct (full_context_set_rejected all_ok c "new" 4096 NULL) as [_ H].
  - apply reachable_wf, fill_reachable, reach_create.
  - unfold key_well_formed, EVENTCHAINS_MAX_KEY_LENGTH. cbn. lia.
  - destruct H as (H1 & H2 & _).
    + vm_compute. reflexivity.
    + vm_compute. reflexivity.
    + split; [exact H1|]. unfold event_context_set. rewrite H2.
      vm_compute. reflexivity.
Defined.

(** ** A context in which the memory check comes first *)

Lemma churn_step_empty (c t : Z) :
  0 < c -> 0 <= t -> t + 26 <= EVENTCHAINS_MAX_CONTEXT_MEMORY ->
  churn_step (mkEventContext [] c t) = mkEventContext [] c (t + 26).
Proof.
  intros Hc Ht Hmax. unfold EVENTCHAINS_MAX_CONTEXT_MEMORY in Hmax.
  unfold churn_step, event_context_set, event_context_set_with_cleanup.
  change (safe_strnlen "x" (EVENTCHAINS_MAX_KEY_LENGTH + 1)) with 1%nat.
  cbn [Nat.eqb Nat.ltb Nat.leb orb EVENTCHAINS_MAX_KEY_LENGTH total_memory_bytes].
  change (size_t_wrap (Z.of_nat 1 + 1 + sizeof_RefCountedValue)) with 26.
  rewrite (size_t_wrap_small (t + 26)) by lia.
  unfold EVENTCHAINS_MAX_CONTEXT_MEMORY.
  destruct (Z.gtb_spec (t + 26) 10485760) as [H|_]; [lia|].
  change (find_entry (mkEventContext [] c t) "x") with (-1).
  change (-1 >=? 0) with false. cbv iota.
  change (ref_counted_value_create (value_malloc_ok all_ok) 4096 NULL)
    with (Some (mkRefCountedValue 4096 NULL 1)).
  cbv iota. unfold ensure_capacity, count. cbn [entries List.length capacity Z.of_nat].
  destruct (Z.ltb_spec 0 c) as [_|H]; [|lia].
  cbn [fst snd all_ok key_strdup_ok negb app entries capacity total_memory_bytes].
  unfold event_context_remove.
  match goal with
  | |- context [find_entry ?X "x"] => change (find_entry X "x") with 0
  end.
  change (0 <? 0) with false. cbv iota.
  cbn [fst snd entries capacity total_memory_bytes Z.to_nat remove_at].
  rewrite (size_t_wrap_small (t + 26)) by lia.
  reflexivity.
Qed.

Lemma churn_empty (n : N) (c t : Z) :
  0 < c -> 0 <= t -> t + 26 * Z.of_N n <= EVENTCHAINS_MAX_CONTEXT_MEMORY ->
  churn n (mkEventContext [] c t) = mkEventContext [] c (t + 26 * Z.of_N n).
Proof.
  intros Hc Ht. unfold churn.
  induction n as [|n IH] using N.peano_ind; intros Hmax.
  - cbn. f_equal. lia.
  - rewrite N.iter_succ, IH by lia.
    rewrite churn_step_empty by lia. f_equal. lia.
Qed.

Lemma churn_reachable (n : N) (context : EventContext) :
  reachable context -> reachable (churn n context).
Proof.
  intros H. unfold churn.
  induction n as [|n IH] using N.peano_ind.
  - exact H.
  - rewrite N.iter_succ. unfold churn_step.
    apply reach_remove. unfold event_context_set. now apply reach_set.
Qed.

Lemma saturated_context_eq :
  saturated_context = fill (mkEventContext [] 8 10470998) 512.
Proof.
  unfold saturated_context.
  change event_context_create with (mkEventContext [] 8 200).
  rewrite churn_empty by (unfold EVENTCHAINS_MAX_CONTEXT_MEMORY; lia).
  reflexivity.
Qed.

(** A context built with the operations of the library holds 512
    distinct keys, and the set of a further well-formed key fails with
    MEMORY_LIMIT_EXCEEDED, not with CAPACITY_EXCEEDED. *)
Lemma saturated_context_memory_limit_first :
  reachable saturated_context
  /\ count saturated_context = EVENTCHAINS_MAX_CONTEXT_ENTRIES
  /\ distinct (List.map key (entries saturated_context)) = true
  /\ key_well_formed "new"
  /\ find_entry saturated_context "new" = -1
  /\ fst (fst (event_context_set all_ok saturated_context "new" 4096))
     = EC_ERROR_MEMORY_LIMIT_EXCEEDED
  /\ fst (fst (event_context_set all_ok saturated_context "new" 4096))
     <> EC_ERROR_CAPACITY_EXCEEDED.
Proof.
  split.
  { unfold saturated_context.
    apply fill_reachable, churn_reachable, reach_create. }
  rewrite saturated_context_eq.
  split; [vm_compute; reflexivity|].
  split; [vm_compute; reflexivity|].
  split; [unfold key_well_formed, EVENTCHAINS_MAX_KEY_LENGTH; cbn; lia|].
  split; [vm_compute; reflexivity|].
  assert (H : fst (fst (event_context_set all_ok
                          (fill (mkEventContext [] 8 10470998) 512) "new" 4096))
              = EC_ERROR_MEMORY_LIMIT_EXCEEDED) by (vm_compute; reflexivity).
  split; [exact H|]. rewrite H. discriminate.
Qed.

Lemma built_reachable (context : EventContext) :
  built_without_remove context -> reachable context.
Proof.
  induction 1; [apply reach_create|now apply reach_set
                |now apply reach_get_ref|now apply reach_clear].
Qed.

Lemma map_key_set_entry_value (es : list ContextEntry) (j : nat)
  (v : RefCountedValue) :
  List.map key (set_entry_value es j v) = List.map key es.
Proof.
  revert j. induction es as [|e es IH]; intros [|j]; cbn; try reflexivity.
  now rewrite IH.
Qed.

Lemma fold_keys (es : list ContextEntry) :
  List.fold_right (fun e acc => entry_overhead (key e) + acc) 0 es
  = List.fold_right (fun k acc => entry_overhead k + acc) 0 (List.map key es).
Proof. induction es as [|e es IH]; cbn; [reflexivity|now rewrite IH]. Qed.

Lemma accounted_same_keys (context context' : EventContext) :
  List.map key (entries context') = List.map key (entries context) ->
  total_memory_bytes context' = total_memory_bytes context ->
  memory_accounted context -> memory_accounted context'.
Proof.
  intros Hk Ht [(cap & Hcap & Hm) Hwf]. split.
  - exists cap. split; [exact Hcap|].
    rewrite Ht, Hm. unfold live_overhead. now rewrite !fold_keys, Hk.
  - rewrite Forall_forall in *. intros e He.
    assert (Hin : In (key e) (List.map key (entries context')))
      by (apply in_map, He).
    rewrite Hk in Hin. apply in_map_iff in Hin.
    destruct Hin as (e0 & <- & He0). now apply Hwf.
Qed.

Lemma live_overhead_app (es : list ContextEntry) (e : ContextEntry) :
  List.fold_right (fun e acc => entry_overhead (key e) + acc) 0 (es ++ [e])
  = List.fold_right (fun e acc => entry_overhead (key e) + acc) 0 es
    + entry_overhead (key e).
Proof. induction es as [|x es IH]; cbn; [lia|]. rewrite IH. lia. Qed.

Lemma entry_overhead_strdup (k : string) :
  entry_overhead (strdup k) = entry_overhead k.
Proof. unfold entry_overhead. now rewrite strlen_strdup. Qed.

Lemma set_accounted (al : Allocator) (context : EventContext)
  (k : string) (v cl : ptr) :
  ctx_wf context -> memory_accounted context ->
  memory_accounted (snd (fst (event_context_set_with_cleanup al context k v cl))).
Proof.
  intros Hwf Hacc. unfold event_context_set_with_cleanup.
  destruct (_ || _) eqn:Hk; [exact Hacc|].
  apply key_check in Hk.
  rewrite additional_memory_overhead by exact Hk.
  pose proof (entry_overhead_bounds k Hk) as Hov.
  assert (Hsum : size_t_wrap (total_memory_bytes context + entry_overhead k)
                 = total_memory_bytes context + entry_overhead k).
  { apply size_t_wrap_small. destruct Hwf as (_ & _ & Hm).
    unfold EVENTCHAINS_MAX_CONTEXT_MEMORY in Hm. lia. }
  rewrite Hsum.
  destruct (_ >? _); [exact Hacc|].
  destruct (ref_counted_value_create _ _ _) as [rv|]; [|exact Hacc].
  destruct (find_entry context k >=? 0); cbn [fst snd].
  - apply (accounted_same_keys context); [|reflexivity|exact Hacc].
    cbn [entries]. apply map_key_set_entry_value.
  - pose proof (ensure_capacity_spec (entries_realloc_ok al) context Hwf) as H.
    cbv zeta in H.
    destruct (ensure_capacity (entries_realloc_ok al) context) as [err c'].
    cbn [fst snd] in H. destruct H as (He & Hm & Hw & Hs & Hf).
    assert (Hc' : memory_accounted c').
    { apply (accounted_same_keys context); [now rewrite He|exact Hm|exact Hacc]. }
    destruct err; cbn [fst snd]; try exact Hc'.
    destruct (key_strdup_ok al); cbn [negb fst snd]; [|exact Hc'].
    destruct Hc' as [(cap & Hcap & Ht) Hkeys]. split.
    + exists cap. split; [exact Hcap|].
      cbn [total_memory_bytes entries]. rewrite Hm, Hsum.
      unfold live_overhead in *. cbn [entries].
      rewrite live_overhead_app. cbn [key]. rewrite entry_overhead_strdup.
      rewrite Hm in Ht. lia.
    + cbn [entries]. apply Forall_app. split; [exact Hkeys|].
      constructor; [|constructor]. cbn [key].
      unfold key_well_formed in *. now rewrite strlen_strdup.
Qed.

Lemma built_accounted (context : EventContext) :
  built_without_remove context -> memory_accounted context.
Proof.
  induction 1 as [|al c k v cl Hb IH|c k Hb IH|c Hb IH].
  - split; [|constructor]. exists INITIAL_CAPACITY.
    unfold INITIAL_CAPACITY, EVENTCHAINS_MAX_CONTEXT_ENTRIES. split; [lia|].
    reflexivity.
  - apply set_accounted; [|exact IH]. apply reachable_wf, built_reachable, Hb.
  - unfold event_context_get_ref.
    destruct (find_entry c k <? 0); [exact IH|].
    destruct (nth_error _ _); [|exact IH].
    cbn [snd]. apply (accounted_same_keys c); [|reflexivity|exact IH].
    cbn [entries]. apply map_key_set_entry_value.
  - unfold event_context_clear. cbn [fst].
    pose proof (reachable_wf _ (built_reachable _ Hb)) as (_ & Hcap & _).
    split; [|constructor]. exists (capacity c). split; [exact Hcap|].
    cbn [total_memory_bytes]. unfold live_overhead. cbn [entries fold_right].
    unfold INITIAL_CAPACITY, EVENTCHAINS_MAX_CONTEXT_ENTRIES in Hcap.
    unfold sizeof_ContextEntry, sizeof_EventContext.
    rewrite (size_t_wrap_small (capacity c * 16)) by lia.
    rewrite size_t_wrap_small by lia. lia.
Qed.

Lemma live_overhead_bound (es : list ContextEntry) :
  Forall (fun e => key_well_formed (key e)) es ->
  0 <= List.fold_right (fun e acc => entry_overhead (key e) + acc) 0 es
    <= 281 * Z.of_nat (List.length es).
Proof.
  induction 1 as [|e es He _ IH]; cbn [fold_right List.length]; [lia|].
  pose proof (entry_overhead_bounds _ He). lia.
Qed.

(** Where the counter accounts for the live entries, the memory check
    does not refuse the 513th key, and the capacity check does. *)
Lemma accounted_full_context_set (context : EventContext) (k : string) (v : ptr) :
  ctx_wf context -> memory_accounted context ->
  count context = EVENTCHAINS_MAX_CONTEXT_ENTRIES ->
  key_well_formed k ->
  find_entry context k = -1 ->
  event_context_set all_ok context k v
  = (EC_ERROR_CAPACITY_EXCEEDED, context, []).
Proof.
  intros Hwf [(cap & Hcap & Ht) Hkeys] Hcount Hk Hfind.
  pose proof (live_overhead_bound _ Hkeys) as Hb.
  pose proof (entry_overhead_bounds k Hk) as Hov.
  fold (live_overhead context) in Hb. unfold count in Hcount.
  rewrite Hcount in Hb.
  unfold INITIAL_CAPACITY, EVENTCHAINS_MAX_CONTEXT_ENTRIES,
    sizeof_EventContext, sizeof_ContextEntry in *.
  destruct (full_context_set_rejected all_ok context k v NULL Hwf Hk) as [_ H].
  cbv zeta in H.
  destruct H as (Hc & He & Hcl); [exact Hcount|exact Hfind|].
  unfold event_context_set.
  destruct (event_context_set_with_cleanup all_ok context k v NULL)
    as [[err c'] calls].
  cbn [fst snd] in *. rewrite Hc, (Hcl eq_refl), He.
  destruct (Z.gtb_spec (total_memory_bytes context + entry_overhead k)
              EVENTCHAINS_MAX_CONTEXT_MEMORY) as [Hgt|_].
  - unfold EVENTCHAINS_MAX_CONTEXT_MEMORY in Hgt. lia.
  - reflexivity.
Qed.

Lemma fill_built (context : EventContext) (m : nat) :
  built_without_remove context -> built_without_remove (fill context m).
Proof.
  unfold fill. generalize (List.seq 0 m) as l. intros l. revert context.
  induction l as [|i l IH]; intros context H; cbn [List.fold_left].
  - exact H.
  - apply IH. unfold event_context_set. now apply built_set.
Qed.

Lemma remove_keeps_memory_counter (context : EventContext) (k : string) :
  event_context_memory_usage (snd (fst (event_context_remove context k)))
  = event_context_memory_usage context.
Proof.
  unfold event_context_remove, event_context_memory_usage.
  now destruct (find_entry context k <? 0).
Qed.

(** C6, at its failing input.  In every context that the library
    builds without [event_context_remove], the memory counter accounts
    for the live entries, and when such a context holds
    [EVENTCHAINS_MAX_CONTEXT_ENTRIES] entries the set of a well-formed
    key that it does not hold fails with CAPACITY_EXCEEDED and changes
    nothing.  [event_context_remove] takes an entry away and leaves
    [total_memory_bytes] as it is, for every context and every key.  So
    the counter of [saturated_context], which 402723 sets and removals
    of one key and then the sets of 512 keys have built, stands at
    10485736 bytes and no longer accounts for the live entries, while a
    new context on which the same 512 keys are set holds the same
    entries with the counter at 14938 bytes.  On the first the set of
    the well-formed key ["new"], which the context does not hold, fails
    with MEMORY_LIMIT_EXCEEDED and changes nothing; on the second the
    same set fails with CAPACITY_EXCEEDED. *)
Theorem remove_leak_hides_capacity_limit :
  (forall (context : EventContext) (k : string) (v : ptr),
     built_without_remove context ->
     event_context_count context = EVENTCHAINS_MAX_CONTEXT_ENTRIES ->
     key_well_formed k ->
     find_entry context k = -1 ->
     memory_accounted context
     /\ event_context_set all_ok context k v
        = (EC_ERROR_CAPACITY_EXCEEDED, context, []))
  /\ (forall (context : EventContext) (k : string),
        event_context_memory_usage (snd (fst (event_context_remove context k)))
        = event_context_memory_usage context)
  /\ reachable saturated_context
  /\ ~ memory_accounted saturated_context
  /\ built_without_remove (fill event_context_create 512)
  /\ entries saturated_context = entries (fill event_context_create 512)
  /\ event_context_count saturated_context = EVENTCHAINS_MAX_CONTEXT_ENTRIES
  /\ distinct (List.map key (entries saturated_context)) = true
  /\ key_well_formed "new"
  /\ find_entry saturated_context "new" = -1
  /\ event_context_memory_usage saturated_context = 10485736
  /\ event_context_memory_usage (fill event_context_create 512) = 14938
  /\ event_context_set all_ok saturated_context "new" 4096
     = (EC_ERROR_MEMORY_LIMIT_EXCEEDED, saturated_context, [])
  /\ event_context_set all_ok (fill event_context_create 512) "new" 4096
     = (EC_ERROR_CAPACITY_EXCEEDED, fill event_context_create 512, []).
Proof.
  split.
  { intros context k v Hb Hcount Hk Hfind.
    pose proof (built_accounted _ Hb) as Hacc.
    split; [exact Hacc|].
    apply accounted_full_context_set; try assumption.
    apply reachable_wf, built_reachable, Hb. }
  split; [exact remove_keeps_memory_counter|].
  split.
  { unfold saturated_context.
    apply fill_reachable, churn_reachable, reach_create. }
  split.
  { rewrite saturated_context_eq. intros [(cap & Hcap & Ht) _].
    assert (Hlive : live_overhead (fill (mkEventContext [] 8 10470998) 512)
                    = 14738) by (vm_compute; reflexivity).
    assert (Htotal : total_memory_bytes (fill (mkEventContext [] 8 10470998) 512)
                     = 10485736) by (vm_compute; reflexivity).
    rewrite Hlive, Htotal in Ht.
    unfold INITIAL_CAPACITY, EVENTCHAINS_MAX_CONTEXT_ENTRIES,
      sizeof_EventContext, sizeof_ContextEntry in *. lia. }
  split; [apply fill_built, built_create|].
  rewrite saturated_context_eq.
  split; [vm_compute; reflexivity|].
  split; [vm_compute; reflexivity|].
  split; [vm_compute; reflexivity|].
  split; [unfold key_well_formed, EVENTCHAINS_MAX_KEY_LENGTH; cbn; lia|].
  split; [vm_compute; reflexivity|].
  split; [vm_compute; reflexivity|].
  split; [vm_compute; reflexivity|].
  split; vm_compute; reflexivity.
Qed.

(** The new context on which 512 keys are set. *)
Lemma remove_leak_hides_capacity_limit_witness :
  memory_accounted (fill event_context_create 512)
  /\ event_context_set all_ok (fill event_context_create 512) "new" 4096
     = (EC_ERROR_CAPACITY_EXCEEDED, fill event_context_create 512, []).
Proof.
  apply (proj1 remove_leak_hides_capacity_limit).
  - apply fill_built, built_create.
  - vm_compute. reflexivity.
  - unfold key_well_formed, EVENTCHAINS_MAX_KEY_LENGTH. cbn. lia.
  - vm_compute. reflexivity.
Defined.

(** ** Mutating a chain that is executing *)

Lemma add_event_reentrancy {W : Type} (ok : bool) (chain : EventChain W)
  (event : ChainableEvent W) :
  is_executing chain <> 0 ->
  event_chain_add_event ok chain event = (EC_ERROR_REENTRANCY, chain).
Proof.
  intros H. unfold event_chain_add_event.
  now replace (is_executing chain =? 0) with false
    by (symmetry; apply Z.eqb_neq; exact H).
Qed.

Lemma use_middleware_reentrancy {W : Type} (ok : bool) (chain : EventChain W)
  (middleware : EventMiddleware W) :
  is_executing chain <> 0 ->
  event_chain_use_middleware ok chain middleware = (EC_ERROR_REENTRANCY, chain).
Proof.
  intros H. unfold event_chain_use_middleware.
  now replace (is_executing chain =? 0) with false
    by (symmetry; apply Z.eqb_neq; exact H).
Qed.

(** C5, at its failing input.  On a chain whose [is_executing] flag is
    1, [event_chain_add_event] and [event_chain_use_middleware] fail with
    REENTRANCY and leave the chain as it is, while
    [event_chain_set_failure_handler] returns SUCCESS and installs the
    handler. *)
Theorem set_failure_handler_while_executing :
  is_executing executing_chain = 1
  /\ event_chain_add_event true executing_chain failing_event
     = (EC_ERROR_REENTRANCY, executing_chain)
  /\ event_chain_use_middleware true executing_chain passthrough_middleware
     = (EC_ERROR_REENTRANCY, executing_chain)
  /\ fst (event_chain_set_failure_handler executing_chain
            (Some continue_handler) 4096) = EC_SUCCESS
  /\ failure_handler executing_chain = None
  /\ failure_handler
       (snd (event_chain_set_failure_handler executing_chain
               (Some continue_handler) 4096)) = Some continue_handler.
Proof.
  split; [reflexivity|].
  split; [apply add_event_reentrancy; discriminate|].
  split; [apply use_middleware_reentrancy; discriminate|].
  repeat split.
Qed.

(** ** The verdict of [event_chain_execute] *)

Section Verdict.
Context {W : Type}.
Variable realloc_ok : Z -> bool.
Variable uninit : EventResult.

Lemma stops_breaks (chain : EventChain W) :
  stops_at_first_failure chain -> breaks_at_first_failure chain.
Proof. intros H. left. exact H. Qed.

Lemma continues_never_breaks (chain : EventChain W) :
  always_continues chain -> never_breaks chain.
Proof.
  intros [H|H]; split; rewrite H; discriminate.
Qed.

Lemma stops_no_handler (chain : EventChain W) :
  stops_at_first_failure chain -> no_handler_runs chain.
Proof.
  intros [H|[_ H]] Hc; [rewrite H in Hc; discriminate|exact H].
Qed.

(** The value of [should_continue] that the [switch] gives. *)
Lemma decide_continue_answer (chain : EventChain W) (event : ChainableEvent W)
  (er : EventResult) (w : W) :
  fst (fst (fst (decide_continue chain event er w)))
  = match fault_tolerance chain with
    | FAULT_TOLERANCE_STRICT => false
    | FAULT_TOLERANCE_LENIENT | FAULT_TOLERANCE_BEST_EFFORT => true
    | FAULT_TOLERANCE_CUSTOM =>
        match failure_handler chain with
        | Some h =>
            handler_answer h (chain_view chain) event er w
              (failure_handler_data chain)
        | None => false
        end
    end.
Proof.
  unfold decide_continue, handler_answer.
  destruct (fault_tolerance chain); try reflexivity.
  destruct (failure_handler chain) as [h|]; [|reflexivity].
  destruct (call_handler h (chain_view chain) event er w (failure_handler_data chain))
    as [[[[b er'] settings] hu] w'].
  reflexivity.
Qed.

Lemma decide_continue_policy (chain : EventChain W) (event : ChainableEvent W)
  (er : EventResult) (w : W) :
  let '(b, _, chain', _) := decide_continue chain event er w in
  (no_handler_runs chain -> chain' = chain)
  /\ (breaks_at_first_failure chain -> b = false)
  /\ (never_breaks chain -> b = true /\ never_breaks chain').
Proof.
  unfold decide_continue, breaks_at_first_failure, stops_at_first_failure,
    never_breaks, no_handler_runs.
  destruct (fault_tolerance chain) eqn:Hm.
  - split; [reflexivity|]. split; [reflexivity|].
    intros [Hn _]. now elim Hn.
  - split; [reflexivity|]. split.
    + intros [[Hn|[Hn _]]|[Hn _]]; discriminate.
    + intros Hn. split; [reflexivity|]. rewrite Hm. exact Hn.
  - split; [reflexivity|]. split.
    + intros [[Hn|[Hn _]]|[Hn _]]; discriminate.
    + intros Hn. split; [reflexivity|]. rewrite Hm. exact Hn.
  - destruct (failure_handler chain) as [h|] eqn:Hh.
    + pose proof (fun H : handler_answers h false =>
                    H (chain_view chain) event er w (failure_handler_data chain))
        as Hfalse.
      pose proof (fun H : handler_keeps_going h =>
                    H (chain_view chain) event er w (failure_handler_data chain))
        as Hgo.
      unfold handler_answer in Hfalse.
      destruct (call_handler h (chain_view chain) event er w
                  (failure_handler_data chain))
        as [[[[b er'] settings] hu] w'].
      cbn [fst] in Hfalse.
      split; [|split].
      * intros H. specialize (H eq_refl). discriminate.
      * intros [[H|[_ H]]|[_ (h' & Hh' & Ha)]]; try discriminate.
        injection Hh' as <-. now apply Hfalse.
      * intros [_ H]. destruct (H eq_refl) as (h' & Hh' & Hk).
        injection Hh' as <-. destruct (Hgo Hk) as (Hb & Hs & Hu). subst hu.
        split; [exact Hb|].
        cbn [with_settings fault_tolerance failure_handler].
        split; [|intros _; exists h; split; [reflexivity|exact Hk]].
        intros Hx. apply Hs in Hx. cbn in Hx. rewrite Hm in Hx. discriminate.
    + split; [reflexivity|]. split; [reflexivity|].
      intros [_ H]. destruct (H eq_refl) as (h' & Hh' & _). discriminate.
Qed.

Ltac verdict_case :=
  try discriminate; try reflexivity; try assumption;
  try match goal with
  | Hs : breaks_at_first_failure _ -> true = false,
    H : breaks_at_first_failure _ |- _ => specialize (Hs H); discriminate
  | Hc : never_breaks _ -> false = true /\ _,
    H : never_breaks _ |- _ => destruct (Hc H); discriminate
  | Hsame : no_handler_runs _ -> _ /\ _, H : no_handler_runs _ |- _ =>
      destruct (Hsame H); assumption
  | Hc : never_breaks _ -> _ /\ never_breaks _, H : never_breaks _ |- _ =>
      let Hx := fresh in
      destruct (Hc H) as [_ [? Hx]]; first [assumption | apply Hx; assumption]
  | Hr : ?f _ = false, H : forall n, ?f n = true |- _ =>
      rewrite H in Hr; discriminate
  | Hres : es_result ?st = _, Hcap : es_failure_capacity ?st = 0,
    Hge : (_ >=? _) = false |- _ =>
      rewrite Hres, Hcap in Hge; discriminate
  | Hres : es_result ?st = _ |- _ => rewrite Hres; reflexivity
  end.

(** One iteration of the loop. *)
Lemma execute_one_spec (st : ExecState) (event : ChainableEvent W) :
  let '(st', brk) := execute_one realloc_ok uninit st event in
  (no_handler_runs (es_chain st) ->
   fault_tolerance (es_chain st') = fault_tolerance (es_chain st)
   /\ failure_handler (es_chain st') = failure_handler (es_chain st))
  /\ (brk = true -> cr_success (es_result st') = false)
  /\ (brk = false -> cr_success (es_result st') = cr_success (es_result st))
  /\ (brk = false -> breaks_at_first_failure (es_chain st) ->
      es_result st' = es_result st
      /\ es_failure_capacity st' = es_failure_capacity st
      /\ fault_tolerance (es_chain st') = fault_tolerance (es_chain st)
      /\ failure_handler (es_chain st') = failure_handler (es_chain st))
  /\ (brk = true -> (forall n, realloc_ok n = true) ->
      es_result st = mkChainResult true None 0 ->
      es_failure_capacity st = 0 ->
      cr_failure_count (es_result st') = 1)
  /\ (never_breaks (es_chain st) -> (forall n, realloc_ok n = true) ->
      brk = false /\ never_breaks (es_chain st')).
Proof.
  unfold execute_one.
  destruct (execute_event_with_middleware (es_chain st) event uninit (es_world st))
    as [[er ctx] w].
  destruct (success er) eqn:Hs.
  { cbn [es_chain es_result es_failure_capacity with_context fault_tolerance
         failure_handler].
    split; [intros _; split; reflexivity|].
    split; [discriminate|]. split; [reflexivity|].
    split; [intros _ _; repeat split|].
    split; [discriminate|].
    intros Hn _. split; [reflexivity|exact Hn]. }
  pose proof (decide_continue_policy (with_context (es_chain st) ctx) event er w) as Hd.
  destruct (decide_continue (with_context (es_chain st) ctx) event er w)
    as [[[b er'] chain'] w'].
  destruct Hd as (Hsame & Hstop & Hcont).
  assert (Hsame' : no_handler_runs (es_chain st) ->
                   fault_tolerance chain' = fault_tolerance (es_chain st)
                   /\ failure_handler chain' = failure_handler (es_chain st)).
  { intros H. rewrite Hsame by exact H. split; reflexivity. }
  assert (Hstop' : breaks_at_first_failure (es_chain st) -> b = false).
  { intros H. apply Hstop. exact H. }
  assert (Hcont' : never_breaks (es_chain st) -> b = true /\ never_breaks chain').
  { intros H. apply Hcont. exact H. }
  clear Hsame Hstop Hcont.
  destruct (cr_failure_count (es_result st) >=? es_failure_capacity st) eqn:Hge;
    [destruct (realloc_ok _) eqn:Hr|];
    destruct (cr_failures (es_result st)) as [l|] eqn:Hf;
    destruct b;
    cbn [negb es_chain es_result es_failure_capacity cr_success cr_failure_count];
    repeat split; intros; verdict_case.
Qed.

(** When the body of the loop leaves it. *)
Lemma execute_one_breaks (st : ExecState) (event : ChainableEvent W) :
  let '(er, ctx, w1) :=
    execute_event_with_middleware (es_chain st) event uninit (es_world st) in
  let chain := with_context (es_chain st) ctx in
  snd (execute_one realloc_ok uninit st event)
  = negb (success er)
    && (failures_cannot_grow realloc_ok st
        || match fault_tolerance chain with
           | FAULT_TOLERANCE_STRICT => true
           | FAULT_TOLERANCE_LENIENT | FAULT_TOLERANCE_BEST_EFFORT => false
           | FAULT_TOLERANCE_CUSTOM =>
               match failure_handler chain with
               | Some h =>
                   negb (handler_answer h (chain_view chain) event er w1
                           (failure_handler_data chain))
               | None => true
               end
           end).
Proof.
  unfold execute_one, failures_cannot_grow.
  destruct (execute_event_with_middleware (es_chain st) event uninit (es_world st))
    as [[er ctx] w1].
  cbv zeta.
  destruct (success er) eqn:Hs; [reflexivity|].
  pose proof (decide_continue_answer (with_context (es_chain st) ctx) event er w1)
    as Hd.
  destruct (decide_continue (with_context (es_chain st) ctx) event er w1)
    as [[[b er'] chain'] w'].
  cbn [fst] in Hd. subst b.
  destruct (fault_tolerance (with_context (es_chain st) ctx));
    [| | |destruct (failure_handler (with_context (es_chain st) ctx)) as [h|];
          [destruct (handler_answer h _ _ _ _ _)|]];
    (destruct (cr_failure_count (es_result st) >=? es_failure_capacity st);
     [destruct (realloc_ok _)|]); reflexivity.
Qed.

Lemma loop_success (st : ExecState) (evs : list (ChainableEvent W)) :
  cr_success (es_result st) = true ->
  cr_success (es_result (execute_loop realloc_ok uninit st evs))
  = negb (loop_breaks realloc_ok uninit st evs).
Proof.
  revert st. induction evs as [|ev evs IH]; intros st Hs;
    cbn [execute_loop loop_breaks]; [exact Hs|].
  pose proof (execute_one_spec st ev) as H.
  destruct (execute_one realloc_ok uninit st ev) as [st' brk].
  destruct H as (_ & Hb & Hn & _).
  destruct brk; [now apply Hb|].
  apply IH. rewrite Hn by reflexivity. exact Hs.
Qed.

(** Where no handler is called, the mode and the handler stay. *)
Lemma loop_mode (st : ExecState) (evs : list (ChainableEvent W)) :
  no_handler_runs (es_chain st) ->
  fault_tolerance (es_chain (execute_loop realloc_ok uninit st evs))
  = fault_tolerance (es_chain st)
  /\ failure_handler (es_chain (execute_loop realloc_ok uninit st evs))
     = failure_handler (es_chain st).
Proof.
  revert st. induction evs as [|ev evs IH]; intros st Hno;
    cbn [execute_loop]; [split; reflexivity|].
  pose proof (execute_one_spec st ev) as H.
  destruct (execute_one realloc_ok uninit st ev) as [st' brk].
  destruct H as (Hm & _). destruct (Hm Hno) as [Hmode Hh].
  destruct brk; [split; assumption|].
  rewrite <- Hmode, <- Hh. apply IH.
  unfold no_handler_runs in *. rewrite Hmode, Hh. exact Hno.
Qed.

(** In a chain that a failed event stops, nothing is recorded unless the
    loop breaks, and with the failure array growing exactly one failure
    is recorded when it does. *)
Lemma loop_breaks_at_first_failure (st : ExecState)
  (evs : list (ChainableEvent W)) :
  breaks_at_first_failure (es_chain st) ->
  es_result st = mkChainResult true None 0 ->
  es_failure_capacity st = 0 ->
  let st' := execute_loop realloc_ok uninit st evs in
  if loop_breaks realloc_ok uninit st evs
  then (forall n, realloc_ok n = true) -> cr_failure_count (es_result st') = 1
  else es_result st' = mkChainResult true None 0.
Proof.
  revert st. induction evs as [|ev evs IH]; intros st Hstop Hres Hcap;
    cbn [execute_loop loop_breaks]; [exact Hres|].
  pose proof (execute_one_spec st ev) as H.
  destruct (execute_one realloc_ok uninit st ev) as [st1 brk].
  destruct H as (_ & _ & _ & Hkeep & Hone & _).
  destruct brk.
  - intros Hall. now apply Hone.
  - destruct (Hkeep eq_refl Hstop) as (Hr & Hc & Hm & Hh).
    apply IH.
    + unfold breaks_at_first_failure, stops_at_first_failure in *.
      rewrite Hm, Hh. exact Hstop.
    + now rewrite Hr.
    + now rewrite Hc.
Qed.

Lemma loop_never_breaks (st : ExecState) (evs : list (ChainableEvent W)) :
  never_breaks (es_chain st) -> (forall n, realloc_ok n = true) ->
  loop_breaks realloc_ok uninit st evs = false
  /\ never_breaks (es_chain (execute_loop realloc_ok uninit st evs)).
Proof.
  revert st. induction evs as [|ev evs IH]; intros st Hc Hall;
    cbn [loop_breaks execute_loop]; [split; [reflexivity|exact Hc]|].
  pose proof (execute_one_spec st ev) as H.
  destruct (execute_one realloc_ok uninit st ev) as [st1 brk].
  destruct H as (_ & _ & _ & _ & _ & Hnb).
  destruct (Hnb Hc Hall) as [-> Hc1].
  apply IH; assumption.
Qed.

End Verdict.

Lemma fault_tolerance_eqb_strict (m : FaultToleranceMode) :
  fault_tolerance_eqb m FAULT_TOLERANCE_STRICT = true
  <-> m = FAULT_TOLERANCE_STRICT.
Proof. destruct m; cbn; split; intros H; try discriminate; reflexivity. Qed.

(** What [event_chain_execute] returns when it is not rejected as
    reentrant, from the state in which the loop ends. *)
Lemma event_chain_execute_verdict {W : Type} (realloc_ok : Z -> bool)
  (uninit : EventResult) (chain : EventChain W) (w : W) :
  is_executing chain = 0 ->
  let st := execute_loop realloc_ok uninit (initial_state chain w) (events chain) in
  let out := event_chain_execute realloc_ok uninit chain w in
  snd (fst out) = with_is_executing (es_chain st) 0
  /\ cr_failure_count (fst (fst out)) = cr_failure_count (es_result st)
  /\ cr_success (fst (fst out))
     = cr_success (es_result st)
       && negb ((cr_failure_count (es_result st) >? 0)
                && fault_tolerance_eqb (fault_tolerance (es_chain st))
                     FAULT_TOLERANCE_STRICT).
Proof.
  intros Hex st out. subst out. unfold event_chain_execute.
  rewrite Hex. change (negb (0 =? 0)) with false. cbv iota zeta.
  change (events (with_is_executing chain 1)) with (events chain).
  change (mkExecState (with_is_executing chain 1) w (mkChainResult true None 0) 0)
    with (initial_state chain w).
  fold st.
  change (fault_tolerance (with_is_executing (es_chain st) 0))
    with (fault_tolerance (es_chain st)).
  destruct ((cr_failure_count (es_result st) >? 0)
            && fault_tolerance_eqb (fault_tolerance (es_chain st))
                 FAULT_TOLERANCE_STRICT);
    cbn [fst snd cr_success cr_failure_count negb].
  - rewrite andb_false_r. repeat split.
  - rewrite andb_true_r. repeat split.
Qed.

(** C1, as amended.  After an execution that is not rejected as
    reentrant, [success] is false exactly when the loop over the events
    was left through its [break], or a failure was recorded and the mode
    of the chain is strict when the loop has ended; a failure handler is
    given the chain and can write its mode.  The body of the loop leaves
    it at an event exactly when the event failed and either the failure
    array is full and cannot be grown, or the mode is strict, or the mode
    is custom and the handler is absent or returns false.  Hence: in
    strict mode a recorded failure makes [success] false; in lenient and
    best-effort mode [success] stays true, whatever was recorded, as long
    as the failure array can be grown; with the array growing, in strict
    mode, in custom mode without a handler and in custom mode with a
    handler that always returns false, [success] is false exactly when a
    failure was recorded; and in custom mode with a handler that always
    returns true, leaves the handler in place and does not write the
    strict mode, [success] stays true. *)
Theorem chain_success_verdict {W : Type} (realloc_ok : Z -> bool)
  (uninit : EventResult) (chain : EventChain W) (w : W) :
  is_executing chain = 0 ->
  let out := event_chain_execute realloc_ok uninit chain w in
  let r := fst (fst out) in
  let chain' := snd (fst out) in
  (cr_success r = false
   <-> loop_breaks realloc_ok uninit (initial_state chain w) (events chain) = true
       \/ (cr_failure_count r > 0
           /\ fault_tolerance chain' = FAULT_TOLERANCE_STRICT))
  /\ (forall (st : ExecState) (event : ChainableEvent W),
        let '(er, ctx, w1) :=
          execute_event_with_middleware (es_chain st) event uninit (es_world st) in
        let chain1 := with_context (es_chain st) ctx in
        snd (execute_one realloc_ok uninit st event)
        = negb (success er)
          && (failures_cannot_grow realloc_ok st
              || match fault_tolerance chain1 with
                 | FAULT_TOLERANCE_STRICT => true
                 | FAULT_TOLERANCE_LENIENT | FAULT_TOLERANCE_BEST_EFFORT => false
                 | FAULT_TOLERANCE_CUSTOM =>
                     match failure_handler chain1 with
                     | Some h =>
                         negb (handler_answer h (chain_view chain1) event er w1
                                 (failure_handler_data chain1))
                     | None => true
                     end
                 end))
  /\ (fault_tolerance chain = FAULT_TOLERANCE_STRICT ->
      cr_failure_count r > 0 -> cr_success r = false)
  /\ ((forall n, realloc_ok n = true) -> always_continues chain ->
      cr_success r = true)
  /\ ((forall n, realloc_ok n = true) -> stops_at_first_failure chain ->
      (cr_success r = false <-> cr_failure_count r > 0))
  /\ (forall h, (forall n, realloc_ok n = true) ->
      fault_tolerance chain = FAULT_TOLERANCE_CUSTOM ->
      failure_handler chain = Some h -> handler_answers h false ->
      (cr_success r = false <-> cr_failure_count r > 0))
  /\ (forall h, (forall n, realloc_ok n = true) ->
      fault_tolerance chain = FAULT_TOLERANCE_CUSTOM ->
      failure_handler chain = Some h -> handler_keeps_going h ->
      cr_success r = true).
Proof.
  intros Hex out r chain'.
  destruct (event_chain_execute_verdict realloc_ok uninit chain w Hex)
    as (Hchain & Hcount & Hverdict).
  fold out in Hchain, Hcount, Hverdict. fold r in Hcount, Hverdict.
  fold chain' in Hchain.
  set (st0 := initial_state chain w) in *.
  set (st := execute_loop realloc_ok uninit st0 (events chain)) in *.
  assert (Hfinal : fault_tolerance chain' = fault_tolerance (es_chain st))
    by (rewrite Hchain; reflexivity).
  pose proof (loop_success realloc_ok uninit st0 (events chain) eq_refl) as Hsucc.
  fold st in Hsucc.
  pose proof (loop_mode realloc_ok uninit st0 (events chain)) as Hmode.
  fold st in Hmode.
  change (fault_tolerance (es_chain st0)) with (fault_tolerance chain) in Hmode.
  change (no_handler_runs (es_chain st0)) with (no_handler_runs chain) in Hmode.
  pose proof (loop_breaks_at_first_failure realloc_ok uninit st0 (events chain))
    as Hstop.
  pose proof (loop_never_breaks realloc_ok uninit st0 (events chain)) as Hcont.
  change (breaks_at_first_failure (es_chain st0))
    with (breaks_at_first_failure chain) in Hstop.
  change (never_breaks (es_chain st0)) with (never_breaks chain) in Hcont.
  cbv zeta in Hstop. specialize (fun H => Hstop H eq_refl eq_refl).
  fold st in Hstop, Hcont.
  assert (Hverdict1 :
            cr_success r = false
            <-> loop_breaks realloc_ok uninit st0 (events chain) = true
                \/ (cr_failure_count r > 0
                    /\ fault_tolerance chain' = FAULT_TOLERANCE_STRICT)).
  { rewrite Hverdict, Hsucc, Hcount, Hfinal.
    destruct (loop_breaks realloc_ok uninit st0 (events chain)); cbn [negb andb].
    - split; [intros _; left; reflexivity|reflexivity].
    - destruct (Z.gtb_spec (cr_failure_count (es_result st)) 0) as [Hpos|Hpos];
        cbn [andb negb].
      + destruct (fault_tolerance (es_chain st)); cbn [fault_tolerance_eqb negb];
          split; try discriminate; try reflexivity;
          try (intros [H|[_ H]]; discriminate).
        intros _. right. split; [lia|reflexivity].
      + split; [discriminate|]. intros [H|[H _]]; [discriminate|lia]. }
  assert (Hbreaks : breaks_at_first_failure chain ->
                    (forall n, realloc_ok n = true) ->
                    (cr_success r = false <-> cr_failure_count r > 0)).
  { intros Hs Hall. specialize (Hstop Hs).
    rewrite Hverdict, Hsucc, Hcount.
    destruct (loop_breaks realloc_ok uninit st0 (events chain)); cbn [negb andb].
    - rewrite (Hstop Hall). split; [lia|reflexivity].
    - rewrite Hstop. cbn [cr_failure_count]. split; [discriminate|lia]. }
  assert (Hnever : never_breaks chain -> (forall n, realloc_ok n = true) ->
                   cr_success r = true).
  { intros Hc Hall. destruct (Hcont Hc Hall) as [Hb [Hns _]].
    rewrite Hverdict, Hsucc, Hb. cbn [negb andb].
    destruct (fault_tolerance (es_chain st));
      cbn [fault_tolerance_eqb]; rewrite ?andb_false_r; try reflexivity.
    now elim Hns. }
  split; [exact Hverdict1|].
  split; [intros st1 event; apply execute_one_breaks|].
  split; [|split; [|split; [|split]]].
  - intros Hs Hpos. apply Hverdict1. right. split; [exact Hpos|].
    rewrite Hfinal.
    destruct Hmode as [-> _]; [|exact Hs].
    intros Hc. rewrite Hs in Hc. discriminate.
  - intros Hall Hc. apply Hnever; [|exact Hall].
    now apply continues_never_breaks.
  - intros Hall Hs. apply Hbreaks; [|exact Hall]. now apply stops_breaks.
  - intros h Hall Hm Hh Ha. apply Hbreaks; [|exact Hall].
    right. split; [exact Hm|]. exists h. split; assumption.
  - intros h Hall Hm Hh Hk. apply Hnever; [|exact Hall].
    split; [rewrite Hm; discriminate|]. intros _. exists h. split; assumption.
Qed.

(** A chain in custom mode without a handler: a failed event is
    recorded and the verdict is a failure. *)
Lemma chain_success_verdict_witness :
  let r := fst (fst (event_chain_execute (fun _ => true) event_result_success
                       custom_chain tt)) in
  cr_success r = false <-> cr_failure_count r > 0.
Proof.
  intros r.
  apply (chain_success_verdict (fun _ => true) event_result_success custom_chain tt).
  - reflexivity.
  - intros n. reflexivity.
  - right. split; reflexivity.
Defined.

(** C1, counterexample.  In custom mode, with no handler registered,
    one failed event is recorded and [success] is false, although the
    mode is not strict. *)
Lemma custom_mode_failure_clears_success :
  let r := fst (fst (event_chain_execute (fun _ => true) event_result_success
                       custom_chain tt)) in
  is_executing custom_chain = 0
  /\ fault_tolerance custom_chain = FAULT_TOLERANCE_CUSTOM
  /\ cr_failure_count r = 1
  /\ cr_success r = false
  /\ ~ (cr_success r = false
        <-> (cr_failure_count r > 0
             /\ fault_tolerance custom_chain = FAULT_TOLERANCE_STRICT)).
Proof.
  cbv zeta.
  assert (Hs : cr_success
                 (fst (fst (event_chain_execute (fun _ => true)
                              event_result_success custom_chain tt))) = false)
    by (vm_compute; reflexivity).
  repeat split; try (vm_compute; reflexivity).
  intros [H _]. destruct (H Hs) as [_ Hm]. discriminate.
Qed.

(** The two handlers on [custom_chain], whose one event fails.  The one
    that returns [true] and touches nothing leaves [success] true with
    one failure recorded.  The one that returns [true] after writing the
    strict mode does not leave the loop, and [success] is false by the
    check that follows the loop. *)
Lemma handler_writes_strict_mode :
  let run h :=
    event_chain_execute (fun _ => true) event_result_success
      (handled_chain h) tt in
  handler_keeps_going continue_handler
  /\ cr_success (fst (fst (run continue_handler))) = true
  /\ cr_failure_count (fst (fst (run continue_handler))) = 1
  /\ loop_breaks (fun _ => true) event_result_success
       (initial_state (handled_chain strict_handler) tt)
       (events (handled_chain strict_handler)) = false
  /\ fault_tolerance (handled_chain strict_handler) = FAULT_TOLERANCE_CUSTOM
  /\ fault_tolerance (snd (fst (run strict_handler))) = FAULT_TOLERANCE_STRICT
  /\ cr_failure_count (fst (fst (run strict_handler))) = 1
  /\ cr_success (fst (fst (run strict_handler))) = false.
Proof.
  cbv zeta. split.
  - intros view event er w ud. cbn. repeat split. intros H. exact H.
  - repeat split; vm_compute; reflexivity.
Qed.

End ECProps.

(* ------------------------------------------------------------------ *)
(** * Properties of the lexer *)

Module LexerProps.
Import CStr Lexer.
Local Open Scope nat_scope.

(** ** Scanning without emitting *)

Lemma scans_refl (l : Lexer) : scans l l.
Proof. unfold scans. auto. Qed.

Lemma scans_trans (l1 l2 l3 : Lexer) : scans l1 l2 -> scans l2 l3 -> scans l1 l3.
Proof.
  unfold scans. intros (S1 & L1 & T1 & C1 & B1) (S2 & L2 & T2 & C2 & B2).
  repeat split; try congruence; lia.
Qed.

Lemma at_end_false (l : Lexer) :
  lexer_is_at_end l = false <-> current l < lex_length l.
Proof. unfold lexer_is_at_end. rewrite Nat.leb_gt. reflexivity. Qed.

Lemma at_end_true (l : Lexer) :
  lexer_is_at_end l = true <-> lex_length l <= current l.
Proof. unfold lexer_is_at_end. rewrite Nat.leb_le. reflexivity. Qed.

Lemma advance_scans (l : Lexer) : scans l (snd (lexer_advance l)).
Proof.
  unfold lexer_advance.
  destruct (lexer_is_at_end l) eqn:E; [apply scans_refl|].
  apply at_end_false in E.
  destruct (Ascii.eqb _ _); unfold scans; cbn; repeat split; lia.
Qed.

Lemma advance_progress (l : Lexer) :
  lexer_is_at_end l = false ->
  current (snd (lexer_advance l)) = S (current l).
Proof.
  intros E. unfold lexer_advance. rewrite E.
  destruct (Ascii.eqb _ _); reflexivity.
Qed.

Lemma match_scans (l : Lexer) (c : ascii) : scans l (snd (lexer_match l c)).
Proof.
  unfold lexer_match.
  destruct (lexer_is_at_end l); [apply scans_refl|].
  destruct (negb _); [apply scans_refl|]. apply advance_scans.
Qed.

Lemma advance_while_scans (p : ascii -> bool) (fuel : nat) (l : Lexer) :
  scans l (advance_while p fuel l).
Proof.
  revert l. induction fuel as [|f IH]; intros l; cbn [advance_while];
    [apply scans_refl|].
  destruct (p (lexer_peek l)); [|apply scans_refl].
  eapply scans_trans; [apply advance_scans|apply IH].
Qed.

Lemma skip_line_comment_scans (fuel : nat) (l : Lexer) :
  scans l (skip_line_comment fuel l).
Proof.
  revert l. induction fuel as [|f IH]; intros l; cbn [skip_line_comment];
    [apply scans_refl|].
  destruct (_ && _); [|apply scans_refl].
  eapply scans_trans; [apply advance_scans|apply IH].
Qed.

Lemma skip_block_comment_scans (fuel : nat) (l : Lexer) :
  scans l (skip_block_comment fuel l).
Proof.
  revert l. induction fuel as [|f IH]; intros l; cbn [skip_block_comment];
    [apply scans_refl|].
  destruct (lexer_is_at_end l); [apply scans_refl|].
  destruct (_ && _).
  - eapply scans_trans; apply advance_scans.
  - eapply scans_trans; [apply advance_scans|apply IH].
Qed.

Lemma skip_whitespace_loop_scans (fuel : nat) (l : Lexer) :
  scans l (skip_whitespace_loop fuel l).
Proof.
  revert l. induction fuel as [|f IH]; intros l; cbn [skip_whitespace_loop];
    [apply scans_refl|].
  destruct (lexer_is_at_end l); [apply scans_refl|].
  destruct (is_space _).
  { eapply scans_trans; [apply advance_scans|apply IH]. }
  destruct (_ && _).
  { eapply scans_trans; [apply skip_line_comment_scans|apply IH]. }
  destruct (_ && _); [|apply scans_refl].
  eapply scans_trans; [apply advance_scans|].
  eapply scans_trans; [apply advance_scans|].
  eapply scans_trans; [apply skip_block_comment_scans|apply IH].
Qed.

Lemma skip_whitespace_scans (l : Lexer) : scans l (skip_whitespace l).
Proof. apply skip_whitespace_loop_scans. Qed.

(** ** The fuel of the inner loops

    Each loop of the lexer is run with at least as many iterations as
    characters are left; the lemmas below show that its result does not
    depend on the number of iterations beyond that, so the loop always
    ends through its own condition. *)

Lemma remaining_advance (l : Lexer) :
  lexer_is_at_end l = false ->
  remaining (snd (lexer_advance l)) < remaining l.
Proof.
  intros E. pose proof (advance_progress l E) as Hp.
  pose proof (advance_scans l) as (_ & Hl & _ & _ & _).
  apply at_end_false in E. unfold remaining. lia.
Qed.

Lemma remaining_scans (l l' : Lexer) : scans l l' -> remaining l' <= remaining l.
Proof. intros (_ & Hl & _ & Hc & _). unfold remaining. lia. Qed.

Lemma remaining_zero (l : Lexer) : remaining l = 0 -> lexer_is_at_end l = true.
Proof. unfold remaining. intros H. apply at_end_true. lia. Qed.

Lemma peek_at_end (l : Lexer) : lexer_is_at_end l = true -> lexer_peek l = NUL.
Proof. intros H. unfold lexer_peek. now rewrite H. Qed.

Lemma advance_while_fuel (p : ascii -> bool) (f1 f2 : nat) (l : Lexer) :
  p NUL = false -> remaining l <= f1 -> remaining l <= f2 ->
  advance_while p f1 l = advance_while p f2 l.
Proof.
  intros Hp. revert f2 l. induction f1 as [|f1 IH]; intros f2 l H1 H2.
  - assert (He : lexer_is_at_end l = true) by (apply remaining_zero; lia).
    destruct f2; cbn [advance_while]; [reflexivity|].
    now rewrite (peek_at_end l He), Hp.
  - cbn [advance_while].
    destruct (p (lexer_peek l)) eqn:Hc.
    + assert (He : lexer_is_at_end l = false).
      { destruct (lexer_is_at_end l) eqn:E; [|reflexivity].
        rewrite (peek_at_end l E), Hp in Hc. discriminate. }
      pose proof (remaining_advance l He).
      destruct f2 as [|f2]; [lia|]. cbn [advance_while]. rewrite Hc.
      apply IH; lia.
    + destruct f2; cbn [advance_while]; [reflexivity|]. now rewrite Hc.
Qed.

Lemma skip_line_comment_fuel (f1 f2 : nat) (l : Lexer) :
  remaining l <= f1 -> remaining l <= f2 ->
  skip_line_comment f1 l = skip_line_comment f2 l.
Proof.
  revert f2 l. induction f1 as [|f1 IH]; intros f2 l H1 H2.
  - assert (He : lexer_is_at_end l = true) by (apply remaining_zero; lia).
    destruct f2; cbn [skip_line_comment]; [reflexivity|]. now rewrite He.
  - cbn [skip_line_comment].
    destruct (lexer_is_at_end l) eqn:He; cbn [negb andb].
    + destruct f2; cbn [skip_line_comment]; [reflexivity|]. now rewrite He.
    + pose proof (remaining_advance l He).
      destruct f2 as [|f2]; [lia|]. cbn [skip_line_comment]. rewrite He.
      cbn [negb andb].
      destruct (negb _); [|reflexivity]. apply IH; lia.
Qed.

Lemma skip_block_comment_fuel (f1 f2 : nat) (l : Lexer) :
  remaining l <= f1 -> remaining l <= f2 ->
  skip_block_comment f1 l = skip_block_comment f2 l.
Proof.
  revert f2 l. induction f1 as [|f1 IH]; intros f2 l H1 H2.
  - assert (He : lexer_is_at_end l = true) by (apply remaining_zero; lia).
    destruct f2; cbn [skip_block_comment]; [reflexivity|]. now rewrite He.
  - cbn [skip_block_comment].
    destruct (lexer_is_at_end l) eqn:He.
    + destruct f2; cbn [skip_block_comment]; [reflexivity|]. now rewrite He.
    + pose proof (remaining_advance l He).
      destruct f2 as [|f2]; [lia|]. cbn [skip_block_comment]. rewrite He.
      destruct (_ && _); [reflexivity|]. apply IH; lia.
Qed.

Lemma skip_line_comment_progress (f : nat) (l : Lexer) :
  lexer_is_at_end l = false -> Ascii.eqb (lexer_peek l) newline = false ->
  remaining (skip_line_comment (S f) l) < remaining l.
Proof.
  intros He Hn. cbn [skip_line_comment]. rewrite He, Hn. cbn [negb andb].
  pose proof (remaining_advance l He).
  pose proof (remaining_scans _ _
                (skip_line_comment_scans f (snd (lexer_advance l)))).
  lia.
Qed.

Lemma skip_whitespace_loop_fuel (f1 f2 : nat) (l : Lexer) :
  remaining l < f1 -> remaining l < f2 ->
  skip_whitespace_loop f1 l = skip_whitespace_loop f2 l.
Proof.
  revert f2 l. induction f1 as [|f1 IH]; intros f2 l H1 H2; [lia|].
  destruct f2 as [|f2]; [lia|]. cbn [skip_whitespace_loop].
  destruct (lexer_is_at_end l) eqn:He; [reflexivity|].
  pose proof (remaining_advance l He) as Hadv.
  destruct (is_space (lexer_peek l)); [apply IH; lia|].
  destruct (Ascii.eqb (lexer_peek l) "/" && Ascii.eqb (lexer_peek_next l) "/")
    eqn:Hline.
  - apply andb_prop in Hline. destruct Hline as [Hslash _].
    apply Ascii.eqb_eq in Hslash.
    assert (Hn : Ascii.eqb (lexer_peek l) newline = false)
      by (rewrite Hslash; reflexivity).
    assert (Hpos : exists r, remaining l = S r).
    { apply at_end_false in He. unfold remaining.
      exists (lex_length l - current l - 1). lia. }
    destruct Hpos as (r & Hr).
    pose proof (skip_line_comment_progress r l He Hn) as Hp.
    rewrite Hr. rewrite Hr in Hp. apply IH; lia.
  - destruct (Ascii.eqb (lexer_peek l) "/" && Ascii.eqb (lexer_peek_next l) "*");
      [|reflexivity].
    set (l1 := snd (lexer_advance (snd (lexer_advance l)))).
    assert (H11 : remaining l1 < remaining l).
    { pose proof (remaining_scans _ _ (advance_scans (snd (lexer_advance l)))).
      subst l1. lia. }
    pose proof (remaining_scans _ _ (skip_block_comment_scans (remaining l1) l1)).
    apply IH; lia.
Qed.

(** ** Emitting one token *)

Lemma token_create_fields (k : TokenKind) (lx : option string) (len ln col : nat) :
  kind (token_create k lx len ln col) = k
  /\ line (token_create k lx len ln col) = ln
  /\ column (token_create k lx len ln col) = col.
Proof.
  unfold token_create. destruct lx; [destruct (0 <? len)|]; repeat split.
Qed.

Lemma add_token_emits (l0 l : Lexer) (k : TokenKind) (lx : option string)
  (len ln col : nat) :
  scans l0 l -> k <> TOKEN_EOF ->
  emits l0 (lexer_add_token l k lx len ln col).
Proof.
  intros (Hs & Hl & Ht & Hc & Hb) Hk. unfold emits, lexer_add_token.
  exists (token_create k lx len ln col).
  cbn [source lex_length current tokens].
  destruct (token_create_fields k lx len ln col) as (-> & _ & _).
  rewrite Ht. repeat split; auto.
Qed.

Lemma check_keyword_not_eof (lx : string) (len : nat) (kw : string)
  (k : TokenKind) :
  k <> TOKEN_EOF -> check_keyword lx len kw k <> TOKEN_EOF.
Proof.
  intros H. unfold check_keyword. destruct (_ && _); [exact H|discriminate].
Qed.

Lemma identifier_type_not_eof (lx : string) (len : nat) :
  identifier_type lx len <> TOKEN_EOF.
Proof.
  unfold identifier_type.
  repeat match goal with
         | |- (if ?c then _ else _) <> _ => destruct c
         end;
    try (apply check_keyword_not_eof); discriminate.
Qed.

Lemma scan_identifier_emits (l0 l : Lexer) :
  scans l0 l -> emits l0 (scan_identifier l).
Proof.
  intros H. unfold scan_identifier.
  apply add_token_emits; [|apply identifier_type_not_eof].
  eapply scans_trans; [exact H|apply advance_while_scans].
Qed.

Lemma scan_number_emits (l0 l : Lexer) :
  scans l0 l -> emits l0 (scan_number l).
Proof.
  intros H. unfold scan_number.
  apply add_token_emits; [|discriminate].
  eapply scans_trans; [exact H|apply advance_while_scans].
Qed.

Lemma scan_pair_emits (l0 l : Lexer) (second : ascii) (k2 : TokenKind)
  (lx2 : string) (k1 : TokenKind) (lx1 : string) (col : nat) :
  scans l0 l -> k2 <> TOKEN_EOF -> k1 <> TOKEN_EOF ->
  emits l0 (scan_pair l second k2 lx2 k1 lx1 col).
Proof.
  intros H H2 H1. unfold scan_pair.
  pose proof (match_scans l second) as Hm.
  destruct (lexer_match l second) as [m l']. cbn [snd] in Hm.
  destruct m; apply add_token_emits; try assumption;
    eapply scans_trans; eassumption.
Qed.

(** One call of [scan_token] away from the end of the input: an EOF
    token at the position where the scan stopped, itself at the end of
    the input, or another token and at least one character consumed. *)
Lemma scan_token_spec (l : Lexer) :
  current l < lex_length l ->
  let l' := scan_token l in
  source l' = source l /\ lex_length l' = lex_length l
  /\ current l' <= lex_length l'
  /\ exists t, tokens l' = tokens l ++ [t]
     /\ ((kind t = TOKEN_EOF /\ lexer_is_at_end l' = true
          /\ line t = lex_line l' /\ column t = lex_column l')
         \/ (kind t <> TOKEN_EOF /\ current l < current l')).
Proof.
  intros Hlt. cbv zeta. unfold scan_token.
  pose proof (skip_whitespace_scans l) as Hws.
  set (l1 := skip_whitespace l) in *.
  destruct (lexer_is_at_end l1) eqn:Hend.
  - (* only blanks and comments were left *)
    destruct Hws as (Hs & Hl & Ht & Hc & Hb).
    unfold lexer_add_token. cbn [source lex_length current tokens].
    repeat split; try assumption; [apply Hb; lia|].
    exists (token_create TOKEN_EOF None 0 (lex_line l1) (lex_column l1)).
    rewrite Ht. split; [reflexivity|]. left.
    destruct (token_create_fields TOKEN_EOF None 0 (lex_line l1) (lex_column l1))
      as (Hk & Hln & Hcol).
    repeat split; assumption.
  - pose proof (advance_scans l1) as Hadv.
    pose proof (advance_progress l1 Hend) as Hprog.
    destruct (lexer_advance l1) as [c l2]. cbn [snd] in Hadv, Hprog.
    assert (H02 : scans l l2) by (eapply scans_trans; eassumption).
    assert (Hgt : current l < current l2)
      by (destruct Hws as (_ & _ & _ & Hc & _); lia).
    assert (Hemit : forall l', emits l2 l' ->
              source l' = source l /\ lex_length l' = lex_length l
              /\ current l' <= lex_length l'
              /\ exists t, tokens l' = tokens l ++ [t]
                 /\ ((kind t = TOKEN_EOF /\ lexer_is_at_end l' = true
                      /\ line t = lex_line l' /\ column t = lex_column l')
                     \/ (kind t <> TOKEN_EOF /\ current l < current l'))).
    { intros l' (t & (Hs & Hl & Hc & Hb) & Htok & Hk).
      destruct H02 as (Hs2 & Hl2 & Ht2 & Hc2 & Hb2).
      repeat split; try congruence.
      - apply Hb. apply Hb2. lia.
      - exists t. rewrite Htok, Ht2. split; [reflexivity|]. right.
        split; [exact Hk|lia]. }
    apply Hemit.
    destruct (is_alpha c); [apply scan_identifier_emits, scans_refl|].
    destruct (is_digit c); [apply scan_number_emits, scans_refl|].
    repeat match goal with
           | |- emits _ (if ?b then _ else _) => destruct b
           end;
      first [ apply scan_pair_emits; [apply scans_refl|discriminate|discriminate]
            | apply add_token_emits; [apply scans_refl|discriminate] ].
Qed.

(** ** The loop of [lex_source] *)

Lemma last_is_eof_snoc (toks : TokenList) (t : Token) :
  last_is_eof (toks ++ [t]) = kind_eqb (kind t) TOKEN_EOF.
Proof.
  unfold last_is_eof. rewrite map_app. cbn [List.map]. rewrite last_last.
  unfold kind_eqb. destruct (TokenKind_eq_dec (kind t) TOKEN_EOF) as [->|H];
    [reflexivity|].
  destruct (kind t); try reflexivity. contradiction.
Qed.


Lemma lex_loop_total (fuel : nat) (l : Lexer) :
  lex_length l - current l < fuel ->
  current l <= lex_length l ->
  Forall (fun t => kind t <> TOKEN_EOF) (tokens l) ->
  exists l', lex_loop fuel l = Some l' /\ loop_outcome l l'.
Proof.
  revert l. induction fuel as [|f IH]; intros l Hfuel Hb Hno; [lia|].
  cbn [lex_loop].
  destruct (lexer_is_at_end l) eqn:Hend.
  { exists l. split; [reflexivity|]. unfold loop_outcome. auto 6. }
  apply at_end_false in Hend.
  destruct (scan_token_spec l Hend) as (Hs & Hl & Hb' & t & Htok & Hcase).
  rewrite Htok, last_is_eof_snoc. unfold kind_eqb.
  destruct Hcase as [(Hk & He & Hln & Hcol)|(Hk & Hgt)].
  - destruct (TokenKind_eq_dec (kind t) TOKEN_EOF); [|contradiction].
    exists (scan_token l). split; [reflexivity|].
    unfold loop_outcome. repeat split; try assumption.
    right. exists (tokens l), t. auto.
  - destruct (TokenKind_eq_dec (kind t) TOKEN_EOF); [contradiction|].
    destruct (IH (scan_token l)) as (l' & Hl' & Hs' & Hlen' & Hrest).
    + rewrite Hl. lia.
    + exact Hb'.
    + rewrite Htok. apply Forall_app. split; [exact Hno|]. now constructor.
    + exists l'. split; [exact Hl'|].
      unfold loop_outcome. repeat split; try congruence; apply Hrest.
Qed.

(** The fuel of [lex_source] suffices for every input. *)
Lemma lex_source_returns (source_code : string) :
  lex_source source_code <> None.
Proof.
  unfold lex_source, lex_final.
  destruct (lex_loop_total (S (strlen source_code)) (lex_init source_code))
    as (l & Hl & _).
  - cbn. lia.
  - cbn. lia.
  - constructor.
  - rewrite Hl. destruct (negb _); discriminate.
Qed.


End LexerProps.

(* ------------------------------------------------------------------ *)
(** * Properties of the parser *)

Module ParserProps.
Import AST Parser.

Ltac parse_cases H :=
  repeat match type of H with
         | context [match ?x with _ => _ end] => destruct x eqn:?
         end;
  try discriminate.

Lemma leaf_provisional (s : ASTStmt) :
  provisional_int s ->
  stmt_nodes s = [s] ->
  Forall provisional_int (stmt_nodes s).
Proof. intros H ->. constructor; [exact H | constructor]. Qed.

Lemma parse_var_decl_provisional fuel p s p' :
  parse_var_decl fuel p = POk s p' ->
  Forall provisional_int (stmt_nodes s).
Proof.
  unfold parse_var_decl, with_name. intros H. parse_cases H.
  injection H as <- <-. apply leaf_provisional; reflexivity.
Qed.

Lemma parse_return_statement_provisional fuel p s p' :
  parse_return_statement fuel p = POk s p' ->
  Forall provisional_int (stmt_nodes s).
Proof.
  unfold parse_return_statement. intros H. parse_cases H;
    injection H as <- <-; apply leaf_provisional; first [exact I | reflexivity].
Qed.

Lemma statement_parsers_provisional (fuel : nat) :
  (forall p s p', parse_statement fuel p = POk s p' ->
                  Forall provisional_int (stmt_nodes s))
  /\ (forall p s p', parse_if_statement fuel p = POk s p' ->
                     Forall provisional_int (stmt_nodes s))
  /\ (forall p s p', parse_while_statement fuel p = POk s p' ->
                     Forall provisional_int (stmt_nodes s))
  /\ (forall p s p', parse_block fuel p = POk s p' ->
                     Forall provisional_int (stmt_nodes s))
  /\ (forall p acc l p',
        parse_block_loop fuel p acc = POk l p' ->
        Forall provisional_int (flat_map stmt_nodes acc) ->
        Forall provisional_int (flat_map stmt_nodes l)).
Proof.
  induction fuel as [|f (IHs & IHi & IHw & IHb & IHl)].
  - repeat split; intros; discriminate.
  - repeat split.
    + intros p s p' H. cbn [parse_statement] in H. unfold with_name in H.
      parse_cases H;
        first [ eapply parse_var_decl_provisional; eassumption
              | eapply parse_return_statement_provisional; eassumption
              | eapply IHi; eassumption
              | eapply IHw; eassumption
              | eapply IHb; eassumption
              | injection H as <- <-; apply leaf_provisional;
                first [exact I | reflexivity]
              | match goal with
                | Hq : _ = Some ?r |- _ =>
                    subst r; parse_cases Hq; injection Hq as <- <-;
                    apply leaf_provisional; first [exact I | reflexivity]
                end ].
    + intros p s p' H. cbn [parse_if_statement] in H. parse_cases H;
        injection H as <- <-; unfold ast_stmt_if; cbn [stmt_nodes];
        (constructor; [exact I|]).
      * apply Forall_app. split; eapply IHb; eassumption.
      * rewrite app_nil_r. eapply IHb; eassumption.
    + intros p s p' H. cbn [parse_while_statement] in H. parse_cases H.
      injection H as <- <-. unfold ast_stmt_while. cbn [stmt_nodes].
      constructor; [exact I|]. eapply IHb; eassumption.
    + intros p s p' H. cbn [parse_block] in H. parse_cases H.
      injection H as <- <-. unfold ast_stmt_block. cbn [stmt_nodes].
      constructor; [exact I|]. eapply IHl; [eassumption | constructor].
    + intros p acc l p' H Hacc. cbn [parse_block_loop] in H. parse_cases H.
      * eapply IHl; [eassumption|].
        rewrite flat_map_app. apply Forall_app. split; [exact Hacc|].
        cbn [flat_map]. rewrite app_nil_r. eapply IHs; eassumption.
      * injection H as <- <-. exact Hacc.
Qed.

Lemma parse_function_provisional fuel p f p' :
  parse_function fuel p = POk f p' ->
  Forall provisional_int (stmt_nodes (body f)).
Proof.
  unfold parse_function, with_name. intros H. parse_cases H;
    injection H as <- <-; cbn [ast_func_create body];
    eapply (proj1 (proj2 (proj2 (proj2 (statement_parsers_provisional _)))));
    eassumption.
Qed.

Lemma parse_program_loop_provisional (fuel : nat) :
  forall p acc l p',
    parse_program_loop fuel p acc = POk l p' ->
    Forall (fun f => Forall provisional_int (stmt_nodes (body f))) acc ->
    Forall (fun f => Forall provisional_int (stmt_nodes (body f))) l.
Proof.
  induction fuel as [|f IH]; intros p acc l p' H Hacc;
    cbn [parse_program_loop] in H; [discriminate|].
  parse_cases H.
  - eapply IH; [eassumption|]. apply Forall_app. split; [exact Hacc|].
    constructor; [|constructor]. eapply parse_function_provisional; eassumption.
  - injection H as <- <-. exact Hacc.
Qed.

Lemma parse_program_provisional fuel p program p' :
  parse_program fuel p = POk program p' ->
  Forall provisional_int (program_stmts program).
Proof.
  unfold parse_program. intros H.
  destruct (parse_program_loop fuel p []) as [l q|q| |] eqn:E; try discriminate.
  destruct l as [|f l]; [discriminate|].
  injection H as <- <-. unfold ast_program_create, program_stmts.
  cbn [functions]. apply Forall_flat_map.
  eapply parse_program_loop_provisional; [eassumption | constructor].
Qed.

(** Every declaration of a program that the parser returns has the
    provisional type. *)
Lemma parse_tokens_provisional fuel toks program msg :
  parse_tokens_fuel fuel toks = Parsed (Some program) msg ->
  Forall provisional_int (program_stmts program).
Proof.
  unfold parse_tokens_fuel. intros H.
  destruct toks as [|t toks]; [discriminate|].
  destruct (parse_program fuel _) as [a q|q| |] eqn:E; try discriminate.
  injection H as <- _.
  eapply parse_program_provisional; eassumption.
Qed.

End ParserProps.

(* ------------------------------------------------------------------ *)
(** * Properties of the type checker *)

Module TypeCheckerProps.
Import CStr AST TypeChecker.

Lemma find_symbol_app (l l' : list Symbol) (n : string) :
  find_symbol (l ++ l') n =
  match find_symbol l n with
  | Some s => Some s
  | None => find_symbol l' n
  end.
Proof.
  induction l as [|s l IH]; cbn [find_symbol app]; [reflexivity|].
  destruct (strcmp_eq (sym_name s) n); [reflexivity | exact IH].
Qed.

Lemma find_symbol_found (l : list Symbol) (n : string) (sym : Symbol) :
  find_symbol l n = Some sym ->
  In sym l /\ strcmp_eq (sym_name sym) n = true.
Proof.
  induction l as [|s l IH]; cbn [find_symbol]; [discriminate|].
  destruct (strcmp_eq (sym_name s) n) eqn:E.
  - intros [= <-]. split; [left; reflexivity | exact E].
  - intros H. destruct (IH H) as [Hin Hs]. split; [right; exact Hin | exact Hs].
Qed.

Section Declared.
Variable fs : list ASTFunc.

Lemma declared_child (scope : SymbolTable) :
  functions_declared fs scope ->
  functions_declared fs (symbol_table_create (Some scope)).
Proof.
  intros H n sym. unfold symbol_table_create.
  cbn [symbol_table_lookup find_symbol]. apply H.
Qed.

Lemma declared_add_variable (scope : SymbolTable) (n : string) (t : Type_)
  (pt : list Type_) :
  functions_declared fs scope ->
  functions_declared fs (snd (symbol_table_add scope n t false pt)).
Proof.
  intros H. unfold symbol_table_add.
  destruct (find_symbol (symbols scope) n); cbn [snd]; [exact H|].
  destruct scope as [l p]. cbn [symbols parent].
  intros n0 sym. specialize (H n0 sym). cbn [symbol_table_lookup] in *.
  rewrite find_symbol_app. destruct (find_symbol l n0); [exact H|].
  cbn [find_symbol].
  destruct (strcmp_eq _ n0); [|exact H].
  intros [= <-]. cbn [is_function]. discriminate.
Qed.

Lemma declared_add_parameters (ps : list Param) (scope : SymbolTable) :
  functions_declared fs scope ->
  functions_declared fs (add_parameters scope ps).
Proof.
  revert scope. induction ps as [|p ps IH]; intros scope H; cbn [add_parameters].
  - exact H.
  - apply IH, declared_add_variable, H.
Qed.

Lemma check_operands_ok tc k ty l r operand what result tc' e' :
  check_operands tc k ty l r operand what result = (true, tc', e') ->
  tc' = tc /\ e' = ExprBinary k result l r.
Proof.
  unfold check_operands.
  destruct (negb (is_kind (expr_type l) operand)); [discriminate|].
  destruct (negb (is_kind (expr_type r) operand)); [discriminate|].
  intros [= <- <-]. split; reflexivity.
Qed.

Lemma int_or_bool_int : int_or_bool type_int.
Proof. left; reflexivity. Qed.

Lemma int_or_bool_bool : int_or_bool type_bool.
Proof. right; reflexivity. Qed.

(** A successful [check_expression] leaves the checker as it was and
    every node of the expression typed. *)
Lemma check_expression_typed (e : ASTExpr) :
  forall tc tc' e',
    functions_declared fs (current_scope tc) ->
    check_expression tc e = (true, tc', e') ->
    tc' = tc /\ Forall (node_typed fs) (expr_nodes e').
Proof.
  induction e as [ty v | ty v | ty n | k ty l IHl r IHr | ty o IHo
                 | ty f args IHargs] using ASTExpr_ind;
    intros tc tc' e' Hd H; cbn [check_expression] in H.
  - injection H as <- <-. split; [reflexivity|].
    cbn [expr_nodes]. constructor; [apply int_or_bool_int | constructor].
  - injection H as <- <-. split; [reflexivity|].
    cbn [expr_nodes]. constructor; [apply int_or_bool_bool | constructor].
  - destruct (symbol_table_lookup (current_scope tc) n) as [sym|];
      [|discriminate].
    destruct (is_function sym); [discriminate|].
    injection H as <- <-. split; [reflexivity|].
    cbn [expr_nodes]. constructor; [exact I | constructor].
  - destruct (check_expression tc l) as [[ok1 tc1] l1] eqn:El.
    destruct ok1; cbn [negb] in H; [|discriminate].
    destruct (IHl _ _ _ Hd El) as [-> Hl].
    destruct (check_expression tc r) as [[ok2 tc2] r2] eqn:Er.
    destruct ok2; cbn [negb] in H; [|discriminate].
    destruct (IHr _ _ _ Hd Er) as [-> Hr].
    assert (Hnodes : forall res, int_or_bool res ->
              Forall (node_typed fs) (expr_nodes (ExprBinary k res l1 r2))).
    { intros res Hres. cbn [expr_nodes]. constructor.
      - exact Hres.
      - apply Forall_app. split; assumption. }
    destruct k;
      try (apply check_operands_ok in H; destruct H as [-> ->];
           split; [reflexivity|];
           apply Hnodes; first [apply int_or_bool_int | apply int_or_bool_bool]).
    + destruct (negb (type_equals (expr_type l1) (expr_type r2)));
        [discriminate|].
      injection H as <- <-. split; [reflexivity|].
      apply Hnodes, int_or_bool_bool.
    + destruct (negb (type_equals (expr_type l1) (expr_type r2)));
        [discriminate|].
      injection H as <- <-. split; [reflexivity|].
      apply Hnodes, int_or_bool_bool.
  - destruct (check_expression tc o) as [[ok1 tc1] o1] eqn:Eo.
    destruct ok1; cbn [negb] in H; [|discriminate].
    destruct (IHo _ _ _ Hd Eo) as [-> Ho].
    destruct (negb (is_kind (expr_type o1) TYPE_BOOL)); [discriminate|].
    injection H as <- <-. split; [reflexivity|].
    cbn [expr_nodes]. constructor; [apply int_or_bool_bool | exact Ho].
  - destruct (symbol_table_lookup (current_scope tc) f) as [sym|] eqn:Es;
      [|discriminate].
    destruct (is_function sym) eqn:Ef; cbn [negb] in H; [|discriminate].
    destruct (negb (Nat.eqb (Datatypes.length args) (param_count sym)));
      [discriminate|].
    match type of H with
    | (let '(_, _) := ?check tc args 0%nat in _) = _ =>
        assert (Hargs : forall rest i ok tc1 rest',
                  list_all ASTExpr
                    (fun e => forall tc tc' e',
                       functions_declared fs (current_scope tc) ->
                       check_expression tc e = (true, tc', e') ->
                       tc' = tc /\ Forall (node_typed fs) (expr_nodes e'))
                    rest ->
                  check tc rest i = (ok, tc1, rest') ->
                  ok = true ->
                  tc1 = tc
                  /\ Forall (node_typed fs) (flat_map expr_nodes rest'));
        [|destruct (check tc args 0%nat) as [[ok1 tc1] args1] eqn:Ea]
    end.
    { intros rest i ok tc1 rest' Hall. revert i ok tc1 rest'.
      induction Hall as [|a Ha rest Hall IH]; intros i ok tc1 rest' Hc Hok.
      - injection Hc as <- <- <-. split; [reflexivity | constructor].
      - destruct (check_expression tc a) as [[ok2 tc2] a2] eqn:E2.
        destruct ok2; cbn [negb] in Hc; [|congruence].
        destruct (Ha _ _ _ Hd E2) as [-> Ha2].
        destruct (negb (type_equals (expr_type a2)
                          (nth i (param_types sym) type_int)));
          [congruence|].
        match type of Hc with
        | (let '(_, _) := ?c in _) = _ =>
            destruct c as [[ok3 tc3] rest3] eqn:E3
        end.
        injection Hc as <- <- <-.
        destruct (IH _ _ _ _ E3 Hok) as [-> Hrest].
        split; [reflexivity|].
        cbn [flat_map]. apply Forall_app. split; assumption. }
    destruct ok1; [|discriminate].
    injection H as <- <-.
    destruct (Hargs _ _ _ _ _ IHargs Ea eq_refl) as [-> Hall].
    split; [reflexivity|].
    cbn [expr_nodes]. constructor; [|exact Hall].
    cbn [node_typed]. exact (Hd _ _ Es Ef).
Qed.

Lemma expression_checked (e : ASTExpr) :
  Forall (node_typed fs) (expr_nodes e) ->
  Forall (node_typed fs) (flat_map expr_nodes [e]).
Proof. intros H. cbn [flat_map]. rewrite app_nil_r. exact H. Qed.

Lemma leaf_checked (s : ASTStmt) :
  stmt_checked fs s ->
  stmt_nodes s = [s] ->
  Forall (stmt_checked fs) (stmt_nodes s).
Proof. intros H ->. constructor; [exact H | constructor]. Qed.

(** A successful [check_statement] keeps the globals and the invariant
    of the scope, and leaves every statement node checked. *)
Lemma check_statement_checked (s : ASTStmt) :
  forall tc tc' s',
    functions_declared fs (current_scope tc) ->
    check_statement tc s = (true, tc', s') ->
    globals tc' = globals tc
    /\ functions_declared fs (current_scope tc')
    /\ Forall (stmt_checked fs) (stmt_nodes s').
Proof.
  induction s as [n ty init | n e | c t IHt e IHe | c b IHb | e | e | l IHl]
    using ASTStmt_ind;
    intros tc tc' s' Hd H; cbn [check_statement] in H.
  - destruct (check_expression tc init) as [[ok1 tc1] init1] eqn:E1.
    destruct ok1; cbn [negb] in H; [|discriminate].
    destruct (check_expression_typed _ _ _ _ Hd E1) as [-> Hi].
    pose proof (declared_add_variable (current_scope tc) n (expr_type init1)
                  [] Hd) as Hadd.
    destruct (symbol_table_add (current_scope tc) n (expr_type init1) false [])
      as [added scope].
    destruct added; cbn [negb] in H; [|discriminate].
    injection H as <- <-. cbn [snd] in Hadd.
    repeat split; try assumption.
    apply leaf_checked; [|reflexivity].
    split; [reflexivity | apply expression_checked, Hi].
  - destruct (symbol_table_lookup (current_scope tc) n) as [sym|];
      [|discriminate].
    destruct (is_function sym); [discriminate|].
    destruct (check_expression tc e) as [[ok1 tc1] e1] eqn:E1.
    destruct ok1; cbn [negb] in H; [|discriminate].
    destruct (check_expression_typed _ _ _ _ Hd E1) as [-> He].
    destruct (negb (type_equals (sym_type sym) (expr_type e1)));
      [discriminate|].
    injection H as <- <-.
    repeat split; try assumption.
    apply leaf_checked; [|reflexivity].
    split; [exact I | apply expression_checked, He].
  - destruct (check_expression tc c) as [[ok1 tc1] c1] eqn:E1.
    destruct ok1; cbn [negb] in H; [|discriminate].
    destruct (check_expression_typed _ _ _ _ Hd E1) as [-> Hc].
    destruct (negb (is_kind (expr_type c1) TYPE_BOOL)); [discriminate|].
    destruct (check_statement tc t) as [[ok2 tc2] t2] eqn:E2.
    destruct ok2; cbn [negb] in H; [|discriminate].
    destruct (IHt _ _ _ Hd E2) as (Hg2 & Hd2 & Ht).
    assert (Hself : forall e', stmt_checked fs (StmtIf c1 t2 e')).
    { intros e'. split; [exact I | apply expression_checked, Hc]. }
    destruct IHe as [eb IHeb|].
    + destruct (check_statement tc2 eb) as [[ok3 tc3] eb3] eqn:E3.
      injection H as -> <- <-.
      destruct (IHeb _ _ _ Hd2 E3) as (Hg3 & Hd3 & Heb).
      repeat split; [congruence | exact Hd3 |].
      cbn [stmt_nodes]. constructor; [apply Hself|].
      apply Forall_app. split; assumption.
    + injection H as <- <-.
      repeat split; [exact Hg2 | exact Hd2 |].
      cbn [stmt_nodes]. constructor; [apply Hself|].
      rewrite app_nil_r. exact Ht.
  - destruct (check_expression tc c) as [[ok1 tc1] c1] eqn:E1.
    destruct ok1; cbn [negb] in H; [|discriminate].
    destruct (check_expression_typed _ _ _ _ Hd E1) as [-> Hc].
    destruct (negb (is_kind (expr_type c1) TYPE_BOOL)); [discriminate|].
    destruct (check_statement tc b) as [[ok2 tc2] b2] eqn:E2.
    injection H as -> <- <-.
    destruct (IHb _ _ _ Hd E2) as (Hg2 & Hd2 & Hb).
    repeat split; [exact Hg2 | exact Hd2 |].
    cbn [stmt_nodes]. constructor; [|exact Hb].
    split; [exact I | apply expression_checked, Hc].
  - destruct e as [e|].
    + destruct (check_expression tc e) as [[ok1 tc1] e1] eqn:E1.
      destruct ok1; cbn [negb] in H; [|discriminate].
      destruct (check_expression_typed _ _ _ _ Hd E1) as [-> He].
      destruct (negb (type_equals (expr_type e1)
                        (current_function_return_type tc))); [discriminate|].
      injection H as <- <-.
      repeat split; try assumption.
      apply leaf_checked; [|reflexivity].
      split; [exact I | apply expression_checked, He].
    + destruct (negb (is_kind (current_function_return_type tc) TYPE_VOID));
        [discriminate|].
      injection H as <- <-.
      repeat split; try assumption.
      apply leaf_checked; [|reflexivity].
      split; [exact I | constructor].
  - destruct (check_expression tc e) as [[ok1 tc1] e1] eqn:E1.
    injection H as -> <- <-.
    destruct (check_expression_typed _ _ _ _ Hd E1) as [-> He].
    repeat split; try assumption.
    apply leaf_checked; [|reflexivity].
    split; [exact I | apply expression_checked, He].
  - match type of H with
    | (let '(_, _) := ?check ?tc0 l in _) = _ =>
        assert (Hloop : forall rest tc1 ok tc2 rest',
                  list_all ASTStmt
                    (fun s => forall tc tc' s',
                       functions_declared fs (current_scope tc) ->
                       check_statement tc s = (true, tc', s') ->
                       globals tc' = globals tc
                       /\ functions_declared fs (current_scope tc')
                       /\ Forall (stmt_checked fs) (stmt_nodes s'))
                    rest ->
                  functions_declared fs (current_scope tc1) ->
                  check tc1 rest = (ok, tc2, rest') ->
                  ok = true ->
                  globals tc2 = globals tc1
                  /\ Forall (stmt_checked fs) (flat_map stmt_nodes rest'));
        [|destruct (check tc0 l) as [[ok1 tc1] l1] eqn:El]
    end.
    { intros rest tc1 ok tc2 rest' Hall. revert tc1 ok tc2 rest'.
      induction Hall as [|a Ha rest Hall IH]; intros tc1 ok tc2 rest' Hd1 Hc Hok.
      - injection Hc as <- <- <-. split; [reflexivity | constructor].
      - destruct (check_statement tc1 a) as [[ok2 tc3] a2] eqn:E2.
        destruct ok2; cbn [negb] in Hc; [|congruence].
        destruct (Ha _ _ _ Hd1 E2) as (Hg3 & Hd3 & Ha2).
        match type of Hc with
        | (let '(_, _) := ?c in _) = _ =>
            destruct c as [[ok3 tc4] rest3] eqn:E3
        end.
        injection Hc as <- <- <-.
        destruct (IH _ _ _ _ Hd3 E3 Hok) as [Hg4 Hrest].
        split; [congruence|].
        cbn [flat_map]. apply Forall_app. split; assumption. }
    injection H as -> <- <-.
    destruct (Hloop l (set_scope tc (symbol_table_create (Some (current_scope tc))))
                _ _ _ IHl (declared_child _ Hd) El eq_refl)
      as [Hg Hall].
    repeat split; [exact Hg | exact Hd |].
    cbn [stmt_nodes]. constructor; [|exact Hall].
    split; [exact I | constructor].
Qed.

End Declared.

Lemma block_scoped (scope : SymbolTable) (l : list ASTStmt) :
  stmt_scoped scope (StmtBlock l)
  <-> stmts_scoped (symbol_table_create (Some scope)) l.
Proof.
  cbn [stmt_scoped]. generalize (symbol_table_create (Some scope)).
  induction l as [|s l IH]; intros sc; cbn [stmts_scoped]; [tauto|].
  rewrite IH. tauto.
Qed.

Lemma check_expression_scoped (e : ASTExpr) :
  forall tc tc' e',
    check_expression tc e = (true, tc', e') ->
    tc' = tc /\ expr_scoped (current_scope tc) e'.
Proof.
  unfold expr_scoped.
  induction e as [ty v | ty v | ty n | k ty l IHl r IHr | ty o IHo
                 | ty f args IHargs] using ASTExpr_ind;
    intros tc tc' e' H; cbn [check_expression] in H.
  - injection H as <- <-. split; [reflexivity|]. repeat constructor.
  - injection H as <- <-. split; [reflexivity|]. repeat constructor.
  - destruct (symbol_table_lookup (current_scope tc) n) as [sym|] eqn:Es;
      [|discriminate].
    destruct (is_function sym) eqn:Ef; [discriminate|].
    injection H as <- <-. split; [reflexivity|].
    cbn [expr_nodes]. constructor; [|constructor].
    exists sym. repeat split; assumption.
  - destruct (check_expression tc l) as [[ok1 tc1] l1] eqn:El.
    destruct ok1; cbn [negb] in H; [|discriminate].
    destruct (IHl _ _ _ El) as [-> Hl].
    destruct (check_expression tc r) as [[ok2 tc2] r2] eqn:Er.
    destruct ok2; cbn [negb] in H; [|discriminate].
    destruct (IHr _ _ _ Er) as [-> Hr].
    assert (Hnodes : forall res,
              Forall (var_bound (current_scope tc))
                (expr_nodes (ExprBinary k res l1 r2))).
    { intros res. cbn [expr_nodes]. constructor; [exact I|].
      apply Forall_app. split; assumption. }
    destruct k;
      try (apply check_operands_ok in H; destruct H as [-> ->];
           split; [reflexivity|apply Hnodes]).
    + destruct (negb (type_equals (expr_type l1) (expr_type r2)));
        [discriminate|].
      injection H as <- <-. split; [reflexivity|apply Hnodes].
    + destruct (negb (type_equals (expr_type l1) (expr_type r2)));
        [discriminate|].
      injection H as <- <-. split; [reflexivity|apply Hnodes].
  - destruct (check_expression tc o) as [[ok1 tc1] o1] eqn:Eo.
    destruct ok1; cbn [negb] in H; [|discriminate].
    destruct (IHo _ _ _ Eo) as [-> Ho].
    destruct (negb (is_kind (expr_type o1) TYPE_BOOL)); [discriminate|].
    injection H as <- <-. split; [reflexivity|].
    cbn [expr_nodes]. constructor; [exact I | exact Ho].
  - destruct (symbol_table_lookup (current_scope tc) f) as [sym|] eqn:Es;
      [|discriminate].
    destruct (is_function sym) eqn:Ef; cbn [negb] in H; [|discriminate].
    destruct (negb (Nat.eqb (Datatypes.length args) (param_count sym)));
      [discriminate|].
    match type of H with
    | (let '(_, _) := ?check tc args 0%nat in _) = _ =>
        assert (Hargs : forall rest i ok tc1 rest',
                  list_all ASTExpr
                    (fun e => forall tc tc' e',
                       check_expression tc e = (true, tc', e') ->
                       tc' = tc
                       /\ Forall (var_bound (current_scope tc)) (expr_nodes e'))
                    rest ->
                  check tc rest i = (ok, tc1, rest') ->
                  ok = true ->
                  tc1 = tc
                  /\ Forall (var_bound (current_scope tc))
                       (flat_map expr_nodes rest'));
        [|destruct (check tc args 0%nat) as [[ok1 tc1] args1] eqn:Ea]
    end.
    { intros rest i ok tc1 rest' Hall. revert i ok tc1 rest'.
      induction Hall as [|a Ha rest Hall IH]; intros i ok tc1 rest' Hc Hok.
      - injection Hc as <- <- <-. split; [reflexivity | constructor].
      - destruct (check_expression tc a) as [[ok2 tc2] a2] eqn:E2.
        destruct ok2; cbn [negb] in Hc; [|congruence].
        destruct (Ha _ _ _ E2) as [-> Ha2].
        destruct (negb (type_equals (expr_type a2)
                          (nth i (param_types sym) type_int)));
          [congruence|].
        match type of Hc with
        | (let '(_, _) := ?c in _) = _ =>
            destruct c as [[ok3 tc3] rest3] eqn:E3
        end.
        injection Hc as <- <- <-.
        destruct (IH _ _ _ _ E3 Hok) as [-> Hrest].
        split; [reflexivity|].
        cbn [flat_map]. apply Forall_app. split; assumption. }
    destruct ok1; [|discriminate].
    injection H as <- <-.
    destruct (Hargs _ _ _ _ _ IHargs Ea eq_refl) as [-> Hall].
    split; [reflexivity|].
    cbn [expr_nodes]. constructor; [exact I|exact Hall].
Qed.

(** A successful [check_statement] leaves the scope that [scope_after]
    gives, and the statement scoped. *)
Lemma check_statement_scoped (s : ASTStmt) :
  forall tc tc' s',
    check_statement tc s = (true, tc', s') ->
    current_scope tc' = scope_after (current_scope tc) s'
    /\ stmt_scoped (current_scope tc) s'.
Proof.
  induction s as [n ty init | n e | c t IHt e IHe | c b IHb | e | e | l IHl]
    using ASTStmt_ind;
    intros tc tc' s' H; cbn [check_statement] in H.
  - destruct (check_expression tc init) as [[ok1 tc1] init1] eqn:E1.
    destruct ok1; cbn [negb] in H; [|discriminate].
    destruct (check_expression_scoped _ _ _ _ E1) as [-> Hi].
    destruct (symbol_table_add (current_scope tc) n (expr_type init1) false [])
      as [added scope] eqn:Ea.
    destruct added; cbn [negb] in H; [|discriminate].
    injection H as <- <-.
    cbn [scope_after stmt_scoped set_scope current_scope]. rewrite Ea.
    repeat split. exact Hi.
  - destruct (symbol_table_lookup (current_scope tc) n) as [sym|] eqn:Es;
      [|discriminate].
    destruct (is_function sym) eqn:Ef; [discriminate|].
    destruct (check_expression tc e) as [[ok1 tc1] e1] eqn:E1.
    destruct ok1; cbn [negb] in H; [|discriminate].
    destruct (check_expression_scoped _ _ _ _ E1) as [-> He].
    destruct (type_equals (sym_type sym) (expr_type e1)) eqn:Et;
      cbn [negb] in H; [|discriminate].
    injection H as <- <-.
    cbn [scope_after stmt_scoped].
    split; [reflexivity|]. split; [|exact He].
    exists sym. repeat split; assumption.
  - destruct (check_expression tc c) as [[ok1 tc1] c1] eqn:E1.
    destruct ok1; cbn [negb] in H; [|discriminate].
    destruct (check_expression_scoped _ _ _ _ E1) as [-> Hc].
    destruct (negb (is_kind (expr_type c1) TYPE_BOOL)); [discriminate|].
    destruct (check_statement tc t) as [[ok2 tc2] t2] eqn:E2.
    destruct ok2; cbn [negb] in H; [|discriminate].
    destruct (IHt _ _ _ E2) as (Hs2 & Ht).
    destruct IHe as [eb IHeb|].
    + destruct (check_statement tc2 eb) as [[ok3 tc3] eb3] eqn:E3.
      injection H as -> <- <-.
      destruct (IHeb _ _ _ E3) as (Hs3 & Heb).
      cbn [scope_after stmt_scoped]. rewrite <- Hs2.
      split; [exact Hs3|]. repeat split; assumption.
    + injection H as <- <-.
      cbn [scope_after stmt_scoped].
      split; [exact Hs2|]. repeat split; assumption.
  - destruct (check_expression tc c) as [[ok1 tc1] c1] eqn:E1.
    destruct ok1; cbn [negb] in H; [|discriminate].
    destruct (check_expression_scoped _ _ _ _ E1) as [-> Hc].
    destruct (negb (is_kind (expr_type c1) TYPE_BOOL)); [discriminate|].
    destruct (check_statement tc b) as [[ok2 tc2] b2] eqn:E2.
    injection H as -> <- <-.
    destruct (IHb _ _ _ E2) as (Hs2 & Hb).
    cbn [scope_after stmt_scoped].
    split; [exact Hs2|]. split; assumption.
  - destruct e as [e|].
    + destruct (check_expression tc e) as [[ok1 tc1] e1] eqn:E1.
      destruct ok1; cbn [negb] in H; [|discriminate].
      destruct (check_expression_scoped _ _ _ _ E1) as [-> He].
      destruct (negb (type_equals (expr_type e1)
                        (current_function_return_type tc))); [discriminate|].
      injection H as <- <-.
      cbn [scope_after stmt_scoped]. split; [reflexivity|exact He].
    + destruct (negb (is_kind (current_function_return_type tc) TYPE_VOID));
        [discriminate|].
      injection H as <- <-.
      cbn [scope_after stmt_scoped]. split; [reflexivity|exact I].
  - destruct (check_expression tc e) as [[ok1 tc1] e1] eqn:E1.
    injection H as -> <- <-.
    destruct (check_expression_scoped _ _ _ _ E1) as [-> He].
    cbn [scope_after stmt_scoped]. split; [reflexivity|exact He].
  - match type of H with
    | (let '(_, _) := ?check ?tc0 l in _) = _ =>
        assert (Hloop : forall rest tc1 ok tc2 rest',
                  list_all ASTStmt
                    (fun s => forall tc tc' s',
                       check_statement tc s = (true, tc', s') ->
                       current_scope tc' = scope_after (current_scope tc) s'
                       /\ stmt_scoped (current_scope tc) s')
                    rest ->
                  check tc1 rest = (ok, tc2, rest') ->
                  ok = true ->
                  stmts_scoped (current_scope tc1) rest');
        [|destruct (check tc0 l) as [[ok1 tc1] l1] eqn:El]
    end.
    { intros rest tc1 ok tc2 rest' Hall. revert tc1 ok tc2 rest'.
      induction Hall as [|a Ha rest Hall IH]; intros tc1 ok tc2 rest' Hc Hok.
      - injection Hc as <- <- <-. exact I.
      - destruct (check_statement tc1 a) as [[ok2 tc3] a2] eqn:E2.
        destruct ok2; cbn [negb] in Hc; [|congruence].
        destruct (Ha _ _ _ E2) as (Hs3 & Ha2).
        match type of Hc with
        | (let '(_, _) := ?c in _) = _ =>
            destruct c as [[ok3 tc4] rest3] eqn:E3
        end.
        injection Hc as <- <- <-.
        cbn [stmts_scoped]. split; [exact Ha2|].
        rewrite <- Hs3. exact (IH _ _ _ _ E3 Hok). }
    injection H as -> <- <-.
    cbn [scope_after set_scope current_scope].
    split; [reflexivity|]. apply block_scoped.
    exact (Hloop l _ _ _ _ IHl El eq_refl).
Qed.

Lemma add_function_symbol g n t pt g' :
  symbol_table_add g n t true pt = (true, g') ->
  g' = mkSymbolTable (symbols g ++ [mkSymbol (strdup n) t true pt]) (parent g).
Proof.
  unfold symbol_table_add. destruct (find_symbol (symbols g) n);
    [discriminate | intros [= <-]; reflexivity].
Qed.

Lemma register_signatures_declared (fs : list ASTFunc) (l : list ASTFunc) :
  forall g g',
    incl l fs ->
    table_declared fs g ->
    register_signatures g l = inr g' ->
    table_declared fs g'.
Proof.
  induction l as [|f l IH]; intros g g' Hin Hg H; cbn [register_signatures] in H.
  - injection H as <-. exact Hg.
  - destruct (symbol_table_add g (func_name f) (return_type f) true
                (map param_type (params f))) as [added g1] eqn:E.
    destruct added; [|discriminate].
    apply add_function_symbol in E. subst g1.
    apply (IH _ _ (fun x Hx => Hin x (or_intror Hx))) in H; [exact H|].
    destruct Hg as [Hp Hs]. split; [exact Hp|].
    cbn [symbols]. apply Forall_app. split; [exact Hs|].
    constructor; [|constructor].
    right. exists f. repeat split. apply Hin. left. reflexivity.
Qed.

Lemma table_functions_declared (fs : list ASTFunc) (g : SymbolTable) :
  table_declared fs g -> functions_declared fs g.
Proof.
  destruct g as [l p]. intros [Hp Hs] n sym H _.
  cbn [parent symbols] in Hp, Hs. subst p.
  cbn [symbol_table_lookup] in H.
  destruct (find_symbol l n) as [s|] eqn:E; [|discriminate].
  injection H as ->. apply find_symbol_found in E. destruct E as [Hin Hn].
  rewrite Forall_forall in Hs.
  destruct (Hs _ Hin) as [[Hname Hty] | (f & Hf & Hname & Hty)].
  - left. rewrite Hname in Hn. split; assumption.
  - right. exists f. rewrite Hname in Hn. repeat split; assumption.
Qed.

Lemma check_bodies_checked (fs : list ASTFunc) (l : list ASTFunc) :
  forall tc tc' l',
    functions_declared fs (globals tc) ->
    check_bodies tc l = (true, tc', l') ->
    Forall (fun f => Forall (stmt_checked fs) (stmt_nodes (body f))) l'.
Proof.
  induction l as [|f l IH]; intros tc tc' l' Hg H; cbn [check_bodies] in H.
  - injection H as <- <-. constructor.
  - match type of H with
    | (let '(_, _) := check_statement ?t ?b in _) = _ =>
        destruct (check_statement t b) as [[ok1 tc1] b1] eqn:E1;
        assert (Hscope : functions_declared fs (current_scope t))
    end.
    { cbn [enter_function current_scope].
      apply declared_add_parameters, declared_child, Hg. }
    destruct ok1; cbn [negb] in H; [|discriminate].
    destruct (check_statement_checked fs _ _ _ _ Hscope E1) as (Hg1 & _ & Hb).
    destruct (check_bodies tc1 l) as [[ok2 tc2] l2] eqn:E2.
    injection H as -> <- <-.
    constructor; [exact Hb|].
    apply (IH tc1 tc2); [|exact E2].
    rewrite Hg1. exact Hg.
Qed.

(** The statements of a program that [type_check_program] accepts. *)
Lemma type_check_program_checked (program : ASTProgram) msg program' :
  type_check_program program = (true, msg, program') ->
  Forall (stmt_checked (functions program)) (program_stmts program').
Proof.
  unfold type_check_program. intros H.
  destruct (register_signatures _ (functions program)) as [dup|g] eqn:Er;
    [discriminate|].
  apply (register_signatures_declared (functions program)) in Er;
    [|apply incl_refl|].
  - destruct (check_bodies _ (functions program)) as [[ok tc] fs'] eqn:Eb.
    destruct ok; [|discriminate]. injection H as <- <-.
    apply check_bodies_checked with (fs := functions program) in Eb;
      [|apply table_functions_declared, Er].
    unfold program_stmts. cbn [functions].
    apply Forall_flat_map. exact Eb.
  - split; [reflexivity|].
    constructor; [|constructor]. left. split; reflexivity.
Qed.

Lemma check_bodies_scoped (fs : list ASTFunc) (l : list ASTFunc) :
  forall tc tc' l',
    functions_declared fs (globals tc) ->
    check_bodies tc l = (true, tc', l') ->
    Forall (fun f => stmt_scoped (function_scope (globals tc) f) (body f)) l'.
Proof.
  induction l as [|f l IH]; intros tc tc' l' Hg H; cbn [check_bodies] in H.
  - injection H as <- <-. constructor.
  - match type of H with
    | (let '(_, _) := check_statement ?t ?b in _) = _ =>
        destruct (check_statement t b) as [[ok1 tc1] b1] eqn:E1;
        assert (Hscope : functions_declared fs (current_scope t))
    end.
    { cbn [enter_function current_scope].
      apply declared_add_parameters, declared_child, Hg. }
    destruct ok1; cbn [negb] in H; [|discriminate].
    destruct (check_statement_checked fs _ _ _ _ Hscope E1) as (Hg1 & _ & _).
    destruct (check_statement_scoped _ _ _ _ E1) as [_ Hb].
    destruct (check_bodies tc1 l) as [[ok2 tc2] l2] eqn:E2.
    injection H as -> <- <-.
    cbn [globals enter_function] in Hg1.
    constructor; [exact Hb|].
    rewrite <- Hg1. apply (IH tc1 tc2); [|exact E2].
    rewrite Hg1. exact Hg.
Qed.

(** The bodies of a program that [type_check_program] accepts. *)
Lemma type_check_program_scoped (program : ASTProgram) msg program' :
  type_check_program program = (true, msg, program') ->
  exists g,
    register_signatures (globals fresh_checker) (functions program) = inr g
    /\ Forall (fun f => stmt_scoped (function_scope g f) (body f))
         (functions program').
Proof.
  unfold type_check_program. intros H.
  change (snd (symbol_table_add (symbol_table_create None) "print" type_void
                 true [type_int]))
    with (globals fresh_checker) in H.
  destruct (register_signatures _ (functions program)) as [dup|g] eqn:Er;
    [discriminate|].
  exists g. split; [reflexivity|].
  apply (register_signatures_declared (functions program)) in Er;
    [|apply incl_refl|].
  - destruct (check_bodies _ (functions program)) as [[ok tc] fs'] eqn:Eb.
    destruct ok; [|discriminate]. injection H as <- <-.
    apply check_bodies_scoped with (fs := functions program) in Eb;
      [exact Eb|apply table_functions_declared, Er].
  - split; [reflexivity|].
    constructor; [|constructor]. left. split; reflexivity.
Qed.

(** C3 (amended): in the tree that a successful [type_check_program]
    leaves, every expression node that is neither a call nor a variable
    reference has type int or bool, and every call node has the return
    type declared for the function it names, which is void for the
    built-in [print].  A variable reference has the type of the symbol
    that its name resolves to in the scope where it stands: the body of
    every function is scoped in the scope of the parameters of the
    function, below the global table that the first pass has built. *)
Theorem checked_expression_types (program : ASTProgram) (msg : option string)
  (program' : ASTProgram) :
  type_check_program program = (true, msg, program') ->
  (forall e, In e (program_exprs program') ->
     match e with
     | ExprCall ty n _ => callee_type (functions program) n ty
     | ExprVar _ _ => True
     | _ => int_or_bool (expr_type e)
     end)
  /\ exists g,
       register_signatures (globals fresh_checker) (functions program) = inr g
       /\ Forall (fun f => stmt_scoped (function_scope g f) (body f))
            (functions program').
Proof.
  intros H. split; [|exact (type_check_program_scoped _ _ _ H)].
  intros e He. apply type_check_program_checked in H.
  unfold program_exprs in He. apply in_flat_map in He.
  destruct He as (s & Hs & He).
  rewrite Forall_forall in H. destruct (H s Hs) as [_ Hexprs].
  rewrite Forall_forall in Hexprs. exact (Hexprs e He).
Qed.

(** [print_program] for the calls and the literals, and
    [duplicate_parameter_program], whose body returns its parameter [a],
    for the variable references. *)
Lemma checked_expression_types_witness :
  type_check_program print_program = (true, None, checked_print_program)
  /\ callee_type (functions print_program) "print" type_void
  /\ int_or_bool (expr_type (ExprIntLiteral type_int 1))
  /\ type_check_program duplicate_parameter_program
     = (true, None, duplicate_parameter_program)
  /\ exists g,
       register_signatures (globals fresh_checker)
         (functions duplicate_parameter_program) = inr g
       /\ Forall (fun f => stmt_scoped (function_scope g f) (body f))
            (functions duplicate_parameter_program).
Proof.
  split; [reflexivity|]. split; [|split; [|split; [reflexivity|]]].
  - apply (proj1 (checked_expression_types print_program None _ eq_refl)
             (ExprCall type_void "print" [ExprIntLiteral type_int 1])).
    cbn. right. left. reflexivity.
  - apply (proj1 (checked_expression_types print_program None _ eq_refl)
             (ExprIntLiteral type_int 1)).
    cbn. right. right. left. reflexivity.
  - exact (proj2 (checked_expression_types duplicate_parameter_program None _
                    eq_refl)).
Defined.

(** C3, the counterexample: [Parser.print_source] parses to
    [print_program], the checker accepts it, and the call of [print] in
    the checked tree has type void, which is neither int nor bool. *)
Lemma print_call_typed_void :
  Parser.parse_source Parser.print_source
  = Some (Parser.Parsed (Some print_program) None)
  /\ exists program' e,
       type_check_program print_program = (true, None, program')
       /\ In e (program_exprs program')
       /\ expr_kind e = EXPR_CALL
       /\ expr_type e = type_void
       /\ ~ int_or_bool (expr_type e).
Proof.
  split; [vm_compute; reflexivity|].
  eexists. exists (ExprCall type_void "print" [ExprIntLiteral type_int 1]).
  split; [reflexivity|]. split; [cbn; right; left; reflexivity|].
  split; [reflexivity|]. split; [reflexivity|].
  intros [H | H]; discriminate H.
Qed.

(** C8: every declaration in a program that the parser returns, whatever
    the fuel, has the provisional type int; and every declaration in the
    tree that a successful [type_check_program] leaves has the type of
    its checked initialiser, so that a boolean initialiser gives a
    declaration of type bool. *)
Theorem var_decl_type_from_initializer :
  (forall fuel toks program msg n ty init,
     Parser.parse_tokens_fuel fuel toks = Parser.Parsed (Some program) msg ->
     In (StmtVarDecl n ty init) (program_stmts program) ->
     ty = type_int)
  /\ (forall program msg program' n ty init,
        type_check_program program = (true, msg, program') ->
        In (StmtVarDecl n ty init) (program_stmts program') ->
        ty = expr_type init
        /\ (expr_type init = type_bool -> ty = type_bool)).
Proof.
  split.
  - intros fuel toks program msg n ty init H Hin.
    apply ParserProps.parse_tokens_provisional in H.
    rewrite Forall_forall in H. exact (H _ Hin).
  - intros program msg program' n ty init H Hin.
    apply type_check_program_checked in H.
    rewrite Forall_forall in H. destruct (H _ Hin) as [Hty _].
    cbn in Hty. split; [exact Hty | congruence].
Qed.

Lemma var_decl_type_from_initializer_witness :
  Parser.parse_tokens_fuel (Parser.parser_fuel Parser.print_tokens)
    Parser.print_tokens
  = Parser.Parsed (Some print_program) None
  /\ In (StmtVarDecl "b" type_int (ExprBoolLiteral type_bool true))
        (program_stmts print_program)
  /\ type_int = type_int
  /\ exists program',
       type_check_program print_program = (true, None, program')
       /\ In (StmtVarDecl "b" type_bool (ExprBoolLiteral type_bool true))
             (program_stmts program')
       /\ type_bool = expr_type (ExprBoolLiteral type_bool true)
       /\ (expr_type (ExprBoolLiteral type_bool true) = type_bool ->
           type_bool = type_bool).
Proof.
  assert (Hparse : Parser.parse_tokens_fuel
                     (Parser.parser_fuel Parser.print_tokens)
                     Parser.print_tokens
                   = Parser.Parsed (Some print_program) None)
    by (vm_compute; reflexivity).
  assert (Hin : In (StmtVarDecl "b" type_int (ExprBoolLiteral type_bool true))
                   (program_stmts print_program))
    by (cbn; right; left; reflexivity).
  split; [exact Hparse|]. split; [exact Hin|]. split.
  - exact (proj1 var_decl_type_from_initializer _ _ _ _ _ _ _ Hparse Hin).
  - eexists. split; [reflexivity|].
    assert (Hin' : In (StmtVarDecl "b" type_bool
                         (ExprBoolLiteral type_bool true))
                      (program_stmts
                         (mkProgram
                            [mkFunc "main" [] type_int
                               (StmtBlock
                                  [StmtVarDecl "b" type_bool
                                     (ExprBoolLiteral type_bool true);
                                   StmtExpr
                                     (ExprCall type_void "print"
                                        [ExprIntLiteral type_int 1]);
                                   StmtReturn
                                     (Some (ExprIntLiteral type_int 0))])])))
      by (cbn; right; left; reflexivity).
    split; [exact Hin'|].
    exact (proj2 var_decl_type_from_initializer print_program None _ _ _ _
             eq_refl Hin').
Defined.

(** C4: [Parser.duplicate_parameter_source] declares the parameter [a]
    twice.  [type_check_program] accepts the program and writes no
    message, whereas [check_function], which looks at the result of
    [symbol_table_add], stops at the second [a] with the message
    Duplicate parameter 'a'. *)
Theorem duplicate_parameter_accepted :
  Parser.parse_source Parser.duplicate_parameter_source
  = Some (Parser.Parsed (Some duplicate_parameter_program) None)
  /\ type_check_program duplicate_parameter_program
     = (true, None, duplicate_parameter_program)
  /\ fst (fst (check_function fresh_checker duplicate_parameter_function))
     = false
  /\ tc_error_msg
       (snd (fst (check_function fresh_checker duplicate_parameter_function)))
     = "Duplicate parameter 'a'".
Proof.
  split; [vm_compute; reflexivity|].
  split; [reflexivity|]. split; reflexivity.
Qed.

End TypeCheckerProps.

(* ------------------------------------------------------------------ *)
(** * Properties of the compiler chain *)

Module CompilerProps.
Import EC AST Config Compiler.

(** C2: compiled through the chain with the target [TARGET_TINYLLVM],
    the factorial program succeeds and the text stored under
    [output_code] is the C translation unit of [generate_c_code], the
    same text as with the target [TARGET_C]; it does not begin with the
    declaration of [print].  [generate_ir_code], applied to the same
    typed tree, gives a text with that declaration, and with [entry:]
    on the line after each [define]; the event does not call it. *)
Theorem tinyllvm_target_emits_c (uninit_msg : string) (comments : bool) :
  let cfg := default_config TARGET_TINYLLVM comments in
  exists result out typed ir,
    compile uninit_msg factorial_source cfg
    = Some (mkCompilation result (Some out))
    /\ cr_success result = true
    /\ compile uninit_msg factorial_source (default_config TARGET_C comments)
       = Some (mkCompilation result (Some out))
    /\ front_end factorial_source = Some typed
    /\ CodeGenC.generate_c_code typed (Some cfg) = Some out
    /\ String.prefix "declare void @print(i32)" out = false
    /\ In "#include <stdio.h>" (lines out "")
    /\ List.filter (String.prefix "declare") (lines out "") = []
    /\ List.filter (String.prefix "define") (lines out "") = []
    /\ CodeGenIR.generate_ir_code typed (Some cfg) = Some ir
    /\ String.prefix "declare void @print(i32)" ir = negb comments
    /\ List.filter (String.prefix "declare") (lines ir "")
       = ["declare void @print(i32)"]
    /\ List.filter (String.prefix "define") (lines ir "")
       = ["define i32 @factorial(i32 %n.param) {"; "define i32 @main() {"]
    /\ lines_after "define" (lines ir "") = ["entry:"; "entry:"].
Proof.
  destruct comments; cbv zeta.
  - eexists. eexists. eexists. eexists.
    split; [vm_compute; reflexivity|].
    split; [reflexivity|].
    split; [vm_compute; reflexivity|].
    split; [vm_compute; reflexivity|].
    split; [vm_compute; reflexivity|].
    split; [vm_compute; reflexivity|].
    split; [vm_compute; right; right; left; reflexivity|].
    split; [vm_compute; reflexivity|].
    split; [vm_compute; reflexivity|].
    split; [vm_compute; reflexivity|].
    repeat split; vm_compute; reflexivity.
  - eexists. eexists. eexists. eexists.
    split; [vm_compute; reflexivity|].
    split; [reflexivity|].
    split; [vm_compute; reflexivity|].
    split; [vm_compute; reflexivity|].
    split; [vm_compute; reflexivity|].
    split; [vm_compute; reflexivity|].
    split; [vm_compute; left; reflexivity|].
    split; [vm_compute; reflexivity|].
    split; [vm_compute; reflexivity|].
    split; [vm_compute; reflexivity|].
    repeat split; vm_compute; reflexivity.
Qed.

End CompilerProps.

(* ------------------------------------------------------------------ *)
(** * Further properties of the context *)

Module ContextProps.
Import CStr EC ECProps.

Lemma strcmp_eq_content (a b : string) :
  strcmp_eq a b = true <-> strdup a = strdup b.
Proof.
  revert b. induction a as [|x a IH]; intros [|y b]; cbn [strcmp_eq strdup].
  - split; reflexivity.
  - destruct (is_nul y); split; intros H; try reflexivity; discriminate.
  - destruct (is_nul x); split; intros H; try reflexivity; discriminate.
  - destruct (is_nul x) eqn:Hx.
    + destruct (is_nul y); split; intros H; try reflexivity; discriminate.
    + destruct (Ascii.eqb x y) eqn:Hxy.
      * apply Ascii.eqb_eq in Hxy. subst y. rewrite Hx, IH.
        split; [intros ->; reflexivity | intros [= H]; exact H].
      * apply Ascii.eqb_neq in Hxy.
        destruct (is_nul y); split; try discriminate.
        intros [= H _]. contradiction.
Qed.

Lemma strdup_idempotent (s : string) : strdup (strdup s) = strdup s.
Proof.
  induction s as [|c s IH]; cbn [strdup]; [reflexivity|].
  destruct (is_nul c) eqn:Hc; cbn [strdup]; [reflexivity|].
  rewrite Hc, IH. reflexivity.
Qed.

Lemma strcmp_eq_false_content (a b : string) :
  strcmp_eq a b = false <-> strdup a <> strdup b.
Proof.
  rewrite <- strcmp_eq_content. destruct (strcmp_eq a b); split; congruence.
Qed.

Lemma index_of_none (es : list ContextEntry) (k : string) :
  index_of es k = None <->
  Forall (fun e => strdup (key e) <> strdup k) es.
Proof.
  induction es as [|e es IH]; cbn [index_of].
  - split; [constructor | reflexivity].
  - destruct (strcmp_eq (key e) k) eqn:E.
    + apply strcmp_eq_content in E. split; [discriminate|].
      intros H. inversion H; contradiction.
    + apply strcmp_eq_false_content in E.
      destruct (index_of es k); cbn [option_map].
      * split; [discriminate|]. intros H. inversion H as [|? ? _ H']; subst.
        apply IH in H'. discriminate.
      * split; [|reflexivity]. intros _. constructor; [exact E | now apply IH].
Qed.

Lemma index_of_some_content (es : list ContextEntry) (k : string) (j : nat) :
  index_of es k = Some j ->
  exists e, nth_error es j = Some e /\ strdup (key e) = strdup k.
Proof.
  intros H. destruct (index_of_some _ _ _ H) as (e & He & Hk).
  exists e. split; [exact He | now apply strcmp_eq_content].
Qed.

Lemma index_of_content (es : list ContextEntry) (k k' : string) :
  strdup k = strdup k' -> index_of es k = index_of es k'.
Proof.
  intros H. induction es as [|e es IH]; cbn [index_of]; [reflexivity|].
  assert (E : strcmp_eq (key e) k = strcmp_eq (key e) k').
  { destruct (strcmp_eq (key e) k) eqn:E1, (strcmp_eq (key e) k') eqn:E2;
      try reflexivity.
    - apply strcmp_eq_content in E1. apply strcmp_eq_false_content in E2.
      congruence.
    - apply strcmp_eq_content in E2. apply strcmp_eq_false_content in E1.
      congruence. }
  rewrite E, IH. reflexivity.
Qed.

Lemma find_entry_absent (context : EventContext) (k : string) :
  ctx_wf context ->
  (find_entry context k <? 0) = true <-> index_of (entries context) k = None.
Proof.
  intros Hwf. rewrite (find_entry_index context k (wf_length _ Hwf)).
  destruct (index_of (entries context) k) as [j|]; split; intros H;
    try discriminate; try reflexivity.
  apply Z.ltb_lt in H. lia.
Qed.

(** The three ways in which [event_context_set_with_cleanup] returns:
    a failure that leaves entries and counter alone, the replacement of
    the value of an entry, and a new entry at the end. *)
Lemma set_cases (al : Allocator) (context : EventContext) (k : string)
  (v cl : ptr) :
  ctx_wf context ->
  let r := event_context_set_with_cleanup al context k v cl in
  (fst (fst r) <> EC_SUCCESS
   /\ entries (snd (fst r)) = entries context
   /\ total_memory_bytes (snd (fst r)) = total_memory_bytes context)
  \/ (fst (fst r) = EC_SUCCESS
      /\ key_well_formed k
      /\ ref_counted_value_create (value_malloc_ok al) v cl
         = Some (mkRefCountedValue v cl 1)
      /\ ((exists j e,
             index_of (entries context) k = Some j
             /\ nth_error (entries context) j = Some e
             /\ snd (fst r)
                = mkEventContext
                    (set_entry_value (entries context) j
                       (mkRefCountedValue v cl 1))
                    (capacity context) (total_memory_bytes context)
             /\ snd r = snd (ref_counted_value_release (value e)))
          \/ (index_of (entries context) k = None
              /\ entries (snd (fst r))
                 = entries context
                   ++ [mkContextEntry (strdup k) (mkRefCountedValue v cl 1)]
              /\ total_memory_bytes (snd (fst r))
                 = total_memory_bytes context + entry_overhead k
              /\ snd r = []))).
Proof.
  intros Hwf r. subst r. unfold event_context_set_with_cleanup.
  destruct ((safe_strnlen k (EVENTCHAINS_MAX_KEY_LENGTH + 1) =? 0)%nat
            || (EVENTCHAINS_MAX_KEY_LENGTH
                <? safe_strnlen k (EVENTCHAINS_MAX_KEY_LENGTH + 1))%nat) eqn:Hkey.
  { left. cbn. repeat split. discriminate. }
  apply key_check in Hkey.
  rewrite additional_memory_overhead by exact Hkey.
  pose proof (entry_overhead_bounds k Hkey) as Hov.
  assert (Hm : 0 <= total_memory_bytes context <= EVENTCHAINS_MAX_CONTEXT_MEMORY)
    by (destruct Hwf as (_ & _ & Hm); exact Hm).
  unfold EVENTCHAINS_MAX_CONTEXT_MEMORY in Hm.
  rewrite !size_t_wrap_small by lia.
  destruct (_ >? EVENTCHAINS_MAX_CONTEXT_MEMORY) eqn:Hlimit.
  { left. cbn. repeat split. discriminate. }
  destruct (ref_counted_value_create (value_malloc_ok al) v cl) as [rv|] eqn:Hrv.
  2:{ left. cbn. repeat split. discriminate. }
  assert (rv = mkRefCountedValue v cl 1) as ->.
  { unfold ref_counted_value_create in Hrv.
    destruct (_ && _); [discriminate|].
    destruct (negb _); [discriminate|]. now injection Hrv as <-. }
  rewrite (find_entry_index context k (wf_length _ Hwf)).
  destruct (index_of (entries context) k) as [j|] eqn:Hidx.
  - replace (Z.of_nat j >=? 0) with true by (symmetry; apply Z.geb_le; lia).
    rewrite Nat2Z.id.
    destruct (index_of_some _ _ _ Hidx) as (e & He & _). rewrite He.
    right. cbn [fst snd].
    split; [reflexivity|]. split; [exact Hkey|]. split; [reflexivity|].
    left. exists j, e. repeat split; assumption.
  - change (-1 >=? 0) with false. cbv iota.
    pose proof (ensure_capacity_spec (entries_realloc_ok al) context Hwf) as Hcap.
    cbv zeta in Hcap. destruct Hcap as (He & Ht & _ & _ & Hfail).
    destruct (ensure_capacity (entries_realloc_ok al) context) as [err c'].
    cbn [fst snd] in *.
    destruct err;
      try (left; cbn [fst snd]; repeat split;
           [discriminate | exact He | exact Ht]).
    destruct (negb (key_strdup_ok al)).
    + left. cbn [fst snd]. repeat split; [discriminate | exact He | exact Ht].
    + right. cbn [fst snd entries total_memory_bytes].
      split; [reflexivity|]. split; [exact Hkey|]. split; [reflexivity|].
      right. rewrite He, Ht.
      rewrite size_t_wrap_small
        by (rewrite Z.gtb_ltb in Hlimit; apply Z.ltb_ge in Hlimit;
            unfold EVENTCHAINS_MAX_CONTEXT_MEMORY in Hlimit; lia).
      repeat split; reflexivity.
Qed.

Lemma keys_set_entry_value (es : list ContextEntry) (j : nat)
  (v : RefCountedValue) :
  List.map key (set_entry_value es j v) = List.map key es.
Proof.
  revert j. induction es as [|e es IH]; intros [|j]; cbn; try reflexivity.
  now rewrite IH.
Qed.

Lemma keys_remove_at (es : list ContextEntry) (j : nat) :
  List.map key (remove_at es j) = remove_at (List.map key es) j.
Proof.
  revert j. induction es as [|e es IH]; intros [|j]; cbn; try reflexivity.
  now rewrite IH.
Qed.

Lemma In_remove_at {A : Type} (l : list A) (j : nat) (x : A) :
  In x (remove_at l j) -> In x l.
Proof.
  revert j. induction l as [|a l IH]; intros [|j]; cbn; try tauto.
  intros [H | H]; [left; exact H | right; exact (IH _ H)].
Qed.

Lemma NoDup_remove_at {A : Type} (l : list A) (j : nat) :
  NoDup l -> NoDup (remove_at l j).
Proof.
  revert j. induction l as [|a l IH]; intros [|j] H; cbn; try exact H.
  - now inversion H.
  - inversion H as [|? ? Hn Hd]; subst. constructor.
    + intros Hin. apply Hn. exact (In_remove_at _ _ _ Hin).
    + apply IH, Hd.
Qed.

Lemma Forall_remove_at {A : Type} (P : A -> Prop) (l : list A) (j : nat) :
  Forall P l -> Forall P (remove_at l j).
Proof.
  intros H. apply Forall_forall. intros x Hx.
  rewrite Forall_forall in H. exact (H x (In_remove_at _ _ _ Hx)).
Qed.

Lemma get_ref_entries (context : EventContext) (k : string) :
  keys (snd (event_context_get_ref context k)) = keys context
  /\ capacity (snd (event_context_get_ref context k)) = capacity context
  /\ total_memory_bytes (snd (event_context_get_ref context k))
     = total_memory_bytes context.
Proof.
  unfold event_context_get_ref, keys.
  destruct (find_entry context k <? 0); [repeat split|].
  destruct (nth_error _ _); cbn [snd entries capacity total_memory_bytes];
    [|repeat split].
  rewrite keys_set_entry_value. repeat split.
Qed.

Lemma reachable_keys_wf (context : EventContext) :
  reachable context -> keys_wf context.
Proof.
  induction 1 as [|al context k v cl Hr IH|context k Hr IH|context k Hr IH
                 |context Hr IH].
  - split; constructor.
  - pose proof (set_cases al context k v cl (reachable_wf _ Hr)) as Hset.
    cbv zeta in Hset. unfold keys_wf, keys in *.
    destruct Hset as [(_ & He & _) | (_ & Hk & _ & [(j & e & _ & _ & Hc & _)
                                                   | (Hidx & He & _)])].
    + rewrite He. exact IH.
    + rewrite Hc. cbn [entries]. rewrite keys_set_entry_value. exact IH.
    + rewrite He, map_app. cbn [List.map key]. destruct IH as [Hall Hnd].
      split.
      * apply Forall_app. split; [exact Hall|].
        constructor; [|constructor].
        split; [apply strdup_idempotent | now rewrite strlen_strdup].
      * apply NoDup_app; [exact Hnd | constructor; [intros []|constructor] |].
        intros a Ha [<- | []].
        apply in_map_iff in Ha. destruct Ha as (e & Hke & Hin).
        apply index_of_none in Hidx. rewrite Forall_forall in Hidx, Hall.
        apply (Hidx e Hin).
        destruct (Hall (key e) (in_map key _ _ Hin)) as [Hn _].
        rewrite Hke. now rewrite strdup_idempotent.
  - destruct (get_ref_entries context k) as (Hk & _).
    unfold keys_wf. rewrite Hk. exact IH.
  - unfold keys_wf, keys, event_context_remove in *.
    destruct (find_entry context k <? 0); cbn [fst snd entries]; [exact IH|].
    rewrite keys_remove_at. destruct IH as [Hall Hnd].
    split; [now apply Forall_remove_at | now apply NoDup_remove_at].
  - split; constructor.
Qed.

Lemma get_index (context : EventContext) (k : string) :
  ctx_wf context ->
  event_context_get context k =
  match index_of (entries context) k with
  | Some j =>
      (EC_SUCCESS,
       Some (ref_counted_value_get_data
               (option_map value (nth_error (entries context) j))))
  | None => (EC_ERROR_NOT_FOUND, None)
  end.
Proof.
  intros Hwf. unfold event_context_get.
  rewrite (find_entry_index context k (wf_length _ Hwf)).
  destruct (index_of (entries context) k) as [j|]; [|reflexivity].
  replace (Z.of_nat j <? 0) with false by (symmetry; apply Z.ltb_ge; lia).
  now rewrite Nat2Z.id.
Qed.

Lemma nth_error_set_entry_value_other (es : list ContextEntry) (i j : nat)
  (v : RefCountedValue) :
  i <> j -> nth_error (set_entry_value es j v) i = nth_error es i.
Proof.
  revert i j. induction es as [|e es IH]; intros [|i] [|j] H; cbn;
    try reflexivity; try contradiction.
  apply IH. congruence.
Qed.

Lemma index_of_app_some (es es' : list ContextEntry) (k : string) (j : nat) :
  index_of es k = Some j -> index_of (es ++ es') k = Some j.
Proof.
  revert j. induction es as [|e es IH]; intros j; cbn [index_of app];
    [discriminate|].
  destruct (strcmp_eq (key e) k); [trivial|].
  destruct (index_of es k) as [i|]; cbn [option_map]; [|discriminate].
  intros [= <-]. now rewrite (IH i eq_refl).
Qed.

Lemma index_of_lt (es : list ContextEntry) (k : string) (j : nat) :
  index_of es k = Some j -> (j < List.length es)%nat.
Proof.
  intros H. destruct (index_of_some _ _ _ H) as (e & He & _).
  apply nth_error_Some. congruence.
Qed.

(** X1: a set with a key [k] does not change what [event_context_get]
    returns for any key that differs from [k], whether the set succeeds
    or fails. *)
Theorem set_leaves_other_keys (al : Allocator) (context : EventContext)
  (k k' : string) (v cl : ptr) :
  ctx_wf context ->
  strcmp_eq k k' = false ->
  event_context_get
    (snd (fst (event_context_set_with_cleanup al context k v cl))) k'
  = event_context_get context k'.
Proof.
  intros Hwf Hkk.
  pose proof (set_preserves_wf al context k v cl Hwf) as Hwf'.
  pose proof (set_cases al context k v cl Hwf) as Hset. cbv zeta in Hset.
  rewrite (get_index _ k' Hwf'), (get_index _ k' Hwf).
  destruct Hset as [(_ & He & _) | (_ & Hk & _ & [(j & e & Hj & Hn & Hc & _)
                                                 | (Hidx & He & _)])].
  - rewrite He. reflexivity.
  - rewrite Hc. cbn [entries]. rewrite index_of_set_entry_value.
    destruct (index_of (entries context) k') as [i|] eqn:Hi; [|reflexivity].
    rewrite nth_error_set_entry_value_other; [reflexivity|].
    intros ->. destruct (index_of_some_content _ _ _ Hj) as (e1 & H1 & Hc1).
    destruct (index_of_some_content _ _ _ Hi) as (e2 & H2 & Hc2).
    apply strcmp_eq_false_content in Hkk. congruence.
  - rewrite He.
    destruct (index_of (entries context) k') as [i|] eqn:Hi.
    + rewrite (index_of_app_some _ _ _ _ Hi).
      rewrite nth_error_app1 by exact (index_of_lt _ _ _ Hi). reflexivity.
    + rewrite index_of_app_none by exact Hi. cbn [key].
      replace (strcmp_eq (strdup k) k') with false; [reflexivity|].
      symmetry. apply strcmp_eq_false_content.
      rewrite strdup_idempotent. now apply strcmp_eq_false_content.
Qed.

Lemma set_leaves_other_keys_witness :
  let c := snd (fst (event_context_set all_ok event_context_create "ast" 4096)) in
  event_context_get
    (snd (fst (event_context_set_with_cleanup all_ok c "tokens" 8192 NULL))) "ast"
  = event_context_get c "ast".
Proof.
  intros c. apply (set_leaves_other_keys all_ok c "tokens" "ast" 8192 NULL).
  - apply set_preserves_wf, create_wf.
  - reflexivity.
Defined.

Lemma lookup_index (es : list ContextEntry) (k : string) :
  lookup es k =
  match index_of es k with
  | Some j => option_map value (nth_error es j)
  | None => None
  end.
Proof.
  induction es as [|e es IH]; cbn [lookup index_of]; [reflexivity|].
  destruct (strcmp_eq (key e) k); [reflexivity|].
  rewrite IH. destruct (index_of es k); reflexivity.
Qed.

Lemma get_lookup (context : EventContext) (k : string) :
  ctx_wf context ->
  event_context_get context k =
  match lookup (entries context) k with
  | Some v => (EC_SUCCESS, Some (data v))
  | None => (EC_ERROR_NOT_FOUND, None)
  end.
Proof.
  intros Hwf. rewrite (get_index _ _ Hwf), lookup_index.
  destruct (index_of (entries context) k) as [j|] eqn:Hj; [|reflexivity].
  destruct (index_of_some _ _ _ Hj) as (e & -> & _). reflexivity.
Qed.

Lemma remove_index (context : EventContext) (k : string) :
  ctx_wf context ->
  event_context_remove context k =
  match index_of (entries context) k with
  | Some j =>
      (EC_SUCCESS,
       mkEventContext (remove_at (entries context) j) (capacity context)
                      (total_memory_bytes context),
       match nth_error (entries context) j with
       | Some e => snd (ref_counted_value_release (value e))
       | None => []
       end)
  | None => (EC_ERROR_NOT_FOUND, context, [])
  end.
Proof.
  intros Hwf. unfold event_context_remove.
  rewrite (find_entry_index context k (wf_length _ Hwf)).
  destruct (index_of (entries context) k) as [j|]; [|reflexivity].
  replace (Z.of_nat j <? 0) with false by (symmetry; apply Z.ltb_ge; lia).
  now rewrite Nat2Z.id.
Qed.

Lemma remove_preserves_wf (context : EventContext) (k : string) :
  ctx_wf context -> ctx_wf (snd (fst (event_context_remove context k))).
Proof.
  intros Hwf. rewrite (remove_index _ _ Hwf).
  destruct (index_of (entries context) k) as [j|]; [|exact Hwf].
  cbn [fst snd]. destruct Hwf as (Hc & Hcap & Hm).
  unfold ctx_wf, count in *. cbn [entries capacity total_memory_bytes].
  pose proof (length_remove_at (entries context) j). repeat split; lia.
Qed.

Lemma lookup_remove_at_other (es : list ContextEntry) (k k' : string) (j : nat) :
  index_of es k = Some j ->
  strcmp_eq k k' = false ->
  lookup (remove_at es j) k' = lookup es k'.
Proof.
  intros Hj Hkk. apply strcmp_eq_false_content in Hkk.
  revert j Hj. induction es as [|e es IH]; intros j; cbn [index_of];
    [discriminate|].
  destruct (strcmp_eq (key e) k) eqn:Hek.
  - intros [= <-]. cbn [remove_at lookup].
    replace (strcmp_eq (key e) k') with false; [reflexivity|].
    symmetry. apply strcmp_eq_false_content.
    apply strcmp_eq_content in Hek. congruence.
  - destruct (index_of es k) as [i|]; cbn [option_map]; [|discriminate].
    intros [= <-]. cbn [remove_at lookup]. now rewrite (IH i eq_refl).
Qed.

Lemma NoDup_remove_at_notin {A : Type} (l : list A) (j : nat) (a : A) :
  NoDup l -> nth_error l j = Some a -> ~ In a (remove_at l j).
Proof.
  revert j. induction l as [|x l IH]; intros [|j] Hnd Hn; cbn in *;
    try discriminate.
  - injection Hn as ->. now inversion Hnd.
  - inversion Hnd as [|? ? Hx Hl]; subst. intros [-> | Hin].
    + apply Hx. eapply nth_error_In, Hn.
    + exact (IH _ Hl Hn Hin).
Qed.

(** X2: in a context built with the operations of the library, after
    [event_context_remove(ctx, k)] the key is absent, whether the
    removal found it or not: [event_context_get] fails with NOT_FOUND and
    stores nothing.  A removal that succeeds takes one entry away. *)
Theorem remove_then_get (context : EventContext) (k : string) :
  reachable context ->
  let r := event_context_remove context k in
  event_context_get (snd (fst r)) k = (EC_ERROR_NOT_FOUND, None)
  /\ event_context_has (snd (fst r)) k false = Some false
  /\ (fst (fst r) = EC_SUCCESS -> count (snd (fst r)) = count context - 1)
  /\ (fst (fst r) <> EC_SUCCESS -> r = (EC_ERROR_NOT_FOUND, context, [])).
Proof.
  intros Hr r. subst r. pose proof (reachable_wf _ Hr) as Hwf.
  pose proof (reachable_keys_wf _ Hr) as [Hall Hnd].
  pose proof (remove_preserves_wf context k Hwf) as Hwf'.
  assert (Habs : index_of (entries (snd (fst (event_context_remove context k)))) k
                 = None).
  { rewrite (remove_index _ _ Hwf).
    destruct (index_of (entries context) k) as [j|] eqn:Hj; [|exact Hj].
    cbn [fst snd entries]. apply index_of_none, Forall_forall.
    intros x Hx Hxk.
    destruct (index_of_some_content _ _ _ Hj) as (e & He & Hek).
    unfold keys in *. rewrite Forall_forall in Hall.
    destruct (Hall (key e) (in_map key _ _ (nth_error_In _ _ He))) as [Hne _].
    destruct (Hall (key x) (in_map key _ _ (In_remove_at _ _ _ Hx))) as [Hnx _].
    apply (NoDup_remove_at_notin (List.map key (entries context)) j (key e) Hnd).
    - now rewrite nth_error_map, He.
    - rewrite <- keys_remove_at. replace (key e) with (key x) by congruence.
      now apply in_map. }
  split; [|split; [|split]].
  - rewrite (get_index _ _ Hwf'), Habs. reflexivity.
  - unfold event_context_has.
    rewrite (find_entry_index _ k (wf_length _ Hwf')), Habs. reflexivity.
  - rewrite (remove_index _ _ Hwf).
    destruct (index_of (entries context) k) as [j|] eqn:Hj; [|discriminate].
    intros _. cbn [fst snd]. unfold count. cbn [entries].
    pose proof (index_of_lt _ _ _ Hj) as Hlt. clear - Hlt.
    revert j Hlt. induction (entries context) as [|e es IH]; intros j Hlt;
      cbn in Hlt; [lia|].
    destruct j as [|j]; cbn [remove_at List.length]; [lia|].
    specialize (IH j ltac:(lia)). lia.
  - rewrite (remove_index _ _ Hwf).
    destruct (index_of (entries context) k); [intros H; now elim H | reflexivity].
Qed.

Lemma remove_then_get_witness :
  let c := snd (fst (event_context_set all_ok event_context_create "ast" 4096)) in
  let r := event_context_remove c "ast" in
  event_context_get (snd (fst r)) "ast" = (EC_ERROR_NOT_FOUND, None)
  /\ event_context_has (snd (fst r)) "ast" false = Some false
  /\ (fst (fst r) = EC_SUCCESS -> count (snd (fst r)) = count c - 1)
  /\ (fst (fst r) <> EC_SUCCESS -> r = (EC_ERROR_NOT_FOUND, c, [])).
Proof.
  intros c. apply (remove_then_get c "ast").
  apply reach_set, reach_create.
Defined.

(** X3: a removal of the key [k] does not change what
    [event_context_get] returns for a key that differs from [k]. *)
Theorem remove_leaves_other_keys (context : EventContext) (k k' : string) :
  ctx_wf context ->
  strcmp_eq k k' = false ->
  event_context_get (snd (fst (event_context_remove context k))) k'
  = event_context_get context k'.
Proof.
  intros Hwf Hkk.
  rewrite (get_lookup _ _ (remove_preserves_wf context k Hwf)),
    (get_lookup _ _ Hwf), (remove_index _ _ Hwf).
  destruct (index_of (entries context) k) as [j|] eqn:Hj; [|reflexivity].
  cbn [fst snd entries]. now rewrite (lookup_remove_at_other _ _ _ _ Hj Hkk).
Qed.

Lemma remove_leaves_other_keys_witness :
  let c := fill event_context_create 3 in
  event_context_get (snd (fst (event_context_remove c "k1"))) "k2"
  = event_context_get c "k2".
Proof.
  intros c. apply (remove_leaves_other_keys c "k1" "k2").
  - apply reachable_wf, fill_reachable, reach_create.
  - reflexivity.
Defined.

Lemma remove_at_last {A : Type} (l : list A) (a : A) :
  remove_at (l ++ [a]) (List.length l) = l.
Proof. induction l as [|x l IH]; cbn; [reflexivity | now rewrite IH]. Qed.

Lemma has_plain (context : EventContext) (k : string) :
  ctx_wf context ->
  event_context_has context k false
  = Some (match index_of (entries context) k with Some _ => true | None => false end).
Proof.
  intros Hwf. unfold event_context_has.
  rewrite (find_entry_index context k (wf_length _ Hwf)).
  destruct (index_of (entries context) k) as [j|]; [|reflexivity].
  f_equal. apply Z.geb_le. lia.
Qed.

(** X4: what a successful set costs.  When the key is already present
    the entry count, the keys and the memory counter stay as they are;
    when it is not, the key is added at the end, the count grows by one
    and the memory counter by the length of the key plus 1 plus the size
    of the value wrapper. *)
Theorem set_accounting (al : Allocator) (context : EventContext) (k : string)
  (v cl : ptr) :
  ctx_wf context ->
  let r := event_context_set_with_cleanup al context k v cl in
  fst (fst r) = EC_SUCCESS ->
  if find_entry context k >=? 0
  then keys (snd (fst r)) = keys context
       /\ count (snd (fst r)) = count context
       /\ event_context_memory_usage (snd (fst r))
          = event_context_memory_usage context
  else keys (snd (fst r)) = keys context ++ [strdup k]
       /\ count (snd (fst r)) = count context + 1
       /\ event_context_memory_usage (snd (fst r))
          = event_context_memory_usage context
            + Z.of_nat (strlen k) + 1 + sizeof_RefCountedValue.
Proof.
  intros Hwf r Hok. subst r.
  pose proof (set_cases al context k v cl Hwf) as Hset. cbv zeta in Hset.
  rewrite (find_entry_index context k (wf_length _ Hwf)).
  unfold keys, count, event_context_memory_usage.
  destruct Hset as [(Hne & _) | (_ & Hk & _ & [(j & e & Hj & Hn & Hc & _)
                                               | (Hidx & He & Hm & _)])].
  - contradiction.
  - rewrite Hj, Hc. cbn [entries total_memory_bytes].
    replace (Z.of_nat j >=? 0) with true by (symmetry; apply Z.geb_le; lia).
    rewrite keys_set_entry_value, length_set_entry_value. repeat split.
  - rewrite Hidx, He, Hm. change (-1 >=? 0) with false. cbv iota.
    rewrite map_app, length_app. cbn [List.map key List.length].
    unfold entry_overhead. repeat split; lia.
Qed.

Lemma set_accounting_witness :
  let r := event_context_set_with_cleanup all_ok event_context_create
             "source_code" 4096 NULL in
  keys (snd (fst r)) = keys event_context_create ++ [strdup "source_code"]
  /\ count (snd (fst r)) = count event_context_create + 1
  /\ event_context_memory_usage (snd (fst r))
     = event_context_memory_usage event_context_create
       + Z.of_nat (strlen "source_code") + 1 + sizeof_RefCountedValue.
Proof.
  exact (set_accounting all_ok event_context_create "source_code" 4096 NULL
           create_wf eq_refl).
Defined.

(** X5: a set of a key that is absent followed by the removal of that
    key gives back the entries as they were, but not the memory: the
    bytes that the set accounted for stay on the counter. *)
Theorem set_then_remove (al : Allocator) (context : EventContext) (k : string)
  (v cl : ptr) :
  ctx_wf context ->
  event_context_has context k false = Some false ->
  let s := event_context_set_with_cleanup al context k v cl in
  fst (fst s) = EC_SUCCESS ->
  let r := event_context_remove (snd (fst s)) k in
  fst (fst r) = EC_SUCCESS
  /\ entries (snd (fst r)) = entries context
  /\ event_context_memory_usage (snd (fst r))
     = event_context_memory_usage context
       + Z.of_nat (strlen k) + 1 + sizeof_RefCountedValue
  /\ snd r = (if negb (cl =? NULL) && negb (v =? NULL) then [(cl, v)] else []).
Proof.
  intros Hwf Habs s Hok r. subst r s.
  pose proof (set_preserves_wf al context k v cl Hwf) as Hwf'.
  pose proof (set_cases al context k v cl Hwf) as Hset. cbv zeta in Hset.
  rewrite (has_plain _ _ Hwf) in Habs.
  rewrite (remove_index _ _ Hwf').
  destruct Hset as [(Hne & _) | (_ & Hk & _ & [(j & e & Hj & _)
                                               | (Hidx & He & Hm & _)])].
  - contradiction.
  - rewrite Hj in Habs. discriminate.
  - rewrite He, (index_of_app_none _ _ _ Hidx). cbn [key].
    rewrite strcmp_eq_strdup. cbn [fst snd entries total_memory_bytes].
    rewrite remove_at_last, nth_error_app2, Nat.sub_diag by lia.
    cbn [nth_error value]. unfold event_context_memory_usage.
    rewrite Hm. unfold entry_overhead, ref_counted_value_release.
    cbn [ref_count cleanup data fst snd]. change (1 =? 1) with true. cbv iota.
    cbn [total_memory_bytes snd]. repeat split. lia.
Qed.

Lemma set_then_remove_witness :
  let s := event_context_set_with_cleanup all_ok event_context_create
             "tokens" 8192 4096 in
  let r := event_context_remove (snd (fst s)) "tokens" in
  fst (fst r) = EC_SUCCESS
  /\ entries (snd (fst r)) = entries event_context_create
  /\ event_context_memory_usage (snd (fst r))
     = event_context_memory_usage event_context_create
       + Z.of_nat (strlen "tokens") + 1 + sizeof_RefCountedValue
  /\ snd r = [(4096, 8192)].
Proof.
  exact (set_then_remove all_ok event_context_create "tokens" 8192 4096
           create_wf eq_refl eq_refl).
Defined.

(** After a successful set the first entry with the key holds the new
    value, with one reference. *)
Lemma set_stores (al : Allocator) (context : EventContext) (k : string)
  (v cl : ptr) :
  ctx_wf context ->
  fst (fst (event_context_set_with_cleanup al context k v cl)) = EC_SUCCESS ->
  exists j k0,
    index_of (entries (snd (fst (event_context_set_with_cleanup
                                   al context k v cl)))) k = Some j
    /\ nth_error (entries (snd (fst (event_context_set_with_cleanup
                                       al context k v cl)))) j
       = Some (mkContextEntry k0 (mkRefCountedValue v cl 1)).
Proof.
  intros Hwf Hok.
  pose proof (set_cases al context k v cl Hwf) as Hset. cbv zeta in Hset.
  destruct Hset as [(Hne & _) | (_ & Hk & _ & [(j & e & Hj & Hn & Hc & _)
                                               | (Hidx & He & _)])].
  - contradiction.
  - exists j, (key e). rewrite Hc. cbn [entries].
    rewrite index_of_set_entry_value. split; [exact Hj|].
    now apply nth_error_set_entry_value.
  - exists (List.length (entries context)), (strdup k). rewrite He.
    rewrite (index_of_app_none _ _ _ Hidx). cbn [key].
    rewrite strcmp_eq_strdup. split; [reflexivity|].
    now rewrite nth_error_app2, Nat.sub_diag by lia.
Qed.

Lemma get_ref_index (context : EventContext) (k : string) (j : nat)
  (e : ContextEntry) :
  ctx_wf context ->
  index_of (entries context) k = Some j ->
  nth_error (entries context) j = Some e ->
  event_context_get_ref context k
  = (EC_SUCCESS, Some (snd (ref_counted_value_retain (value e))),
     mkEventContext
       (set_entry_value (entries context) j
          (snd (ref_counted_value_retain (value e))))
       (capacity context) (total_memory_bytes context)).
Proof.
  intros Hwf Hj He. unfold event_context_get_ref.
  rewrite (find_entry_index context k (wf_length _ Hwf)), Hj.
  replace (Z.of_nat j <? 0) with false by (symmetry; apply Z.ltb_ge; lia).
  now rewrite Nat2Z.id, He.
Qed.

(** X6: replacing the value of a key releases the old value: its cleanup
    callback is called once, on the old payload, when both are not NULL,
    and the callback of the new value is not called. *)
Theorem overwrite_releases_old_value (al al' : Allocator)
  (context : EventContext) (k : string) (v cl v' cl' : ptr) :
  ctx_wf context ->
  let s := event_context_set_with_cleanup al context k v cl in
  fst (fst s) = EC_SUCCESS ->
  let s' := event_context_set_with_cleanup al' (snd (fst s)) k v' cl' in
  fst (fst s') = EC_SUCCESS ->
  snd s' = (if negb (cl =? NULL) && negb (v =? NULL) then [(cl, v)] else [])
  /\ keys (snd (fst s')) = keys (snd (fst s))
  /\ event_context_get (snd (fst s')) k = (EC_SUCCESS, Some v').
Proof.
  intros Hwf s Hok s' Hok'. subst s' s.
  pose proof (set_preserves_wf al context k v cl Hwf) as Hwf1.
  destruct (set_stores al context k v cl Hwf Hok) as (j & k0 & Hj & Hn).
  set (c1 := snd (fst (event_context_set_with_cleanup al context k v cl))) in *.
  pose proof (set_cases al' c1 k v' cl' Hwf1) as Hset. cbv zeta in Hset.
  split; [|split].
  - destruct Hset as [(Hne & _) | (_ & _ & _ & [(j' & e & Hj' & Hn' & _ & Hcalls)
                                               | (Hidx & _)])].
    + contradiction.
    + rewrite Hcalls. assert (j' = j) as -> by congruence.
      rewrite Hn in Hn'. injection Hn' as <-. reflexivity.
    + congruence.
  - destruct Hset as [(Hne & _) | (_ & _ & _ & [(j' & e & _ & _ & Hc & _)
                                               | (Hidx & _)])].
    + contradiction.
    + rewrite Hc. unfold keys. cbn [entries]. apply keys_set_entry_value.
    + congruence.
  - now apply set_get_general.
Qed.

Lemma overwrite_releases_old_value_witness :
  let s := event_context_set_with_cleanup all_ok event_context_create
             "ast" 8192 4096 in
  let s' := event_context_set_with_cleanup all_ok (snd (fst s)) "ast" 12288 4100 in
  snd s' = [(4096, 8192)]
  /\ keys (snd (fst s')) = keys (snd (fst s))
  /\ event_context_get (snd (fst s')) "ast" = (EC_SUCCESS, Some 12288).
Proof.
  exact (overwrite_releases_old_value all_ok all_ok event_context_create
           "ast" 8192 4096 12288 4100 create_wf eq_refl eq_refl).
Defined.

(** X7: a value handed out by [event_context_get_ref] holds a second
    reference, and removing its key, or replacing its value, calls no
    cleanup callback. *)
Theorem get_ref_defers_cleanup (al al' : Allocator) (context : EventContext)
  (k : string) (v cl v' cl' : ptr) :
  ctx_wf context ->
  let s := event_context_set_with_cleanup al context k v cl in
  fst (fst s) = EC_SUCCESS ->
  let g := event_context_get_ref (snd (fst s)) k in
  fst g = (EC_SUCCESS, Some (mkRefCountedValue v cl 2))
  /\ event_context_remove (snd g) k
     = (EC_SUCCESS, snd (fst (event_context_remove (snd (fst s)) k)), [])
  /\ (fst (fst (event_context_set_with_cleanup al' (snd g) k v' cl')) = EC_SUCCESS ->
      snd (event_context_set_with_cleanup al' (snd g) k v' cl') = []).
Proof.
  intros Hwf s Hok g. subst g s.
  pose proof (set_preserves_wf al context k v cl Hwf) as Hwf1.
  destruct (set_stores al context k v cl Hwf Hok) as (j & k0 & Hj & Hn).
  set (c1 := snd (fst (event_context_set_with_cleanup al context k v cl))) in *.
  rewrite (get_ref_index c1 k j _ Hwf1 Hj Hn).
  cbn [value ref_counted_value_retain ref_count data cleanup fst snd].
  change (1 =? SIZE_MAX) with false. cbv iota. cbn [snd].
  change (1 + 1) with 2.
  set (c2 := mkEventContext _ _ _).
  assert (Hwf2 : ctx_wf c2).
  { destruct Hwf1 as (Hc & Hcap & Hm). subst c2. unfold ctx_wf, count in *.
    cbn [entries capacity total_memory_bytes].
    rewrite length_set_entry_value. repeat split; lia. }
  assert (Hj2 : index_of (entries c2) k = Some j)
    by (subst c2; cbn [entries]; now rewrite index_of_set_entry_value).
  assert (Hn2 : nth_error (entries c2) j
                = Some (mkContextEntry k0 (mkRefCountedValue v cl 2)))
    by (subst c2; cbn [entries];
        now rewrite (nth_error_set_entry_value _ _ _ _ Hn)).
  split; [reflexivity|]. split.
  - rewrite (remove_index _ _ Hwf2), Hj2, Hn2.
    rewrite (remove_index _ _ Hwf1), Hj. cbn [fst snd].
    unfold ref_counted_value_release. cbn [value ref_count].
    change (2 =? 1) with false. cbv iota. cbn [snd].
    subst c2. cbn [entries capacity total_memory_bytes].
    do 2 f_equal. f_equal. clear. revert j.
    induction (entries c1) as [|e es IH]; intros [|j]; cbn; try reflexivity.
    now rewrite IH.
  - intros Hok'.
    pose proof (set_cases al' c2 k v' cl' Hwf2) as Hset. cbv zeta in Hset.
    destruct Hset as [(Hne & _) | (_ & _ & _ & [(j' & e & Hj' & Hn' & _ & Hcalls)
                                                 | (Hidx & _)])].
    + contradiction.
    + rewrite Hcalls. assert (j' = j) as -> by congruence.
      rewrite Hn2 in Hn'. injection Hn' as <-. reflexivity.
    + congruence.
Qed.

Lemma get_ref_defers_cleanup_witness :
  let s := event_context_set_with_cleanup all_ok event_context_create
             "ast" 8192 4096 in
  let g := event_context_get_ref (snd (fst s)) "ast" in
  fst g = (EC_SUCCESS, Some (mkRefCountedValue 8192 4096 2))
  /\ event_context_remove (snd g) "ast"
     = (EC_SUCCESS, snd (fst (event_context_remove (snd (fst s)) "ast")), [])
  /\ (fst (fst (event_context_set_with_cleanup all_ok (snd g) "ast" 12288 4100))
      = EC_SUCCESS ->
      snd (event_context_set_with_cleanup all_ok (snd g) "ast" 12288 4100) = []).
Proof.
  exact (get_ref_defers_cleanup all_ok all_ok event_context_create
           "ast" 8192 4096 12288 4100 create_wf eq_refl).
Defined.

(** X8: a key that is empty, or longer than
    [EVENTCHAINS_MAX_KEY_LENGTH] bytes, is refused with KEY_TOO_LONG
    before anything else is looked at, and no other failure of the set
    has this code. *)
Theorem set_key_validation (al : Allocator) (context : EventContext)
  (k : string) (v cl : ptr) :
  let r := event_context_set_with_cleanup al context k v cl in
  (~ key_well_formed k -> r = (EC_ERROR_KEY_TOO_LONG, context, []))
  /\ (key_well_formed k -> fst (fst r) <> EC_ERROR_KEY_TOO_LONG).
Proof.
  intros r. subst r. unfold event_context_set_with_cleanup.
  destruct ((safe_strnlen k (EVENTCHAINS_MAX_KEY_LENGTH + 1) =? 0)%nat
            || (EVENTCHAINS_MAX_KEY_LENGTH
                <? safe_strnlen k (EVENTCHAINS_MAX_KEY_LENGTH + 1))%nat) eqn:Hkey.
  - split; [reflexivity|]. intros Hk. apply key_check in Hk. congruence.
  - split; [intros Hk; elim Hk; now apply key_check|]. intros _.
    destruct (_ >? _); [discriminate|].
    destruct (ref_counted_value_create _ _ _); [|discriminate].
    destruct (_ >=? 0); [discriminate|].
    unfold ensure_capacity.
    destruct (_ <? _); [destruct (negb _); discriminate|].
    destruct (_ >=? _); [discriminate|].
    destruct (safe_multiply _ _); [|discriminate].
    destruct (negb (entries_realloc_ok al)); [discriminate|].
    destruct (negb _); discriminate.
Qed.

Lemma set_key_validation_witness :
  event_context_set_with_cleanup all_ok event_context_create "" 4096 NULL
  = (EC_ERROR_KEY_TOO_LONG, event_context_create, [])
  /\ fst (fst (event_context_set_with_cleanup all_ok event_context_create
                 "ast" 4096 NULL)) <> EC_ERROR_KEY_TOO_LONG.
Proof.
  split.
  - apply (proj1 (set_key_validation all_ok event_context_create "" 4096 NULL)).
    unfold key_well_formed. cbn. lia.
  - apply (proj2 (set_key_validation all_ok event_context_create "ast" 4096 NULL)).
    unfold key_well_formed, EVENTCHAINS_MAX_KEY_LENGTH. cbn. lia.
Defined.

(** X9: a set that fails leaves the entries and the memory counter as
    they were.  What happens to the caller's value depends on where the
    set fails: with KEY_TOO_LONG and MEMORY_LIMIT_EXCEEDED no cleanup
    callback is called, with CAPACITY_EXCEEDED the callback has been
    called on the value, and with OUT_OF_MEMORY it has been called when
    the failure was that of the array or of the copy of the key and not
    when it was that of the value wrapper. *)
Theorem failed_set_cleanup (al : Allocator) (context : EventContext)
  (k : string) (v cl : ptr) :
  ctx_wf context ->
  let r := event_context_set_with_cleanup al context k v cl in
  let called := if negb (cl =? NULL) && negb (v =? NULL) then [(cl, v)] else [] in
  fst (fst r) <> EC_SUCCESS ->
  entries (snd (fst r)) = entries context
  /\ event_context_memory_usage (snd (fst r)) = event_context_memory_usage context
  /\ match fst (fst r) with
     | EC_ERROR_KEY_TOO_LONG | EC_ERROR_MEMORY_LIMIT_EXCEEDED => snd r = []
     | EC_ERROR_CAPACITY_EXCEEDED =>
         snd r = called /\ count context = EVENTCHAINS_MAX_CONTEXT_ENTRIES
     | EC_ERROR_OUT_OF_MEMORY =>
         snd r =
         if negb (cl =? NULL) && negb (is_valid_function_pointer cl) then []
         else if value_malloc_ok al then called else []
     | _ => False
     end.
Proof.
  intros Hwf r called Hfail. subst r.
  pose proof (set_cases al context k v cl Hwf) as Hset. cbv zeta in Hset.
  destruct Hset as [(_ & He & Hm) | (Hok & _)]; [|contradiction].
  split; [exact He|]. split; [exact Hm|]. clear He Hm. revert Hfail.
  unfold event_context_set_with_cleanup.
  destruct ((safe_strnlen k (EVENTCHAINS_MAX_KEY_LENGTH + 1) =? 0)%nat
            || (EVENTCHAINS_MAX_KEY_LENGTH
                <? safe_strnlen k (EVENTCHAINS_MAX_KEY_LENGTH + 1))%nat) eqn:Hkey;
    [reflexivity|].
  destruct (_ >? _); [reflexivity|].
  unfold ref_counted_value_create.
  destruct (negb (cl =? NULL) && negb (is_valid_function_pointer cl));
    [reflexivity|].
  destruct (value_malloc_ok al); cbn [negb]; [|reflexivity].
  cbv iota.
  assert (Hrel : snd (ref_counted_value_release (mkRefCountedValue v cl 1))
                 = called) by reflexivity.
  rewrite (find_entry_index context k (wf_length _ Hwf)).
  destruct (index_of (entries context) k) as [j|].
  { replace (Z.of_nat j >=? 0) with true by (symmetry; apply Z.geb_le; lia).
    cbn [fst]. intros H. now elim H. }
  change (-1 >=? 0) with false. cbv iota.
  unfold ensure_capacity.
  destruct (count context <? capacity context) eqn:Hlt.
  { destruct (negb (key_strdup_ok al)); cbn [fst snd];
      [intros _; exact Hrel | intros H; now elim H]. }
  destruct (count context >=? EVENTCHAINS_MAX_CONTEXT_ENTRIES) eqn:Hfull.
  { cbn [fst snd]. intros _. split; [exact Hrel|].
    destruct Hwf as (Hc & [_ Hcap] & _).
    apply Z.geb_le in Hfull. lia. }
  destruct (safe_multiply _ _) eqn:Hmul.
  2:{ exfalso. revert Hmul.
      destruct Hwf as (Hc & [Hlo Hcap] & _).
      unfold INITIAL_CAPACITY, EVENTCHAINS_MAX_CONTEXT_ENTRIES, GROWTH_FACTOR,
        sizeof_ContextEntry in *.
      rewrite size_t_wrap_small by lia.
      set (nc := if capacity context * 2 >? 512 then 512
                 else capacity context * 2).
      assert (Hnc : 0 < nc <= 512).
      { subst nc. destruct (Z.gtb_spec (capacity context * 2) 512); lia. }
      unfold safe_multiply, SIZE_MAX.
      replace (nc =? 0) with false by (symmetry; apply Z.eqb_neq; lia).
      change (16 =? 0) with false. cbn [orb].
      change ((2 ^ 64 - 1) / 16) with 1152921504606846975.
      destruct (Z.gtb_spec nc 1152921504606846975); [lia | discriminate]. }
  destruct (negb (entries_realloc_ok al)); cbn [fst snd];
    [intros _; exact Hrel|].
  destruct (negb (key_strdup_ok al)); cbn [fst snd];
    [intros _; exact Hrel | intros H; now elim H].
Qed.

Lemma failed_set_cleanup_witness :
  let al := mkAllocator true true false in
  let r := event_context_set_with_cleanup al event_context_create "ast"
             8192 4096 in
  entries (snd (fst r)) = entries event_context_create
  /\ event_context_memory_usage (snd (fst r))
     = event_context_memory_usage event_context_create
  /\ snd r = [(4096, 8192)].
Proof.
  intros al r.
  assert (Hfail : fst (fst r) <> EC_SUCCESS) by (cbn; discriminate).
  exact (failed_set_cleanup al event_context_create "ast" 8192 4096
           create_wf Hfail).
Defined.


(** X10: every context built with the operations of the library keeps
    its bounds: the entry count is at most the capacity, the capacity at
    most [EVENTCHAINS_MAX_CONTEXT_ENTRIES], the memory counter at most
    [EVENTCHAINS_MAX_CONTEXT_MEMORY]; and its keys are pairwise
    different, free of NUL bytes and between 1 and
    [EVENTCHAINS_MAX_KEY_LENGTH] bytes long. *)
Theorem reachable_context_invariant (context : EventContext) :
  reachable context ->
  0 <= event_context_count context <= capacity context
  /\ capacity context <= EVENTCHAINS_MAX_CONTEXT_ENTRIES
  /\ 0 <= event_context_memory_usage context <= EVENTCHAINS_MAX_CONTEXT_MEMORY
  /\ NoDup (keys context)
  /\ Forall (fun k => strdup k = k
                      /\ (1 <= strlen k <= EVENTCHAINS_MAX_KEY_LENGTH)%nat)
            (keys context).
Proof.
  intros Hr. destruct (reachable_wf _ Hr) as (Hc & Hcap & Hm).
  destruct (reachable_keys_wf _ Hr) as [Hall Hnd].
  unfold event_context_count, event_context_memory_usage, count in *.
  repeat split; try assumption; lia.
Qed.

Lemma reachable_context_invariant_witness :
  let c := fill event_context_create 20 in
  0 <= event_context_count c <= capacity c
  /\ capacity c <= EVENTCHAINS_MAX_CONTEXT_ENTRIES
  /\ 0 <= event_context_memory_usage c <= EVENTCHAINS_MAX_CONTEXT_MEMORY
  /\ NoDup (keys c)
  /\ Forall (fun k => strdup k = k
                      /\ (1 <= strlen k <= EVENTCHAINS_MAX_KEY_LENGTH)%nat)
            (keys c).
Proof.
  intros c. apply (reachable_context_invariant c).
  apply fill_reachable, reach_create.
Defined.

(** X11: in a context built with the operations of the library, and for
    a key of at most [EVENTCHAINS_MAX_KEY_LENGTH] bytes, the two modes of
    [event_context_has] read inside the buffers and say true exactly when
    [event_context_get] succeeds; when they say false the get fails with
    NOT_FOUND and stores nothing. *)
Theorem has_iff_get (context : EventContext) (k : string) (constant_time : bool) :
  reachable context ->
  (strlen k <= EVENTCHAINS_MAX_KEY_LENGTH)%nat ->
  (event_context_has context k constant_time = Some true
   /\ fst (event_context_get context k) = EC_SUCCESS)
  \/ (event_context_has context k constant_time = Some false
      /\ event_context_get context k = (EC_ERROR_NOT_FOUND, None)).
Proof.
  intros Hr Hk. pose proof (reachable_wf _ Hr) as Hwf.
  destruct (reachable_keys_wf _ Hr) as [Hall _].
  assert (Hhas : event_context_has context k constant_time
                 = Some (match index_of (entries context) k with
                         | Some _ => true | None => false end)).
  { destruct constant_time; [|now apply has_plain].
    unfold event_context_has. rewrite has_constant_time_loop_spec.
    - cbn [orb]. now rewrite index_of_existsb.
    - unfold keys in Hall. rewrite Forall_map in Hall.
      eapply Forall_impl; [|exact Hall]. cbn. intros e [_ He]. lia.
    - exact Hk. }
  rewrite Hhas, (get_index _ _ Hwf).
  destruct (index_of (entries context) k); [left | right]; split; reflexivity.
Qed.

Lemma has_iff_get_witness :
  let c := fill event_context_create 3 in
  (event_context_has c "k7" true = Some true
   /\ fst (event_context_get c "k7") = EC_SUCCESS)
  \/ (event_context_has c "k7" true = Some false
      /\ event_context_get c "k7" = (EC_ERROR_NOT_FOUND, None)).
Proof.
  intros c. apply (has_iff_get c "k7" true).
  - apply fill_reachable, reach_create.
  - unfold EVENTCHAINS_MAX_KEY_LENGTH. cbn. lia.
Defined.

End ContextProps.

(* ------------------------------------------------------------------ *)
(** * Properties of the utility functions and of results *)

Module UtilityProps.
Import CStr EC ECProps.

(** X12: on [size_t] operands the three checked operations return the
    exact result when it is a [size_t], and fail otherwise: they never
    hand out a wrapped value. *)
Theorem safe_arithmetic_exact (a b : Z) :
  0 <= a <= SIZE_MAX -> 0 <= b <= SIZE_MAX ->
  safe_add a b = (if a + b <=? SIZE_MAX then Some (a + b) else None)
  /\ safe_multiply a b = (if a * b <=? SIZE_MAX then Some (a * b) else None)
  /\ safe_subtract a b = (if 0 <=? a - b then Some (a - b) else None).
Proof.
  intros Ha Hb. unfold safe_add, safe_multiply, safe_subtract.
  split; [|split].
  - destruct (Z.gtb_spec a (SIZE_MAX - b)), (Z.leb_spec (a + b) SIZE_MAX);
      try reflexivity; lia.
  - destruct (Z.eqb_spec a 0) as [-> | Ha0]; cbn [orb].
    { rewrite Z.mul_0_l. destruct (Z.leb_spec 0 SIZE_MAX); [reflexivity | lia]. }
    destruct (Z.eqb_spec b 0) as [-> | Hb0]; cbn [orb].
    { rewrite Z.mul_0_r. destruct (Z.leb_spec 0 SIZE_MAX); [reflexivity | lia]. }
    assert (Hbpos : 0 < b) by lia.
    destruct (Z.gtb_spec a (SIZE_MAX / b)) as [Hgt | Hle],
             (Z.leb_spec (a * b) SIZE_MAX) as [Hok | Hover];
      try reflexivity; exfalso.
    + assert (a <= SIZE_MAX / b); [|lia].
      apply Z.div_le_lower_bound; lia.
    + pose proof (Z.mul_div_le SIZE_MAX b Hbpos). nia.
  - destruct (Z.gtb_spec b a), (Z.leb_spec 0 (a - b)); try reflexivity; lia.
Qed.

Lemma safe_arithmetic_exact_witness :
  safe_add SIZE_MAX 1 = None
  /\ safe_multiply (2 ^ 32) (2 ^ 32) = None
  /\ safe_multiply (2 ^ 32) (2 ^ 31) = Some (2 ^ 63)
  /\ safe_subtract 3 5 = None.
Proof.
  assert (H1 : 0 <= 1 <= SIZE_MAX) by (unfold SIZE_MAX; lia).
  assert (Hm : 0 <= SIZE_MAX <= SIZE_MAX) by (unfold SIZE_MAX; lia).
  assert (H32 : 0 <= 2 ^ 32 <= SIZE_MAX) by (unfold SIZE_MAX; lia).
  assert (H31 : 0 <= 2 ^ 31 <= SIZE_MAX) by (unfold SIZE_MAX; lia).
  assert (H3 : 0 <= 3 <= SIZE_MAX) by (unfold SIZE_MAX; lia).
  assert (H5 : 0 <= 5 <= SIZE_MAX) by (unfold SIZE_MAX; lia).
  split; [exact (proj1 (safe_arithmetic_exact SIZE_MAX 1 Hm H1))|].
  split; [exact (proj1 (proj2 (safe_arithmetic_exact (2 ^ 32) (2 ^ 32) H32 H32)))|].
  split; [exact (proj1 (proj2 (safe_arithmetic_exact (2 ^ 32) (2 ^ 31) H32 H31)))|].
  exact (proj2 (proj2 (safe_arithmetic_exact 3 5 H3 H5))).
Defined.

Lemma strlen_copy_bytes (s : string) (n : nat) :
  strlen (copy_bytes s n) = Nat.min (strlen s) n.
Proof.
  revert s. induction n as [|n IH]; intros [|c s]; cbn [copy_bytes strlen];
    try reflexivity.
  - now rewrite Nat.min_0_r.
  - destruct (is_nul c) eqn:Hc; cbn [strlen]; [reflexivity|].
    rewrite Hc, IH. reflexivity.
Qed.

Lemma copy_bytes_strdup (s : string) (n : nat) :
  (strlen s <= n)%nat -> copy_bytes s n = strdup s.
Proof.
  revert s. induction n as [|n IH]; intros [|c s]; cbn [copy_bytes strlen strdup];
    try reflexivity.
  - destruct (is_nul c); [reflexivity | lia].
  - destruct (is_nul c); [reflexivity|]. intros H. rewrite IH by lia.
    reflexivity.
Qed.

Lemma length_copy_bytes (s : string) (n : nat) :
  String.length (copy_bytes s n) = strlen (copy_bytes s n).
Proof.
  revert s. induction n as [|n IH]; intros [|c s]; cbn [copy_bytes];
    try reflexivity.
  destruct (is_nul c) eqn:Hc; cbn [String.length strlen]; [reflexivity|].
  rewrite Hc, IH. reflexivity.
Qed.

(** X13: the message of a failure result always fits its buffer of
    [EVENTCHAINS_MAX_ERROR_LENGTH] bytes.  With full detail it is the
    message given, or the text of the error code when none is given, cut
    after 1023 bytes; with minimal detail it is the number of the error
    code and nothing of the message. *)
Theorem event_result_failure_message (msg : option string)
  (code : EventChainErrorCode) (level : ErrorDetailLevel) :
  let r := event_result_failure msg code level in
  success r = false
  /\ error_code r = code
  /\ (String.length (error_message r) < EVENTCHAINS_MAX_ERROR_LENGTH)%nat
  /\ match level, msg with
     | ERROR_DETAIL_MINIMAL, _ =>
         error_message r
         = append "Error code: " (string_of_Z (error_code_value code))
     | ERROR_DETAIL_FULL, Some m =>
         error_message r = copy_bytes m 1023
         /\ ((strlen m < EVENTCHAINS_MAX_ERROR_LENGTH)%nat ->
             error_message r = strdup m)
     | ERROR_DETAIL_FULL, None =>
         error_message r = event_chain_error_string code
     end.
Proof.
  intros r. subst r. unfold event_result_failure.
  cbn [success error_code error_message].
  split; [reflexivity|]. split; [reflexivity|].
  unfold EVENTCHAINS_MAX_ERROR_LENGTH, snprintf_buf, safe_strncpy.
  change (1024 - 1)%nat with 1023%nat.
  assert (Hlen : forall s, (String.length (copy_bytes s 1023) < 1024)%nat).
  { intros s. rewrite length_copy_bytes, strlen_copy_bytes. lia. }
  destruct level, msg as [m|]; (split; [apply Hlen|]).
  - split; [reflexivity|]. intros H. apply copy_bytes_strdup. lia.
  - destruct code; reflexivity.
  - destruct code; reflexivity.
  - destruct code; reflexivity.
Qed.

Lemma event_result_failure_message_witness :
  (strlen "no input" < EVENTCHAINS_MAX_ERROR_LENGTH)%nat
  /\ error_message
       (event_result_failure (Some "no input") EC_ERROR_NOT_FOUND
          ERROR_DETAIL_FULL)
     = strdup "no input".
Proof.
  assert (H : (strlen "no input" < EVENTCHAINS_MAX_ERROR_LENGTH)%nat)
    by (cbn; unfold EVENTCHAINS_MAX_ERROR_LENGTH; lia).
  split; [exact H|].
  exact (proj2 (proj2 (proj2 (proj2
           (event_result_failure_message (Some "no input") EC_ERROR_NOT_FOUND
              ERROR_DETAIL_FULL)))) H).
Defined.

Lemma all_bytes_sanitize (s : string) (n : nat) :
  all_bytes is_printable (sanitize_bytes s n) = true.
Proof.
  revert s. induction n as [|n IH]; intros [|c s]; cbn [sanitize_bytes all_bytes];
    try reflexivity.
  destruct (is_nul c); [reflexivity|]. cbn [all_bytes]. rewrite IH.
  destruct (is_printable c) eqn:Hc; [now rewrite Hc | reflexivity].
Qed.

Lemma length_sanitize_bytes (s : string) (n : nat) :
  String.length (sanitize_bytes s n) = Nat.min (strlen s) n.
Proof.
  revert s. induction n as [|n IH]; intros [|c s];
    cbn [sanitize_bytes strlen String.length]; try reflexivity.
  - now rewrite Nat.min_0_r.
  - destruct (is_nul c); cbn [String.length]; [reflexivity|].
    now rewrite IH.
Qed.

Lemma sanitize_bytes_printable (s : string) (n : nat) :
  all_bytes is_printable s = true -> sanitize_bytes s n = copy_bytes s n.
Proof.
  revert s. induction n as [|n IH]; intros [|c s];
    cbn [sanitize_bytes copy_bytes all_bytes]; try reflexivity.
  intros H. apply andb_prop in H. destruct H as [Hc Hs].
  rewrite Hc, (IH _ Hs). reflexivity.
Qed.

(** X14: what [sanitize_error_message] writes into a buffer of at least
    one byte fits the buffer and holds printable bytes only; it has the
    length of the source cut after [dest_size - 1] bytes, and a source
    that is printable is copied as it is.  With minimal detail, or
    without a source, the result is empty. *)
Theorem sanitize_error_message_printable (old : string) (src : option string)
  (dest_size : nat) (level : ErrorDetailLevel) :
  (0 < dest_size)%nat ->
  let out := sanitize_error_message old src dest_size level in
  (String.length out < dest_size)%nat
  /\ all_bytes is_printable out = true
  /\ match src, level with
     | Some s, ERROR_DETAIL_FULL =>
         String.length out = Nat.min (strlen s) (dest_size - 1)
         /\ (all_bytes is_printable s = true ->
             out = safe_strncpy old s dest_size)
     | _, _ => out = ""
     end.
Proof.
  intros Hsize out. subst out. destruct dest_size as [|n]; [lia|].
  cbn [sanitize_error_message safe_strncpy].
  replace (S n - 1)%nat with n by lia.
  destruct src as [s|], level; cbn [String.length all_bytes];
    try (repeat split; lia).
  rewrite length_sanitize_bytes, all_bytes_sanitize.
  repeat split; try lia. apply sanitize_bytes_printable.
Qed.

Lemma sanitize_error_message_printable_witness :
  let out := sanitize_error_message "" (Some (String "007" "ab")) 3
               ERROR_DETAIL_FULL in
  (String.length out < 3)%nat
  /\ all_bytes is_printable out = true
  /\ String.length out = Nat.min (strlen (String "007" "ab")) (3 - 1)
  /\ (all_bytes is_printable (String "007" "ab") = true ->
      out = safe_strncpy "" (String "007" "ab") 3).
Proof.
  exact (sanitize_error_message_printable "" (Some (String "007" "ab")) 3
           ERROR_DETAIL_FULL (Nat.lt_0_succ 2)).
Defined.

Lemma copy_bytes_head_tail (s : string) (n : nat) :
  copy_bytes s (S n)
  = if is_nul (head s) then "" else String (head s) (copy_bytes (tail s) n).
Proof. destruct s as [|c s]; reflexivity. Qed.

Lemma strcmp_eq_one_byte (x y : ascii) (a b : string) :
  strcmp_eq (if is_nul x then "" else String x a)
            (if is_nul y then "" else String y b)
  = if is_nul x then is_nul y
    else if Ascii.eqb x y then strcmp_eq a b else false.
Proof.
  destruct (is_nul x) eqn:Hx, (is_nul y) eqn:Hy; cbn [strcmp_eq];
    rewrite ?Hx, ?Hy; try reflexivity.
  destruct (Ascii.eqb x y) eqn:E; [|reflexivity].
  apply Ascii.eqb_eq in E. congruence.
Qed.

Lemma constant_time_result_window (n : nat) (a b : string) (r : N) :
  constant_time_result a b n r
  = Some ((r =? 0)%N
          && strcmp_eq (copy_bytes a (S n)) (copy_bytes b (S n))).
Proof.
  revert a b r. induction n as [|n IH]; intros a b r.
  - rewrite constant_time_result_0, !copy_bytes_head_tail.
    rewrite strcmp_eq_one_byte.
    replace (copy_bytes (tail a) 0) with "" by (now destruct (tail a)).
    replace (copy_bytes (tail b) 0) with "" by (now destruct (tail b)).
    cbn [strcmp_eq]. do 2 f_equal.
    destruct (is_nul (head a)) eqn:Ha.
    + apply is_nul_true in Ha. rewrite Ha. unfold is_nul.
      now rewrite Ascii.eqb_sym.
    + destruct (Ascii.eqb (head a) (head b)); reflexivity.
  - rewrite constant_time_result_S. cbv zeta.
    rewrite accumulate_zero, (copy_bytes_head_tail a), (copy_bytes_head_tail b),
      strcmp_eq_one_byte.
    destruct (is_nul (head a)) eqn:Ha; cbn [orb].
    { apply is_nul_true in Ha. rewrite Ha. unfold is_nul.
      rewrite (Ascii.eqb_sym NUL).
      now destruct (r =? 0)%N, (Ascii.eqb (head b) NUL). }
    destruct (is_nul (head b)) eqn:Hb.
    { destruct (Ascii.eqb (head a) (head b)) eqn:E;
        [|now rewrite !andb_false_r].
      apply Ascii.eqb_eq in E. congruence. }
    rewrite IH, accumulate_zero.
    destruct (Ascii.eqb (head a) (head b));
      [now rewrite andb_true_r | now rewrite !andb_false_r].
Qed.

(** X15: [constant_time_strcmp] never reads behind the terminator of one
    of its arguments, whatever their lengths, and it compares their
    first [max_len + 1] bytes: two strings that agree on those compare
    equal, also when they differ further on. *)
Theorem constant_time_strcmp_window (a b : string) (max_len : nat) :
  constant_time_strcmp a b max_len
  = Some (strcmp_eq (copy_bytes a (S max_len)) (copy_bytes b (S max_len))).
Proof.
  change (constant_time_strcmp a b max_len)
    with (constant_time_result a b max_len 0).
  now rewrite constant_time_result_window.
Qed.

(** X16: a reference taken with [ref_counted_value_retain] and given back
    with [ref_counted_value_release] leaves the value as it was and calls
    no cleanup; the release of the last reference frees the wrapper and
    calls the cleanup once, when the callback and the payload are not
    NULL; and a count of [SIZE_MAX] is not incremented. *)
Theorem retain_then_release (v : RefCountedValue) :
  1 <= ref_count v <= SIZE_MAX ->
  (ref_count v < SIZE_MAX ->
   fst (ref_counted_value_retain v) = EC_SUCCESS
   /\ ref_count (snd (ref_counted_value_retain v)) = ref_count v + 1
   /\ ref_counted_value_release (snd (ref_counted_value_retain v))
      = (Some v, []))
  /\ (ref_count v = SIZE_MAX ->
      ref_counted_value_retain v = (EC_ERROR_OVERFLOW, v))
  /\ (ref_count v = 1 ->
      ref_counted_value_release v
      = (None,
         if negb (cleanup v =? NULL) && negb (data v =? NULL)
         then [(cleanup v, data v)] else []))
  /\ (1 < ref_count v ->
      snd (ref_counted_value_release v) = []
      /\ option_map ref_count (fst (ref_counted_value_release v))
         = Some (ref_count v - 1)).
Proof.
  intros Hc. unfold ref_counted_value_retain, ref_counted_value_release.
  unfold SIZE_MAX in *. split; [|split; [|split]].
  - intros Hlt.
    replace (ref_count v =? 2 ^ 64 - 1) with false
      by (symmetry; apply Z.eqb_neq; lia).
    cbn [fst snd ref_count data cleanup].
    replace (ref_count v + 1 =? 1) with false
      by (symmetry; apply Z.eqb_neq; lia).
    replace (ref_count v + 1 - 1) with (ref_count v) by lia.
    rewrite size_t_wrap_small by lia. destruct v; repeat split.
  - intros ->. reflexivity.
  - intros ->. reflexivity.
  - intros Hgt.
    replace (ref_count v =? 1) with false by (symmetry; apply Z.eqb_neq; lia).
    cbn [fst snd option_map ref_count].
    rewrite size_t_wrap_small by lia. split; reflexivity.
Qed.

Lemma retain_then_release_witness :
  let v := mkRefCountedValue 8192 4096 1 in
  fst (ref_counted_value_retain v) = EC_SUCCESS
  /\ ref_count (snd (ref_counted_value_retain v)) = ref_count v + 1
  /\ ref_counted_value_release (snd (ref_counted_value_retain v)) = (Some v, []).
Proof.
  intros v. apply (retain_then_release v).
  - unfold SIZE_MAX. cbn. lia.
  - unfold SIZE_MAX. cbn. lia.
Defined.

End UtilityProps.

(* ------------------------------------------------------------------ *)
(** * Further properties of chains *)

Module ChainProps.
Import CStr EC ECProps.

Section Chains.
Context {W : Type}.

Lemma grown_capacity (cap limit : Z) :
  0 <= cap <= limit -> 8 <= limit <= 1024 ->
  let new_capacity :=
    if cap =? 0 then INITIAL_CAPACITY else size_t_wrap (cap * GROWTH_FACTOR) in
  let new_capacity := if new_capacity >? limit then limit else new_capacity in
  (cap < limit -> cap < new_capacity <= limit)
  /\ exists n, safe_multiply new_capacity sizeof_pointer = Some n.
Proof.
  intros Hcap Hlimit. cbv zeta.
  unfold INITIAL_CAPACITY, GROWTH_FACTOR, sizeof_pointer, safe_multiply, SIZE_MAX.
  rewrite size_t_wrap_small by lia.
  set (nc := if (if cap =? 0 then 8 else cap * 2) >? limit then limit
             else if cap =? 0 then 8 else cap * 2).
  assert (Hnc : 0 <= nc <= limit /\ (cap < limit -> cap < nc)).
  { subst nc. destruct (Z.eqb_spec cap 0);
      destruct (Z.gtb_spec (if false then 8 else cap * 2) limit);
      destruct (Z.gtb_spec 8 limit); cbn in *; lia. }
  split; [lia|].
  change (8 =? 0) with false. rewrite orb_false_r.
  destruct (nc =? 0); [eauto|].
  change ((2 ^ 64 - 1) / 8) with 2305843009213693951.
  destruct (Z.gtb_spec nc 2305843009213693951); [lia | eauto].
Qed.

Ltac chain_arith :=
  unfold chain_bounds, event_count, middleware_count in *;
  cbn [events event_capacity middlewares middleware_capacity with_events
       with_middlewares is_executing fst snd] in *;
  rewrite ?length_app in *; cbn [List.length] in *;
  try assumption; try reflexivity; try discriminate; try lia.

Lemma add_event_step (ok : bool) (chain : EventChain W) (ev : ChainableEvent W) :
  chain_bounds chain ->
  is_executing chain = 0 ->
  let r := event_chain_add_event ok chain ev in
  chain_bounds (snd r)
  /\ is_executing (snd r) = 0
  /\ middlewares (snd r) = middlewares chain
  /\ (event_count chain = EVENTCHAINS_MAX_EVENTS ->
      r = (EC_ERROR_CAPACITY_EXCEEDED, chain))
  /\ (event_count chain < EVENTCHAINS_MAX_EVENTS -> ok = true ->
      fst r = EC_SUCCESS /\ events (snd r) = events chain ++ [ev]).
Proof.
  intros Hb Hex r. subst r. unfold event_chain_add_event.
  rewrite Hex. change (negb (0 =? 0)) with false. cbv iota.
  unfold ensure_event_capacity.
  destruct (Z.ltb_spec (event_count chain) (event_capacity chain)) as [Hlt | Hge].
  { repeat split; intros; chain_arith. }
  destruct (Z.geb_spec (event_count chain) EVENTCHAINS_MAX_EVENTS) as [Hfull | Hroom].
  { repeat split; intros; chain_arith. }
  destruct (grown_capacity (event_capacity chain) EVENTCHAINS_MAX_EVENTS)
    as [Hnew [n Hn]];
    [chain_arith | unfold EVENTCHAINS_MAX_EVENTS; lia |].
  cbv zeta in Hnew, Hn. rewrite Hn.
  assert (Hcap : event_capacity chain < EVENTCHAINS_MAX_EVENTS) by chain_arith.
  specialize (Hnew Hcap).
  destruct ok; cbn [negb]; repeat split; intros; chain_arith.
Qed.

Lemma use_middleware_step (ok : bool) (chain : EventChain W)
  (m : EventMiddleware W) :
  chain_bounds chain ->
  is_executing chain = 0 ->
  let r := event_chain_use_middleware ok chain m in
  chain_bounds (snd r)
  /\ is_executing (snd r) = 0
  /\ events (snd r) = events chain
  /\ (middleware_count chain = EVENTCHAINS_MAX_MIDDLEWARE ->
      r = (EC_ERROR_CAPACITY_EXCEEDED, chain))
  /\ (middleware_count chain < EVENTCHAINS_MAX_MIDDLEWARE -> ok = true ->
      fst r = EC_SUCCESS /\ middlewares (snd r) = middlewares chain ++ [m]).
Proof.
  intros Hb Hex r. subst r. unfold event_chain_use_middleware.
  rewrite Hex. change (negb (0 =? 0)) with false. cbv iota.
  unfold ensure_middleware_capacity.
  destruct (Z.ltb_spec (middleware_count chain) (middleware_capacity chain))
    as [Hlt | Hge].
  { repeat split; intros; chain_arith. }
  destruct (Z.geb_spec (middleware_count chain) EVENTCHAINS_MAX_MIDDLEWARE)
    as [Hfull | Hroom].
  { repeat split; intros; chain_arith. }
  destruct (grown_capacity (middleware_capacity chain) EVENTCHAINS_MAX_MIDDLEWARE)
    as [Hnew [n Hn]];
    [chain_arith | unfold EVENTCHAINS_MAX_MIDDLEWARE; lia |].
  cbv zeta in Hnew, Hn. rewrite Hn.
  assert (Hcap : middleware_capacity chain < EVENTCHAINS_MAX_MIDDLEWARE)
    by chain_arith.
  specialize (Hnew Hcap).
  destruct ok; cbn [negb]; repeat split; intros; chain_arith.
Qed.

Lemma firstn_snoc {A : Type} (n : nat) (l : list A) (a : A) :
  firstn n (l ++ [a])
  = if (List.length l <? n)%nat then firstn n l ++ [a] else firstn n l.
Proof.
  revert n. induction l as [|x l IH]; intros n.
  - destruct n; [reflexivity|]. cbn [app firstn List.length].
    destruct n; reflexivity.
  - destruct n as [|n]; [reflexivity|].
    cbn [app firstn List.length].
    change (S (List.length l) <? S n)%nat with (List.length l <? n)%nat.
    rewrite IH. now destruct (List.length l <? n)%nat.
Qed.

Lemma firstn_short {A : Type} (n : nat) (l : list A) :
  (n <= List.length l)%nat -> List.length (firstn n l) = n.
Proof. intros H. rewrite length_firstn. lia. Qed.

(** X17: a chain accepts events and middlewares in the order in which
    they are added, up to [EVENTCHAINS_MAX_EVENTS] events and
    [EVENTCHAINS_MAX_MIDDLEWARE] middlewares, and refuses every further
    one: after any sequence of additions to a new chain the chain holds
    the first 1024 events and the first 16 middlewares offered. *)
Theorem chain_accepts_in_order (mode : FaultToleranceMode)
  (evs : list (ChainableEvent W)) (mws : list (EventMiddleware W)) :
  let c1 :=
    List.fold_left (fun c e => snd (event_chain_add_event true c e)) evs
      (event_chain_create mode) in
  let c2 :=
    List.fold_left (fun c m => snd (event_chain_use_middleware true c m)) mws
      c1 in
  events c2 = List.firstn 1024 evs
  /\ middlewares c2 = List.firstn 16 mws
  /\ chain_bounds c2
  /\ (forall e, (1024 <= List.length evs)%nat ->
        event_chain_add_event true c2 e = (EC_ERROR_CAPACITY_EXCEEDED, c2))
  /\ (forall m, (16 <= List.length mws)%nat ->
        event_chain_use_middleware true c2 m = (EC_ERROR_CAPACITY_EXCEEDED, c2)).
Proof.
  intros c1 c2.
  assert (H1 : forall (l pre : list (ChainableEvent W)) (c : EventChain W),
             chain_bounds c -> is_executing c = 0 -> middlewares c = [] ->
             events c = List.firstn 1024 pre ->
             let c' := List.fold_left
                         (fun c e => snd (event_chain_add_event true c e)) l c in
             chain_bounds c' /\ is_executing c' = 0 /\ middlewares c' = []
             /\ events c' = List.firstn 1024 (pre ++ l)).
  { induction l as [|e l IH]; intros pre c Hb Hex Hmw Hev; cbn [List.fold_left].
    - rewrite app_nil_r. auto.
    - destruct (add_event_step true c e Hb Hex) as (Hb' & Hex' & Hmw' & Hfull & Hadd).
      replace (pre ++ e :: l) with ((pre ++ [e]) ++ l)
        by (rewrite <- app_assoc; reflexivity).
      apply IH; try assumption; [congruence|].
      rewrite firstn_snoc.
      destruct (Nat.ltb_spec (List.length pre) 1024) as [Hlt | Hge].
      + destruct Hadd as [_ Hadd]; [|reflexivity|].
        * unfold event_count, EVENTCHAINS_MAX_EVENTS. rewrite Hev.
          rewrite length_firstn. lia.
        * now rewrite Hadd, Hev.
      + rewrite Hfull; [exact Hev|].
        unfold event_count, EVENTCHAINS_MAX_EVENTS. rewrite Hev.
        rewrite firstn_short by lia. reflexivity. }
  assert (H2 : forall (l pre : list (EventMiddleware W)) (c : EventChain W),
             chain_bounds c -> is_executing c = 0 ->
             middlewares c = List.firstn 16 pre ->
             let c' := List.fold_left
                         (fun c m => snd (event_chain_use_middleware true c m)) l c in
             chain_bounds c' /\ is_executing c' = 0 /\ events c' = events c
             /\ middlewares c' = List.firstn 16 (pre ++ l)).
  { induction l as [|m l IH]; intros pre c Hb Hex Hmw; cbn [List.fold_left].
    - rewrite app_nil_r. auto.
    - destruct (use_middleware_step true c m Hb Hex)
        as (Hb' & Hex' & Hev' & Hfull & Hadd).
      replace (pre ++ m :: l) with ((pre ++ [m]) ++ l)
        by (rewrite <- app_assoc; reflexivity).
      rewrite <- Hev'. apply IH; try assumption.
      rewrite firstn_snoc.
      destruct (Nat.ltb_spec (List.length pre) 16) as [Hlt | Hge].
      + destruct Hadd as [_ Hadd]; [|reflexivity|].
        * unfold middleware_count, EVENTCHAINS_MAX_MIDDLEWARE. rewrite Hmw.
          rewrite length_firstn. lia.
        * now rewrite Hadd, Hmw.
      + rewrite Hfull; [exact Hmw|].
        unfold middleware_count, EVENTCHAINS_MAX_MIDDLEWARE. rewrite Hmw.
        rewrite firstn_short by lia. reflexivity. }
  destruct (H1 evs [] (event_chain_create mode)) as (Hb1 & Hex1 & Hmw1 & Hev1);
    try reflexivity.
  { unfold chain_bounds, event_count, middleware_count. cbn.
    unfold EVENTCHAINS_MAX_EVENTS, EVENTCHAINS_MAX_MIDDLEWARE. lia. }
  fold c1 in Hb1, Hex1, Hmw1, Hev1. cbn [app] in Hev1.
  destruct (H2 mws [] c1) as (Hb2 & Hex2 & Hev2 & Hmw2); try assumption.
  fold c2 in Hb2, Hex2, Hev2, Hmw2. cbn [app] in Hmw2.
  split; [congruence|]. split; [exact Hmw2|]. split; [exact Hb2|]. split.
  - intros e Hlen.
    apply (proj1 (proj2 (proj2 (proj2 (add_event_step true c2 e Hb2 Hex2))))).
    unfold event_count, EVENTCHAINS_MAX_EVENTS. rewrite Hev2, Hev1.
    rewrite firstn_short by lia. reflexivity.
  - intros m Hlen.
    apply (proj1 (proj2 (proj2 (proj2 (use_middleware_step true c2 m Hb2 Hex2))))).
    unfold middleware_count, EVENTCHAINS_MAX_MIDDLEWARE. rewrite Hmw2.
    rewrite firstn_short by lia. reflexivity.
Qed.

Section Plain.
Variable realloc_ok : Z -> bool.
Variable uninit : EventResult.
Hypothesis realloc_succeeds : forall n, realloc_ok n = true.

Lemma execute_direct (chain : EventChain W) (ev : ChainableEvent W) (w : W) :
  Forall transparent (middlewares chain) ->
  execute_event_with_middleware chain ev uninit w
  = execute_event_direct uninit ev (context chain) w.
Proof.
  intros H. unfold execute_event_with_middleware.
  destruct (middleware_count chain =? 0); [reflexivity|].
  induction H as [|m mws Hm _ IH]; cbn [execute_next_middleware];
    [reflexivity|].
  now rewrite Hm.
Qed.

Lemma recorded_snoc (st : @ExecState W) (done : list FailureInfo) (f : FailureInfo)
  (chain : EventChain W) (w : W) (b : bool) :
  recorded st done ->
  Z.of_nat (List.length done) < 2 ^ 32 ->
  let result := es_result st in
  let grow := cr_failure_count result >=? es_failure_capacity st in
  let capacity' :=
    if grow
    then if es_failure_capacity st =? 0 then 4
         else size_t_wrap (es_failure_capacity st * 2)
    else es_failure_capacity st in
  let failures :=
    if grow
    then Some (match cr_failures result with Some l => l | None => [] end)
    else cr_failures result in
  failures = Some done
  /\ recorded
       (mkExecState chain w
          (mkChainResult b (Some (done ++ [f]))
             (size_t_wrap (cr_failure_count result + 1)))
          capacity')
       (done ++ [f]).
Proof.
  intros (Hf & Hc & Hcap) Hlen. cbv zeta. rewrite Hc.
  assert (Hsnoc : Z.of_nat (List.length (done ++ [f]))
                  = Z.of_nat (List.length done) + 1)
    by (rewrite length_app; cbn [List.length]; lia).
  assert (Hne : forall T (x y : T),
             match done ++ [f] with [] => x | _ => y end = y)
    by (intros; destruct done; reflexivity).
  unfold recorded. cbn [es_result es_failure_capacity cr_failures cr_failure_count].
  rewrite !Hne, Hsnoc, size_t_wrap_small by lia.
  destruct done as [|d done].
  - rewrite Hcap, Hf. cbn. repeat split; lia.
  - rewrite Hf.
    assert (Hpos : 1 <= Z.of_nat (List.length (d :: done)))
      by (cbn [List.length]; lia).
    set (n := Z.of_nat (List.length (d :: done))) in *.
    destruct (Z.geb_spec n (es_failure_capacity st)) as [Hge | Hlt].
    + replace (es_failure_capacity st =? 0) with false
        by (symmetry; apply Z.eqb_neq; lia).
      rewrite size_t_wrap_small by lia. repeat split; lia.
    + repeat split; lia.
Qed.

(** The loop of [event_chain_execute] on a chain without middleware and
    without failure handler. *)
Lemma execute_loop_plain (evs : list (ChainableEvent W)) :
  forall (st : @ExecState W) (done : list FailureInfo),
    Forall transparent (middlewares (es_chain st)) ->
    (fault_tolerance (es_chain st) = FAULT_TOLERANCE_CUSTOM ->
     failure_handler (es_chain st) = None) ->
    cr_success (es_result st) = true ->
    recorded st done ->
    Z.of_nat (List.length done + List.length evs) < 2 ^ 32 ->
    let stop := stops_on_failure (fault_tolerance (es_chain st)) in
    let '(runs, ctx', w') :=
      run_events stop evs uninit (context (es_chain st)) (es_world st) in
    let st' := execute_loop realloc_ok uninit st evs in
    es_chain st' = with_context (es_chain st) ctx'
    /\ es_world st' = w'
    /\ cr_success (es_result st')
       = (negb stop || match failed runs with [] => true | _ => false end)
    /\ recorded st' (done ++ List.map failure_info (failed runs)).
Proof.
  induction evs as [|ev evs IH]; intros st done Hmw Hh Hs Hrec Hlen;
    cbn [run_events execute_loop].
  - cbn [failed List.filter List.map]. rewrite app_nil_r, Hs, orb_true_r.
    split; [now destruct st as [[] ? ? ?]|].
    split; [reflexivity|]. split; [reflexivity | exact Hrec].
  - unfold execute_one. rewrite (execute_direct _ _ _ Hmw).
    destruct (execute_event_direct uninit ev (context (es_chain st)) (es_world st))
      as [[er ctx1] w1].
    destruct (success er) eqn:Her; cbn [orb].
    + specialize (IH (mkExecState (with_context (es_chain st) ctx1) w1
                        (es_result st) (es_failure_capacity st)) done).
      cbn [es_chain es_world es_result es_failure_capacity with_context
           middlewares fault_tolerance failure_handler context] in IH.
      specialize (IH Hmw Hh Hs Hrec ltac:(cbn [List.length] in Hlen; lia)).
      destruct (run_events _ evs uninit ctx1 w1) as [[runs ctx2] w2].
      cbn [failed List.filter snd]. rewrite Her. cbn [negb].
      destruct IH as (Hc & Hw & Hsucc & Hr).
      split; [etransitivity; [exact Hc|]; now destruct (es_chain st)|].
      split; [exact Hw|]. split; [exact Hsucc | exact Hr].
    + assert (Hdecide :
                decide_continue (with_context (es_chain st) ctx1) ev er w1
                = (negb (stops_on_failure (fault_tolerance (es_chain st))), er,
                   with_context (es_chain st) ctx1, w1)).
      { unfold decide_continue.
        cbn [with_context fault_tolerance failure_handler].
        destruct (fault_tolerance (es_chain st)) eqn:Hm; try reflexivity.
        now rewrite (Hh eq_refl). }
      rewrite Hdecide, realloc_succeeds.
      pose proof (recorded_snoc st done (failure_info (ev, er))
                    (with_context (es_chain st) ctx1) w1) as Hstep.
      cbv zeta in Hstep.
      destruct (cr_failure_count (es_result st) >=? es_failure_capacity st) eqn:Hg.
      * destruct (Hstep (cr_success (es_result st)) Hrec
                    ltac:(rewrite Nat2Z.inj_add in Hlen; lia)) as [Hfl Hr1].
        injection Hfl as Hfl. rewrite Hfl.
        destruct (stops_on_failure (fault_tolerance (es_chain st))) eqn:Hstop;
          cbn [negb].
        -- cbn [es_chain es_world es_result cr_success failed List.filter snd
                List.map cr_failures cr_failure_count].
           rewrite Her. cbn [negb List.map].
           split; [reflexivity|]. split; [reflexivity|].
           split; [reflexivity|].
           destruct (Hstep false Hrec
                       ltac:(rewrite Nat2Z.inj_add in Hlen; lia)) as [_ Hr2].
           exact Hr2.
        -- match type of Hr1 with
           | recorded ?st1 ?d => pose proof (IH st1 d) as IH'
           end.
           cbn [es_chain es_world es_result with_context middlewares
                fault_tolerance failure_handler context cr_success] in IH'.
           rewrite Hstop in IH'.
           specialize (IH' Hmw Hh Hs Hr1
                         ltac:(rewrite length_app; cbn [List.length] in *; lia)).
           clear IH. rename IH' into IH.
           destruct (run_events false evs uninit ctx1 w1) as [[runs ctx2] w2].
           cbn [failed List.filter snd]. rewrite Her. cbn [negb List.map].
           destruct IH as (Hc & Hw & Hsucc & Hr).
           rewrite <- app_assoc in Hr. cbn [app] in Hr.
           split; [etransitivity; [exact Hc|]; now destruct (es_chain st)|].
           split; [exact Hw|]. split; [exact Hsucc | exact Hr].
      * destruct (Hstep (cr_success (es_result st)) Hrec
                    ltac:(rewrite Nat2Z.inj_add in Hlen; lia)) as [Hfl Hr1].
        rewrite Hfl.
        destruct (stops_on_failure (fault_tolerance (es_chain st))) eqn:Hstop;
          cbn [negb].
        -- cbn [es_chain es_world es_result cr_success failed List.filter snd
                List.map cr_failures cr_failure_count].
           rewrite Her. cbn [negb List.map].
           split; [reflexivity|]. split; [reflexivity|].
           split; [reflexivity|].
           destruct (Hstep false Hrec
                       ltac:(rewrite Nat2Z.inj_add in Hlen; lia)) as [_ Hr2].
           exact Hr2.
        -- match type of Hr1 with
           | recorded ?st1 ?d => pose proof (IH st1 d) as IH'
           end.
           cbn [es_chain es_world es_result with_context middlewares
                fault_tolerance failure_handler context cr_success] in IH'.
           rewrite Hstop in IH'.
           specialize (IH' Hmw Hh Hs Hr1
                         ltac:(rewrite length_app; cbn [List.length] in *; lia)).
           clear IH. rename IH' into IH.
           destruct (run_events false evs uninit ctx1 w1) as [[runs ctx2] w2].
           cbn [failed List.filter snd]. rewrite Her. cbn [negb List.map].
           destruct IH as (Hc & Hw & Hsucc & Hr).
           rewrite <- app_assoc in Hr. cbn [app] in Hr.
           split; [etransitivity; [exact Hc|]; now destruct (es_chain st)|].
           split; [exact Hw|]. split; [exact Hsucc | exact Hr].
Qed.

Lemma execute_plain (chain : EventChain W) (w : W) :
  is_executing chain = 0 ->
  Forall transparent (middlewares chain) ->
  (fault_tolerance chain = FAULT_TOLERANCE_CUSTOM ->
   failure_handler chain = None) ->
  event_count chain <= EVENTCHAINS_MAX_EVENTS ->
  let stop := stops_on_failure (fault_tolerance chain) in
  let run := run_events stop (events chain) uninit (context chain) w in
  event_chain_execute realloc_ok uninit chain w
  = (mkChainResult
       (negb stop || match failed (fst (fst run)) with [] => true | _ => false end)
       (match failed (fst (fst run)) with
        | [] => None
        | l => Some (List.map failure_info l)
        end)
       (Z.of_nat (List.length (failed (fst (fst run))))),
     with_context chain (snd (fst run)), snd run).
Proof.
  intros Hex Hmw Hh Hcount stop run. subst run stop.
  unfold event_chain_execute. rewrite Hex.
  change (negb (0 =? 0)) with false. cbv iota.
  pose proof (execute_loop_plain (events chain)
                (mkExecState (with_is_executing chain 1) w
                   (mkChainResult true None 0) 0) []) as Hloop.
  cbn [es_chain es_world es_result with_is_executing middlewares
       fault_tolerance failure_handler context cr_success events] in Hloop.
  specialize (Hloop Hmw Hh eq_refl).
  cbn [events with_is_executing].
  destruct (run_events (stops_on_failure (fault_tolerance chain)) (events chain)
              uninit (context chain) w) as [[runs ctx'] w'].
  cbv zeta in Hloop. cbn [fst snd app] in *.
  destruct Hloop as (Hc & Hw & Hs & Hf & Hn & _).
  { repeat split. }
  { unfold event_count, EVENTCHAINS_MAX_EVENTS in Hcount.
    cbn [List.length]. lia. }
  set (st := execute_loop realloc_ok uninit _ (events chain)) in *.
  rewrite Hc, Hw.
  assert (Hchain : with_is_executing
                     (with_context (with_is_executing chain 1) ctx') 0
                   = with_context chain ctx').
  { destruct chain. cbn in *. now subst. }
  rewrite Hchain.
  cbn [fault_tolerance with_context].
  destruct (es_result st) as [s f c]. cbn [cr_success cr_failures cr_failure_count] in *.
  subst s c. rewrite length_map in *.
  assert (Hf' : f = match failed runs with
                    | [] => None
                    | _ => Some (List.map failure_info (failed runs))
                    end)
    by (rewrite Hf; now destruct (failed runs)).
  rewrite Hf'.
  destruct (failed runs) as [|p l] eqn:Hfailed.
  - cbn [List.length Z.of_nat]. change (0 >? 0) with false. cbn [andb].
    reflexivity.
  - destruct (fault_tolerance chain); cbn [stops_on_failure negb orb andb
                                            fault_tolerance_eqb];
      rewrite ?andb_false_r, ?andb_true_r;
      reflexivity.
Qed.

(** X18: what [event_chain_execute] does on a chain without failure
    handler whose middlewares, if it has any, only pass the call on, when
    the failure array can be grown.
    The events are called in order, each one on the context that the
    one before has left; in strict and in custom mode the first event
    that fails is the last one called, in lenient and best-effort mode
    all are called.  The result holds one record for each event that
    failed, in order, with the name of the event and the message and
    code of its result; [success] is false exactly when the execution
    stopped at a failure; and the flag [is_executing] is 0 again. *)
Theorem execute_runs_events_in_order (chain : EventChain W) (w : W) :
  is_executing chain = 0 ->
  Forall transparent (middlewares chain) ->
  (fault_tolerance chain = FAULT_TOLERANCE_CUSTOM ->
   failure_handler chain = None) ->
  event_count chain <= EVENTCHAINS_MAX_EVENTS ->
  let stop := stops_on_failure (fault_tolerance chain) in
  let run := run_events stop (events chain) uninit (context chain) w in
  event_chain_execute realloc_ok uninit chain w
  = (mkChainResult
       (negb stop || match failed (fst (fst run)) with [] => true | _ => false end)
       (match failed (fst (fst run)) with
        | [] => None
        | l => Some (List.map failure_info l)
        end)
       (Z.of_nat (List.length (failed (fst (fst run))))),
     with_context chain (snd (fst run)), snd run).
Proof. apply execute_plain. Qed.

End Plain.


(** X19: when the failure array is full and cannot be grown, the loop of
    [event_chain_execute] stops at the failed event, and still writes
    its record at the index [failure_count]: the result then holds one
    record more than the array was allocated for. *)
Theorem failure_written_past_capacity (realloc_ok : Z -> bool)
  (uninit : EventResult) (st : @ExecState W) (ev : ChainableEvent W)
  (records : list FailureInfo) :
  cr_failures (es_result st) = Some records ->
  cr_failure_count (es_result st) = Z.of_nat (List.length records) ->
  es_failure_capacity st = Z.of_nat (List.length records) ->
  0 < Z.of_nat (List.length records) < 2 ^ 32 ->
  realloc_ok (es_failure_capacity st * 2) = false ->
  success (fst (fst (execute_event_with_middleware (es_chain st) ev uninit
                       (es_world st)))) = false ->
  let r := execute_one realloc_ok uninit st ev in
  snd r = true
  /\ cr_success (es_result (fst r)) = false
  /\ (exists record, cr_failures (es_result (fst r)) = Some (records ++ [record]))
  /\ cr_failure_count (es_result (fst r)) = es_failure_capacity st + 1.
Proof.
  intros Hf Hc Hcap Hlen Hrealloc Hfail r. subst r. unfold execute_one.
  destruct (execute_event_with_middleware (es_chain st) ev uninit (es_world st))
    as [[er ctx] w]. cbn [fst] in Hfail. rewrite Hfail.
  destruct (decide_continue (with_context (es_chain st) ctx) ev er w)
    as [[[b er'] chain'] w'].
  rewrite Hc, Hcap, Z.geb_leb, Z.leb_refl.
  replace (Z.of_nat (List.length records) =? 0) with false
    by (symmetry; apply Z.eqb_neq; lia).
  rewrite size_t_wrap_small by lia.
  rewrite Hcap in Hrealloc. rewrite Hrealloc, Hf.
  cbn [negb fst snd es_result cr_success cr_failures cr_failure_count].
  rewrite size_t_wrap_small by lia.
  repeat split. eexists. reflexivity.
Qed.

End Chains.

Lemma chain_accepts_in_order_witness :
  let mws := List.repeat passthrough_middleware 16 in
  let full :=
    List.fold_left (fun c m => snd (event_chain_use_middleware true c m)) mws
      (event_chain_create FAULT_TOLERANCE_STRICT) in
  (16 <= List.length mws)%nat
  /\ middlewares full = mws
  /\ event_chain_use_middleware true full passthrough_middleware
     = (EC_ERROR_CAPACITY_EXCEEDED, full).
Proof.
  intros mws full.
  assert (H : (16 <= List.length mws)%nat) by apply Nat.le_refl.
  destruct (@chain_accepts_in_order unit FAULT_TOLERANCE_STRICT [] mws)
    as (_ & Hmw & _ & _ & Hfull).
  split; [exact H|]. split; [exact Hmw|].
  exact (Hfull passthrough_middleware H).
Defined.

Lemma execute_runs_events_in_order_witness :
  let chain :=
    snd (event_chain_use_middleware true custom_chain passthrough_middleware) in
  event_chain_execute (fun _ => true) event_result_success chain tt
  = (mkChainResult false
       (Some [mkFailureInfo "Failing" "no input" EC_ERROR_EVENT_EXECUTION_FAILED])
       1,
     chain, tt).
Proof.
  intros chain.
  assert (Ht : Forall transparent (middlewares chain)).
  { constructor; [|constructor]. intros r ev ctx w next ud. reflexivity. }
  exact (@execute_runs_events_in_order unit (fun _ => true) event_result_success
           (fun _ => eq_refl) chain tt eq_refl Ht (fun _ => eq_refl)
           ltac:(vm_compute; discriminate)).
Defined.

Lemma failure_written_past_capacity_witness :
  let st :=
    mkExecState (with_is_executing custom_chain 1) tt
      (mkChainResult true
         (Some [mkFailureInfo "A" "a" EC_ERROR_NOT_FOUND;
                mkFailureInfo "B" "b" EC_ERROR_NOT_FOUND;
                mkFailureInfo "C" "c" EC_ERROR_NOT_FOUND;
                mkFailureInfo "D" "d" EC_ERROR_NOT_FOUND]) 4) 4 in
  let r := execute_one (fun n => n <=? 4) event_result_success st failing_event in
  snd r = true
  /\ cr_success (es_result (fst r)) = false
  /\ (exists record,
        cr_failures (es_result (fst r))
        = Some ([mkFailureInfo "A" "a" EC_ERROR_NOT_FOUND;
                 mkFailureInfo "B" "b" EC_ERROR_NOT_FOUND;
                 mkFailureInfo "C" "c" EC_ERROR_NOT_FOUND;
                 mkFailureInfo "D" "d" EC_ERROR_NOT_FOUND] ++ [record]))
  /\ cr_failure_count (es_result (fst r)) = 4 + 1.
Proof.
  intros st.
  apply (failure_written_past_capacity (fun n => n <=? 4) event_result_success
           st failing_event); try reflexivity.
  cbn. lia.
Defined.

End ChainProps.

(* ------------------------------------------------------------------ *)
(** * Further properties of the type checker *)

Module TypeRules.
Import CStr AST TypeChecker TypeCheckerProps.

Lemma is_kind_eq (t : Type_) (k : TypeKind) :
  is_kind t k = true -> t = mkType k.
Proof. destruct t as [[]], k; cbn; intros H; try discriminate; reflexivity. Qed.

Lemma type_equals_eq (a b : Type_) : type_equals a b = true -> a = b.
Proof.
  destruct a as [[]], b as [[]]; cbn; intros H; try discriminate; reflexivity.
Qed.

Lemma negb_false_true (b : bool) : negb b = false -> b = true.
Proof. now destruct b. Qed.

Section Signatures.
Variable fs : list ASTFunc.

Lemma signatures_child (scope : SymbolTable) :
  signatures_declared fs scope ->
  signatures_declared fs (symbol_table_create (Some scope)).
Proof.
  intros H n sym. unfold symbol_table_create.
  cbn [symbol_table_lookup find_symbol]. apply H.
Qed.

Lemma signatures_add_variable (scope : SymbolTable) (n : string) (t : Type_)
  (pt : list Type_) :
  signatures_declared fs scope ->
  signatures_declared fs (snd (symbol_table_add scope n t false pt)).
Proof.
  intros H. unfold symbol_table_add.
  destruct (find_symbol (symbols scope) n); cbn [snd]; [exact H|].
  destruct scope as [l p]. cbn [symbols parent].
  intros n0 sym. specialize (H n0 sym). cbn [symbol_table_lookup] in *.
  rewrite find_symbol_app. destruct (find_symbol l n0); [exact H|].
  cbn [find_symbol].
  destruct (strcmp_eq _ n0); [|exact H].
  intros [= <-]. cbn [is_function]. discriminate.
Qed.

Lemma signatures_add_parameters (ps : list Param) (scope : SymbolTable) :
  signatures_declared fs scope ->
  signatures_declared fs (add_parameters scope ps).
Proof.
  revert scope. induction ps as [|p ps IH]; intros scope H; cbn [add_parameters].
  - exact H.
  - apply IH, signatures_add_variable, H.
Qed.

Lemma check_operands_rule tc k ty l r operand what result tc' e' :
  check_operands tc k ty l r operand what result = (true, tc', e') ->
  tc' = tc /\ e' = ExprBinary k result l r
  /\ expr_type l = mkType operand /\ expr_type r = mkType operand.
Proof.
  unfold check_operands.
  destruct (negb (is_kind (expr_type l) operand)) eqn:Hl; [discriminate|].
  destruct (negb (is_kind (expr_type r) operand)) eqn:Hr; [discriminate|].
  intros [= <- <-].
  apply negb_false_true, is_kind_eq in Hl, Hr. repeat split; assumption.
Qed.

(** A successful [check_expression] leaves the checker as it was and
    the type rules hold at every node of the expression. *)
Lemma check_expression_rules (e : ASTExpr) :
  forall tc tc' e',
    signatures_declared fs (current_scope tc) ->
    check_expression tc e = (true, tc', e') ->
    tc' = tc /\ Forall (node_rule fs) (expr_nodes e').
Proof.
  induction e as [ty v | ty v | ty n | k ty l IHl r IHr | ty o IHo
                 | ty f args IHargs] using ASTExpr_ind;
    intros tc tc' e' Hd H; cbn [check_expression] in H.
  - injection H as <- <-. split; [reflexivity|].
    cbn [expr_nodes]. constructor; [reflexivity | constructor].
  - injection H as <- <-. split; [reflexivity|].
    cbn [expr_nodes]. constructor; [reflexivity | constructor].
  - destruct (symbol_table_lookup (current_scope tc) n) as [sym|];
      [|discriminate].
    destruct (is_function sym); [discriminate|].
    injection H as <- <-. split; [reflexivity|].
    cbn [expr_nodes]. constructor; [exact I | constructor].
  - destruct (check_expression tc l) as [[ok1 tc1] l1] eqn:El.
    destruct ok1; cbn [negb] in H; [|discriminate].
    destruct (IHl _ _ _ Hd El) as [-> Hl].
    destruct (check_expression tc r) as [[ok2 tc2] r2] eqn:Er.
    destruct ok2; cbn [negb] in H; [|discriminate].
    destruct (IHr _ _ _ Hd Er) as [-> Hr].
    assert (Hsub : Forall (node_rule fs) (expr_nodes l1 ++ expr_nodes r2))
      by (apply Forall_app; split; assumption).
    destruct k;
      try (apply check_operands_rule in H;
           destruct H as (-> & -> & Hlt & Hrt);
           split; [reflexivity|];
           cbn [expr_nodes]; constructor; [|exact Hsub];
           cbn [node_rule]; repeat split; assumption).
    + destruct (negb (type_equals (expr_type l1) (expr_type r2))) eqn:Heq;
        [discriminate|].
      injection H as <- <-. split; [reflexivity|].
      cbn [expr_nodes]. constructor; [|exact Hsub].
      cbn [node_rule]. split; [|reflexivity].
      now apply type_equals_eq, negb_false_true.
    + destruct (negb (type_equals (expr_type l1) (expr_type r2))) eqn:Heq;
        [discriminate|].
      injection H as <- <-. split; [reflexivity|].
      cbn [expr_nodes]. constructor; [|exact Hsub].
      cbn [node_rule]. split; [|reflexivity].
      now apply type_equals_eq, negb_false_true.
  - destruct (check_expression tc o) as [[ok1 tc1] o1] eqn:Eo.
    destruct ok1; cbn [negb] in H; [|discriminate].
    destruct (IHo _ _ _ Hd Eo) as [-> Ho].
    destruct (negb (is_kind (expr_type o1) TYPE_BOOL)) eqn:Hb; [discriminate|].
    injection H as <- <-. split; [reflexivity|].
    cbn [expr_nodes]. constructor; [|exact Ho].
    cbn [node_rule]. split; [|reflexivity].
    now apply is_kind_eq, negb_false_true.
  - destruct (symbol_table_lookup (current_scope tc) f) as [sym|] eqn:Es;
      [|discriminate].
    destruct (is_function sym) eqn:Ef; cbn [negb] in H; [|discriminate].
    destruct (negb (Nat.eqb (Datatypes.length args) (param_count sym))) eqn:Hn;
      [discriminate|].
    apply negb_false_true, Nat.eqb_eq in Hn. unfold param_count in Hn.
    match type of H with
    | (let '(_, _) := ?check tc args 0%nat in _) = _ =>
        assert (Hargs : forall rest i ok tc1 rest',
                  list_all ASTExpr
                    (fun e => forall tc tc' e',
                       signatures_declared fs (current_scope tc) ->
                       check_expression tc e = (true, tc', e') ->
                       tc' = tc /\ Forall (node_rule fs) (expr_nodes e'))
                    rest ->
                  check tc rest i = (ok, tc1, rest') ->
                  ok = true ->
                  (i + List.length rest = List.length (param_types sym))%nat ->
                  tc1 = tc
                  /\ Forall (node_rule fs) (flat_map expr_nodes rest')
                  /\ List.map expr_type rest' = skipn i (param_types sym));
        [|destruct (check tc args 0%nat) as [[ok1 tc1] args1] eqn:Ea]
    end.
    { intros rest i ok tc1 rest' Hall. revert i ok tc1 rest'.
      induction Hall as [|a Ha rest Hall IH]; intros i ok tc1 rest' Hc Hok Hlen.
      - injection Hc as <- <- <-. split; [reflexivity|]. split; [constructor|].
        cbn [List.length List.map] in *. rewrite skipn_all2 by lia. reflexivity.
      - destruct (check_expression tc a) as [[ok2 tc2] a2] eqn:E2.
        destruct ok2; cbn [negb] in Hc; [|congruence].
        destruct (Ha _ _ _ Hd E2) as [-> Ha2].
        destruct (negb (type_equals (expr_type a2)
                          (nth i (param_types sym) type_int))) eqn:Heq;
          [congruence|].
        apply negb_false_true, type_equals_eq in Heq.
        match type of Hc with
        | (let '(_, _) := ?c in _) = _ =>
            destruct c as [[ok3 tc3] rest3] eqn:E3
        end.
        injection Hc as <- <- <-.
        cbn [List.length] in Hlen.
        destruct (IH _ _ _ _ E3 Hok ltac:(lia)) as (-> & Hrest & Htypes).
        split; [reflexivity|]. split.
        + cbn [flat_map]. apply Forall_app. split; assumption.
        + cbn [List.map]. rewrite Heq, Htypes.
          clear - Hlen. revert i Hlen.
          induction (param_types sym) as [|p ps IHp]; intros i Hlen;
            cbn [List.length] in Hlen; [lia|].
          destruct i as [|i]; [reflexivity|].
          cbn [nth skipn]. apply IHp. lia. }
    destruct ok1; [|discriminate].
    injection H as <- <-.
    destruct (Hargs _ _ _ _ _ IHargs Ea eq_refl ltac:(cbn; lia))
      as (-> & Hall & Htypes).
    split; [reflexivity|].
    cbn [expr_nodes]. constructor; [|exact Hall].
    cbn [node_rule]. rewrite Htypes. cbn [skipn]. exact (Hd _ _ Es Ef).
Qed.

Lemma expression_rules (e : ASTExpr) :
  Forall (node_rule fs) (expr_nodes e) ->
  Forall (node_rule fs) (flat_map expr_nodes [e]).
Proof. intros H. cbn [flat_map]. rewrite app_nil_r. exact H. Qed.

(** A successful [check_statement] keeps the globals and the return
    type of the function, and the rules hold at every node. *)
Lemma check_statement_rules (s : ASTStmt) :
  forall tc tc' s',
    signatures_declared fs (current_scope tc) ->
    check_statement tc s = (true, tc', s') ->
    globals tc' = globals tc
    /\ current_function_return_type tc' = current_function_return_type tc
    /\ signatures_declared fs (current_scope tc')
    /\ Forall (fun n =>
                 stmt_rule (current_function_return_type tc) n
                 /\ Forall (node_rule fs)
                      (flat_map expr_nodes (stmt_expressions n)))
              (stmt_nodes s').
Proof.
  induction s as [n ty init | n e | c t IHt e IHe | c b IHb | e | e | l IHl]
    using ASTStmt_ind;
    intros tc tc' s' Hd H; cbn [check_statement] in H.
  - destruct (check_expression tc init) as [[ok1 tc1] init1] eqn:E1.
    destruct ok1; cbn [negb] in H; [|discriminate].
    destruct (check_expression_rules _ _ _ _ Hd E1) as [-> Hi].
    pose proof (signatures_add_variable (current_scope tc) n (expr_type init1)
                  [] Hd) as Hadd.
    destruct (symbol_table_add (current_scope tc) n (expr_type init1) false [])
      as [added scope].
    destruct added; cbn [negb] in H; [|discriminate].
    injection H as <- <-. cbn [snd] in Hadd.
    split; [reflexivity|]. split; [reflexivity|]. split; [exact Hadd|].
    cbn [stmt_nodes]. constructor; [|constructor].
    split; [exact I | apply expression_rules, Hi].
  - destruct (symbol_table_lookup (current_scope tc) n) as [sym|];
      [|discriminate].
    destruct (is_function sym); [discriminate|].
    destruct (check_expression tc e) as [[ok1 tc1] e1] eqn:E1.
    destruct ok1; cbn [negb] in H; [|discriminate].
    destruct (check_expression_rules _ _ _ _ Hd E1) as [-> He].
    destruct (negb (type_equals (sym_type sym) (expr_type e1)));
      [discriminate|].
    injection H as <- <-.
    split; [reflexivity|]. split; [reflexivity|]. split; [exact Hd|].
    cbn [stmt_nodes]. constructor; [|constructor].
    split; [exact I | apply expression_rules, He].
  - destruct (check_expression tc c) as [[ok1 tc1] c1] eqn:E1.
    destruct ok1; cbn [negb] in H; [|discriminate].
    destruct (check_expression_rules _ _ _ _ Hd E1) as [-> Hc].
    destruct (negb (is_kind (expr_type c1) TYPE_BOOL)) eqn:Hb; [discriminate|].
    apply negb_false_true, is_kind_eq in Hb.
    destruct (check_statement tc t) as [[ok2 tc2] t2] eqn:E2.
    destruct ok2; cbn [negb] in H; [|discriminate].
    destruct (IHt _ _ _ Hd E2) as (Hg2 & Hr2 & Hd2 & Ht).
    destruct IHe as [eb IHeb|].
    + destruct (check_statement tc2 eb) as [[ok3 tc3] eb3] eqn:E3.
      injection H as -> <- <-.
      destruct (IHeb _ _ _ Hd2 E3) as (Hg3 & Hr3 & Hd3 & Heb).
      rewrite Hr2 in Heb.
      split; [congruence|]. split; [congruence|]. split; [exact Hd3|].
      cbn [stmt_nodes]. constructor.
      * split; [exact Hb | apply expression_rules, Hc].
      * apply Forall_app. split; assumption.
    + injection H as <- <-.
      split; [exact Hg2|]. split; [exact Hr2|]. split; [exact Hd2|].
      cbn [stmt_nodes]. constructor.
      * split; [exact Hb | apply expression_rules, Hc].
      * rewrite app_nil_r. exact Ht.
  - destruct (check_expression tc c) as [[ok1 tc1] c1] eqn:E1.
    destruct ok1; cbn [negb] in H; [|discriminate].
    destruct (check_expression_rules _ _ _ _ Hd E1) as [-> Hc].
    destruct (negb (is_kind (expr_type c1) TYPE_BOOL)) eqn:Hb; [discriminate|].
    apply negb_false_true, is_kind_eq in Hb.
    destruct (check_statement tc b) as [[ok2 tc2] b2] eqn:E2.
    injection H as -> <- <-.
    destruct (IHb _ _ _ Hd E2) as (Hg2 & Hr2 & Hd2 & Hbody).
    split; [exact Hg2|]. split; [exact Hr2|]. split; [exact Hd2|].
    cbn [stmt_nodes]. constructor; [|exact Hbody].
    split; [exact Hb | apply expression_rules, Hc].
  - destruct e as [e|].
    + destruct (check_expression tc e) as [[ok1 tc1] e1] eqn:E1.
      destruct ok1; cbn [negb] in H; [|discriminate].
      destruct (check_expression_rules _ _ _ _ Hd E1) as [-> He].
      destruct (negb (type_equals (expr_type e1)
                        (current_function_return_type tc))) eqn:Hrt;
        [discriminate|].
      apply negb_false_true, type_equals_eq in Hrt.
      injection H as <- <-.
      split; [reflexivity|]. split; [reflexivity|]. split; [exact Hd|].
      cbn [stmt_nodes]. constructor; [|constructor].
      split; [exact Hrt | apply expression_rules, He].
    + destruct (negb (is_kind (current_function_return_type tc) TYPE_VOID))
        eqn:Hv; [discriminate|].
      apply negb_false_true, is_kind_eq in Hv.
      injection H as <- <-.
      split; [reflexivity|]. split; [reflexivity|]. split; [exact Hd|].
      cbn [stmt_nodes]. constructor; [|constructor].
      split; [exact Hv | constructor].
  - destruct (check_expression tc e) as [[ok1 tc1] e1] eqn:E1.
    injection H as -> <- <-.
    destruct (check_expression_rules _ _ _ _ Hd E1) as [-> He].
    split; [reflexivity|]. split; [reflexivity|]. split; [exact Hd|].
    cbn [stmt_nodes]. constructor; [|constructor].
    split; [exact I | apply expression_rules, He].
  - match type of H with
    | (let '(_, _) := ?check ?tc0 l in _) = _ =>
        assert (Hloop : forall rest tc1 ok tc2 rest',
                  list_all ASTStmt
                    (fun s => forall tc tc' s',
                       signatures_declared fs (current_scope tc) ->
                       check_statement tc s = (true, tc', s') ->
                       globals tc' = globals tc
                       /\ current_function_return_type tc'
                          = current_function_return_type tc
                       /\ signatures_declared fs (current_scope tc')
                       /\ Forall (fun n =>
                                    stmt_rule (current_function_return_type tc) n
                                    /\ Forall (node_rule fs)
                                         (flat_map expr_nodes (stmt_expressions n)))
                                 (stmt_nodes s'))
                    rest ->
                  signatures_declared fs (current_scope tc1) ->
                  check tc1 rest = (ok, tc2, rest') ->
                  ok = true ->
                  globals tc2 = globals tc1
                  /\ current_function_return_type tc2
                     = current_function_return_type tc1
                  /\ Forall (fun n =>
                               stmt_rule (current_function_return_type tc1) n
                               /\ Forall (node_rule fs)
                                    (flat_map expr_nodes (stmt_expressions n)))
                            (flat_map stmt_nodes rest'));
        [|destruct (check tc0 l) as [[ok1 tc1] l1] eqn:El]
    end.
    { intros rest tc1 ok tc2 rest' Hall. revert tc1 ok tc2 rest'.
      induction Hall as [|a Ha rest Hall IH]; intros tc1 ok tc2 rest' Hd1 Hc Hok.
      - injection Hc as <- <- <-. repeat split. constructor.
      - destruct (check_statement tc1 a) as [[ok2 tc3] a2] eqn:E2.
        destruct ok2; cbn [negb] in Hc; [|congruence].
        destruct (Ha _ _ _ Hd1 E2) as (Hg3 & Hr3 & Hd3 & Ha2).
        match type of Hc with
        | (let '(_, _) := ?c in _) = _ =>
            destruct c as [[ok3 tc4] rest3] eqn:E3
        end.
        injection Hc as <- <- <-.
        destruct (IH _ _ _ _ Hd3 E3 Hok) as (Hg4 & Hr4 & Hrest).
        rewrite Hr3 in Hrest.
        split; [congruence|]. split; [congruence|].
        cbn [flat_map]. apply Forall_app. split; assumption. }
    injection H as -> <- <-.
    destruct (Hloop l (set_scope tc (symbol_table_create (Some (current_scope tc))))
                _ _ _ IHl (signatures_child _ Hd) El eq_refl)
      as (Hg & Hr & Hall).
    split; [exact Hg|]. split; [exact Hr|]. split; [exact Hd|].
    cbn [stmt_nodes]. constructor; [|exact Hall].
    split; [exact I | constructor].
Qed.

End Signatures.
Lemma register_signatures_signed (fs : list ASTFunc) (l : list ASTFunc) :
  forall g g',
    incl l fs ->
    parent g = None -> Forall (symbol_signature fs) (symbols g) ->
    register_signatures g l = inr g' ->
    parent g' = None /\ Forall (symbol_signature fs) (symbols g').
Proof.
  induction l as [|f l IH]; intros g g' Hin Hp Hs H; cbn [register_signatures] in H.
  - injection H as <-. split; assumption.
  - destruct (symbol_table_add g (func_name f) (return_type f) true
                (map param_type (params f))) as [added g1] eqn:E.
    destruct added; [|discriminate].
    apply add_function_symbol in E. subst g1.
    apply (IH _ _ (fun x Hx => Hin x (or_intror Hx))) in H; [exact H | exact Hp |].
    cbn [symbols]. apply Forall_app. split; [exact Hs|].
    constructor; [|constructor].
    right. exists f. repeat split. apply Hin. left. reflexivity.
Qed.

Lemma table_signatures_declared (fs : list ASTFunc) (g : SymbolTable) :
  parent g = None -> Forall (symbol_signature fs) (symbols g) ->
  signatures_declared fs g.
Proof.
  destruct g as [l p]. cbn [parent symbols]. intros -> Hs n sym H _.
  cbn [symbol_table_lookup] in H.
  destruct (find_symbol l n) as [s|] eqn:E; [|discriminate].
  injection H as ->. apply find_symbol_found in E. destruct E as [Hin Hn].
  rewrite Forall_forall in Hs.
  destruct (Hs _ Hin) as [(Hname & Hty & Hpt) | (f & Hf & Hname & Hty & Hpt)].
  - left. rewrite Hname in Hn. repeat split; assumption.
  - right. exists f. rewrite Hname in Hn. repeat split; assumption.
Qed.

Lemma check_bodies_rules (fs : list ASTFunc) (l : list ASTFunc) :
  forall tc tc' l',
    signatures_declared fs (globals tc) ->
    check_bodies tc l = (true, tc', l') ->
    Forall (fun f =>
              Forall (fun n =>
                        stmt_rule (return_type f) n
                        /\ Forall (node_rule fs)
                             (flat_map expr_nodes (stmt_expressions n)))
                     (stmt_nodes (body f))) l'.
Proof.
  induction l as [|f l IH]; intros tc tc' l' Hg H; cbn [check_bodies] in H.
  - injection H as <- <-. constructor.
  - match type of H with
    | (let '(_, _) := check_statement ?t ?b in _) = _ =>
        destruct (check_statement t b) as [[ok1 tc1] b1] eqn:E1;
        assert (Hscope : signatures_declared fs (current_scope t))
    end.
    { cbn [enter_function current_scope].
      apply signatures_add_parameters, signatures_child, Hg. }
    destruct ok1; cbn [negb] in H; [|discriminate].
    destruct (check_statement_rules fs _ _ _ _ Hscope E1) as (Hg1 & _ & _ & Hb).
    destruct (check_bodies tc1 l) as [[ok2 tc2] l2] eqn:E2.
    injection H as -> <- <-.
    constructor; [exact Hb|].
    apply (IH tc1 tc2); [|exact E2].
    rewrite Hg1. exact Hg.
Qed.

Lemma type_check_program_rules (program : ASTProgram) msg program' :
  type_check_program program = (true, msg, program') ->
  Forall (fun f =>
            Forall (fun n =>
                      stmt_rule (return_type f) n
                      /\ Forall (node_rule (functions program))
                           (flat_map expr_nodes (stmt_expressions n)))
                   (stmt_nodes (body f)))
         (functions program').
Proof.
  unfold type_check_program. intros H.
  destruct (register_signatures _ (functions program)) as [dup|g] eqn:Er;
    [discriminate|].
  apply (register_signatures_signed (functions program)) in Er;
    [|apply incl_refl | reflexivity|].
  - destruct (check_bodies _ (functions program)) as [[ok tc] fs'] eqn:Eb.
    destruct ok; [|discriminate]. injection H as <- <-.
    apply check_bodies_rules with (fs := functions program) in Eb;
      [exact Eb|].
    destruct Er as [Hp Hs]. now apply table_signatures_declared.
  - constructor; [|constructor]. left. repeat split.
Qed.

(** X20: in the tree that a successful [type_check_program] leaves, the
    annotation of every operator follows the type rules: the operands of
    an arithmetic operator and of a comparison are int, those of a logical
    operator and of the negation are bool, the two sides of an equality
    have the same type, and the results are int for arithmetic and bool
    otherwise.  Every call has as many arguments as the function it names
    has parameters, of the declared types, and carries its return
    type. *)
Theorem checked_expressions_follow_rules (program : ASTProgram)
  (msg : option string) (program' : ASTProgram) :
  type_check_program program = (true, msg, program') ->
  forall e, In e (program_exprs program') ->
    node_rule (functions program) e.
Proof.
  intros H e He. apply type_check_program_rules in H.
  unfold program_exprs, program_stmts in He.
  apply in_flat_map in He. destruct He as (s & Hs & He).
  apply in_flat_map in Hs. destruct Hs as (f & Hf & Hs).
  rewrite Forall_forall in H. specialize (H f Hf).
  rewrite Forall_forall in H. destruct (H s Hs) as [_ Hexprs].
  rewrite Forall_forall in Hexprs. exact (Hexprs e He).
Qed.

Lemma checked_expressions_follow_rules_witness :
  type_check_program print_program = (true, None, checked_print_program)
  /\ In (ExprCall type_void "print" [ExprIntLiteral type_int 1])
        (program_exprs checked_print_program)
  /\ node_rule (functions print_program)
        (ExprCall type_void "print" [ExprIntLiteral type_int 1]).
Proof.
  assert (Hin : In (ExprCall type_void "print" [ExprIntLiteral type_int 1])
                   (program_exprs checked_print_program))
    by (cbn; right; left; reflexivity).
  split; [reflexivity|]. split; [exact Hin|].
  exact (checked_expressions_follow_rules print_program None
           checked_print_program eq_refl _ Hin).
Defined.

(** X21: in the tree that a successful [type_check_program] leaves, the
    condition of every conditional and of every loop has type bool,
    every [return] with a value returns the declared return type of its
    function, and a [return] without value occurs in a function declared
    void only. *)
Theorem checked_statements_follow_rules (program : ASTProgram)
  (msg : option string) (program' : ASTProgram) :
  type_check_program program = (true, msg, program') ->
  forall f s, In f (functions program') -> In s (stmt_nodes (body f)) ->
    stmt_rule (return_type f) s.
Proof.
  intros H f s Hf Hs. apply type_check_program_rules in H.
  rewrite Forall_forall in H. specialize (H f Hf).
  rewrite Forall_forall in H. exact (proj1 (H s Hs)).
Qed.

Lemma checked_statements_follow_rules_witness :
  type_check_program print_program = (true, None, checked_print_program)
  /\ In (StmtReturn (Some (ExprIntLiteral type_int 0)))
        (stmt_nodes (body checked_main))
  /\ stmt_rule (return_type checked_main)
        (StmtReturn (Some (ExprIntLiteral type_int 0))).
Proof.
  assert (Hin : In (StmtReturn (Some (ExprIntLiteral type_int 0)))
                   (stmt_nodes (body checked_main)))
    by (cbn; right; right; right; left; reflexivity).
  split; [reflexivity|]. split; [exact Hin|].
  exact (checked_statements_follow_rules print_program None
           checked_print_program eq_refl checked_main _
           (or_introl eq_refl) Hin).
Defined.

Ltac finish_erase H :=
  repeat match type of H with
         | context [if ?b then _ else _] => destruct b
         | context [match ?x with _ => _ end] => destruct x
         end;
  injection H as <- <- <-; cbn [erase_expr erase_stmt option_map]; congruence.

Lemma check_operands_erase tc k ty l r operand what result ok tc' e' :
  check_operands tc k ty l r operand what result = (ok, tc', e') ->
  erase_expr e' = erase_expr (ExprBinary k ty l r).
Proof. unfold check_operands. intros H. finish_erase H. Qed.

(** Whatever its outcome, [check_expression] changes type fields
    only. *)
Lemma check_expression_erase (e : ASTExpr) :
  forall tc ok tc' e',
    check_expression tc e = (ok, tc', e') -> erase_expr e' = erase_expr e.
Proof.
  induction e as [ty v | ty v | ty n | k ty l IHl r IHr | ty o IHo
                 | ty f args IHargs] using ASTExpr_ind;
    intros tc ok tc' e' H; cbn [check_expression] in H.
  - finish_erase H.
  - finish_erase H.
  - finish_erase H.
  - destruct (check_expression tc l) as [[ok1 tc1] l1] eqn:El.
    apply IHl in El.
    destruct ok1; cbn [negb] in H; [|finish_erase H].
    destruct (check_expression tc1 r) as [[ok2 tc2] r2] eqn:Er.
    apply IHr in Er.
    destruct ok2; cbn [negb] in H; [|finish_erase H].
    destruct k; try (apply check_operands_erase in H; rewrite H;
                     cbn [erase_expr]; congruence);
      finish_erase H.
  - destruct (check_expression tc o) as [[ok1 tc1] o1] eqn:Eo.
    apply IHo in Eo. finish_erase H.
  - destruct (symbol_table_lookup (current_scope tc) f) as [sym|];
      [|finish_erase H].
    destruct (negb (is_function sym)); [finish_erase H|].
    destruct (negb (Nat.eqb (Datatypes.length args) (param_count sym)));
      [finish_erase H|].
    match type of H with
    | (let '(_, _) := ?check tc args 0%nat in _) = _ =>
        assert (Hargs : forall rest tc0 i ok tc1 rest',
                  list_all ASTExpr
                    (fun e => forall tc ok tc' e',
                       check_expression tc e = (ok, tc', e') ->
                       erase_expr e' = erase_expr e)
                    rest ->
                  check tc0 rest i = (ok, tc1, rest') ->
                  List.map erase_expr rest' = List.map erase_expr rest);
        [|destruct (check tc args 0%nat) as [[ok1 tc1] args1] eqn:Ea]
    end.
    { intros rest tc0 i ok0 tc1 rest' Hall. revert tc0 i ok0 tc1 rest'.
      induction Hall as [|a Ha rest Hall IH]; intros tc0 i ok0 tc1 rest' Hc.
      - injection Hc as <- <- <-. reflexivity.
      - destruct (check_expression tc0 a) as [[ok2 tc2] a2] eqn:E2.
        apply Ha in E2.
        destruct ok2; cbn [negb] in Hc;
          [|injection Hc as <- <- <-; cbn [List.map]; congruence].
        destruct (negb (type_equals (expr_type a2)
                          (nth i (param_types sym) type_int)));
          [injection Hc as <- <- <-; cbn [List.map]; congruence|].
        match type of Hc with
        | (let '(_, _) := ?c in _) = _ =>
            destruct c as [[ok3 tc3] rest3] eqn:E3
        end.
        apply IH in E3. injection Hc as <- <- <-. cbn [List.map]. congruence. }
    apply (Hargs _ _ _ _ _ _ IHargs) in Ea.
    destruct ok1; injection H as <- <- <-; cbn [erase_expr]; congruence.
Qed.

Lemma check_statement_erase (s : ASTStmt) :
  forall tc ok tc' s',
    check_statement tc s = (ok, tc', s') -> erase_stmt s' = erase_stmt s.
Proof.
  induction s as [n ty init | n e | c t IHt e IHe | c b IHb | e | e | l IHl]
    using ASTStmt_ind;
    intros tc ok tc' s' H; cbn [check_statement] in H.
  - destruct (check_expression tc init) as [[ok1 tc1] init1] eqn:E1.
    apply check_expression_erase in E1. finish_erase H.
  - destruct (symbol_table_lookup (current_scope tc) n) as [sym|];
      [|finish_erase H].
    destruct (is_function sym); [finish_erase H|].
    destruct (check_expression tc e) as [[ok1 tc1] e1] eqn:E1.
    apply check_expression_erase in E1. finish_erase H.
  - destruct (check_expression tc c) as [[ok1 tc1] c1] eqn:E1.
    apply check_expression_erase in E1.
    destruct ok1; cbn [negb] in H; [|finish_erase H].
    destruct (negb (is_kind (expr_type c1) TYPE_BOOL)); [finish_erase H|].
    destruct (check_statement tc1 t) as [[ok2 tc2] t2] eqn:E2.
    apply IHt in E2.
    destruct ok2; cbn [negb] in H; [|finish_erase H].
    destruct IHe as [eb IHeb|].
    + destruct (check_statement tc2 eb) as [[ok3 tc3] eb3] eqn:E3.
      apply IHeb in E3. finish_erase H.
    + finish_erase H.
  - destruct (check_expression tc c) as [[ok1 tc1] c1] eqn:E1.
    apply check_expression_erase in E1.
    destruct ok1; cbn [negb] in H; [|finish_erase H].
    destruct (negb (is_kind (expr_type c1) TYPE_BOOL)); [finish_erase H|].
    destruct (check_statement tc1 b) as [[ok2 tc2] b2] eqn:E2.
    apply IHb in E2. finish_erase H.
  - destruct e as [e|].
    + destruct (check_expression tc e) as [[ok1 tc1] e1] eqn:E1.
      apply check_expression_erase in E1. finish_erase H.
    + finish_erase H.
  - destruct (check_expression tc e) as [[ok1 tc1] e1] eqn:E1.
    apply check_expression_erase in E1. finish_erase H.
  - match type of H with
    | (let '(_, _) := ?check ?tc0 l in _) = _ =>
        assert (Hloop : forall rest tc1 ok tc2 rest',
                  list_all ASTStmt
                    (fun s => forall tc ok tc' s',
                       check_statement tc s = (ok, tc', s') ->
                       erase_stmt s' = erase_stmt s)
                    rest ->
                  check tc1 rest = (ok, tc2, rest') ->
                  List.map erase_stmt rest' = List.map erase_stmt rest);
        [|destruct (check tc0 l) as [[ok1 tc1] l1] eqn:El]
    end.
    { intros rest tc1 ok0 tc2 rest' Hall. revert tc1 ok0 tc2 rest'.
      induction Hall as [|a Ha rest Hall IH]; intros tc1 ok0 tc2 rest' Hc.
      - injection Hc as <- <- <-. reflexivity.
      - destruct (check_statement tc1 a) as [[ok2 tc3] a2] eqn:E2.
        apply Ha in E2.
        destruct ok2; cbn [negb] in Hc;
          [|injection Hc as <- <- <-; cbn [List.map]; congruence].
        match type of Hc with
        | (let '(_, _) := ?c in _) = _ =>
            destruct c as [[ok3 tc4] rest3] eqn:E3
        end.
        apply IH in E3. injection Hc as <- <- <-. cbn [List.map]. congruence. }
    apply (Hloop _ _ _ _ _ IHl) in El.
    injection H as <- <- <-. cbn [erase_stmt]. congruence.
Qed.

Lemma check_bodies_erase (l : list ASTFunc) :
  forall tc ok tc' l',
    check_bodies tc l = (ok, tc', l') ->
    List.map erase_func l' = List.map erase_func l.
Proof.
  induction l as [|f l IH]; intros tc ok tc' l' H; cbn [check_bodies] in H.
  - injection H as <- <- <-. reflexivity.
  - match type of H with
    | (let '(_, _) := check_statement ?t ?b in _) = _ =>
        destruct (check_statement t b) as [[ok1 tc1] b1] eqn:E1
    end.
    apply check_statement_erase in E1.
    destruct ok1; cbn [negb] in H.
    + destruct (check_bodies tc1 l) as [[ok2 tc2] l2] eqn:E2.
      apply IH in E2. injection H as <- <- <-.
      cbn [List.map]. unfold erase_func at 1 3. cbn [func_name params
        return_type body]. congruence.
    + injection H as <- <- <-.
      cbn [List.map]. unfold erase_func at 1 3. cbn [func_name params
        return_type body]. congruence.
Qed.

Lemma type_check_program_erase (program : ASTProgram) (ok : bool)
  (msg : option string) (program' : ASTProgram) :
  type_check_program program = (ok, msg, program') ->
  erase_program program' = erase_program program
  /\ (ok = true <-> msg = None).
Proof.
  unfold type_check_program. intros H.
  destruct (register_signatures _ (functions program)) as [dup|g].
  - injection H as <- <- <-. split; [reflexivity|].
    split; intros; discriminate.
  - destruct (check_bodies _ (functions program)) as [[ok1 tc] fs'] eqn:Eb.
    apply check_bodies_erase in Eb.
    destruct ok1; injection H as <- <- <-; unfold erase_program;
      cbn [functions]; (split; [congruence|]); split; intros;
      try discriminate; reflexivity.
Qed.

(** X22: [type_check_program] writes type fields and nothing else: with
    the annotations taken away, the program it hands back is the program
    it was given, whether the check succeeds or fails; and it reports a
    message exactly when it fails. *)
Theorem type_check_keeps_shape (program : ASTProgram) (ok : bool)
  (msg : option string) (program' : ASTProgram) :
  type_check_program program = (ok, msg, program') ->
  erase_program program' = erase_program program
  /\ (ok = true <-> msg = None).
Proof. apply type_check_program_erase. Qed.

Lemma type_check_keeps_shape_witness :
  erase_program checked_print_program = erase_program print_program
  /\ (true = true <-> @None string = None).
Proof.
  exact (type_check_keeps_shape print_program true None checked_print_program
           eq_refl).
Defined.

Lemma strcmp_eq_strdup_l (a b : string) :
  strcmp_eq (strdup a) b = strcmp_eq a b.
Proof.
  destruct (strcmp_eq a b) eqn:E.
  - apply ContextProps.strcmp_eq_content.
    rewrite ContextProps.strdup_idempotent.
    now apply ContextProps.strcmp_eq_content.
  - apply ContextProps.strcmp_eq_false_content.
    rewrite ContextProps.strdup_idempotent.
    now apply ContextProps.strcmp_eq_false_content.
Qed.

Lemma lookup_added (l : list Symbol) (p : option SymbolTable) (sym : Symbol)
  (n' : string) :
  symbol_table_lookup (mkSymbolTable (l ++ [sym]) p) n'
  = match find_symbol l n' with
    | Some s => Some s
    | None =>
        if strcmp_eq (sym_name sym) n' then Some sym
        else match p with
             | Some t => symbol_table_lookup t n'
             | None => None
             end
    end.
Proof.
  cbn [symbol_table_lookup]. rewrite find_symbol_app.
  destruct (find_symbol l n'); [reflexivity|]. cbn [find_symbol].
  now destruct (strcmp_eq (sym_name sym) n').
Qed.

(** X23: [symbol_table_add] refuses a name exactly when the scope itself
    already holds it, and then changes nothing.  After a successful
    addition a lookup of the name finds the new symbol and the lookup of
    any other name is as before.  A name held by an enclosing scope is no
    obstacle: in a new inner scope the addition succeeds, and lookups
    from it find the inner symbol. *)
Theorem symbol_table_add_then_lookup (table : SymbolTable) (n : string)
  (ty : Type_) (fn : bool) (pts : list Type_) :
  let r := symbol_table_add table n ty fn pts in
  let inner :=
    symbol_table_add (symbol_table_create (Some table)) n ty fn pts in
  (fst r = true <-> find_symbol (symbols table) n = None)
  /\ (fst r = false -> snd r = table)
  /\ (fst r = true ->
      symbol_table_lookup (snd r) n = Some (mkSymbol (strdup n) ty fn pts)
      /\ forall n', strcmp_eq n n' = false ->
           symbol_table_lookup (snd r) n' = symbol_table_lookup table n')
  /\ fst inner = true
  /\ symbol_table_lookup (snd inner) n = Some (mkSymbol (strdup n) ty fn pts)
  /\ (forall n', strcmp_eq n n' = false ->
        symbol_table_lookup (snd inner) n' = symbol_table_lookup table n').
Proof.
  intros r inner. subst r inner. unfold symbol_table_add, symbol_table_create.
  cbn [symbols parent find_symbol fst snd app].
  assert (Hnew : forall (l : list Symbol) p,
             find_symbol l n = None ->
             symbol_table_lookup
               (mkSymbolTable (l ++ [mkSymbol (strdup n) ty fn pts]) p) n
             = Some (mkSymbol (strdup n) ty fn pts)).
  { intros l p Hl. rewrite lookup_added, Hl. cbn [sym_name].
    now rewrite ECProps.strcmp_eq_strdup. }
  assert (Hother : forall (l : list Symbol) p n',
             strcmp_eq n n' = false ->
             symbol_table_lookup
               (mkSymbolTable (l ++ [mkSymbol (strdup n) ty fn pts]) p) n'
             = symbol_table_lookup (mkSymbolTable l p) n').
  { intros l p n' Hn. rewrite lookup_added. cbn [sym_name symbol_table_lookup].
    now rewrite strcmp_eq_strdup_l, Hn. }
  destruct table as [l p]. cbn [symbols parent].
  split; [|split; [|split; [|split; [|split]]]].
  - destruct (find_symbol l n); cbn [fst]; split; intros; try discriminate;
      reflexivity.
  - destruct (find_symbol l n); cbn [fst snd]; [reflexivity | discriminate].
  - destruct (find_symbol l n) eqn:Hl; cbn [fst snd]; [discriminate|].
    intros _. split; [now apply Hnew | intros n' Hn; now apply Hother].
  - reflexivity.
  - exact (Hnew [] (Some (mkSymbolTable l p)) eq_refl).
  - intros n' Hn.
    exact (Hother [] (Some (mkSymbolTable l p)) n' Hn).
Qed.

Lemma symbol_table_add_then_lookup_witness :
  let outer := snd (symbol_table_add (symbol_table_create None) "x" type_int
                      false []) in
  let r := symbol_table_add outer "x" type_bool false [] in
  let inner :=
    symbol_table_add (symbol_table_create (Some outer)) "x" type_bool false [] in
  fst r = false /\ snd r = outer
  /\ fst inner = true
  /\ symbol_table_lookup (snd inner) "x"
     = Some (mkSymbol "x" type_bool false [])
  /\ symbol_table_lookup outer "x" = Some (mkSymbol "x" type_int false []).
Proof.
  intros outer r inner.
  destruct (symbol_table_add_then_lookup outer "x" type_bool false [])
    as (_ & Hsame & _ & Hinner & Hfound & _).
  split; [reflexivity|]. split; [exact (Hsame eq_refl)|].
  split; [exact Hinner|]. split; [exact Hfound | reflexivity].
Defined.

Lemma check_operands_erased tc k ty ty' l r operand what result tc' e' :
  check_operands tc k ty l r operand what result = (true, tc', e') ->
  check_operands tc k ty' l r operand what result = (true, tc', e').
Proof.
  unfold check_operands.
  destruct (negb (is_kind (expr_type l) operand)); [discriminate|].
  destruct (negb (is_kind (expr_type r) operand)); [discriminate|].
  trivial.
Qed.

(** A successful [check_expression] does not depend on the annotations
    of the tree it is given. *)
Lemma check_expression_erased (e1 : ASTExpr) :
  forall e2 tc tc' e',
    erase_expr e1 = erase_expr e2 ->
    check_expression tc e1 = (true, tc', e') ->
    check_expression tc e2 = (true, tc', e').
Proof.
  induction e1 as [ty v | ty v | ty n | k ty l IHl r IHr | ty o IHo
                  | ty f args IHargs] using ASTExpr_ind;
    intros e2 tc tc' e' He H; destruct e2; try discriminate He;
    cbn [erase_expr] in He; injection He as He;
    cbn [check_expression] in H |- *; subst.
  - exact H.
  - exact H.
  - destruct (symbol_table_lookup (current_scope tc) _) as [sym|];
      [|discriminate].
    destruct (is_function sym); [discriminate | exact H].
  - destruct (check_expression tc l) as [[ok1 tc1] l1] eqn:El.
    destruct ok1; cbn [negb] in H; [|discriminate].
    rewrite (IHl _ _ _ _ H0 El). cbn [negb].
    destruct (check_expression tc1 r) as [[ok2 tc2] r2] eqn:Er.
    destruct ok2; cbn [negb] in H; [|discriminate].
    rewrite (IHr _ _ _ _ H1 Er). cbn [negb].
    destruct kind; try (eapply check_operands_erased; exact H).
    + destruct (negb (type_equals (expr_type l1) (expr_type r2)));
        [discriminate | exact H].
    + destruct (negb (type_equals (expr_type l1) (expr_type r2)));
        [discriminate | exact H].
  - destruct (check_expression tc o) as [[ok1 tc1] o1] eqn:Eo.
    destruct ok1; cbn [negb] in H; [|discriminate].
    rewrite (IHo _ _ _ _ He Eo). cbn [negb].
    destruct (negb (is_kind (expr_type o1) TYPE_BOOL)); [discriminate | exact H].
  - rename H0 into Hargs_eq.
    destruct (symbol_table_lookup (current_scope tc) _) as [sym|];
      [|discriminate].
    destruct (negb (is_function sym)); [discriminate|].
    assert (Hlen : Datatypes.length args0 = Datatypes.length args)
      by (rewrite <- (length_map erase_expr args0), <- Hargs_eq;
          apply length_map).
    rewrite Hlen.
    destruct (negb (Nat.eqb (Datatypes.length args) (param_count sym)));
      [discriminate|].
    match type of H with
    | (let '(_, _) := ?check tc args 0%nat in _) = _ =>
        assert (Hargs : forall rest rest2 tc0 i tc1 rest',
                  list_all ASTExpr
                    (fun e1 => forall e2 tc tc' e',
                       erase_expr e1 = erase_expr e2 ->
                       check_expression tc e1 = (true, tc', e') ->
                       check_expression tc e2 = (true, tc', e'))
                    rest ->
                  List.map erase_expr rest = List.map erase_expr rest2 ->
                  check tc0 rest i = (true, tc1, rest') ->
                  check tc0 rest2 i = (true, tc1, rest'));
        [|destruct (check tc args 0%nat) as [[ok1 tc1] args1] eqn:Ea]
    end.
    { intros rest rest2 tc0 i tc1 rest' Hall. revert rest2 tc0 i tc1 rest'.
      induction Hall as [|a Ha rest Hall IH]; intros rest2 tc0 i tc1 rest' Hm Hc;
        destruct rest2 as [|a' rest2]; try discriminate Hm.
      - exact Hc.
      - cbn [List.map] in Hm. injection Hm as Ha' Hm.
        destruct (check_expression tc0 a) as [[ok2 tc2] a2] eqn:E2.
        destruct ok2; cbn [negb] in Hc; [|discriminate].
        rewrite (Ha _ _ _ _ Ha' E2). cbn [negb].
        destruct (negb (type_equals (expr_type a2)
                          (nth i (param_types sym) type_int)));
          [discriminate|].
        match type of Hc with
        | (let '(_, _) := ?c in _) = _ =>
            destruct c as [[ok3 tc3] rest3] eqn:E3
        end.
        injection Hc as -> <- <-.
        now rewrite (IH _ _ _ _ _ Hm E3). }
    destruct ok1; [|discriminate].
    rewrite (Hargs _ _ _ _ _ _ IHargs Hargs_eq Ea). exact H.
Qed.

Lemma check_statement_erased (s1 : ASTStmt) :
  forall s2 tc tc' s',
    erase_stmt s1 = erase_stmt s2 ->
    check_statement tc s1 = (true, tc', s') ->
    check_statement tc s2 = (true, tc', s').
Proof.
  induction s1 as [n ty init | n e | c t IHt e IHe | c b IHb | e | e | l IHl]
    using ASTStmt_ind;
    intros s2 tc tc' s' He H; destruct s2; try discriminate He;
    cbn [erase_stmt] in He; injection He as He;
    cbn [check_statement] in H |- *; subst.
  - destruct (check_expression tc init) as [[ok1 tc1] init1] eqn:E1.
    destruct ok1; cbn [negb] in H; [|discriminate].
    rewrite (check_expression_erased _ _ _ _ _ H0 E1). cbn [negb].
    destruct (symbol_table_add _ _ _ _ _) as [added scope].
    destruct added; [exact H | discriminate].
  - destruct (symbol_table_lookup (current_scope tc) _) as [sym|];
      [|discriminate].
    destruct (is_function sym); [discriminate|].
    destruct (check_expression tc e) as [[ok1 tc1] e1] eqn:E1.
    destruct ok1; cbn [negb] in H; [|discriminate].
    rewrite (check_expression_erased _ _ _ _ _ H0 E1). cbn [negb].
    destruct (negb (type_equals _ _)); [discriminate | exact H].
  - destruct (check_expression tc c) as [[ok1 tc1] c1] eqn:E1.
    destruct ok1; cbn [negb] in H; [|discriminate].
    rewrite (check_expression_erased _ _ _ _ _ He E1). cbn [negb].
    destruct (negb (is_kind (expr_type c1) TYPE_BOOL)); [discriminate|].
    destruct (check_statement tc1 t) as [[ok2 tc2] t2] eqn:E2.
    destruct ok2; cbn [negb] in H; [|discriminate].
    rewrite (IHt _ _ _ _ H0 E2). cbn [negb].
    destruct IHe as [eb IHeb|]; destruct else_block as [eb2|];
      try discriminate H1.
    + injection H1 as H1.
      destruct (check_statement tc2 eb) as [[ok3 tc3] eb3] eqn:E3.
      destruct ok3; [|discriminate].
      rewrite (IHeb _ _ _ _ H1 E3). exact H.
    + exact H.
  - destruct (check_expression tc c) as [[ok1 tc1] c1] eqn:E1.
    destruct ok1; cbn [negb] in H; [|discriminate].
    rewrite (check_expression_erased _ _ _ _ _ He E1). cbn [negb].
    destruct (negb (is_kind (expr_type c1) TYPE_BOOL)); [discriminate|].
    destruct (check_statement tc1 b) as [[ok2 tc2] b2] eqn:E2.
    destruct ok2; [|discriminate].
    rewrite (IHb _ _ _ _ H0 E2). exact H.
  - destruct e as [e|], expr as [e2|]; try discriminate He.
    + cbn [option_map] in He. injection He as He.
      destruct (check_expression tc e) as [[ok1 tc1] e1] eqn:E1.
      destruct ok1; cbn [negb] in H; [|discriminate].
      rewrite (check_expression_erased _ _ _ _ _ He E1). cbn [negb].
      destruct (negb (type_equals _ _)); [discriminate | exact H].
    + exact H.
  - destruct (check_expression tc e) as [[ok1 tc1] e1] eqn:E1.
    destruct ok1; [|discriminate].
    rewrite (check_expression_erased _ _ _ _ _ He E1). exact H.
  - match type of H with
    | (let '(_, _) := ?check ?tc0 l in _) = _ =>
        assert (Hloop : forall rest rest2 tc1 tc2 rest',
                  list_all ASTStmt
                    (fun s1 => forall s2 tc tc' s',
                       erase_stmt s1 = erase_stmt s2 ->
                       check_statement tc s1 = (true, tc', s') ->
                       check_statement tc s2 = (true, tc', s'))
                    rest ->
                  List.map erase_stmt rest = List.map erase_stmt rest2 ->
                  check tc1 rest = (true, tc2, rest') ->
                  check tc1 rest2 = (true, tc2, rest'));
        [|destruct (check tc0 l) as [[ok1 tc1] l1] eqn:El]
    end.
    { intros rest rest2 tc1 tc2 rest' Hall. revert rest2 tc1 tc2 rest'.
      induction Hall as [|a Ha rest Hall IH]; intros rest2 tc1 tc2 rest' Hm Hc;
        destruct rest2 as [|a' rest2]; try discriminate Hm.
      - exact Hc.
      - cbn [List.map] in Hm. injection Hm as Ha' Hm.
        destruct (check_statement tc1 a) as [[ok2 tc3] a2] eqn:E2.
        destruct ok2; cbn [negb] in Hc; [|discriminate].
        rewrite (Ha _ _ _ _ Ha' E2). cbn [negb].
        match type of Hc with
        | (let '(_, _) := ?c in _) = _ =>
            destruct c as [[ok3 tc4] rest3] eqn:E3
        end.
        injection Hc as -> <- <-.
        now rewrite (IH _ _ _ _ Hm E3). }
    destruct ok1; [|discriminate].
    rewrite (Hloop _ _ _ _ _ IHl He El). exact H.
Qed.

Lemma check_bodies_erased (l1 : list ASTFunc) :
  forall l2 tc tc' l',
    List.map erase_func l1 = List.map erase_func l2 ->
    check_bodies tc l1 = (true, tc', l') ->
    check_bodies tc l2 = (true, tc', l').
Proof.
  induction l1 as [|f1 l1 IH]; intros l2 tc tc' l' Hm H;
    destruct l2 as [|f2 l2]; try discriminate Hm.
  - exact H.
  - cbn [List.map] in Hm. injection Hm as Hn Hp Hr Hb Hm.
    cbn [check_bodies] in H |- *. rewrite <- Hn, <- Hp, <- Hr.
    match type of H with
    | (let '(_, _) := check_statement ?t ?b in _) = _ =>
        destruct (check_statement t b) as [[ok1 tc1] b1] eqn:E1
    end.
    destruct ok1; cbn [negb] in H; [|discriminate].
    rewrite (check_statement_erased _ _ _ _ _ Hb E1). cbn [negb].
    destruct (check_bodies tc1 l1) as [[ok2 tc2] l3] eqn:E2.
    destruct ok2; [|discriminate].
    rewrite (IH _ _ _ _ Hm E2). exact H.
Qed.

Lemma register_signatures_erased (l1 : list ASTFunc) :
  forall l2 g,
    List.map erase_func l1 = List.map erase_func l2 ->
    register_signatures g l1 = register_signatures g l2.
Proof.
  induction l1 as [|f1 l1 IH]; intros l2 g Hm;
    destruct l2 as [|f2 l2]; try discriminate Hm; [reflexivity|].
  cbn [List.map] in Hm. injection Hm as Hn Hp Hr Hb Hm.
  cbn [register_signatures]. rewrite <- Hn, <- Hp, <- Hr.
  destruct (symbol_table_add _ _ _ _ _) as [[] g1]; [|reflexivity].
  now apply IH.
Qed.

(** X24: checking a program that the checker has accepted accepts it
    again and leaves every annotation as it is. *)
Theorem type_check_twice (program : ASTProgram) (msg : option string)
  (program' : ASTProgram) :
  type_check_program program = (true, msg, program') ->
  type_check_program program' = (true, None, program').
Proof.
  intros H. pose proof (type_check_program_erase _ _ _ _ H) as [Hshape _].
  unfold erase_program in Hshape. injection Hshape as Hshape.
  revert H. unfold type_check_program.
  rewrite (register_signatures_erased _ _ _ Hshape).
  destruct (register_signatures _ (functions program)) as [dup|g];
    [discriminate|].
  destruct (check_bodies _ (functions program)) as [[ok tc] fs'] eqn:Eb.
  destruct ok; [|discriminate]. intros [= <- <-]. cbn [functions] in *.
  now rewrite (check_bodies_erased _ _ _ _ _ (eq_sym Hshape) Eb).
Qed.

Lemma type_check_twice_witness :
  type_check_program print_program = (true, None, checked_print_program)
  /\ type_check_program checked_print_program
     = (true, None, checked_print_program).
Proof.
  split; [reflexivity|].
  exact (type_check_twice print_program None checked_print_program eq_refl).
Defined.

End TypeRules.

(* ------------------------------------------------------------------ *)
(** * Further properties of the lexer *)

Module TokenShape.
Import CStr Lexer LexerProps.
Local Open Scope nat_scope.

Lemma token_create_text (k : TokenKind) (s : string) (len ln col : nat) :
  0 < len -> k <> TOKEN_EOF ->
  (fixed_spelling k = true -> s = token_kind_to_string k) ->
  token_shape (token_create k (Some s) len ln col).
Proof.
  intros Hlen Hk Hs. unfold token_create.
  destruct (0 <? len) eqn:E; [|apply Nat.ltb_ge in E; lia].
  unfold token_shape. cbn [lexeme kind length value]. auto.
Qed.

Lemma token_create_eof (ln col : nat) :
  token_shape (token_create TOKEN_EOF None 0 ln col).
Proof. unfold token_create, token_shape. cbn. auto. Qed.

Lemma add_token_shape (l : Lexer) (k : TokenKind) (s : string)
  (len ln col : nat) :
  Forall token_shape (tokens l) ->
  0 < len -> k <> TOKEN_EOF ->
  (fixed_spelling k = true -> s = token_kind_to_string k) ->
  Forall token_shape (tokens (lexer_add_token l k (Some s) len ln col)).
Proof.
  intros HF Hlen Hk Hs. unfold lexer_add_token. cbn [tokens].
  apply Forall_app. split; [exact HF|].
  constructor; [|constructor]. now apply token_create_text.
Qed.

Lemma check_keyword_spelling (lx : string) (len : nat) (kw : string)
  (k : TokenKind) :
  kw = token_kind_to_string k ->
  fixed_spelling (check_keyword lx len kw k) = true ->
  lx = token_kind_to_string (check_keyword lx len kw k).
Proof.
  intros -> H. unfold check_keyword in *.
  destruct (_ =? _); cbn [andb] in *; [|discriminate].
  destruct (String.eqb lx _) eqn:E; [|discriminate].
  now apply String.eqb_eq in E.
Qed.

Lemma identifier_type_spelling (lx : string) (len : nat) :
  fixed_spelling (identifier_type lx len) = true ->
  lx = token_kind_to_string (identifier_type lx len).
Proof.
  unfold identifier_type.
  repeat match goal with
         | |- context [if ?c then _ else _] =>
             lazymatch c with
             | context [check_keyword] => fail
             | _ => destruct c
             end
         end;
    try discriminate; now apply check_keyword_spelling.
Qed.

Lemma scan_identifier_shape (l : Lexer) :
  0 < current l ->
  Forall token_shape (tokens l) ->
  Forall token_shape (tokens (scan_identifier l)).
Proof.
  intros Hc HF. unfold scan_identifier.
  destruct (advance_while_scans is_alnum (remaining l) l)
    as (_ & _ & Ht & Hle & _).
  apply add_token_shape.
  - now rewrite Ht.
  - lia.
  - apply identifier_type_not_eof.
  - apply identifier_type_spelling.
Qed.

Lemma scan_number_shape (l : Lexer) :
  0 < current l ->
  Forall token_shape (tokens l) ->
  Forall token_shape (tokens (scan_number l)).
Proof.
  intros Hc HF. unfold scan_number.
  destruct (advance_while_scans is_digit (remaining l) l)
    as (_ & _ & Ht & Hle & _).
  apply add_token_shape; [now rewrite Ht | lia | discriminate | discriminate].
Qed.

Lemma scan_pair_shape (l : Lexer) (second : ascii) (k2 : TokenKind)
  (lx2 : string) (k1 : TokenKind) (lx1 : string) (col : nat) :
  Forall token_shape (tokens l) ->
  k2 <> TOKEN_EOF -> k1 <> TOKEN_EOF ->
  (fixed_spelling k2 = true -> lx2 = token_kind_to_string k2) ->
  (fixed_spelling k1 = true -> lx1 = token_kind_to_string k1) ->
  Forall token_shape (tokens (scan_pair l second k2 lx2 k1 lx1 col)).
Proof.
  intros HF H2 H1 S2 S1. unfold scan_pair.
  destruct (match_scans l second) as (_ & _ & Ht & _).
  destruct (lexer_match l second) as [m l']. cbn [snd] in Ht.
  destruct m; apply add_token_shape; try assumption; try lia;
    now rewrite Ht.
Qed.

Lemma scan_token_shape (l : Lexer) :
  Forall token_shape (tokens l) ->
  Forall token_shape (tokens (scan_token l)).
Proof.
  intros HF. unfold scan_token.
  destruct (skip_whitespace_scans l) as (_ & _ & Ht & _).
  set (l1 := skip_whitespace l) in *.
  destruct (lexer_is_at_end l1) eqn:Hend.
  - unfold lexer_add_token. cbn [tokens]. rewrite Ht.
    apply Forall_app. split; [exact HF|].
    constructor; [apply token_create_eof | constructor].
  - pose proof (advance_scans l1) as (_ & _ & Ht2 & _).
    pose proof (advance_progress l1 Hend) as Hprog.
    destruct (lexer_advance l1) as [c l2]. cbn [snd] in Ht2, Hprog.
    assert (HF2 : Forall token_shape (tokens l2)) by now rewrite Ht2, Ht.
    assert (Hpos : 0 < current l2) by lia.
    destruct (is_alpha c); [now apply scan_identifier_shape|].
    destruct (is_digit c); [now apply scan_number_shape|].
    repeat match goal with
           | |- Forall _ (tokens (if ?b then _ else _)) => destruct b
           end;
      first [ apply scan_pair_shape;
              [exact HF2 | discriminate | discriminate
              | try reflexivity; discriminate
              | try reflexivity; discriminate ]
            | apply add_token_shape;
              [exact HF2 | lia | discriminate
              | try reflexivity; discriminate ] ].
Qed.

Lemma lex_loop_shape (fuel : nat) :
  forall l l',
    lex_loop fuel l = Some l' ->
    Forall token_shape (tokens l) ->
    Forall token_shape (tokens l').
Proof.
  induction fuel as [|f IH]; intros l l' H HF; cbn [lex_loop] in H.
  - destruct (lexer_is_at_end l); [|discriminate]. now injection H as <-.
  - destruct (lexer_is_at_end l); [now injection H as <-|].
    apply scan_token_shape in HF.
    destruct (last_is_eof _); [now injection H as <-|].
    exact (IH _ _ H HF).
Qed.

Lemma lex_source_tokens_shaped (source_code : string) (toks : TokenList) :
  lex_source source_code = Some toks -> Forall token_shape toks.
Proof.
  unfold lex_source, lex_final. intros H.
  destruct (lex_loop _ _) as [l|] eqn:E; [|discriminate].
  apply lex_loop_shape in E; [|constructor].
  destruct (negb _); injection H as <-; [|exact E].
  unfold lexer_add_token. cbn [tokens].
  apply Forall_app. split; [exact E|].
  constructor; [apply token_create_eof | constructor].
Qed.

(** X25: every token of the list that [lex_source] returns has one of
    two shapes.  Either it has a text of at least one character and a
    kind other than EOF; its value is the number [atoi] reads from the
    text for an integer literal and 0 otherwise; and when its kind is a
    keyword, an operator or a punctuation mark, the text is the spelling
    of that kind.  Or it has no text, kind EOF, length 0 and value 0. *)
Theorem lexed_token_shapes (source_code : string) (toks : TokenList)
  (t : Token) :
  lex_source source_code = Some toks ->
  In t toks ->
  match lexeme t with
  | Some s =>
      kind t <> TOKEN_EOF
      /\ 0 < length t
      /\ value t = (if kind_eqb (kind t) TOKEN_INT_LITERAL then atoi s
                    else 0%Z)
      /\ (fixed_spelling (kind t) = true -> s = token_kind_to_string (kind t))
  | None => kind t = TOKEN_EOF /\ length t = 0 /\ value t = 0%Z
  end.
Proof.
  intros H Hin. apply lex_source_tokens_shaped in H.
  rewrite Forall_forall in H. exact (H t Hin).
Qed.

Lemma lexed_token_shapes_witness :
  lex_source "n = 42;"
  = Some [mkToken TOKEN_IDENTIFIER (Some "n") 1 0 1 0;
          mkToken TOKEN_ASSIGN (Some "=") 1 0 1 2;
          mkToken TOKEN_INT_LITERAL (Some "42") 2 42 1 4;
          mkToken TOKEN_SEMICOLON (Some ";") 1 0 1 6;
          mkToken TOKEN_EOF None 0 0 1 7]
  /\ In (mkToken TOKEN_INT_LITERAL (Some "42") 2 42 1 4)
        [mkToken TOKEN_IDENTIFIER (Some "n") 1 0 1 0;
         mkToken TOKEN_ASSIGN (Some "=") 1 0 1 2;
         mkToken TOKEN_INT_LITERAL (Some "42") 2 42 1 4;
         mkToken TOKEN_SEMICOLON (Some ";") 1 0 1 6;
         mkToken TOKEN_EOF None 0 0 1 7]
  /\ (TOKEN_INT_LITERAL <> TOKEN_EOF
      /\ 0 < 2
      /\ 42%Z = atoi "42"
      /\ (false = true -> "42" = "INT_LITERAL")).
Proof.
  assert (H : lex_source "n = 42;"
              = Some [mkToken TOKEN_IDENTIFIER (Some "n") 1 0 1 0;
                      mkToken TOKEN_ASSIGN (Some "=") 1 0 1 2;
                      mkToken TOKEN_INT_LITERAL (Some "42") 2 42 1 4;
                      mkToken TOKEN_SEMICOLON (Some ";") 1 0 1 6;
                      mkToken TOKEN_EOF None 0 0 1 7])
    by (vm_compute; reflexivity).
  split; [exact H|].
  assert (Hin : In (mkToken TOKEN_INT_LITERAL (Some "42") 2 42 1 4)
                  [mkToken TOKEN_IDENTIFIER (Some "n") 1 0 1 0;
                   mkToken TOKEN_ASSIGN (Some "=") 1 0 1 2;
                   mkToken TOKEN_INT_LITERAL (Some "42") 2 42 1 4;
                   mkToken TOKEN_SEMICOLON (Some ";") 1 0 1 6;
                   mkToken TOKEN_EOF None 0 0 1 7])
    by (right; right; left; reflexivity).
  split; [exact Hin|].
  exact (lexed_token_shapes _ _ _ H Hin).
Defined.

End TokenShape.

(* ------------------------------------------------------------------ *)
(** * Further properties of the parser *)

Module ParserShape.
Import AST Parser.

Ltac parse_split H :=
  repeat match type of H with
         | context [match ?x with _ => _ end] => destruct x eqn:?
         end;
  try discriminate.

Lemma advanced_refl (p : Parser) : advanced p p.
Proof. repeat split. apply Nat.le_refl. Qed.

Lemma parser_advance_advanced (p p' : Parser) (t : option Lexer.Token) :
  parser_advance p = (t, p') -> advanced p p'.
Proof.
  unfold parser_advance. intros [= _ <-].
  destruct (negb (parser_is_at_end p)); [|apply advanced_refl].
  repeat split. cbn. lia.
Qed.

Lemma parser_match_advanced (p p' : Parser) (k : Lexer.TokenKind) (m : bool) :
  parser_match p k = (m, p') -> advanced p p'.
Proof.
  unfold parser_match. destruct (parser_check p k); intros [= _ <-].
  - apply (parser_advance_advanced p _ (fst (parser_advance p))).
    symmetry. apply surjective_pairing.
  - apply advanced_refl.
Qed.

Lemma parser_expect_advanced (p p' : Parser) (k : Lexer.TokenKind)
  (msg : string) (t : Lexer.Token) :
  parser_expect p k msg = (Some t, p') -> advanced p p'.
Proof.
  unfold parser_expect. destruct (parser_check p k).
  - apply parser_advance_advanced.
  - destruct (parser_current p); discriminate.
Qed.

Lemma match_operator_advanced (ops : list (Lexer.TokenKind * BinaryKind))
  (p p' : Parser) (k : BinaryKind) :
  match_operator p ops = Some (k, p') -> advanced p p'.
Proof.
  induction ops as [|[tk bk] ops IH]; cbn [match_operator]; [discriminate|].
  destruct (parser_match p tk) as [m q] eqn:E.
  destruct m; [|exact IH].
  intros [= _ <-]. exact (parser_match_advanced _ _ _ _ E).
Qed.

Lemma parse_type_advanced (p p' : Parser) (ty : Type_) :
  parse_type p = (ty, p') -> has_error p' = false -> advanced p p'.
Proof.
  unfold parse_type. intros H Hok. parse_split H;
    injection H as <- <-;
    repeat match goal with
           | E : parser_match _ _ = _ |- _ => apply parser_match_advanced in E
           end;
    try discriminate Hok.
  - assumption.
  - unfold advanced in *. intuition (try congruence; try lia).
Qed.

(** Facts about the steps of a parse, gathered from the hypotheses. *)
Ltac gather :=
  repeat match goal with
         | E : parser_match _ _ = _ |- _ => apply parser_match_advanced in E
         | E : parser_expect _ _ _ = (Some _, _) |- _ =>
             apply parser_expect_advanced in E
         | E : parser_advance _ = _ |- _ => apply parser_advance_advanced in E
         | E : match_operator _ _ = Some _ |- _ =>
             apply match_operator_advanced in E
         end.

Ltac chain :=
  unfold advanced, set_current in *;
  cbn [p_tokens error_msg has_error p_current] in *;
  repeat match goal with
         | H : _ /\ _ |- _ => destruct H
         end;
  repeat split; first [congruence | lia].

(** A successful parse of an expression consumes tokens and records no
    error. *)
Lemma expression_parsers_advance (fuel : nat) :
  (forall p e p', parse_expression fuel p = POk e p' -> advanced p p')
  /\ (forall p e p', parse_primary fuel p = POk e p' -> advanced p p')
  /\ (forall p e p', parse_unary fuel p = POk e p' -> advanced p p')
  /\ (forall p e p', parse_factor fuel p = POk e p' -> advanced p p')
  /\ (forall p e p', parse_term fuel p = POk e p' -> advanced p p')
  /\ (forall p e p', parse_comparison fuel p = POk e p' -> advanced p p')
  /\ (forall p e p', parse_equality fuel p = POk e p' -> advanced p p')
  /\ (forall p e p', parse_logical_and fuel p = POk e p' -> advanced p p')
  /\ (forall p e p', parse_logical_or fuel p = POk e p' -> advanced p p')
  /\ (forall p acc l p', parse_arguments fuel p acc = POk l p' -> advanced p p')
  /\ (forall lhs p e p', parse_factor_loop fuel lhs p = POk e p' -> advanced p p')
  /\ (forall lhs p e p', parse_term_loop fuel lhs p = POk e p' -> advanced p p')
  /\ (forall lhs p e p', parse_comparison_loop fuel lhs p = POk e p' -> advanced p p')
  /\ (forall lhs p e p', parse_equality_loop fuel lhs p = POk e p' -> advanced p p')
  /\ (forall lhs p e p', parse_logical_and_loop fuel lhs p = POk e p' -> advanced p p')
  /\ (forall lhs p e p', parse_logical_or_loop fuel lhs p = POk e p' -> advanced p p').
Proof.
  induction fuel as [|f (IH0 & IH1 & IH2 & IH3 & IH4 & IH5 & IH6 & IH7 & IH8 & IH9 & IH10 & IH11 & IH12 & IH13 & IH14 & IH15)].
  - repeat split; intros; discriminate.
  - repeat split; intros;
      match goal with
      | H : _ = POk _ _ |- _ =>
          cbn [parse_expression parse_primary parse_unary parse_factor parse_term parse_comparison parse_equality parse_logical_and parse_logical_or parse_arguments parse_factor_loop parse_term_loop parse_comparison_loop parse_equality_loop parse_logical_and_loop parse_logical_or_loop] in H;
          unfold with_name in H; parse_split H;
          try (injection H as <- <-)
      end;
      repeat match goal with
             | E : (if ?b then _ else _) = POk _ _ |- _ => destruct b
             | E : POk _ _ = POk _ _ |- _ => injection E as ? ?; subst
             | E : _ = POk _ _ |- _ =>
                 first [ apply IH0 in E | apply IH1 in E | apply IH2 in E | apply IH3 in E | apply IH4 in E | apply IH5 in E | apply IH6 in E | apply IH7 in E | apply IH8 in E | apply IH9 in E | apply IH10 in E | apply IH11 in E | apply IH12 in E | apply IH13 in E | apply IH14 in E | apply IH15 in E ]
             end;
      gather; chain.
Qed.

Lemma parse_expression_advanced fuel p e p' :
  parse_expression fuel p = POk e p' -> advanced p p'.
Proof. apply expression_parsers_advance. Qed.

Ltac use_expressions :=
  repeat match goal with
         | E : _ = POk _ _ |- _ =>
             first [ apply (proj1 (expression_parsers_advance _)) in E
                 | apply (proj1 (proj2 (expression_parsers_advance _))) in E
                 | apply (proj1 (proj2 (proj2 (expression_parsers_advance _)))) in E
                 | apply (proj1 (proj2 (proj2 (proj2 (expression_parsers_advance _))))) in E
                 | apply (proj1 (proj2 (proj2 (proj2 (proj2 (expression_parsers_advance _)))))) in E
                 | apply (proj1 (proj2 (proj2 (proj2 (proj2 (proj2 (expression_parsers_advance _))))))) in E
                 | apply (proj1 (proj2 (proj2 (proj2 (proj2 (proj2 (proj2 (expression_parsers_advance _)))))))) in E
                 | apply (proj1 (proj2 (proj2 (proj2 (proj2 (proj2 (proj2 (proj2 (expression_parsers_advance _))))))))) in E
                 | apply (proj1 (proj2 (proj2 (proj2 (proj2 (proj2 (proj2 (proj2 (proj2 (expression_parsers_advance _)))))))))) in E
                 | apply (proj1 (proj2 (proj2 (proj2 (proj2 (proj2 (proj2 (proj2 (proj2 (proj2 (expression_parsers_advance _))))))))))) in E
                 | apply (proj1 (proj2 (proj2 (proj2 (proj2 (proj2 (proj2 (proj2 (proj2 (proj2 (proj2 (expression_parsers_advance _)))))))))))) in E
                 | apply (proj1 (proj2 (proj2 (proj2 (proj2 (proj2 (proj2 (proj2 (proj2 (proj2 (proj2 (proj2 (expression_parsers_advance _))))))))))))) in E
                 | apply (proj1 (proj2 (proj2 (proj2 (proj2 (proj2 (proj2 (proj2 (proj2 (proj2 (proj2 (proj2 (proj2 (expression_parsers_advance _)))))))))))))) in E
                 | apply (proj1 (proj2 (proj2 (proj2 (proj2 (proj2 (proj2 (proj2 (proj2 (proj2 (proj2 (proj2 (proj2 (proj2 (expression_parsers_advance _))))))))))))))) in E
                 | apply (proj1 (proj2 (proj2 (proj2 (proj2 (proj2 (proj2 (proj2 (proj2 (proj2 (proj2 (proj2 (proj2 (proj2 (proj2 (expression_parsers_advance _)))))))))))))))) in E
                 | apply (proj2 (proj2 (proj2 (proj2 (proj2 (proj2 (proj2 (proj2 (proj2 (proj2 (proj2 (proj2 (proj2 (proj2 (proj2 (expression_parsers_advance _)))))))))))))))) in E ]
         end.

(** Splits every case distinction left in a hypothesis about a parse. *)
Ltac split_all :=
  repeat match goal with
         | E : context [match ?x with _ => _ end] |- _ => destruct x eqn:?
         | E : POk _ _ = POk _ _ |- _ => injection E as ? ?; subst
         | E : Some _ = Some _ |- _ => injection E as ?; subst
         | E : (_, _) = (_, _) |- _ => injection E as ? ?; subst
         end;
  try discriminate.

Ltac use_expression :=
  repeat match goal with
         | E : parse_expression _ _ = POk _ _ |- _ =>
             apply parse_expression_advanced in E
         end.

Lemma parse_var_decl_advanced fuel p s p' :
  parse_var_decl fuel p = POk s p' -> advanced p p'.
Proof.
  unfold parse_var_decl, with_name. intros H. split_all.
  use_expression. gather. chain.
Qed.

Lemma parse_return_statement_advanced fuel p s p' :
  parse_return_statement fuel p = POk s p' -> advanced p p'.
Proof.
  unfold parse_return_statement. intros H. split_all;
    use_expression; gather; chain.
Qed.

Lemma statement_parsers_advance (fuel : nat) :
  (forall p s p', parse_statement fuel p = POk s p' -> advanced p p')
  /\ (forall p s p', parse_if_statement fuel p = POk s p' -> advanced p p')
  /\ (forall p s p', parse_while_statement fuel p = POk s p' -> advanced p p')
  /\ (forall p s p', parse_block fuel p = POk s p' -> advanced p p')
  /\ (forall p acc l p',
        parse_block_loop fuel p acc = POk l p' -> advanced p p').
Proof.
  induction fuel as [|f (IHs & IHi & IHw & IHb & IHl)].
  - repeat split; intros; discriminate.
  - repeat split; intros;
      match goal with
      | H : _ = POk _ _ |- _ =>
          cbn [parse_statement parse_if_statement parse_while_statement
               parse_block parse_block_loop] in H;
          unfold with_name in H
      end;
      split_all;
      repeat match goal with
             | E : parse_var_decl _ _ = POk _ _ |- _ =>
                 apply parse_var_decl_advanced in E
             | E : parse_return_statement _ _ = POk _ _ |- _ =>
                 apply parse_return_statement_advanced in E
             | E : _ = POk _ _ |- _ =>
                 first [ apply IHs in E | apply IHi in E | apply IHw in E
                       | apply IHb in E | apply IHl in E ]
             end;
      use_expression; gather; chain.
Qed.

Ltac use_statements :=
  repeat match goal with
         | E : parse_var_decl _ _ = POk _ _ |- _ =>
             apply parse_var_decl_advanced in E
         | E : parse_return_statement _ _ = POk _ _ |- _ =>
             apply parse_return_statement_advanced in E
         | E : _ = POk _ _ |- _ =>
             first [ apply (proj1 (statement_parsers_advance _)) in E
                 | apply (proj1 (proj2 (statement_parsers_advance _))) in E
                 | apply (proj1 (proj2 (proj2 (statement_parsers_advance _)))) in E
                 | apply (proj1 (proj2 (proj2 (proj2 (statement_parsers_advance _))))) in E
                 | apply (proj2 (proj2 (proj2 (proj2 (statement_parsers_advance _))))) in E ]
         end.

Lemma parse_block_advanced fuel p s p' :
  parse_block fuel p = POk s p' -> advanced p p'.
Proof. apply statement_parsers_advance. Qed.

Lemma parse_parameters_advanced (fuel : nat) :
  forall p acc l p',
    parse_parameters fuel p acc = POk l p' -> advanced p p'.
Proof.
  induction fuel as [|f IH]; intros p acc l p' H;
    cbn [parse_parameters] in H; [discriminate|].
  split_all;
    repeat match goal with
           | E : parse_parameters _ _ _ = POk _ _ |- _ => apply IH in E
           | E : parse_type _ = _, E' : has_error _ = false |- _ =>
               apply parse_type_advanced in E; [|exact E']
           end;
    gather; chain.
Qed.

Lemma parse_function_advanced fuel p f p' :
  parse_function fuel p = POk f p' -> advanced p p'.
Proof.
  unfold parse_function, with_name. intros H. split_all;
    repeat match goal with
           | E : parse_parameters _ _ _ = POk _ _ |- _ =>
               apply parse_parameters_advanced in E
           | E : parse_block _ _ = POk _ _ |- _ =>
               apply parse_block_advanced in E
           | E : parse_type _ = _, E' : has_error _ = false |- _ =>
               apply parse_type_advanced in E; [|exact E']
           end;
    gather; chain.
Qed.

Lemma parse_program_loop_end (fuel : nat) :
  forall p acc l p',
    parse_program_loop fuel p acc = POk l p' ->
    advanced p p' /\ parser_is_at_end p' = true.
Proof.
  induction fuel as [|f IH]; intros p acc l p' H;
    cbn [parse_program_loop] in H; [discriminate|].
  destruct (parser_is_at_end p) eqn:Hend; cbn [negb] in H.
  - injection H as <- <-. split; [apply advanced_refl | exact Hend].
  - destruct (parse_function f p) as [fn q|q| |] eqn:E; try discriminate.
    apply parse_function_advanced in E. apply IH in H as [H ?].
    split; [chain | assumption].
Qed.

Lemma leaf_blocks (s : ASTStmt) :
  bodies_are_blocks s ->
  stmt_nodes s = [s] ->
  Forall bodies_are_blocks (stmt_nodes s).
Proof. intros H ->. constructor; [exact H | constructor]. Qed.

Lemma parse_var_decl_blocks fuel p s p' :
  parse_var_decl fuel p = POk s p' ->
  Forall bodies_are_blocks (stmt_nodes s).
Proof.
  unfold parse_var_decl, with_name. intros H. split_all.
  apply leaf_blocks; [exact I | reflexivity].
Qed.

Lemma parse_return_statement_blocks fuel p s p' :
  parse_return_statement fuel p = POk s p' ->
  Forall bodies_are_blocks (stmt_nodes s).
Proof.
  unfold parse_return_statement. intros H. split_all;
    apply leaf_blocks; first [exact I | reflexivity].
Qed.

Lemma statement_parsers_blocks (fuel : nat) :
  (forall p s p', parse_statement fuel p = POk s p' ->
                  Forall bodies_are_blocks (stmt_nodes s))
  /\ (forall p s p', parse_if_statement fuel p = POk s p' ->
                     Forall bodies_are_blocks (stmt_nodes s))
  /\ (forall p s p', parse_while_statement fuel p = POk s p' ->
                     Forall bodies_are_blocks (stmt_nodes s))
  /\ (forall p s p', parse_block fuel p = POk s p' ->
                     is_block s = true
                     /\ Forall bodies_are_blocks (stmt_nodes s))
  /\ (forall p acc l p',
        parse_block_loop fuel p acc = POk l p' ->
        Forall bodies_are_blocks (flat_map stmt_nodes acc) ->
        Forall bodies_are_blocks (flat_map stmt_nodes l)).
Proof.
  induction fuel as [|f (IHs & IHi & IHw & IHb & IHl)].
  - repeat split; intros; discriminate.
  - split; [|split; [|split; [|split]]].
    + intros p s p' H. cbn [parse_statement] in H. unfold with_name in H.
      split_all;
        first [ eapply parse_var_decl_blocks; eassumption
              | eapply parse_return_statement_blocks; eassumption
              | eapply IHi; eassumption
              | eapply IHw; eassumption
              | eapply IHb; eassumption
              | apply leaf_blocks; first [exact I | reflexivity] ].
    + intros p s p' H. cbn [parse_if_statement] in H. split_all;
        repeat match goal with
               | E : parse_block _ _ = POk _ _ |- _ =>
                   apply IHb in E; destruct E
               end;
        unfold ast_stmt_if; cbn [stmt_nodes];
        (constructor; [cbn [bodies_are_blocks]; auto|]).
      * apply Forall_app. split; assumption.
      * rewrite app_nil_r. assumption.
    + intros p s p' H. cbn [parse_while_statement] in H. split_all.
      match goal with
      | E : parse_block _ _ = POk _ _ |- _ => apply IHb in E; destruct E
      end.
      unfold ast_stmt_while. cbn [stmt_nodes].
      constructor; [cbn [bodies_are_blocks]; assumption | assumption].
    + intros p s p' H. cbn [parse_block] in H. split_all.
      unfold ast_stmt_block. cbn [stmt_nodes is_block].
      split; [reflexivity|].
      constructor; [exact I|]. eapply IHl; [eassumption | constructor].
    + intros p acc l p' H Hacc. cbn [parse_block_loop] in H. split_all.
      * eapply IHl; [eassumption|].
        rewrite flat_map_app. apply Forall_app. split; [exact Hacc|].
        cbn [flat_map]. rewrite app_nil_r. eapply IHs; eassumption.
      * exact Hacc.
Qed.

Lemma parse_function_blocks fuel p f p' :
  parse_function fuel p = POk f p' ->
  is_block (body f) = true
  /\ Forall bodies_are_blocks (stmt_nodes (body f)).
Proof.
  unfold parse_function, with_name. intros H. split_all;
    cbn [ast_func_create body];
    eapply (proj1 (proj2 (proj2 (proj2 (statement_parsers_blocks _)))));
    eassumption.
Qed.

Lemma parse_program_loop_blocks (fuel : nat) :
  forall p acc l p',
    parse_program_loop fuel p acc = POk l p' ->
    Forall (fun f => is_block (body f) = true
                     /\ Forall bodies_are_blocks (stmt_nodes (body f))) acc ->
    Forall (fun f => is_block (body f) = true
                     /\ Forall bodies_are_blocks (stmt_nodes (body f))) l.
Proof.
  induction fuel as [|f IH]; intros p acc l p' H Hacc;
    cbn [parse_program_loop] in H; [discriminate|].
  split_all.
  - eapply IH; [eassumption|]. apply Forall_app. split; [exact Hacc|].
    constructor; [|constructor]. eapply parse_function_blocks; eassumption.
  - exact Hacc.
Qed.

(** X26: when [parse_tokens] returns a program, it wrote no error
    message; the program has at least one function; the body of every
    function, every branch of a conditional and the body of every loop
    is a block; and [parse_program] stopped at the end of the token
    list, with the token list unchanged. *)
Theorem parsed_program_shape (fuel : nat) (toks : Lexer.TokenList)
  (program : ASTProgram) (msg : option string) :
  parse_tokens_fuel fuel toks = Parsed (Some program) msg ->
  msg = None
  /\ functions program <> []
  /\ Forall (fun f => is_block (body f) = true) (functions program)
  /\ Forall bodies_are_blocks (program_stmts program)
  /\ exists p',
       parse_program fuel (mkParser toks 0 EmptyString false) = POk program p'
       /\ parser_is_at_end p' = true
       /\ p_tokens p' = toks.
Proof.
  unfold parse_tokens_fuel. intros H.
  destruct toks as [|t toks]; [discriminate|].
  destruct (parse_program fuel _) as [a q|q| |] eqn:E; try discriminate.
  injection H as <- <-.
  pose proof E as E'. unfold parse_program in E'.
  destruct (parse_program_loop fuel _ []) as [l r|r| |] eqn:El;
    try discriminate.
  destruct l as [|f l]; [discriminate|].
  injection E' as <- <-.
  pose proof (parse_program_loop_blocks _ _ _ _ _ El (Forall_nil _)) as Hb.
  apply parse_program_loop_end in El as [(Ht & _ & He & _) Hend].
  cbn [p_tokens has_error] in Ht, He.
  split; [now rewrite He|].
  split; [discriminate|].
  split; [|split].
  - cbn [ast_program_create functions].
    eapply Forall_impl; [|exact Hb]. now intros ? [? _].
  - unfold program_stmts. cbn [ast_program_create functions].
    apply Forall_flat_map.
    eapply Forall_impl; [|exact Hb]. now intros ? [_ ?].
  - exists r. repeat split; assumption.
Qed.

Lemma parsed_program_shape_witness :
  parse_tokens_fuel (parser_fuel print_tokens) print_tokens
  = Parsed (Some (TypeChecker.print_program)) None
  /\ Forall bodies_are_blocks (program_stmts TypeChecker.print_program).
Proof.
  split; [vm_compute; reflexivity|].
  apply (parsed_program_shape (parser_fuel print_tokens) print_tokens
           TypeChecker.print_program None).
  vm_compute. reflexivity.
Defined.

End ParserShape.

(* ------------------------------------------------------------------ *)
(** * What the parser reports when it fails *)

Module ParseFailure.
Import AST Parser ParserShape.

Lemma kind_eqb_eq (a b : Lexer.TokenKind) :
  Lexer.kind_eqb a b = true -> a = b.
Proof.
  unfold Lexer.kind_eqb. now destruct (Lexer.TokenKind_eq_dec a b).
Qed.

Lemma advance_token (p : Parser) (k : Lexer.TokenKind) :
  parser_check p k = true ->
  exists tok,
    parser_advance p = (Some tok, set_current p (S (p_current p)))
    /\ In tok (p_tokens p) /\ Lexer.kind tok = k.
Proof.
  intros Hc. unfold parser_check in Hc.
  destruct (parser_is_at_end p) eqn:Hend; [discriminate|].
  unfold parser_advance. rewrite Hend. cbn [negb].
  unfold parser_current in Hc.
  destruct (p_count p <=? p_current p)%nat; [discriminate|].
  destruct (nth_error (p_tokens p) (p_current p)) as [tok|] eqn:E;
    [|discriminate].
  exists tok. split; [|split; [exact (nth_error_In _ _ E)|]].
  - unfold parser_previous, set_current. cbn [p_current p_tokens].
    rewrite Nat.sub_succ, Nat.sub_0_r, E. reflexivity.
  - exact (kind_eqb_eq _ _ Hc).
Qed.

Lemma advance_checked (p p' : Parser) (k : Lexer.TokenKind)
  (t : option Lexer.Token) :
  parser_check p k = true ->
  parser_advance p = (t, p') ->
  exists tok, t = Some tok /\ In tok (p_tokens p) /\ Lexer.kind tok = k.
Proof.
  intros Hc E.
  destruct (advance_token p k Hc) as (tok & E' & Hin & Hk).
  rewrite E' in E. injection E as <- _. now exists tok.
Qed.

Lemma expect_in (p p' : Parser) (k : Lexer.TokenKind) (msg : string)
  (t : Lexer.Token) :
  parser_expect p k msg = (Some t, p') ->
  In t (p_tokens p) /\ Lexer.kind t = k.
Proof.
  unfold parser_expect. destruct (parser_check p k) eqn:Hc.
  - intros E.
    destruct (advance_checked _ _ _ _ Hc E) as (tok & [= ->] & Hin & Hk).
    now split.
  - destruct (parser_current p); discriminate.
Qed.

Lemma expect_none (p p' : Parser) (k : Lexer.TokenKind) (msg : string) :
  parser_expect p k msg = (None, p') -> has_error p' = true.
Proof.
  unfold parser_expect. destruct (parser_check p k) eqn:Hc.
  - intros E. destruct (advance_checked _ _ _ _ Hc E) as (tok & [=] & _).
  - destruct (parser_current p); intros [= <-]; reflexivity.
Qed.

Lemma match_previous (p p' : Parser) (k : Lexer.TokenKind) :
  parser_match p k = (true, p') ->
  exists tok,
    parser_previous p' = Some tok /\ In tok (p_tokens p)
    /\ Lexer.kind tok = k.
Proof.
  unfold parser_match. destruct (parser_check p k) eqn:Hc; [|discriminate].
  intros [= <-].
  destruct (advance_token p k Hc) as (tok & E & Hin & Hk).
  exists tok. split; [|now split].
  unfold parser_advance in *. now injection E as -> _.
Qed.

Lemma expected_expression_error (p : Parser) :
  has_error (expected_expression p) = true.
Proof. unfold expected_expression. now destruct (parser_current p). Qed.



Ltac facts :=
  repeat match goal with
         | E : parser_match _ _ = (true, _) |- _ =>
             let tok := fresh "tok" in
             destruct (match_previous _ _ _ E) as (tok & ? & ? & ?);
             apply parser_match_advanced in E
         | E : parser_match _ _ = (false, _) |- _ =>
             apply parser_match_advanced in E
         | E : parser_expect _ _ _ = (Some _, _) |- _ =>
             destruct (expect_in _ _ _ _ _ E);
             apply parser_expect_advanced in E
         | E : parser_expect _ _ _ = (None, _) |- _ =>
             apply expect_none in E
         | C : parser_check ?p _ = true, E : parser_advance ?p = _ |- _ =>
             let tok := fresh "tok" in
             destruct (advance_checked _ _ _ _ C E) as (tok & -> & ? & ?);
             apply parser_advance_advanced in E
         | E : match_operator _ _ = Some _ |- _ =>
             apply match_operator_advanced in E
         | E : parse_type _ = (_, ?q), E' : has_error ?q = false |- _ =>
             apply parse_type_advanced in E; [|exact E']
         end.

Ltac same_tokens :=
  unfold advanced, set_current in *;
  cbn [p_tokens error_msg has_error p_current] in *;
  repeat match goal with
         | H : _ /\ _ |- _ => destruct H
         end;
  repeat match goal with
         | H : p_tokens _ = _ |- _ => rewrite H in *
         end.

Ltac no_lexeme :=
  exfalso;
  repeat match goal with
         | H : parser_previous _ = Some _ |- _ => rewrite H in *
         end;
  cbn [token_lexeme] in *;
  same_tokens;
  unfold identifiers_named in *;
  match goal with
  | HF : Forall _ _, Hin : In ?t _, Hk : Lexer.kind ?t = _,
    Hl : Lexer.lexeme ?t = None |- _ =>
      rewrite Forall_forall in HF; exact (HF t Hin Hk Hl)
  | Hp : Some _ = None |- _ => discriminate Hp
  end.

Lemma failed_expression_reports (fuel : nat) :
  (forall p p', parse_expression fuel p = PNull p' -> identifiers_named (p_tokens p) -> has_error p' = true)
  /\ (forall p p', parse_primary fuel p = PNull p' -> identifiers_named (p_tokens p) -> has_error p' = true)
  /\ (forall p p', parse_unary fuel p = PNull p' -> identifiers_named (p_tokens p) -> has_error p' = true)
  /\ (forall p p', parse_factor fuel p = PNull p' -> identifiers_named (p_tokens p) -> has_error p' = true)
  /\ (forall p p', parse_term fuel p = PNull p' -> identifiers_named (p_tokens p) -> has_error p' = true)
  /\ (forall p p', parse_comparison fuel p = PNull p' -> identifiers_named (p_tokens p) -> has_error p' = true)
  /\ (forall p p', parse_equality fuel p = PNull p' -> identifiers_named (p_tokens p) -> has_error p' = true)
  /\ (forall p p', parse_logical_and fuel p = PNull p' -> identifiers_named (p_tokens p) -> has_error p' = true)
  /\ (forall p p', parse_logical_or fuel p = PNull p' -> identifiers_named (p_tokens p) -> has_error p' = true)
  /\ (forall p acc p', parse_arguments fuel p acc = PNull p' -> identifiers_named (p_tokens p) -> has_error p' = true)
  /\ (forall lhs p p', parse_factor_loop fuel lhs p = PNull p' -> identifiers_named (p_tokens p) -> has_error p' = true)
  /\ (forall lhs p p', parse_term_loop fuel lhs p = PNull p' -> identifiers_named (p_tokens p) -> has_error p' = true)
  /\ (forall lhs p p', parse_comparison_loop fuel lhs p = PNull p' -> identifiers_named (p_tokens p) -> has_error p' = true)
  /\ (forall lhs p p', parse_equality_loop fuel lhs p = PNull p' -> identifiers_named (p_tokens p) -> has_error p' = true)
  /\ (forall lhs p p', parse_logical_and_loop fuel lhs p = PNull p' -> identifiers_named (p_tokens p) -> has_error p' = true)
  /\ (forall lhs p p', parse_logical_or_loop fuel lhs p = PNull p' -> identifiers_named (p_tokens p) -> has_error p' = true).
Proof.
  induction fuel as [|f (IH0 & IH1 & IH2 & IH3 & IH4 & IH5 & IH6 & IH7 & IH8 & IH9 & IH10 & IH11 & IH12 & IH13 & IH14 & IH15)].
  - repeat split; intros; discriminate.
  - repeat split; intros;
      match goal with
      | H : _ = PNull _ |- _ =>
          cbn [parse_expression parse_primary parse_unary parse_factor parse_term parse_comparison parse_equality parse_logical_and parse_logical_or parse_arguments parse_factor_loop parse_term_loop parse_comparison_loop parse_equality_loop parse_logical_and_loop parse_logical_or_loop] in H;
          unfold with_name in H
      end;
      split_all;
      repeat match goal with
             | E : PNull _ = PNull _ |- _ => injection E as ?; subst
             end;
      use_expressions; facts;
      first [ assumption
            | apply expected_expression_error
            | match goal with
              | E : _ = PNull _ |- _ =>
                  first [ apply IH0 in E | apply IH1 in E | apply IH2 in E | apply IH3 in E | apply IH4 in E | apply IH5 in E | apply IH6 in E | apply IH7 in E | apply IH8 in E | apply IH9 in E | apply IH10 in E | apply IH11 in E | apply IH12 in E | apply IH13 in E | apply IH14 in E | apply IH15 in E ];
                  [exact E | same_tokens; assumption]
              end
            | no_lexeme ].
Qed.

Ltac failed_expression :=
  match goal with
  | E : _ = PNull _ |- _ =>
      first [ apply (proj1 (failed_expression_reports _)) in E
                    | apply (proj1 (proj2 (failed_expression_reports _))) in E
                    | apply (proj1 (proj2 (proj2 (failed_expression_reports _)))) in E
                    | apply (proj1 (proj2 (proj2 (proj2 (failed_expression_reports _))))) in E
                    | apply (proj1 (proj2 (proj2 (proj2 (proj2 (failed_expression_reports _)))))) in E
                    | apply (proj1 (proj2 (proj2 (proj2 (proj2 (proj2 (failed_expression_reports _))))))) in E
                    | apply (proj1 (proj2 (proj2 (proj2 (proj2 (proj2 (proj2 (failed_expression_reports _)))))))) in E
                    | apply (proj1 (proj2 (proj2 (proj2 (proj2 (proj2 (proj2 (proj2 (failed_expression_reports _))))))))) in E
                    | apply (proj1 (proj2 (proj2 (proj2 (proj2 (proj2 (proj2 (proj2 (proj2 (failed_expression_reports _)))))))))) in E
                    | apply (proj1 (proj2 (proj2 (proj2 (proj2 (proj2 (proj2 (proj2 (proj2 (proj2 (failed_expression_reports _))))))))))) in E
                    | apply (proj1 (proj2 (proj2 (proj2 (proj2 (proj2 (proj2 (proj2 (proj2 (proj2 (proj2 (failed_expression_reports _)))))))))))) in E
                    | apply (proj1 (proj2 (proj2 (proj2 (proj2 (proj2 (proj2 (proj2 (proj2 (proj2 (proj2 (proj2 (failed_expression_reports _))))))))))))) in E
                    | apply (proj1 (proj2 (proj2 (proj2 (proj2 (proj2 (proj2 (proj2 (proj2 (proj2 (proj2 (proj2 (proj2 (failed_expression_reports _)))))))))))))) in E
                    | apply (proj1 (proj2 (proj2 (proj2 (proj2 (proj2 (proj2 (proj2 (proj2 (proj2 (proj2 (proj2 (proj2 (proj2 (failed_expression_reports _))))))))))))))) in E
                    | apply (proj1 (proj2 (proj2 (proj2 (proj2 (proj2 (proj2 (proj2 (proj2 (proj2 (proj2 (proj2 (proj2 (proj2 (proj2 (failed_expression_reports _)))))))))))))))) in E
                    | apply (proj2 (proj2 (proj2 (proj2 (proj2 (proj2 (proj2 (proj2 (proj2 (proj2 (proj2 (proj2 (proj2 (proj2 (proj2 (failed_expression_reports _)))))))))))))))) in E ];
      [exact E | same_tokens; assumption]
  end.

Ltac drop_null :=
  repeat match goal with
         | E : PNull _ = PNull _ |- _ => injection E as ?; subst
         end.

Lemma failed_var_decl_reports fuel p p' :
  parse_var_decl fuel p = PNull p' -> identifiers_named (p_tokens p) -> has_error p' = true.
Proof.
  unfold parse_var_decl, with_name. intros H HF. split_all; drop_null;
    use_expressions; facts;
    first [assumption | failed_expression | no_lexeme].
Qed.

Lemma failed_return_statement_reports fuel p p' :
  parse_return_statement fuel p = PNull p' -> identifiers_named (p_tokens p) ->
  has_error p' = true.
Proof.
  unfold parse_return_statement. intros H HF. split_all; drop_null;
    use_expressions; facts;
    first [assumption | failed_expression | no_lexeme].
Qed.

Lemma failed_statement_reports (fuel : nat) :
  (forall p p', parse_statement fuel p = PNull p' -> identifiers_named (p_tokens p) ->
                has_error p' = true)
  /\ (forall p p', parse_if_statement fuel p = PNull p' -> identifiers_named (p_tokens p) ->
                   has_error p' = true)
  /\ (forall p p', parse_while_statement fuel p = PNull p' -> identifiers_named (p_tokens p) ->
                   has_error p' = true)
  /\ (forall p p', parse_block fuel p = PNull p' -> identifiers_named (p_tokens p) ->
                   has_error p' = true)
  /\ (forall p acc p', parse_block_loop fuel p acc = PNull p' -> identifiers_named (p_tokens p) ->
                       has_error p' = true).
Proof.
  induction fuel as [|f (IHs & IHi & IHw & IHb & IHl)].
  - repeat split; intros; discriminate.
  - repeat split; intros;
      match goal with
      | H : _ = PNull _ |- _ =>
          cbn [parse_statement parse_if_statement parse_while_statement
               parse_block parse_block_loop] in H;
          unfold with_name in H
      end;
      split_all; drop_null; use_statements; use_expressions; facts;
      first [ assumption
            | failed_expression
            | match goal with
              | E : _ = PNull _ |- _ =>
                  first [ apply failed_var_decl_reports in E
                        | apply failed_return_statement_reports in E
                        | apply IHs in E | apply IHi in E | apply IHw in E
                        | apply IHb in E | apply IHl in E ];
                  [exact E | same_tokens; assumption]
              end
            | no_lexeme ].
Qed.

Lemma failed_parameters_reports (fuel : nat) :
  forall p acc p',
    parse_parameters fuel p acc = PNull p' -> identifiers_named (p_tokens p) ->
    has_error p' = true.
Proof.
  induction fuel as [|f IH]; intros p acc p' H HF;
    cbn [parse_parameters] in H; [discriminate|].
  split_all; drop_null; facts;
    first [ assumption
          | match goal with
            | E : parse_parameters _ _ _ = PNull _ |- _ =>
                apply IH in E; [exact E | same_tokens; assumption]
            end
          | no_lexeme ].
Qed.

Lemma failed_function_reports fuel p p' :
  parse_function fuel p = PNull p' -> identifiers_named (p_tokens p) -> has_error p' = true.
Proof.
  unfold parse_function, with_name. intros H HF.
  split_all; drop_null;
    repeat match goal with
           | E : parse_parameters _ _ _ = POk _ _ |- _ =>
               apply parse_parameters_advanced in E
           end;
    use_statements; facts;
    first [ assumption
          | match goal with
            | E : _ = PNull _ |- _ =>
                first [ apply failed_parameters_reports in E
                      | apply (proj1 (proj2 (proj2 (proj2
                                 (failed_statement_reports _))))) in E ];
                [exact E | same_tokens; assumption]
            end
          | no_lexeme ].
Qed.

Lemma failed_program_loop_reports (fuel : nat) :
  forall p acc p',
    parse_program_loop fuel p acc = PNull p' -> identifiers_named (p_tokens p) ->
    has_error p' = true.
Proof.
  induction fuel as [|f IH]; intros p acc p' H HF;
    cbn [parse_program_loop] in H; [discriminate|].
  destruct (negb (parser_is_at_end p)); [|discriminate].
  destruct (parse_function f p) as [fn q|q| |] eqn:E; try discriminate.
  - apply parse_function_advanced in E.
    apply IH in H; [exact H | same_tokens; assumption].
  - injection H as <-. exact (failed_function_reports _ _ _ E HF).
Qed.

Lemma parse_failure_message (fuel : nat) (toks : Lexer.TokenList)
  (msg : option string) :
  identifiers_named toks ->
  parse_tokens_fuel fuel toks = Parsed None msg ->
  msg <> None.
Proof.
  unfold parse_tokens_fuel. intros HF H.
  destruct toks as [|t toks]; [now injection H as <-|].
  destruct (parse_program fuel _) as [a q|q| |] eqn:E; try discriminate.
  injection H as <-.
  assert (has_error q = true) as ->; [|discriminate].
  unfold parse_program in E.
  destruct (parse_program_loop fuel _ []) as [l r|r| |] eqn:El;
    try discriminate.
  - destruct l; [|discriminate]. now injection E as <-.
  - injection E as <-.
    exact (failed_program_loop_reports _ _ _ _ El HF).
Qed.

(** X27: when every identifier token of the list carries its text, no
    allocation of a tree node fails and [parse_tokens] returns NULL, it
    wrote an error message. *)
Theorem failed_parse_reports (fuel : nat) (toks : Lexer.TokenList)
  (msg : option string) :
  identifiers_named toks ->
  parse_tokens_fuel fuel toks = Parsed None msg ->
  msg <> None.
Proof. apply parse_failure_message. Qed.

Lemma failed_parse_reports_witness :
  identifiers_named
    [Lexer.mkToken Lexer.TOKEN_FUNC (Some "func") 4 0 1 0;
     Lexer.mkToken Lexer.TOKEN_EOF None 0 0 1 4]
  /\ parse_tokens_fuel 8
       [Lexer.mkToken Lexer.TOKEN_FUNC (Some "func") 4 0 1 0;
        Lexer.mkToken Lexer.TOKEN_EOF None 0 0 1 4]
     = Parsed None
         (Some "Expected function name at line 1, column 4. Got 'EOF'")
  /\ Some "Expected function name at line 1, column 4. Got 'EOF'"
     <> None.
Proof.
  assert (H : identifiers_named
                [Lexer.mkToken Lexer.TOKEN_FUNC (Some "func") 4 0 1 0;
                 Lexer.mkToken Lexer.TOKEN_EOF None 0 0 1 4])
    by (repeat constructor; discriminate).
  split; [exact H|]. split; [reflexivity|].
  exact (failed_parse_reports 8 _ _ H eq_refl).
Defined.

Lemma shaped_identifiers_named (toks : Lexer.TokenList) :
  Forall Lexer.token_shape toks -> identifiers_named toks.
Proof.
  unfold identifiers_named. apply Forall_impl.
  intros t Ht Hk Hl. unfold Lexer.token_shape in Ht. rewrite Hl in Ht.
  destruct Ht as (He & _). rewrite He in Hk. discriminate.
Qed.

(** X28: when the token list that [lex_source] returns for a source
    text is handed to [parse_tokens] and [parse_tokens] returns NULL,
    with no allocation failing, [parse_tokens] wrote an error message. *)
Theorem failed_source_parse_reports (source_code : string)
  (msg : option string) :
  parse_source source_code = Some (Parsed None msg) -> msg <> None.
Proof.
  unfold parse_source, parse_tokens.
  destruct (Lexer.lex_source source_code) as [toks|] eqn:E; [|discriminate].
  intros [= H]. apply TokenShape.lex_source_tokens_shaped in E.
  exact (parse_failure_message _ _ _ (shaped_identifiers_named _ E) H).
Qed.

Lemma failed_source_parse_reports_witness :
  parse_source "func main( : int { }"
  = Some (Parsed None
            (Some "Expected parameter name at line 1, column 11. Got ':'"))
  /\ Some "Expected parameter name at line 1, column 11. Got ':'" <> None.
Proof.
  split; [vm_compute; reflexivity|].
  apply (failed_source_parse_reports "func main( : int { }").
  vm_compute. reflexivity.
Defined.

End ParseFailure.

(* ------------------------------------------------------------------ *)
(** * The parser returns *)

Module ParserTotal.
Import AST Parser ParserShape ParseFailure.

(** ** Tokens consumed *)

Lemma check_left (p : Parser) (k : Lexer.TokenKind) :
  parser_check p k = true -> (p_current p < List.length (p_tokens p))%nat.
Proof.
  unfold parser_check, parser_is_at_end, parser_current, p_count.
  destruct (Nat.leb_spec (List.length (p_tokens p)) (p_current p));
    [discriminate | intros _; assumption].
Qed.

Lemma advance_left (p p' : Parser) (k : Lexer.TokenKind)
  (t : option Lexer.Token) :
  parser_check p k = true ->
  parser_advance p = (t, p') ->
  S (tokens_left p') = tokens_left p.
Proof.
  intros Hc E. pose proof (check_left p k Hc) as Hlt.
  destruct (advance_token p k Hc) as (tok & E' & _).
  rewrite E' in E. injection E as _ <-.
  unfold tokens_left, set_current. cbn [p_tokens p_current]. lia.
Qed.

Lemma match_left (p p' : Parser) (k : Lexer.TokenKind) :
  parser_match p k = (true, p') -> S (tokens_left p') = tokens_left p.
Proof.
  unfold parser_match. destruct (parser_check p k) eqn:Hc; [|discriminate].
  intros [= <-].
  apply (advance_left p _ k (fst (parser_advance p)) Hc).
  symmetry. apply surjective_pairing.
Qed.

Lemma match_stays (p p' : Parser) (k : Lexer.TokenKind) :
  parser_match p k = (false, p') -> p' = p.
Proof.
  unfold parser_match. destruct (parser_check p k); [discriminate|].
  now intros [= <-].
Qed.

Lemma expect_left (p p' : Parser) (k : Lexer.TokenKind) (msg : string)
  (t : Lexer.Token) :
  parser_expect p k msg = (Some t, p') -> S (tokens_left p') = tokens_left p.
Proof.
  unfold parser_expect. destruct (parser_check p k) eqn:Hc.
  - exact (advance_left p p' k (Some t) Hc).
  - destruct (parser_current p); discriminate.
Qed.

Lemma match_operator_left (ops : list (Lexer.TokenKind * BinaryKind))
  (p p' : Parser) (k : BinaryKind) :
  match_operator p ops = Some (k, p') -> S (tokens_left p') = tokens_left p.
Proof.
  induction ops as [|[tk bk] ops IH]; cbn [match_operator]; [discriminate|].
  destruct (parser_match p tk) as [m q] eqn:E.
  destruct m; [|exact IH].
  intros [= _ <-]. exact (match_left _ _ _ E).
Qed.

Lemma parse_type_left (p p' : Parser) (ty : Type_) :
  parse_type p = (ty, p') -> has_error p' = false ->
  S (tokens_left p') = tokens_left p.
Proof.
  unfold parse_type. intros H Hok. split_all;
    repeat match goal with
           | E : parser_match _ _ = (true, _) |- _ => apply match_left in E
           | E : parser_match _ _ = (false, _) |- _ =>
               apply match_stays in E; subst
           end;
    try discriminate Hok; assumption.
Qed.

Lemma tokens_left_checkpoint (p : Parser) :
  tokens_left (set_current p (p_current p)) = tokens_left p.
Proof. reflexivity. Qed.

(** What the steps of a parse say about the tokens left. *)
Ltac left_facts :=
  repeat match goal with
         | E : parser_match _ _ = (true, _) |- _ => apply match_left in E
         | E : parser_match _ _ = (false, _) |- _ =>
             apply match_stays in E; subst
         | E : parser_expect _ _ _ = (Some _, _) |- _ => apply expect_left in E
         | C : parser_check ?p _ = true, E : parser_advance ?p = _ |- _ =>
             apply (advance_left _ _ _ _ C) in E
         | E : match_operator _ _ = Some _ |- _ =>
             apply match_operator_left in E
         | E : parse_type _ = (_, ?q), E' : has_error ?q = false |- _ =>
             apply parse_type_left in E; [|exact E']
         end;
  rewrite ?tokens_left_checkpoint in *.


Lemma expression_parsers_consume (fuel : nat) :
  (forall p e p', parse_expression fuel p = POk e p' -> (tokens_left p' < tokens_left p)%nat)
  /\ (forall p e p', parse_primary fuel p = POk e p' -> (tokens_left p' < tokens_left p)%nat)
  /\ (forall p e p', parse_unary fuel p = POk e p' -> (tokens_left p' < tokens_left p)%nat)
  /\ (forall p e p', parse_factor fuel p = POk e p' -> (tokens_left p' < tokens_left p)%nat)
  /\ (forall p e p', parse_term fuel p = POk e p' -> (tokens_left p' < tokens_left p)%nat)
  /\ (forall p e p', parse_comparison fuel p = POk e p' -> (tokens_left p' < tokens_left p)%nat)
  /\ (forall p e p', parse_equality fuel p = POk e p' -> (tokens_left p' < tokens_left p)%nat)
  /\ (forall p e p', parse_logical_and fuel p = POk e p' -> (tokens_left p' < tokens_left p)%nat)
  /\ (forall p e p', parse_logical_or fuel p = POk e p' -> (tokens_left p' < tokens_left p)%nat)
  /\ (forall p acc l p', parse_arguments fuel p acc = POk l p' -> (tokens_left p' < tokens_left p)%nat)
  /\ (forall lhs p e p', parse_factor_loop fuel lhs p = POk e p' -> (tokens_left p' <= tokens_left p)%nat)
  /\ (forall lhs p e p', parse_term_loop fuel lhs p = POk e p' -> (tokens_left p' <= tokens_left p)%nat)
  /\ (forall lhs p e p', parse_comparison_loop fuel lhs p = POk e p' -> (tokens_left p' <= tokens_left p)%nat)
  /\ (forall lhs p e p', parse_equality_loop fuel lhs p = POk e p' -> (tokens_left p' <= tokens_left p)%nat)
  /\ (forall lhs p e p', parse_logical_and_loop fuel lhs p = POk e p' -> (tokens_left p' <= tokens_left p)%nat)
  /\ (forall lhs p e p', parse_logical_or_loop fuel lhs p = POk e p' -> (tokens_left p' <= tokens_left p)%nat).
Proof.
  induction fuel as [|f (IH0 & IH1 & IH2 & IH3 & IH4 & IH5 & IH6 & IH7 & IH8 & IH9 & IH10 & IH11 & IH12 & IH13 & IH14 & IH15)].
  - repeat split; intros; discriminate.
  - repeat split; intros;
      match goal with
      | H : _ = POk _ _ |- _ =>
          cbn [parse_expression parse_primary parse_unary parse_factor parse_term parse_comparison parse_equality parse_logical_and parse_logical_or parse_arguments parse_factor_loop parse_term_loop parse_comparison_loop parse_equality_loop parse_logical_and_loop parse_logical_or_loop] in H;
          unfold with_name in H
      end;
      split_all;
      repeat match goal with
             | E : _ = POk _ _ |- _ => first [ apply IH0 in E | apply IH1 in E | apply IH2 in E | apply IH3 in E | apply IH4 in E | apply IH5 in E | apply IH6 in E | apply IH7 in E | apply IH8 in E | apply IH9 in E | apply IH10 in E | apply IH11 in E | apply IH12 in E | apply IH13 in E | apply IH14 in E | apply IH15 in E ]
             end;
      left_facts; lia.
Qed.

Ltac consumed_expressions :=
  repeat match goal with
         | E : _ = POk _ _ |- _ =>
             first [ apply (proj1 (expression_parsers_consume _)) in E
                 | apply (proj1 (proj2 (expression_parsers_consume _))) in E
                 | apply (proj1 (proj2 (proj2 (expression_parsers_consume _)))) in E
                 | apply (proj1 (proj2 (proj2 (proj2 (expression_parsers_consume _))))) in E
                 | apply (proj1 (proj2 (proj2 (proj2 (proj2 (expression_parsers_consume _)))))) in E
                 | apply (proj1 (proj2 (proj2 (proj2 (proj2 (proj2 (expression_parsers_consume _))))))) in E
                 | apply (proj1 (proj2 (proj2 (proj2 (proj2 (proj2 (proj2 (expression_parsers_consume _)))))))) in E
                 | apply (proj1 (proj2 (proj2 (proj2 (proj2 (proj2 (proj2 (proj2 (expression_parsers_consume _))))))))) in E
                 | apply (proj1 (proj2 (proj2 (proj2 (proj2 (proj2 (proj2 (proj2 (proj2 (expression_parsers_consume _)))))))))) in E
                 | apply (proj1 (proj2 (proj2 (proj2 (proj2 (proj2 (proj2 (proj2 (proj2 (proj2 (expression_parsers_consume _))))))))))) in E
                 | apply (proj1 (proj2 (proj2 (proj2 (proj2 (proj2 (proj2 (proj2 (proj2 (proj2 (proj2 (expression_parsers_consume _)))))))))))) in E
                 | apply (proj1 (proj2 (proj2 (proj2 (proj2 (proj2 (proj2 (proj2 (proj2 (proj2 (proj2 (proj2 (expression_parsers_consume _))))))))))))) in E
                 | apply (proj1 (proj2 (proj2 (proj2 (proj2 (proj2 (proj2 (proj2 (proj2 (proj2 (proj2 (proj2 (proj2 (expression_parsers_consume _)))))))))))))) in E
                 | apply (proj1 (proj2 (proj2 (proj2 (proj2 (proj2 (proj2 (proj2 (proj2 (proj2 (proj2 (proj2 (proj2 (proj2 (expression_parsers_consume _))))))))))))))) in E
                 | apply (proj1 (proj2 (proj2 (proj2 (proj2 (proj2 (proj2 (proj2 (proj2 (proj2 (proj2 (proj2 (proj2 (proj2 (proj2 (expression_parsers_consume _)))))))))))))))) in E
                 | apply (proj2 (proj2 (proj2 (proj2 (proj2 (proj2 (proj2 (proj2 (proj2 (proj2 (proj2 (proj2 (proj2 (proj2 (proj2 (expression_parsers_consume _)))))))))))))))) in E ]
         end.

Lemma expressions_defined (fuel : nat) :
  (forall p, parse_expression fuel p <> PUndefined)
  /\ (forall p, parse_primary fuel p <> PUndefined)
  /\ (forall p, parse_unary fuel p <> PUndefined)
  /\ (forall p, parse_factor fuel p <> PUndefined)
  /\ (forall p, parse_term fuel p <> PUndefined)
  /\ (forall p, parse_comparison fuel p <> PUndefined)
  /\ (forall p, parse_equality fuel p <> PUndefined)
  /\ (forall p, parse_logical_and fuel p <> PUndefined)
  /\ (forall p, parse_logical_or fuel p <> PUndefined)
  /\ (forall p acc, parse_arguments fuel p acc <> PUndefined)
  /\ (forall lhs p, parse_factor_loop fuel lhs p <> PUndefined)
  /\ (forall lhs p, parse_term_loop fuel lhs p <> PUndefined)
  /\ (forall lhs p, parse_comparison_loop fuel lhs p <> PUndefined)
  /\ (forall lhs p, parse_equality_loop fuel lhs p <> PUndefined)
  /\ (forall lhs p, parse_logical_and_loop fuel lhs p <> PUndefined)
  /\ (forall lhs p, parse_logical_or_loop fuel lhs p <> PUndefined).
Proof.
  induction fuel as [|f (IH0 & IH1 & IH2 & IH3 & IH4 & IH5 & IH6 & IH7 & IH8 & IH9 & IH10 & IH11 & IH12 & IH13 & IH14 & IH15)].
  - repeat split; intros; discriminate.
  - repeat split; intros; intros H;
      cbn [parse_expression parse_primary parse_unary parse_factor parse_term parse_comparison parse_equality parse_logical_and parse_logical_or parse_arguments parse_factor_loop parse_term_loop parse_comparison_loop parse_equality_loop parse_logical_and_loop parse_logical_or_loop] in H;
      unfold with_name in H;
      split_all;
      match goal with
      | E : _ = PUndefined |- _ =>
          first [ exact (IH0 _ E) | exact (IH1 _ E) | exact (IH2 _ E) | exact (IH3 _ E) | exact (IH4 _ E) | exact (IH5 _ E) | exact (IH6 _ E) | exact (IH7 _ E) | exact (IH8 _ E)
                | exact (IH9 _ _ E)
                | exact (IH10 _ _ E) | exact (IH11 _ _ E) | exact (IH12 _ _ E) | exact (IH13 _ _ E) | exact (IH14 _ _ E) | exact (IH15 _ _ E) ]
      end.
Qed.

Lemma expressions_fuel (fuel : nat) :
  (forall p, (32 * tokens_left p + 9 <= fuel)%nat -> parse_expression fuel p <> POutOfFuel)
  /\ (forall p, (32 * tokens_left p + 1 <= fuel)%nat -> parse_primary fuel p <> POutOfFuel)
  /\ (forall p, (32 * tokens_left p + 2 <= fuel)%nat -> parse_unary fuel p <> POutOfFuel)
  /\ (forall p, (32 * tokens_left p + 3 <= fuel)%nat -> parse_factor fuel p <> POutOfFuel)
  /\ (forall p, (32 * tokens_left p + 4 <= fuel)%nat -> parse_term fuel p <> POutOfFuel)
  /\ (forall p, (32 * tokens_left p + 5 <= fuel)%nat -> parse_comparison fuel p <> POutOfFuel)
  /\ (forall p, (32 * tokens_left p + 6 <= fuel)%nat -> parse_equality fuel p <> POutOfFuel)
  /\ (forall p, (32 * tokens_left p + 7 <= fuel)%nat -> parse_logical_and fuel p <> POutOfFuel)
  /\ (forall p, (32 * tokens_left p + 8 <= fuel)%nat -> parse_logical_or fuel p <> POutOfFuel)
  /\ (forall p acc, (32 * tokens_left p + 10 <= fuel)%nat -> parse_arguments fuel p acc <> POutOfFuel)
  /\ (forall lhs p, (32 * tokens_left p + 1 <= fuel)%nat -> parse_factor_loop fuel lhs p <> POutOfFuel)
  /\ (forall lhs p, (32 * tokens_left p + 1 <= fuel)%nat -> parse_term_loop fuel lhs p <> POutOfFuel)
  /\ (forall lhs p, (32 * tokens_left p + 1 <= fuel)%nat -> parse_comparison_loop fuel lhs p <> POutOfFuel)
  /\ (forall lhs p, (32 * tokens_left p + 1 <= fuel)%nat -> parse_equality_loop fuel lhs p <> POutOfFuel)
  /\ (forall lhs p, (32 * tokens_left p + 1 <= fuel)%nat -> parse_logical_and_loop fuel lhs p <> POutOfFuel)
  /\ (forall lhs p, (32 * tokens_left p + 1 <= fuel)%nat -> parse_logical_or_loop fuel lhs p <> POutOfFuel).
Proof.
  induction fuel as [|f (IH0 & IH1 & IH2 & IH3 & IH4 & IH5 & IH6 & IH7 & IH8 & IH9 & IH10 & IH11 & IH12 & IH13 & IH14 & IH15)].
  - repeat split; intros; lia.
  - repeat split; intros;
      match goal with
      | Hb : (_ <= S f)%nat |- _ <> _ =>
          intros Hout;
          cbn [parse_expression parse_primary parse_unary parse_factor parse_term parse_comparison parse_equality parse_logical_and parse_logical_or parse_arguments parse_factor_loop parse_term_loop parse_comparison_loop parse_equality_loop parse_logical_and_loop parse_logical_or_loop] in Hout;
          unfold with_name in Hout;
          split_all; consumed_expressions; left_facts;
          match goal with
          | E : _ = POutOfFuel |- _ =>
              first [ refine (IH0 _ _ E); lia
                    | refine (IH1 _ _ E); lia
                    | refine (IH2 _ _ E); lia
                    | refine (IH3 _ _ E); lia
                    | refine (IH4 _ _ E); lia
                    | refine (IH5 _ _ E); lia
                    | refine (IH6 _ _ E); lia
                    | refine (IH7 _ _ E); lia
                    | refine (IH8 _ _ E); lia
                    | refine (IH9 _ _ _ E); lia
                    | refine (IH10 _ _ _ E); lia
                    | refine (IH11 _ _ _ E); lia
                    | refine (IH12 _ _ _ E); lia
                    | refine (IH13 _ _ _ E); lia
                    | refine (IH14 _ _ _ E); lia
                    | refine (IH15 _ _ _ E); lia ]
          end
      end.
Qed.

Ltac expression_fuel :=
  match goal with
  | E : parse_expression _ _ = POutOfFuel |- _ =>
      refine (proj1 (expressions_fuel _) _ _ E);
      rewrite ?tokens_left_checkpoint; lia
  end.

Ltac expression_defined :=
  match goal with
  | E : parse_expression _ _ = PUndefined |- _ =>
      exact (proj1 (expressions_defined _) _ E)
  end.

Lemma parse_var_decl_consumes fuel p s p' :
  parse_var_decl fuel p = POk s p' -> (tokens_left p' < tokens_left p)%nat.
Proof.
  unfold parse_var_decl, with_name. intros H. split_all.
  consumed_expressions. left_facts. lia.
Qed.

Lemma parse_return_statement_consumes fuel p s p' :
  parse_return_statement fuel p = POk s p' ->
  (tokens_left p' < tokens_left p)%nat.
Proof.
  unfold parse_return_statement. intros H. split_all;
    consumed_expressions; left_facts; lia.
Qed.

Lemma statement_parsers_consume (fuel : nat) :
  (forall p s p', parse_statement fuel p = POk s p' ->
                  (tokens_left p' < tokens_left p)%nat)
  /\ (forall p s p', parse_if_statement fuel p = POk s p' ->
                     (tokens_left p' < tokens_left p)%nat)
  /\ (forall p s p', parse_while_statement fuel p = POk s p' ->
                     (tokens_left p' < tokens_left p)%nat)
  /\ (forall p s p', parse_block fuel p = POk s p' ->
                     (tokens_left p' < tokens_left p)%nat)
  /\ (forall p acc l p', parse_block_loop fuel p acc = POk l p' ->
                         (tokens_left p' <= tokens_left p)%nat).
Proof.
  induction fuel as [|f (IHs & IHi & IHw & IHb & IHl)].
  - repeat split; intros; discriminate.
  - repeat split; intros;
      match goal with
      | H : _ = POk _ _ |- _ =>
          cbn [parse_statement parse_if_statement parse_while_statement
               parse_block parse_block_loop] in H;
          unfold with_name in H
      end;
      split_all;
      repeat match goal with
             | E : parse_var_decl _ _ = POk _ _ |- _ =>
                 apply parse_var_decl_consumes in E
             | E : parse_return_statement _ _ = POk _ _ |- _ =>
                 apply parse_return_statement_consumes in E
             | E : _ = POk _ _ |- _ =>
                 first [ apply IHs in E | apply IHi in E | apply IHw in E
                       | apply IHb in E | apply IHl in E ]
             end;
      consumed_expressions; left_facts; lia.
Qed.

Ltac consumed_statements :=
  repeat match goal with
         | E : parse_var_decl _ _ = POk _ _ |- _ =>
             apply parse_var_decl_consumes in E
         | E : parse_return_statement _ _ = POk _ _ |- _ =>
             apply parse_return_statement_consumes in E
         | E : _ = POk _ _ |- _ =>
             first [ apply (proj1 (statement_parsers_consume _)) in E
                 | apply (proj1 (proj2 (statement_parsers_consume _))) in E
                 | apply (proj1 (proj2 (proj2 (statement_parsers_consume _)))) in E
                 | apply (proj1 (proj2 (proj2 (proj2 (statement_parsers_consume _))))) in E
                 | apply (proj2 (proj2 (proj2 (proj2 (statement_parsers_consume _))))) in E ]
         end.

Lemma parse_var_decl_fuel fuel p :
  (32 * tokens_left p <= fuel)%nat -> parse_var_decl fuel p <> POutOfFuel.
Proof.
  unfold parse_var_decl, with_name. intros Hb H. split_all.
  consumed_expressions. left_facts. expression_fuel.
Qed.

Lemma parse_return_statement_fuel fuel p :
  (32 * tokens_left p + 9 <= fuel)%nat ->
  parse_return_statement fuel p <> POutOfFuel.
Proof.
  unfold parse_return_statement. intros Hb H. split_all;
    consumed_expressions; left_facts; expression_fuel.
Qed.

Lemma statements_fuel (fuel : nat) :
  (forall p, (32 * tokens_left p + 10 <= fuel)%nat ->
             parse_statement fuel p <> POutOfFuel)
  /\ (forall p, (32 * tokens_left p + 1 <= fuel)%nat ->
                parse_if_statement fuel p <> POutOfFuel)
  /\ (forall p, (32 * tokens_left p + 1 <= fuel)%nat ->
                parse_while_statement fuel p <> POutOfFuel)
  /\ (forall p, (32 * tokens_left p + 1 <= fuel)%nat ->
                parse_block fuel p <> POutOfFuel)
  /\ (forall p acc, (32 * tokens_left p + 11 <= fuel)%nat ->
                    parse_block_loop fuel p acc <> POutOfFuel).
Proof.
  induction fuel as [|f (IHs & IHi & IHw & IHb & IHl)].
  - repeat split; intros; lia.
  - repeat split; intros;
      match goal with
      | Hb : (_ <= S f)%nat |- _ <> _ =>
          intros Hout;
          cbn [parse_statement parse_if_statement parse_while_statement
               parse_block parse_block_loop] in Hout;
          unfold with_name in Hout;
          split_all; consumed_statements; consumed_expressions; left_facts;
          first
            [ expression_fuel
            | match goal with
              | E : _ = POutOfFuel |- _ =>
                  first [ refine (parse_var_decl_fuel _ _ _ E); lia
                        | refine (parse_return_statement_fuel _ _ _ E); lia
                        | refine (IHs _ _ E); lia
                        | refine (IHi _ _ E); lia
                        | refine (IHw _ _ E); lia
                        | refine (IHb _ _ E); lia
                        | refine (IHl _ _ _ E); lia ]
              end ]
      end.
Qed.

Lemma parse_var_decl_defined fuel p : parse_var_decl fuel p <> PUndefined.
Proof.
  unfold parse_var_decl, with_name. intros H. split_all. expression_defined.
Qed.

Lemma parse_return_statement_defined fuel p :
  parse_return_statement fuel p <> PUndefined.
Proof.
  unfold parse_return_statement. intros H. split_all; expression_defined.
Qed.

Lemma statements_defined (fuel : nat) :
  (forall p, parse_statement fuel p <> PUndefined)
  /\ (forall p, parse_if_statement fuel p <> PUndefined)
  /\ (forall p, parse_while_statement fuel p <> PUndefined)
  /\ (forall p, parse_block fuel p <> PUndefined)
  /\ (forall p acc, parse_block_loop fuel p acc <> PUndefined).
Proof.
  induction fuel as [|f (IHs & IHi & IHw & IHb & IHl)].
  - repeat split; intros; discriminate.
  - repeat split; intros; intros Hout;
      cbn [parse_statement parse_if_statement parse_while_statement
           parse_block parse_block_loop] in Hout;
      unfold with_name in Hout;
      split_all;
      first
        [ expression_defined
        | match goal with
          | E : _ = PUndefined |- _ =>
              first [ exact (parse_var_decl_defined _ _ E)
                    | exact (parse_return_statement_defined _ _ E)
                    | exact (IHs _ E) | exact (IHi _ E) | exact (IHw _ E)
                    | exact (IHb _ E) | exact (IHl _ _ E) ]
          end ].
Qed.

(** ** Functions and programs *)

Lemma parse_parameters_consumes (fuel : nat) :
  forall p acc l p',
    parse_parameters fuel p acc = POk l p' ->
    (tokens_left p' < tokens_left p)%nat.
Proof.
  induction fuel as [|f IH]; intros p acc l p' H;
    cbn [parse_parameters] in H; [discriminate|].
  split_all;
    repeat match goal with
           | E : parse_parameters _ _ _ = POk _ _ |- _ => apply IH in E
           end;
    left_facts; lia.
Qed.

Lemma parse_parameters_fuel (fuel : nat) :
  forall p acc,
    (32 * tokens_left p + 1 <= fuel)%nat ->
    parse_parameters fuel p acc <> POutOfFuel.
Proof.
  induction fuel as [|f IH]; intros p acc Hb H; [lia|].
  cbn [parse_parameters] in H. split_all. left_facts.
  match goal with
  | E : parse_parameters _ _ _ = POutOfFuel |- _ => refine (IH _ _ _ E); lia
  end.
Qed.

Lemma parse_parameters_defined (fuel : nat) :
  forall p acc,
    identifiers_named (p_tokens p) ->
    parse_parameters fuel p acc <> PUndefined.
Proof.
  induction fuel as [|f IH]; intros p acc HF H; [discriminate|].
  cbn [parse_parameters] in H. split_all; facts;
    first [ match goal with
            | E : parse_parameters _ _ _ = PUndefined |- _ =>
                refine (IH _ _ _ E); same_tokens; assumption
            end
          | no_lexeme ].
Qed.

Lemma parse_function_consumes fuel p f p' :
  parse_function fuel p = POk f p' -> (tokens_left p' < tokens_left p)%nat.
Proof.
  unfold parse_function, with_name. intros H. split_all;
    repeat match goal with
           | E : parse_parameters _ _ _ = POk _ _ |- _ =>
               apply parse_parameters_consumes in E
           end;
    consumed_statements; left_facts; lia.
Qed.

Lemma parse_function_fuel fuel p :
  (32 * tokens_left p <= fuel)%nat -> parse_function fuel p <> POutOfFuel.
Proof.
  unfold parse_function, with_name. intros Hb H. split_all;
    repeat match goal with
           | E : parse_parameters _ _ _ = POk _ _ |- _ =>
               apply parse_parameters_consumes in E
           end;
    consumed_statements; left_facts;
    match goal with
    | E : _ = POutOfFuel |- _ =>
        first [ refine (parse_parameters_fuel _ _ _ _ E); lia
              | refine (proj1 (proj2 (proj2 (proj2 (statements_fuel _))))
                          _ _ E); lia ]
    end.
Qed.

Lemma parse_function_defined fuel p :
  identifiers_named (p_tokens p) -> parse_function fuel p <> PUndefined.
Proof.
  unfold parse_function, with_name. intros HF H. split_all;
    repeat match goal with
           | E : parse_parameters _ _ _ = POk _ _ |- _ =>
               apply parse_parameters_advanced in E
           end;
    facts;
    match goal with
    | E : _ = PUndefined |- _ =>
        first [ refine (parse_parameters_defined _ _ _ _ E);
                same_tokens; assumption
              | exact (proj1 (proj2 (proj2 (proj2 (statements_defined _))))
                         _ E) ]
    end.
Qed.

Lemma parse_program_loop_fuel (fuel : nat) :
  forall p acc,
    (32 * tokens_left p + 1 <= fuel)%nat ->
    parse_program_loop fuel p acc <> POutOfFuel.
Proof.
  induction fuel as [|f IH]; intros p acc Hb H; [lia|].
  cbn [parse_program_loop] in H.
  destruct (negb (parser_is_at_end p)); [|discriminate].
  destruct (parse_function f p) as [fn q|q| |] eqn:E; try discriminate.
  - apply parse_function_consumes in E. refine (IH _ _ _ H). lia.
  - refine (parse_function_fuel _ _ _ E). lia.
Qed.

Lemma parse_program_loop_defined (fuel : nat) :
  forall p acc,
    identifiers_named (p_tokens p) ->
    parse_program_loop fuel p acc <> PUndefined.
Proof.
  induction fuel as [|f IH]; intros p acc HF H; [discriminate|].
  cbn [parse_program_loop] in H.
  destruct (negb (parser_is_at_end p)); [|discriminate].
  destruct (parse_function f p) as [fn q|q| |] eqn:E; try discriminate.
  - apply parse_function_advanced in E. refine (IH _ _ _ H).
    same_tokens; assumption.
  - exact (parse_function_defined _ _ HF E).
Qed.

(** [parse_tokens] returns: the fuel it is given is enough for every
    token list. *)
Lemma parse_tokens_returns (toks : Lexer.TokenList) :
  parse_tokens toks <> ParseOutOfFuel.
Proof.
  unfold parse_tokens, parse_tokens_fuel, parser_fuel. intros H.
  destruct toks as [|t toks]; [discriminate|].
  destruct (parse_program _ _) as [a q|q| |] eqn:E; try discriminate.
  unfold parse_program in E.
  destruct (parse_program_loop _ _ []) as [l r|r| |] eqn:El;
    try discriminate.
  - destruct l; discriminate.
  - refine (parse_program_loop_fuel _ _ _ _ El).
    unfold tokens_left. cbn [p_tokens p_current]. lia.
Qed.

(** The behaviour of [parse_tokens] is defined on a token list whose
    identifiers carry their text. *)
Lemma parse_tokens_defined (toks : Lexer.TokenList) :
  identifiers_named toks -> parse_tokens toks <> ParseUndefined.
Proof.
  unfold parse_tokens, parse_tokens_fuel. intros HF H.
  destruct toks as [|t toks]; [discriminate|].
  destruct (parse_program _ _) as [a q|q| |] eqn:E; try discriminate.
  unfold parse_program in E.
  destruct (parse_program_loop _ _ []) as [l r|r| |] eqn:El;
    try discriminate.
  - destruct l; discriminate.
  - exact (parse_program_loop_defined _ (mkParser (t :: toks) 0 EmptyString false)
             _ HF El).
Qed.

End ParserTotal.

(* ------------------------------------------------------------------ *)
(** * The four events of the compiler in a chain *)

Module Pipeline.
Import CStr EC Lexer AST Parser TypeChecker Config Compiler.
Local Open Scope Z_scope.

Lemma failure_not_success (msg : string) (code : EventChainErrorCode) :
  success (failure msg code) = false.
Proof. reflexivity. Qed.

(** One step of evaluation on the concrete parts of the state: the
    context, the addresses and the cells of the heap. *)
Ltac eval_state :=
  match goal with
  | |- context [event_context_get ?c ?k] =>
      let r := eval vm_compute in (event_context_get c k) in
      change (event_context_get c k) with r
  | |- context [event_context_set_with_cleanup ?a ?c ?k ?v ?cl] =>
      let r := eval vm_compute in (event_context_set_with_cleanup a c k v cl) in
      change (event_context_set_with_cleanup a c k v cl) with r
  | |- context [heap_get ?h ?p] =>
      let r := eval cbv -[strdup] in (heap_get h p) in
      change (heap_get h p) with r
  | |- context [heap_alloc ?h ?o] =>
      let r := eval cbv -[strdup] in (heap_alloc h o) in
      change (heap_alloc h o) with r
  | |- context [heap_set ?h ?p ?o] =>
      let r := eval cbv -[strdup] in (heap_set h p o) in
      change (heap_set h p o) with r
  | |- context [heap_free ?h ?p] =>
      let r := eval cbv -[strdup] in (heap_free h p) in
      change (heap_free h p) with r
  | |- context [config_at ?h ?p] =>
      let r := eval cbv -[strdup] in (config_at h p) in
      change (config_at h p) with r
  | |- context [?p =? NULL] =>
      let r := eval vm_compute in (p =? NULL) in
      change (p =? NULL) with r
  | |- context [success (failure ?m ?c)] =>
      change (success (failure m c)) with false
  | |- context [success event_result_success] =>
      change (success event_result_success) with true
  end.

Ltac crunch :=
  repeat first
    [ progress cbv beta iota zeta delta
        [store_product run_cleanups List.fold_left orb negb fst snd]
    | eval_state ].

Ltac stopped :=
  cbv beta iota zeta delta
    [stopped_at failed List.filter fst snd];
  repeat match goal with
         | |- context [success (failure ?m ?c)] =>
             change (success (failure m c)) with false
         | |- context [success event_result_success] =>
             change (success event_result_success) with true
         end;
  cbn [negb orb List.length List.map chain_result output_code cr_success
       cr_failures cr_failure_count Z.of_nat];
  repeat split; eexists; eexists; reflexivity.

(** The value of the run of the events, computed in a goal of its own. *)
Ltac run_with tac :=
  match goal with
  | |- context [run_events ?s ?evs ?u ?c ?h] =>
      let Hval := fresh "Hval" in
      eassert (Hval : run_events s evs u c h = _);
      [ cbn [run_events execute_event_direct execute user_data];
        tac; reflexivity
      | rewrite Hval; clear Hval ]
  end.

(** X29: the driver that puts the four compiler events in a strict chain
    and runs it on a source text always returns, whatever the stack
    holds where the parser event has its message buffer, and what it
    returns follows the phases in order.  [lex_source] returns a token
    list for every source text, and [parse_tokens] returns on it: its
    fuel suffices, and no parameter name is duplicated from a token
    without lexeme.  The chain stops at the first phase that fails: at
    the lexer when the token list holds an ERROR token, at the parser
    when [parse_tokens] returns no program, at the type checker when
    [type_check_program] rejects the program, at the code generator when
    it produces no text; the result then holds exactly one failure
    record, that of this phase, and there is no output.  Otherwise the
    chain succeeds without failure record and [output_code] is the text
    that the code generator produced for the tree as the type checker
    annotated it. *)
Theorem compile_runs_phases (uninit_msg : string) (source : string)
  (cfg : CompilerConfig) :
  exists c,
    compile uninit_msg source cfg = Some c
    /\ match lex_source (strdup source) with
       | None => False
       | Some toks =>
           match first_error_token toks with
           | Some _ => stopped_at c "Lexer"
           | None =>
               match parse_tokens toks with
               | Parsed (Some program) _ =>
                   match type_check_program program with
                   | (true, _, typed) =>
                       match codegen_event_generate (Some cfg) typed with
                       | Some (Some out) =>
                           chain_result c = mkChainResult true None 0
                           /\ output_code c = Some out
                       | _ => stopped_at c "CodeGen"
                       end
                   | (false, _, _) => stopped_at c "TypeChecker"
                   end
               | Parsed None _ => stopped_at c "Parser"
               | ParseOutOfFuel | ParseUndefined => False
               end
           end
       end.
Proof.
  unfold compile.
  cbn [heap_alloc empty_heap next_address cells].
  set (ch := compiler_chain _).
  cbv -[compiler_lexer_event compiler_parser_event compiler_type_checker_event
        compiler_codegen_event] in ch.
  subst ch. cbv iota beta.
  set (r := event_context_set_with_cleanup _ _ _ _ _).
  cbv in r. subst r. cbv iota beta.
  rewrite (ChainProps.execute_plain (fun _ => true) no_garbage (fun _ => eq_refl));
    [| reflexivity | constructor | discriminate
     | cbv; discriminate ].
  cbn [with_context events context fault_tolerance stops_on_failure negb orb].
  eexists. split; [reflexivity|].
  destruct (lex_source (strdup source)) as [toks|] eqn:E1;
    [|exact (LexerProps.lex_source_returns _ E1)].
  destruct (first_error_token toks) as [t|] eqn:E2.
  { run_with ltac:(unfold compiler_lexer_event at 1; crunch;
                   rewrite E1; crunch; rewrite E2; crunch).
    stopped. }
  destruct (parse_tokens toks) as [[program|] pmsg| |] eqn:E3;
    [| |exact (ParserTotal.parse_tokens_returns _ E3)
     |exact (ParserTotal.parse_tokens_defined _
               (ParseFailure.shaped_identifiers_named _
                  (TokenShape.lex_source_tokens_shaped _ _ E1)) E3)].
  2:{ run_with ltac:(unfold compiler_lexer_event at 1; crunch;
                     rewrite E1; crunch; rewrite E2; crunch;
                     unfold compiler_parser_event at 1; crunch;
                     rewrite E3; crunch).
      stopped. }
  destruct (type_check_program program) as [[[|] tmsg] typed] eqn:E4.
  2:{ run_with ltac:(unfold compiler_lexer_event at 1; crunch;
                     rewrite E1; crunch; rewrite E2; crunch;
                     unfold compiler_parser_event at 1; crunch;
                     rewrite E3; crunch;
                     unfold compiler_type_checker_event at 1; crunch;
                     rewrite E4; crunch).
      stopped. }
  destruct (codegen_event_generate (Some cfg) typed) as [[out|]|] eqn:E5.
  2,3: run_with ltac:(unfold compiler_lexer_event at 1; crunch;
                      rewrite E1; crunch; rewrite E2; crunch;
                      unfold compiler_parser_event at 1; crunch;
                      rewrite E3; crunch;
                      unfold compiler_type_checker_event at 1; crunch;
                      rewrite E4; crunch;
                      unfold compiler_codegen_event at 1; crunch;
                      rewrite E5; crunch); stopped.
  run_with ltac:(unfold compiler_lexer_event at 1; crunch;
                 rewrite E1; crunch; rewrite E2; crunch;
                 unfold compiler_parser_event at 1; crunch;
                 rewrite E3; crunch;
                 unfold compiler_type_checker_event at 1; crunch;
                 rewrite E4; crunch;
                 unfold compiler_codegen_event at 1; crunch;
                 rewrite E5; crunch).
  cbv beta iota zeta delta [failed List.filter fst snd].
  repeat change (success event_result_success) with true.
  cbn [negb orb List.length List.map chain_result output_code cr_success
       cr_failures cr_failure_count Z.of_nat with_context context].
  split; [reflexivity|]. crunch. reflexivity.
Qed.

End Pipeline.

(* ------------------------------------------------------------------ *)
(** * Clearing a context *)

Module ClearProps.
Import CStr EC ECProps.
Local Open Scope Z_scope.

(** X30: [event_context_clear] gives back what [event_context_remove]
    keeps: it empties the context and sets the memory counter to the
    size of the context and of its array, whatever the counter was.  A
    set with a well-formed key then succeeds when the allocations do,
    also on a context whose counter stood at
    [EVENTCHAINS_MAX_CONTEXT_MEMORY], and leaves this one entry. *)
Theorem clear_then_set (context : EventContext) (k : string) (v cl : ptr) :
  ctx_wf context ->
  key_well_formed k ->
  cl = NULL \/ is_valid_function_pointer cl = true ->
  let cleared := fst (event_context_clear context) in
  event_context_count cleared = 0
  /\ event_context_memory_usage cleared
     = sizeof_EventContext + capacity context * sizeof_ContextEntry
  /\ (forall k', event_context_get cleared k' = (EC_ERROR_NOT_FOUND, None))
  /\ event_context_set_with_cleanup all_ok cleared k v cl
     = (EC_SUCCESS,
        mkEventContext
          [mkContextEntry (strdup k) (mkRefCountedValue v cl 1)]
          (capacity context)
          (sizeof_EventContext + capacity context * sizeof_ContextEntry
           + Z.of_nat (strlen k) + 1 + sizeof_RefCountedValue),
        []).
Proof.
  intros (Hcount & Hcap & Hmem) Hkey Hcl cleared. subst cleared.
  unfold event_context_clear, event_context_count, event_context_memory_usage.
  cbn [fst].
  unfold INITIAL_CAPACITY, EVENTCHAINS_MAX_CONTEXT_ENTRIES in Hcap.
  assert (Hbase : size_t_wrap
                    (sizeof_EventContext
                     + size_t_wrap (capacity context * sizeof_ContextEntry))
                  = sizeof_EventContext + capacity context * sizeof_ContextEntry).
  { unfold sizeof_EventContext, sizeof_ContextEntry.
    rewrite (size_t_wrap_small (capacity context * 16)) by lia.
    apply size_t_wrap_small. lia. }
  rewrite Hbase.
  split; [reflexivity|]. split; [reflexivity|]. split; [reflexivity|].
  unfold event_context_set_with_cleanup.
  rewrite (proj2 (key_check k) Hkey).
  rewrite additional_memory_overhead by exact Hkey.
  pose proof (entry_overhead_bounds k Hkey) as Hov.
  cbn [total_memory_bytes entries capacity].
  unfold sizeof_EventContext, sizeof_ContextEntry in *.
  rewrite !size_t_wrap_small by lia.
  replace (_ >? EVENTCHAINS_MAX_CONTEXT_MEMORY) with false
    by (symmetry; unfold EVENTCHAINS_MAX_CONTEXT_MEMORY;
        rewrite Z.gtb_ltb; apply Z.ltb_ge; lia).
  assert (Hcreate : ref_counted_value_create (value_malloc_ok all_ok) v cl
                    = Some (mkRefCountedValue v cl 1)).
  { unfold ref_counted_value_create. cbn [value_malloc_ok all_ok negb].
    destruct Hcl as [-> | ->]; [reflexivity|].
    now rewrite andb_false_r. }
  rewrite Hcreate.
  unfold find_entry. cbn [entries find_entry_from].
  change (-1 >=? 0) with false. cbv iota.
  unfold ensure_capacity, count. cbn [entries List.length Z.of_nat capacity].
  replace (0 <? capacity context) with true
    by (symmetry; apply Z.ltb_lt; lia).
  cbn [all_ok key_strdup_ok negb entries capacity total_memory_bytes app].
  unfold entry_overhead in *. unfold sizeof_RefCountedValue in *.
  rewrite size_t_wrap_small by lia.
  do 3 f_equal. lia.
Qed.

Lemma clear_then_set_witness :
  let context := mkEventContext [] 8 EVENTCHAINS_MAX_CONTEXT_MEMORY in
  fst (fst (event_context_set_with_cleanup all_ok context "ast" 65536 NULL))
  = EC_ERROR_MEMORY_LIMIT_EXCEEDED
  /\ event_context_set_with_cleanup all_ok (fst (event_context_clear context))
       "ast" 65536 NULL
     = (EC_SUCCESS,
        mkEventContext
          [mkContextEntry "ast" (mkRefCountedValue 65536 NULL 1)] 8 228,
        []).
Proof.
  intros context. split; [reflexivity|].
  assert (Hwf : ctx_wf context) by (repeat split; discriminate).
  assert (Hkey : key_well_formed "ast")
    by (split; cbn; unfold EVENTCHAINS_MAX_KEY_LENGTH; lia).
  exact (proj2 (proj2 (proj2
           (clear_then_set context "ast" 65536 NULL Hwf Hkey
              (or_introl eq_refl))))).
Defined.

End ClearProps.
